(** * UnorderedMap over a shared node list: a shallow embedding

    The development embeds the [List] and [UnorderedMap] class templates of
    the list/stack-allocator header: a doubly linked node list with two
    sentinel nodes, and a hash map that keeps every entry in that single
    list and describes each bucket by a half-open pair of list iterators.

    Nodes live in an explicit heap, iterators are node addresses, and every
    member function is a computation in a state monad over the heap and the
    object it is called on.  Undefined behaviour of the C++ program (null or
    dangling dereference, reading an unconstructed object, indexing the
    bucket vector out of range) and C++ exceptions are outcomes of their
    own. *)

From Stdlib Require Import NArith Lia.
From stdpp Require Import base option list gmap.

Open Scope N_scope.

(** ** Outcomes and the state monad *)

(** What a call can end in besides returning. *)
Inductive ub : Type :=
  | NullDeref        (* dereference of nullptr *)
  | DanglingDeref    (* dereference of a deallocated node *)
  | UninitRead       (* read of a pointer or value that was never constructed *)
  | OutOfBounds.     (* std::vector::operator[] past size() *)

Inductive exn : Type :=
  | out_of_range     (* std::out_of_range("Key not found") *)
  | ctor_failure.    (* whatever the constructor of the entry throws *)

Inductive outcome (S A : Type) : Type :=
  | Ret (a : A) (s : S)       (* normal return with the final state *)
  | Throw (e : exn) (s : S)   (* an exception leaves the call in state s *)
  | Undefined (u : ub)        (* the C++ program has undefined behaviour *)
  | Diverge.                  (* a pointer-chasing loop never ends *)

Arguments Ret {S A} a s.
Arguments Throw {S A} e s.
Arguments Undefined {S A} u.
Arguments Diverge {S A}.

Definition M (S A : Type) : Type := S -> outcome S A.

Definition ret {S A} (a : A) : M S A := fun s => Ret a s.

Definition bind {S A B} (c : M S A) (k : A -> M S B) : M S B :=
  fun s =>
    match c s with
    | Ret a s' => k a s'
    | Throw e s' => Throw e s'
    | Undefined u => Undefined u
    | Diverge => Diverge
    end.

Definition get {S} : M S S := fun s => Ret s s.
Definition put {S} (s : S) : M S unit := fun _ => Ret tt s.
Definition undefined {S A} (u : ub) : M S A := fun _ => Undefined u.
Definition throw {S A} (e : exn) : M S A := fun s => Throw e s.
Definition diverge {S A} : M S A := fun _ => Diverge.

(** The monad is used through stdpp's [x ← c; k] and [c;; k]. *)
#[global] Instance M_ret {S} : MRet (M S) := fun A a => ret a.
#[global] Instance M_bind {S} : MBind (M S) := fun A B k c => bind c k.

(** Run a computation on one component of the state. *)
Definition zoom {S T A} (proj : S -> T) (upd : T -> S -> S) (c : M T A) : M S A :=
  fun s =>
    match c (proj s) with
    | Ret a t => Ret a (upd t s)
    | Throw e t => Throw e (upd t s)
    | Undefined u => Undefined u
    | Diverge => Diverge
    end.

(** ** size_t *)

(** [size_t] is a 64-bit unsigned integer; arithmetic on it wraps. *)
Definition size_t_modulus : N := 2 ^ 64.
Definition wrap (n : N) : N := n mod size_t_modulus.

Section Containers.

Context {Key Value : Type}.

(** The [Hash] and [EqualTo] functors and the value [Value()]. *)
Variable hasher : Key -> N.
Variable key_equal : Key -> Key -> bool.
Variable default_value : Value.

(** ** Memory *)

Definition addr : Type := nat.

(** A [Node<T>*], also the [node_ptr_] of a [ListIterator]: [None] is
    [nullptr]. *)
Definition iterator : Type := option addr.

(** [struct Node { T value; Node* prev; Node* next; }].  The list never runs
    the constructor of [Node]: it allocates raw storage and constructs
    [value] in place.  A link is [None] while it is indeterminate (never
    written) or after [nullptr] was stored in it; the sentinels never get a
    [value]. *)
Record Node : Type := mkNode {
  value : option (Key * Value);
  prev : option addr;
  next : option addr
}.

(** The heap of nodes.  [brk] is the next address the allocator hands out;
    addresses are not reused, as with the [StackAllocator] of the header,
    whose [deallocate] does nothing. *)
Record Mem : Type := mkMem {
  cells : gmap addr Node;
  brk : addr
}.

Definition iter_eqb (a b : iterator) : bool := bool_decide (a = b).

(** [NodeAllocTraits::allocate(alloc, 1)]: raw storage for one node. *)
Definition allocate : M Mem addr :=
  fun m => Ret (brk m) (mkMem (<[brk m := mkNode None None None]> (cells m)) (S (brk m))).

(** [NodeAllocTraits::deallocate(alloc, p, 1)]. *)
Definition deallocate (a : addr) : M Mem unit :=
  fun m => Ret tt (mkMem (delete a (cells m)) (brk m)).

(** [*p] for a node pointer. *)
Definition deref (p : iterator) : M Mem (addr * Node) :=
  fun m =>
    match p with
    | None => Undefined NullDeref
    | Some a =>
        match cells m !! a with
        | Some n => Ret (a, n) m
        | None => Undefined DanglingDeref
        end
    end.

Definition store (a : addr) (n : Node) : M Mem unit :=
  fun m => Ret tt (mkMem (<[a := n]> (cells m)) (brk m)).

(** [p->next] and [p->prev] as rvalues. *)
Definition load_next (p : iterator) : M Mem iterator :=
  an ← deref p;
  match next an.2 with
  | Some q => ret (Some q)
  | None => undefined UninitRead
  end.

Definition load_prev (p : iterator) : M Mem iterator :=
  an ← deref p;
  match prev an.2 with
  | Some q => ret (Some q)
  | None => undefined UninitRead
  end.

(** [p->next = q] and [p->prev = q]. *)
Definition set_next (p q : iterator) : M Mem unit :=
  an ← deref p;
  store an.1 (mkNode (value an.2) (prev an.2) q).

Definition set_prev (p q : iterator) : M Mem unit :=
  an ← deref p;
  store an.1 (mkNode (value an.2) q (next an.2)).

(** [p->value] as an rvalue: the entry must have been constructed. *)
Definition load_value (p : iterator) : M Mem (Key * Value) :=
  an ← deref p;
  match value an.2 with
  | Some kv => ret kv
  | None => undefined UninitRead
  end.

(** What the arguments of an emplace do when the entry is constructed from
    them: they yield the entry, or the constructor throws. *)
Inductive ctor_args : Type :=
  | Constructs (kv : Key * Value)
  | CtorThrows.

(** [NodeAllocTraits::construct(alloc, addressof(p->value), args...)]. *)
Definition construct (a : addr) (args : ctor_args) : M Mem unit :=
  match args with
  | Constructs kv =>
      an ← deref (Some a);
      store a (mkNode (Some kv) (prev an.2) (next an.2))
  | CtorThrows => throw ctor_failure
  end.

(** [NodeAllocTraits::destroy(alloc, addressof(p->value))]. *)
Definition destroy (a : addr) : M Mem unit :=
  an ← deref (Some a);
  store a (mkNode None (prev an.2) (next an.2)).

(** ** List *)

(** The data members of [List]; the allocator object carries no state of
    its own in this model. *)
Record List : Type := mkList {
  head_ : iterator;
  tail_ : iterator;
  size_ : N
}.

Definition LState : Type := Mem * List.

Definition on_mem {T A} (c : M Mem A) : M (Mem * T) A :=
  zoom fst (fun m s => (m, s.2)) c.

Definition this {T} : M (Mem * T) T := fun s => Ret s.2 s.
Definition set_this {T} (t : T) : M (Mem * T) unit := fun s => Ret tt (s.1, t).

(** [explicit List(const Allocator&)]. *)
Definition List_ctor : M Mem List :=
  h ← allocate;
  t ← allocate;
  set_next (Some h) (Some t);;
  set_prev (Some t) (Some h);;
  ret (mkList (Some h) (Some t) 0).

(** [size()], [empty()], [end()], [begin()]. *)
Definition List_size (l : List) : N := size_ l.
Definition List_empty (l : List) : bool := size_ l =? 0.
Definition List_end (l : List) : iterator := tail_ l.

Definition List_begin : M LState iterator :=
  l ← this;
  on_mem (load_next (head_ l)).

(** [List::emplace(pos, args...)]. *)
Definition List_emplace (pos : iterator) (args : ctor_args) : M LState iterator :=
  newNode ← on_mem allocate;
  on_mem (construct newNode args);;
  let next_node := pos in
  prev_node ← on_mem (load_prev next_node);
  on_mem (set_next (Some newNode) next_node);;
  on_mem (set_prev (Some newNode) prev_node);;
  on_mem (set_next prev_node (Some newNode));;
  on_mem (set_prev next_node (Some newNode));;
  l ← this;
  set_this (mkList (head_ l) (tail_ l) (wrap (size_ l + 1)));;
  ret (Some newNode).

(** [List::erase(pos)]. *)
Definition List_erase (pos : iterator) : M LState iterator :=
  l ← this;
  if iter_eqb pos (List_end l) then ret (List_end l)
  else
    let node_to_erase := pos in
    prev_node ← on_mem (load_prev node_to_erase);
    next_node ← on_mem (load_next node_to_erase);
    on_mem (set_next prev_node next_node);;
    on_mem (set_prev next_node prev_node);;
    an ← on_mem (deref node_to_erase);
    on_mem (destroy an.1);;
    on_mem (deallocate an.1);;
    set_this (mkList (head_ l) (tail_ l) (wrap (size_ l + size_t_modulus - 1)));;
    ret next_node.

(** [List::move_node(from, to)]: every load and store in program order. *)
Definition List_move_node (from to : iterator) : M LState iterator :=
  let node_to_move := from in
  let target_pos := to in
  p1 ← on_mem (load_prev node_to_move);
  n1 ← on_mem (load_next node_to_move);
  on_mem (set_next p1 n1);;
  n2 ← on_mem (load_next node_to_move);
  p2 ← on_mem (load_prev node_to_move);
  on_mem (set_prev n2 p2);;
  prev_node ← on_mem (load_prev target_pos);
  on_mem (set_next prev_node node_to_move);;
  on_mem (set_prev target_pos node_to_move);;
  on_mem (set_prev node_to_move prev_node);;
  on_mem (set_next node_to_move target_pos);;
  ret node_to_move.

(** The body of the loop of [List::clear()], with the number of iterations
    bounded by [fuel]. *)
Fixpoint List_clear_loop (fuel : nat) (current tail : iterator) : M Mem unit :=
  if iter_eqb current tail then ret tt
  else
    match fuel with
    | O => diverge
    | S fuel' =>
        next_node ← load_next current;
        an ← deref current;
        destroy an.1;;
        deallocate an.1;;
        List_clear_loop fuel' next_node tail
    end.

(** [List::clear()]. *)
Definition List_clear : M LState unit :=
  l ← this;
  match head_ l, tail_ l with
  | Some _, Some _ =>
      current ← on_mem (load_next (head_ l));
      m ← on_mem get;
      on_mem (List_clear_loop (S (size (cells m))) current (tail_ l));;
      on_mem (set_next (head_ l) (tail_ l));;
      on_mem (set_prev (tail_ l) (head_ l));;
      set_this (mkList (head_ l) (tail_ l) 0)
  | _, _ => set_this (mkList (head_ l) (tail_ l) 0)
  end.

(** [List(List&& other)]: the new list, and what is left in [other]. *)
Definition List_move_ctor (other : List) : List * List :=
  (mkList (head_ other) (tail_ other) (size_ other), mkList None None 0).

(** ** UnorderedMap *)

(** [struct Bucket { iterator begin; iterator end; }]. *)
Record Bucket : Type := mkBucket {
  bucket_begin : iterator;
  bucket_end : iterator
}.

(** [Bucket()]: both iterators value-initialised, [node_ptr_ = nullptr]. *)
Definition Bucket_default : Bucket := mkBucket None None.

(** The data members of [UnorderedMap] that carry state: [elements] and
    [buckets].  [hasher], [key_equal] and [alloc] are the section
    variables. *)
Record UnorderedMap : Type := mkMap {
  elements : List;
  buckets : list Bucket
}.

Definition MState : Type := Mem * UnorderedMap.

Definition on_elements {A} (c : M LState A) : M MState A :=
  zoom (fun s : MState => (s.1, elements s.2))
       (fun (t : LState) (s : MState) => (t.1, mkMap t.2 (buckets s.2))) c.

(** Run a pointer-chasing loop with as many iterations as there are live
    nodes, plus one: more iterations than that visit some node twice with
    the heap unchanged, so the C++ loop does not end either. *)
Definition with_fuel {A} (loop : nat -> M Mem A) : M Mem A :=
  fun m => loop (S (size (cells m))) m.

(** [size()], [empty()], [bucket_count()], [end()], [begin()]. *)
Definition map_size (m : UnorderedMap) : N := List_size (elements m).
Definition map_empty (m : UnorderedMap) : bool := List_empty (elements m).
Definition bucket_count (m : UnorderedMap) : N := N.of_nat (length (buckets m)).
Definition map_end (m : UnorderedMap) : iterator := List_end (elements m).
Definition map_begin : M MState iterator := on_elements List_begin.

(** [get_bucket_index(key)]. *)
Definition get_bucket_index (m : UnorderedMap) (key : Key) : N :=
  match buckets m with
  | [] => 0
  | _ :: _ => hasher key mod bucket_count m
  end.

(** [static_cast<double>(n)] is [n] itself for [n] below 2^53. *)
Definition exact_as_double (n : N) : Prop := n < 2 ^ 53.

(** [load_factor() > max_load_factor()].  The source computes
    [static_cast<double>(size()) / buckets.size() > 1.0].  When [size()]
    is exact as a double the comparison is true exactly when
    [size() > buckets.size()]: a bucket count below 2^53 is exact too and
    the quotient of two such integers is above 1.0 by more than the
    rounding error, a larger bucket count rounds to at least 2^53, with no
    bucket and a positive size the quotient is +inf, and 0/0 is a NaN,
    which compares false. *)
Definition load_factor_exceeds (m : UnorderedMap) : bool :=
  bucket_count m <? map_size m.

(** [buckets[i]] as an rvalue, and the assignments to its two fields.
    [std::vector::operator[]] does not check the index. *)
Definition bucket_at (i : N) : M MState Bucket :=
  m ← this;
  match buckets m !! N.to_nat i with
  | Some b => mret b
  | None => undefined OutOfBounds
  end.

Definition set_bucket_begin (i : N) (it : iterator) : M MState unit :=
  b ← bucket_at i;
  m ← this;
  set_this (mkMap (elements m) (<[N.to_nat i := mkBucket it (bucket_end b)]> (buckets m))).

Definition set_bucket_end (i : N) (it : iterator) : M MState unit :=
  b ← bucket_at i;
  m ← this;
  set_this (mkMap (elements m) (<[N.to_nat i := mkBucket (bucket_begin b) it]> (buckets m))).

(** The loop that the constructors, [clear] and [rehash] share:
    [for i: buckets[i].begin = elements.end(); buckets[i].end = elements.end();] *)
Definition reset_buckets (last : iterator) (bs : list Bucket) : list Bucket :=
  (fun _ => mkBucket last last) <$> bs.

(** [explicit UnorderedMap(size_t bucket_count, ...)]. *)
Definition UnorderedMap_ctor (n : N) : M Mem UnorderedMap :=
  l ← List_ctor;
  mret (mkMap l (reset_buckets (List_end l) (replicate (N.to_nat n) Bucket_default))).

(** [INIT_BUCKET_SIZE] and the default constructor. *)
Definition INIT_BUCKET_SIZE : N := 16.
Definition UnorderedMap_default_ctor : M Mem UnorderedMap :=
  UnorderedMap_ctor INIT_BUCKET_SIZE.

(** [UnorderedMap(UnorderedMap&& other)], run on the heap and [other]: it
    returns the new map and leaves [other] moved from.  A moved-from
    [std::vector] is empty. *)
Definition UnorderedMap_move_ctor : M MState UnorderedMap :=
  other ← this;
  let ls := List_move_ctor (elements other) in
  set_this (mkMap ls.2 []);;
  mret (mkMap ls.1 (buckets other)).

(** [clear()]. *)
Definition clear : M MState unit :=
  on_elements List_clear;;
  m ← this;
  set_this (mkMap (elements m) (reset_buckets (map_end m) (buckets m))).

(** The loop [for (it = b.begin; it != b.end; ++it) if (key_equal(it->first,
    key)) return it;] of [find], [insert] and [emplace]: [Some it] when it
    returns from inside, [None] when it runs to [b.end]. *)
Fixpoint bucket_scan (key : Key) (last : iterator) (fuel : nat) (it : iterator)
    : M Mem (option iterator) :=
  if iter_eqb it last then mret None
  else
    match fuel with
    | O => diverge
    | S fuel' =>
        kv ← load_value it;
        if key_equal kv.1 key then mret (Some it)
        else
          it' ← load_next it;
          bucket_scan key last fuel' it'
    end.

(** [find(key)]. *)
Definition find (key : Key) : M MState iterator :=
  m ← this;
  let index := get_bucket_index m key in
  b ← bucket_at index;
  r ← on_mem (with_fuel (fun fuel => bucket_scan key (bucket_end b) fuel (bucket_begin b)));
  match r with
  | Some it => mret it
  | None => mret (map_end m)
  end.

(** The first loop of [rehash]: walk the list and append every iterator to
    the group of its new bucket. *)
Fixpoint rehash_collect (new_size : N) (last : iterator) (fuel : nat) (it : iterator)
    (bucket_iters : list (list iterator)) : M Mem (list (list iterator)) :=
  if iter_eqb it last then mret bucket_iters
  else
    match fuel with
    | O => diverge
    | S fuel' =>
        kv ← load_value it;
        let new_index := hasher kv.1 mod new_size in
        match bucket_iters !! N.to_nat new_index with
        | None => undefined OutOfBounds
        | Some _ =>
            it' ← load_next it;
            rehash_collect new_size last fuel' it'
              (alter (fun group => group ++ [it]) (N.to_nat new_index) bucket_iters)
        end
    end.

(** The inner loop of the second pass of [rehash], over one group. *)
Fixpoint rehash_place (group : list iterator) (current_pos : iterator) : M LState iterator :=
  match group with
  | [] => mret current_pos
  | old_it :: group' =>
      moved ← (if iter_eqb old_it current_pos then mret current_pos
               else List_move_node old_it current_pos);
      current_pos' ← on_mem (load_next moved);
      rehash_place group' current_pos'
  end.

(** The outer loop of the second pass, over the bucket indices. *)
Fixpoint rehash_relink (bucket_index : N) (bucket_iters : list (list iterator))
    (current_pos : iterator) : M MState unit :=
  match bucket_iters with
  | [] => mret tt
  | group :: bucket_iters' =>
      match group with
      | [] => rehash_relink (bucket_index + 1) bucket_iters' current_pos
      | _ :: _ =>
          set_bucket_begin bucket_index current_pos;;
          current_pos' ← on_elements (rehash_place group current_pos);
          set_bucket_end bucket_index current_pos';;
          rehash_relink (bucket_index + 1) bucket_iters' current_pos'
      end
  end.

(** [rehash(new_size)].  [min_required_buckets] is
    [static_cast<double>(size()) / 1.0] converted back, which is [size()]
    when [size()] is exact as a double. *)
Definition rehash (new_size : N) : M MState unit :=
  m ← this;
  let min_required_buckets := map_size m in
  let new_size := if new_size <? min_required_buckets then min_required_buckets else new_size in
  if (new_size =? bucket_count m) && negb (map_empty m) then mret tt
  else
    set_this (mkMap (elements m)
                (reset_buckets (map_end m) (replicate (N.to_nat new_size) Bucket_default)));;
    if map_empty m then mret tt
    else
      first ← on_elements List_begin;
      bucket_iters ← on_mem (with_fuel (fun fuel =>
        rehash_collect new_size (map_end m) fuel first (replicate (N.to_nat new_size) [])));
      current_pos ← on_elements List_begin;
      rehash_relink 0 bucket_iters current_pos.

(** [check_rehash()]. *)
Definition check_rehash : M MState unit :=
  m ← this;
  if load_factor_exceeds m then rehash (wrap (bucket_count m * 2)) else mret tt.

(** [reserve(count)]. *)
Definition reserve (count : N) : M MState unit :=
  m ← this;
  let new_bucket_count := count in
  let new_bucket_count :=
    if (new_bucket_count =? 0) && (0 <? count) then 1 else new_bucket_count in
  if bucket_count m <? new_bucket_count then rehash new_bucket_count else mret tt.

(** The block that [emplace] and both [insert] overloads run when the
    target bucket is empty and the new node [it] sits at the tail:
    the bucket becomes [[it, next(it))], and the bucket of the preceding
    entry gets [it] as its end if it still ended at the sentinel. *)
Definition open_bucket (index : N) (it : iterator) : M MState unit :=
  set_bucket_begin index it;;
  it_next ← on_mem (load_next it);
  set_bucket_end index it_next;;
  first ← on_elements List_begin;
  if iter_eqb it first then mret tt
  else
    prev_node ← on_mem (load_prev it);
    pkv ← on_mem (load_value prev_node);
    m ← this;
    let prev_index := get_bucket_index m pkv.1 in
    if prev_index =? index then mret tt
    else
      pb ← bucket_at prev_index;
      if iter_eqb (bucket_end pb) (map_end m) then set_bucket_end prev_index it
      else mret tt.

(** [emplace(args...)]. *)
Definition emplace (args : ctor_args) : M MState (iterator * bool) :=
  check_rehash;;
  m ← this;
  temp_it ← on_elements (List_emplace (map_end m) args);
  nkv ← on_mem (load_value temp_it);
  let newKey := nkv.1 in
  let index := get_bucket_index m newKey in
  b ← bucket_at index;
  r ← on_mem (with_fuel (fun fuel => bucket_scan newKey (bucket_end b) fuel (bucket_begin b)));
  match r with
  | Some it =>
      on_elements (List_erase temp_it);;
      mret (it, false)
  | None =>
      if iter_eqb (bucket_begin b) (map_end m) then
        open_bucket index temp_it;;
        mret (temp_it, true)
      else
        temp_it' ← on_elements (List_move_node temp_it (bucket_end b));
        mret (temp_it', true)
  end.

(** [insert(const NodeType&)]; [insert(NodeType&&)] has the same body. *)
Definition insert (v : Key * Value) : M MState (iterator * bool) :=
  check_rehash;;
  m ← this;
  let index := get_bucket_index m v.1 in
  b ← bucket_at index;
  r ← on_mem (with_fuel (fun fuel => bucket_scan v.1 (bucket_end b) fuel (bucket_begin b)));
  match r with
  | Some it => mret (it, false)
  | None =>
      if iter_eqb (bucket_begin b) (map_end m) then
        new_it ← on_elements (List_emplace (map_end m) (Constructs v));
        open_bucket index new_it;;
        mret (new_it, true)
      else
        new_it ← on_elements (List_emplace (bucket_end b) (Constructs v));
        mret (new_it, true)
  end.

(** [erase(const_iterator pos)]. *)
Definition erase (pos : iterator) : M MState iterator :=
  m ← this;
  if iter_eqb pos (map_end m) then mret (map_end m)
  else
    kv ← on_mem (load_value pos);
    let index := get_bucket_index m kv.1 in
    bucket ← bucket_at index;
    let it := pos in
    it_next ← on_mem (load_next it);
    next_it ← on_elements (List_erase it);
    (if iter_eqb (bucket_begin bucket) it && iter_eqb (bucket_end bucket) it_next then
       set_bucket_end index (map_end m);;
       set_bucket_begin index (map_end m)
     else
       (if iter_eqb (bucket_begin bucket) it then set_bucket_begin index next_it else mret tt);;
       (if iter_eqb (bucket_end bucket) it_next then set_bucket_end index next_it else mret tt));;
    mret next_it.

(** [operator[](const Key&)]: the node the returned reference points into,
    and the value found there. *)
Definition subscript (key : Key) : M MState (iterator * Value) :=
  r ← emplace (Constructs (key, default_value));
  kv ← on_mem (load_value r.1);
  mret (r.1, kv.2).

(** [at(const Key&)]. *)
Definition at_ (key : Key) : M MState Value :=
  it ← find key;
  m ← this;
  if iter_eqb it (map_end m) then throw out_of_range
  else
    kv ← on_mem (load_value it);
    mret kv.2.

(** The heap after [allocate] has handed out one node that nobody frees
    or links. *)
Definition leak (m : Mem) : Mem :=
  mkMem (<[brk m := mkNode None None None]> (cells m)) (S (brk m)).

(** A computation that never assigns to the data members of the object it
    runs on. *)
Definition keeps_this {T A} (c : M (Mem * T) A) : Prop :=
  forall s a s', c s = Ret a s' -> s'.2 = s.2.

(** A map computation that leaves the list object and the number of
    buckets as they are. *)
Definition keeps_shape {A} (c : M MState A) : Prop :=
  forall s a s', c s = Ret a s' ->
    elements s'.2 = elements s.2 /\ length (buckets s'.2) = length (buckets s.2).

(** A map computation that leaves the number of buckets as it is. *)
Definition keeps_bucket_count {A} (c : M MState A) : Prop :=
  forall s a s', c s = Ret a s' -> length (buckets s'.2) = length (buckets s.2).

(** ** Well-formed lists and usable maps *)

(** The fields of the node at an address, when it is live. *)
Definition nxt (h : gmap addr Node) (a : addr) : option addr := n ← h !! a; next n.
Definition prv (h : gmap addr Node) (a : addr) : option addr := n ← h !! a; prev n.
Definition val (h : gmap addr Node) (a : addr) : option (Key * Value) := n ← h !! a; value n.

(** What the stores [p->next = q] and [p->prev = q] do to a node. *)
Definition with_next (q : option addr) (n : Node) : Node := mkNode (value n) (prev n) q.
Definition with_prev (q : option addr) (n : Node) : Node := mkNode (value n) q (next n).

(** Consecutive nodes of [l] point at each other. *)
Fixpoint linked (h : gmap addr Node) (l : list addr) : Prop :=
  match l with
  | [] => True
  | a :: l' =>
      match l' with
      | [] => True
      | b :: _ => nxt h a = Some b /\ prv h b = Some a
      end /\ linked h l'
  end.

(** The list object and the heap represent the nodes [xs], in this order,
    between the sentinels [hd] and [tl]: the nodes are distinct and linked
    both ways, every node of [xs] holds a constructed entry, and the
    allocator has handed out every live address. *)
Definition dll (s : LState) (hd tl : addr) (xs : list addr) : Prop :=
  head_ s.2 = Some hd /\ tail_ s.2 = Some tl /\
  NoDup (hd :: xs ++ [tl]) /\
  linked (cells s.1) (hd :: xs ++ [tl]) /\
  (forall a, a ∈ xs -> is_Some (val (cells s.1) a)) /\
  (forall a, is_Some (cells s.1 !! a) -> (a < brk s.1)%nat).

(** [x] is at or before [y] in [l]. *)
Definition before (l : list addr) (x y : addr) : Prop :=
  exists i j, (i <= j)%nat /\ l !! i = Some x /\ l !! j = Some y.

(** Both iterators of the bucket point into the list, [begin] not after
    [end]: a scan of the range ends, and a node can be put before [end]. *)
Definition bucket_ok (chain : list addr) (b : Bucket) : Prop :=
  exists x y, bucket_begin b = Some x /\ bucket_end b = Some y /\ before chain x y.

(** The node [f] lies in the range [[begin, end)] of the bucket [b]: at a
    position of the list from that of [begin] on and in front of that of
    [end]. *)
Definition in_range (chain : list addr) (b : Bucket) (f : addr) : Prop :=
  exists i k j : nat,
    (i <= k < j)%nat /\
    chain !! i = bucket_begin b /\ chain !! k = Some f /\ chain !! j = bucket_end b.

(** The states in which [insert], [emplace] and [rehash] are defined: the
    list is well formed and [size_] is its length, there is a bucket, every
    bucket passes [bucket_ok], and the bucket an entry hashes to does not
    begin at the tail sentinel.  This is weaker than the partition
    invariant: it does not say that a bucket's range holds its entries. *)
Definition usable (s : MState) (hd tl : addr) (xs : list addr) : Prop :=
  dll (s.1, elements s.2) hd tl xs /\
  size_ (elements s.2) = N.of_nat (length xs) /\
  buckets s.2 <> [] /\
  Forall (bucket_ok (xs ++ [tl])) (buckets s.2) /\
  (forall a kv, a ∈ xs -> val (cells s.1) a = Some kv ->
     exists b, buckets s.2 !! N.to_nat (hasher kv.1 mod bucket_count s.2) = Some b /\
               bucket_begin b <> Some tl).

(** The bucket a node goes to in a [rehash] to [n] buckets. *)
Definition node_index (h : gmap addr Node) (n : N) (a : addr) : nat :=
  match val h a with
  | Some kv => N.to_nat (hasher kv.1 mod n)
  | None => 0
  end.

(** [bucket_iters[idx a].push_back(a)], and the first loop of [rehash] as
    a fold over the nodes. *)
Definition add_to_group (idx : addr -> nat) (acc : list (list iterator)) (a : addr)
    : list (list iterator) :=
  alter (fun group => group ++ [Some a]) (idx a) acc.

Definition groups_of (idx : addr -> nat) (l : list addr) (acc : list (list iterator))
    : list (list iterator) :=
  foldl (add_to_group idx) acc l.

(** Group [j] of [G] holds nodes of bucket [k + j] only. *)
Definition grouped (idx : addr -> nat) (k : nat) (G : list (list iterator)) : Prop :=
  forall j g it, G !! j = Some g -> it ∈ g -> exists a, it = Some a /\ idx a = (k + j)%nat.

(** What the second pass of [rehash] keeps true of every bucket while the
    nodes [U] are still to be placed: the bucket is untouched, or it passes
    [bucket_ok] with iterators that are not among [U]. *)
Definition bucket_inv (chain U : list addr) (tl : addr) (b : Bucket) : Prop :=
  exists x y, bucket_begin b = Some x /\ bucket_end b = Some y /\ before chain x y /\
    ((x = tl /\ y = tl) \/ (x ∉ U /\ y ∉ U)).

(** The bucket count [check_rehash] leaves behind. *)
Definition grown (bc size : N) : N :=
  if bc <? size then N.max (wrap (bc * 2)) size else bc.

(** A heap in which every live address was handed out by the allocator. *)
Definition mem_ok (m : Mem) : Prop :=
  forall a, is_Some (cells m !! a) -> (a < brk m)%nat.

(** [insert(InputIt first, InputIt last)]. *)
Fixpoint insert_range (vs : list (Key * Value)) : M MState unit :=
  match vs with
  | [] => mret tt
  | v :: vs' => insert v;; insert_range vs'
  end.

(** No key is equal, for [key_equal], to one that comes later. *)
Fixpoint distinct_keys (ks : list Key) : Prop :=
  match ks with
  | [] => True
  | k :: ks' => Forall (fun k' => key_equal k k' = false) ks' /\ distinct_keys ks'
  end.

(** The bucket count after [count] more insertions of new keys into a map
    of [size] entries and [bc] buckets. *)
Fixpoint bucket_count_after (bc : N) (size count : nat) : N :=
  match count with
  | O => bc
  | S count' => bucket_count_after (grown bc (N.of_nat size)) (S size) count'
  end.

(** ** The bucket partition invariant *)

(** The nodes met when walking [next] from [it] up to, not including,
    [last]; [None] when the walk leaves the live nodes first. *)
Fixpoint range_nodes (h : gmap addr Node) (last : iterator) (fuel : nat) (it : iterator)
    : option (list addr) :=
  if iter_eqb it last then Some []
  else
    match fuel with
    | O => None
    | S fuel' =>
        a ← it;
        n ← h !! a;
        b ← next n;
        (a ::.) <$> range_nodes h last fuel' (Some b)
    end.

(** The nodes of the whole list, between the sentinels. *)
Definition list_nodes (s : MState) : option (list addr) :=
  a ← head_ (elements s.2);
  n ← cells s.1 !! a;
  b ← next n;
  range_nodes (cells s.1) (tail_ (elements s.2)) (S (size (cells s.1))) (Some b).

(** The nodes of the range [[begin, end)] of a bucket. *)
Definition bucket_nodes (s : MState) (b : Bucket) : option (list addr) :=
  range_nodes (cells s.1) (bucket_end b) (S (size (cells s.1))) (bucket_begin b).

Definition key_at (s : MState) (a : addr) : option Key :=
  n ← cells s.1 !! a;
  kv ← value n;
  Some kv.1.

(** Every bucket descriptor denotes a range of the list, the ranges taken
    in ascending bucket index make up the nodes of the list, each exactly
    once, and the entries in the range of bucket [i] hash to [i]. *)
Definition partition_invariant (s : MState) : Prop :=
  ∃ (all : list addr) (ranges : list (list addr)),
    list_nodes s = Some all ∧
    Forall2 (fun b r => bucket_nodes s b = Some r) (buckets s.2) ranges ∧
    concat ranges ≡ₚ all ∧
    NoDup all ∧
    ∀ (i : nat) (r : list addr) (a : addr),
      ranges !! i = Some r → a ∈ r →
      ∃ k, key_at s a = Some k ∧ hasher k mod bucket_count s.2 = N.of_nat i.

(** ** More of [List] *)

(** [insert(pos, value)]. *)
Definition List_insert (pos : iterator) (v : Key * Value) : M LState iterator :=
  List_emplace pos (Constructs v).

(** [push_back(value)] and [push_front(value)]. *)
Definition List_push_back (v : Key * Value) : M LState unit :=
  l ← this;
  List_emplace (List_end l) (Constructs v);;
  mret tt.

Definition List_push_front (v : Key * Value) : M LState unit :=
  first ← List_begin;
  List_emplace first (Constructs v);;
  mret tt.

(** [pop_back()], which is [erase(std::prev(end()))], and [pop_front()]. *)
Definition List_pop_back : M LState unit :=
  l ← this;
  last ← on_mem (load_prev (List_end l));
  List_erase last;;
  mret tt.

Definition List_pop_front : M LState unit :=
  first ← List_begin;
  List_erase first;;
  mret tt.

(** [erase(first, last)]: [while (first != last) first = erase(first);]. *)
Fixpoint List_erase_range_loop (fuel : nat) (first last : iterator) : M LState iterator :=
  if iter_eqb first last then mret last
  else
    match fuel with
    | O => diverge
    | S fuel' =>
        first' ← List_erase first;
        List_erase_range_loop fuel' first' last
    end.

Definition List_erase_range (first last : iterator) : M LState iterator :=
  m ← on_mem get;
  List_erase_range_loop (S (size (cells m))) first last.

(** [~List()]. *)
Definition List_dtor : M LState unit :=
  l ← this;
  match head_ l, tail_ l with
  | Some h, Some t =>
      List_clear;;
      on_mem (deallocate h);;
      on_mem (deallocate t)
  | _, _ => mret tt
  end.

(** [operator=(List&& other)] for [this != &other], run on [*this]: it
    returns what is left in [other]. *)
Definition List_move_assign (other : List) : M LState List :=
  l ← this;
  match head_ l, tail_ l with
  | Some h, Some t =>
      List_clear;;
      on_mem (deallocate h);;
      on_mem (deallocate t)
  | _, _ => mret tt
  end;;
  set_this (mkList (head_ other) (tail_ other) (size_ other));;
  mret (mkList None None 0).

(** Run a member function of the list object [l], which lives outside the
    heap, and return the object with the result. *)
Definition run_on {A} (l : List) (c : M LState A) : M Mem (A * List) :=
  fun m =>
    match c (m, l) with
    | Ret a s => Ret (a, s.2) s.1
    | Throw e s => Throw e s.1
    | Undefined u => Undefined u
    | Diverge => Diverge
    end.

(** The loop [for (const auto& val : other) push_back(val);] of the copy
    constructor, run on the new list. *)
Fixpoint List_copy_loop (fuel : nat) (it last : iterator) : M LState unit :=
  if iter_eqb it last then mret tt
  else
    match fuel with
    | O => diverge
    | S fuel' =>
        v ← on_mem (load_value it);
        List_push_back v;;
        it' ← on_mem (load_next it);
        List_copy_loop fuel' it' last
    end.

(** [List(const List& other)]. *)
Definition List_copy_ctor (other : List) : M Mem List :=
  l ← List_ctor;
  r ← run_on l (first ← on_mem (load_next (head_ other));
                m ← on_mem get;
                List_copy_loop (S (size (cells m))) first (tail_ other));
  mret r.2.

(** The list object and the heap represent the values [vs], held by the
    nodes [xs] in this order, and [size_] is their number, a [size_t]. *)
Definition is_list (s : LState) (hd tl : addr) (xs : list addr)
    (vs : list (Key * Value)) : Prop :=
  dll s hd tl xs /\
  size_ s.2 = N.of_nat (length xs) /\
  N.of_nat (length xs) < size_t_modulus /\
  Forall2 (fun a v => val (cells s.1) a = Some v) xs vs.

(** ** More of [UnorderedMap] *)

(** [operator=(UnorderedMap&& other)] for [this != &other], run on
    [*this]: it returns what is left in [other].  A moved-from
    [std::vector] is empty. *)
Definition UnorderedMap_move_assign (other : UnorderedMap) : M MState UnorderedMap :=
  clear;;
  moved ← on_elements (List_move_assign (elements other));
  m ← this;
  set_this (mkMap (elements m) (buckets other));;
  mret (mkMap moved []).

(** The descriptor [b] of bucket [i] delimits the positions of the list
    whose nodes hash to [i], and both iterators of an empty bucket are the
    end iterator. *)
Definition bucket_range (idx : addr -> nat) (xs : list addr) (tl : addr)
    (i : nat) (b : Bucket) : Prop :=
  exists p q : nat,
    (p <= q <= length xs)%nat /\
    bucket_begin b = (xs ++ [tl]) !! p /\
    bucket_end b = (xs ++ [tl]) !! q /\
    (p = q -> p = length xs) /\
    (forall k a, xs !! k = Some a -> (p <= k < q)%nat <-> idx a = i).

(** The partition invariant by positions: the list is well formed,
    [size_] is its length, there is a bucket, and every bucket holds
    exactly the entries that hash to it, as one range of the list. *)
Definition partitioned (s : MState) (hd tl : addr) (xs : list addr) : Prop :=
  dll (s.1, elements s.2) hd tl xs /\
  size_ (elements s.2) = N.of_nat (length xs) /\
  buckets s.2 <> [] /\
  (forall i b, buckets s.2 !! i = Some b ->
     bucket_range (node_index (cells s.1) (bucket_count s.2)) xs tl i b).

(** Keys that [key_equal] holds equal have the same hash. *)
Definition hash_compatible : Prop :=
  forall k1 k2, key_equal k1 k2 = true -> hasher k1 = hasher k2.

(** [key_equal] is an equivalence relation. *)
Definition key_equivalence : Prop :=
  (forall k, key_equal k k = true) /\
  (forall k1 k2, key_equal k1 k2 = true -> key_equal k2 k1 = true) /\
  (forall k1 k2 k3, key_equal k1 k2 = true -> key_equal k2 k3 = true ->
     key_equal k1 k3 = true).

(** The position of the [k]-th element of a list after an insertion at
    position [n]. *)
Definition shift (n k : nat) : nat := if decide (k < n)%nat then k else S k.

(** The association list a map is compared with: the value of the first
    pair of [vs] whose key is equal to [k]. *)
Fixpoint assoc (k : Key) (vs : list (Key * Value)) : option Value :=
  match vs with
  | [] => None
  | v :: vs' => if key_equal v.1 k then Some v.2 else assoc k vs'
  end.

(** The entries of the map are the first occurrences of the keys of [vs]:
    an entry holds the value [vs] associates with its key, and every key of
    [vs] has an entry. *)
Definition models (s : MState) (xs : list addr) (vs : list (Key * Value)) : Prop :=
  (forall a kv, a ∈ xs -> val (cells s.1) a = Some kv -> assoc kv.1 vs = Some kv.2) /\
  (forall v, v ∈ vs -> exists a kv, a ∈ xs /\ val (cells s.1) a = Some kv /\
                                   key_equal kv.1 v.1 = true).

End Containers.

(** ** StackStorage and StackAllocator *)

(** [StackStorage<N>]: the address of [data], the size [N] of the array and
    [current_pos], as addresses. *)
Record StackStorage : Type := mkStorage {
  data : N;
  capacity : N;
  current_pos : N
}.

(** [remaining_space()]: [N - static_cast<size_t>(current_pos - data)].
    The difference of the pointers is taken with [current_pos] at or
    behind [data]. *)
Definition remaining_space (st : StackStorage) : N :=
  wrap (capacity st + size_t_modulus - wrap (current_pos st - data st)).

(** The first multiple of [al] that is not below [p]. *)
Definition align_up (al p : N) : N := (p + al - 1) / al * al.

(** An alignment is a power of two. *)
Definition power_of_two (al : N) : Prop := exists k, al = 2 ^ k.

(** [std::align(al, size, ptr, space)]: the first address of [size] bytes
    aligned by [al] within the [space] bytes at [ptr], or a null pointer
    when they do not fit. *)
Definition std_align (al size ptr space : N) : option N :=
  let aligned := align_up al ptr in
  if (size <=? space) && (aligned - ptr <=? space - size) then Some aligned else None.

(** [StackAllocator<T, N>::allocate(n)] for a [T] of size [sizeof_T] and
    alignment [alignof_T]: the pointer and the storage after the call, or
    [None] for [std::bad_alloc], which leaves the storage as it was. *)
Definition StackAllocator_allocate (sizeof_T alignof_T n : N) (st : StackStorage)
    : option (N * StackStorage) :=
  let total_size := wrap (sizeof_T * n) in
  let space := remaining_space st in
  let ptr := current_pos st in
  match std_align alignof_T total_size ptr space with
  | None => None
  | Some aligned_ptr =>
      Some (aligned_ptr, mkStorage (data st) (capacity st) (aligned_ptr + total_size))
  end.

(** [deallocate(T*, size_t)] has an empty body. *)
Definition StackAllocator_deallocate (p n : N) (st : StackStorage) : StackStorage := st.

(** [current_pos] points into the array, which lies in the address space. *)
Definition storage_ok (st : StackStorage) : Prop :=
  data st <= current_pos st <= data st + capacity st /\
  data st + capacity st < size_t_modulus.

(** ** Maps from [size_t] to [size_t] under the identity hash

    The instance the scenarios run on: keys and values are numbers,
    [Hash] is the identity (as [std::hash] is on integers in libstdc++ and
    libc++), [EqualTo] is equality and [Value()] is 0. *)
Module Scenario.

Definition state : Type := @MState N N.

Definition hash_id (k : N) : N := k.

Definition insert := @insert N N hash_id N.eqb.
Definition emplace_throwing := @emplace N N hash_id N.eqb CtorThrows.
Definition emplace (k v : N) := @emplace N N hash_id N.eqb (Constructs (k, v)).
Definition find := @find N N hash_id N.eqb.
Definition erase := @erase N N hash_id.
Definition rehash := @rehash N N hash_id.
Definition subscript := @subscript N N hash_id N.eqb 0.
Definition at_ := @at_ N N hash_id N.eqb.
Definition invariant := @partition_invariant N N hash_id.

(** A program: construct a map with [n] buckets in an empty heap, then
    run [c] on it. *)
Definition on_new_map {A} (n : N) (c : M state A) : outcome state A :=
  match @UnorderedMap_ctor N N n (mkMem ∅ 0%nat) with
  | Ret m mem => c (mem, m)
  | Throw e mem => Diverge
  | Undefined u => Undefined u
  | Diverge => Diverge
  end.

(** The state a program ends in, when it returns. *)
Definition final {A} (o : outcome state A) : option state :=
  match o with
  | Ret _ s => Some s
  | _ => None
  end.

(** An [emplace] whose constructor throws gives the strong guarantee in
    [s]: the exception leaves no node allocated and the map as it was. *)
Definition unwinds_cleanly (s : state) : Prop :=
  exists s', emplace_throwing s = Throw ctor_failure s' /\
             cells s'.1 = cells s.1 /\ s'.2 = s.2.

(** [find] treats [s] as an empty map: it returns [end()] for every key
    and changes nothing. *)
Definition finds_nothing (s : state) : Prop :=
  forall k, find k s = Ret (map_end s.2) s.

(** Insert the keys in turn, each with itself as the value. *)
Definition insert_all (keys : list N) : M state unit :=
  @insert_range N N hash_id N.eqb ((fun k => (k, k)) <$> keys).

(** The keys 0, 1, ..., n-1. *)
Definition first_keys (n : nat) : list N := N.of_nat <$> seq 0 n.

End Scenario.

(** ** Lists and maps of numbers to run the operations on *)
Module Sample.

Definition lstate : Type := @LState N N.

(** Push the entries to the back of the list, in turn. *)
Fixpoint push_all (vs : list (N * N)) : M lstate unit :=
  match vs with
  | [] => mret tt
  | v :: vs' => List_push_back v;; push_all vs'
  end.

(** A program: construct a list in an empty heap, then push the entries of
    [vs] to its back. *)
Definition new_list (vs : list (N * N)) : outcome lstate unit :=
  match @List_ctor N N (mkMem ∅ 0%nat) with
  | Ret l mem => push_all vs (mem, l)
  | Throw e mem => Diverge
  | Undefined u => Undefined u
  | Diverge => Diverge
  end.

(** A program: construct a map with [n] buckets in an empty heap, then
    insert the range [vs]. *)
Definition new_map (n : N) (vs : list (N * N)) : outcome Scenario.state unit :=
  Scenario.on_new_map n (@insert_range N N Scenario.hash_id N.eqb vs).

(** A [StackStorage<64>] at address 4096 of which 3 bytes are in use. *)
Definition storage : StackStorage := mkStorage 4096 64 4099.

End Sample.

(** * Properties *)

(** ** Running the monad *)

Section Monad.
Context {S : Type}.

Lemma bind_Ret {A B} (c : M S A) (k : A -> M S B) s b s' :
  (c ≫= k) s = Ret b s' <-> exists a s1, c s = Ret a s1 /\ k a s1 = Ret b s'.
Proof.
  unfold mbind, M_bind, bind. split.
  - destruct (c s) as [a s1| | |]; try discriminate. eauto.
  - by intros (a & s1 & -> & ?).
Qed.

Lemma bind_run {A B} (c : M S A) (k : A -> M S B) s a s1 :
  c s = Ret a s1 -> (c ≫= k) s = k a s1.
Proof. unfold mbind, M_bind, bind. by intros ->. Qed.

Lemma bind_run_eq {A B} (c1 c2 : M S A) (k : A -> M S B) s :
  c1 s = c2 s -> (c1 ≫= k) s = (c2 ≫= k) s.
Proof. unfold mbind, M_bind, bind. by intros ->. Qed.

Lemma bind_run_ext {A B} (c : M S A) (k1 k2 : A -> M S B) s :
  (forall a s1, c s = Ret a s1 -> k1 a s1 = k2 a s1) ->
  (c ≫= k1) s = (c ≫= k2) s.
Proof.
  unfold mbind, M_bind, bind. intros H.
  destruct (c s) as [a s1| | |]; auto.
Qed.

End Monad.

Lemma iter_eqb_refl (a : iterator) : iter_eqb a a = true.
Proof. unfold iter_eqb. by rewrite bool_decide_eq_true. Qed.

(** ** What a computation leaves alone *)

Section Frames.
Context {Key Value : Type}.
Variable hasher : Key -> N.

#[local] Abbreviation Mem := (@Mem Key Value).
#[local] Abbreviation LState := (@LState Key Value).
#[local] Abbreviation MState := (@MState Key Value).

Lemma keeps_this_on_mem {T A} (c : M Mem A) : keeps_this (T:=T) (on_mem c).
Proof.
  intros s a s'. unfold on_mem, zoom. destruct (c s.1); try discriminate.
  by intros [= <- <-].
Qed.

Lemma keeps_this_ret {T A} (a : A) : keeps_this (Key:=Key) (Value:=Value) (T:=T) (mret a).
Proof. by intros s b s' [= <- <-]. Qed.

Lemma keeps_this_this {T} : keeps_this (Key:=Key) (Value:=Value) (T:=T) this.
Proof. by intros s b s' [= <- <-]. Qed.

Lemma keeps_this_bind {T A B} (c : M (Mem * T) A) (k : A -> M (Mem * T) B) :
  keeps_this c -> (forall a, keeps_this (k a)) -> keeps_this (c ≫= k).
Proof.
  intros Hc Hk s b s' (a & s1 & H1 & H2)%bind_Ret.
  rewrite (Hk _ _ _ _ H2). eauto.
Qed.

Lemma keeps_this_begin : keeps_this (List_begin (Key:=Key) (Value:=Value)).
Proof.
  apply keeps_this_bind; [apply keeps_this_this | intros l; apply keeps_this_on_mem].
Qed.

Lemma keeps_this_move_node (from to : iterator) :
  keeps_this (List_move_node (Key:=Key) (Value:=Value) from to).
Proof.
  unfold List_move_node.
  repeat first
    [ apply keeps_this_on_mem | apply keeps_this_ret
    | apply keeps_this_bind; [|intros ?] ].
Qed.

Lemma keeps_this_rehash_place group :
  forall cur, keeps_this (rehash_place (Key:=Key) (Value:=Value) group cur).
Proof.
  induction group as [|old_it group IH]; intros cur; simpl.
  - apply keeps_this_ret.
  - apply keeps_this_bind;
      [|intros moved; apply keeps_this_bind; [apply keeps_this_on_mem|done]].
    destruct (iter_eqb old_it cur); [apply keeps_this_ret | apply keeps_this_move_node].
Qed.

Lemma keeps_shape_ret {A} (a : A) : keeps_shape (Key:=Key) (Value:=Value) (mret a).
Proof. by intros s b s' [= <- <-]. Qed.

Lemma keeps_shape_bind {A B} (c : M MState A) (k : A -> M MState B) :
  keeps_shape c -> (forall a, keeps_shape (k a)) -> keeps_shape (c ≫= k).
Proof.
  intros Hc Hk s b s' (a & s1 & H1 & H2)%bind_Ret.
  destruct (Hk _ _ _ _ H2) as [-> ->]. eauto.
Qed.

Lemma keeps_shape_on_elements {A} (c : M LState A) :
  keeps_this c -> keeps_shape (on_elements c).
Proof.
  intros Hc s a s'. unfold on_elements, zoom.
  destruct (c _) as [a1 t| | |] eqn:E; try discriminate.
  intros [= <- <-]. apply Hc in E. simpl in *. by rewrite E.
Qed.

Lemma keeps_shape_set_bucket_begin i it :
  keeps_shape (set_bucket_begin (Key:=Key) (Value:=Value) i it).
Proof.
  intros s a s'.
  unfold set_bucket_begin, bucket_at, set_this, this, mbind, M_bind, bind, undefined.
  destruct (buckets s.2 !! N.to_nat i); try discriminate.
  intros [= <- <-]. simpl. by rewrite length_insert.
Qed.

Lemma keeps_shape_set_bucket_end i it :
  keeps_shape (set_bucket_end (Key:=Key) (Value:=Value) i it).
Proof.
  intros s a s'.
  unfold set_bucket_end, bucket_at, set_this, this, mbind, M_bind, bind, undefined.
  destruct (buckets s.2 !! N.to_nat i); try discriminate.
  intros [= <- <-]. simpl. by rewrite length_insert.
Qed.

Lemma keeps_shape_rehash_relink bucket_iters :
  forall i cur, keeps_shape (rehash_relink (Key:=Key) (Value:=Value) i bucket_iters cur).
Proof.
  induction bucket_iters as [|group rest IH]; intros i cur; simpl.
  - apply keeps_shape_ret.
  - destruct group as [|g group]; [apply IH|].
    apply keeps_shape_bind; [apply keeps_shape_set_bucket_begin|intros _].
    apply keeps_shape_bind;
      [apply keeps_shape_on_elements, keeps_this_rehash_place|intros cur'].
    apply keeps_shape_bind; [apply keeps_shape_set_bucket_end|intros _]. apply IH.
Qed.

(** A [rehash] that returns has left the list object alone, and the bucket
    count is the requested one, raised to [size()] if that is more. *)
Lemma rehash_shape (n : N) (s s' : MState) :
  rehash hasher n s = Ret tt s' ->
  elements s'.2 = elements s.2 /\ bucket_count s'.2 = N.max n (map_size s.2).
Proof.
  unfold rehash. intros (m & s0 & [= <- <-] & H)%bind_Ret.
  set (n' := if n <? map_size s.2 then map_size s.2 else n) in *.
  assert (Hn' : n' = N.max n (map_size s.2)).
  { unfold n'. destruct (N.ltb_spec n (map_size s.2)); lia. }
  destruct (andb _ _) eqn:Hnoop.
  - injection H as <-. split; [done|].
    apply andb_true_iff in Hnoop as [Heq%N.eqb_eq _]. by rewrite <- Hn', Heq.
  - apply bind_Ret in H as ([] & s1 & [= <-] & H).
    set (s1 := (s.1, mkMap (elements s.2)
                  (reset_buckets (map_end s.2) (replicate (N.to_nat n') Bucket_default)))) in *.
    assert (Hs1 : elements s1.2 = elements s.2 /\ bucket_count s1.2 = n').
    { split; [done|]. unfold s1, bucket_count, reset_buckets. simpl.
      rewrite length_fmap, length_replicate. lia. }
    destruct (map_empty s.2).
    + injection H as <-. by rewrite <- Hn'.
    + apply bind_Ret in H as (first & s2 & H2 & H).
      apply keeps_shape_on_elements in H2 as [He2 Hb2]; [|apply keeps_this_begin].
      apply bind_Ret in H as (bi & s3 & H3 & H).
      apply (keeps_this_on_mem (T:=UnorderedMap)) in H3.
      apply bind_Ret in H as (cur & s4 & H4 & H).
      apply keeps_shape_on_elements in H4 as [He4 Hb4]; [|apply keeps_this_begin].
      apply keeps_shape_rehash_relink in H as [He Hb].
      rewrite He, He4, H3, He2. split; [apply Hs1|].
      unfold bucket_count in *. rewrite Hb, Hb4, H3, Hb2, <- Hn'. apply Hs1.
Qed.

(** After a [rehash] that was asked for at least [size()] buckets, the
    load factor is within bounds and [check_rehash] has nothing to do. *)
Lemma check_rehash_after_rehash (n : N) (s s' : MState) :
  rehash hasher n s = Ret tt s' ->
  load_factor_exceeds s'.2 = false /\ check_rehash hasher s' = Ret tt s'.
Proof.
  intros [He Hb]%rehash_shape.
  assert (Hl : load_factor_exceeds s'.2 = false).
  { unfold load_factor_exceeds, map_size. rewrite He, Hb.
    apply N.ltb_ge. unfold map_size. lia. }
  split; [done|].
  unfold check_rehash, mbind, M_bind, bind, this. by rewrite Hl.
Qed.

Lemma keeps_bucket_count_shape {A} (c : M MState A) :
  keeps_shape c -> keeps_bucket_count c.
Proof. intros Hc s a s' H. by apply Hc in H as [_ ?]. Qed.

Lemma keeps_bucket_count_ret {A} (a : A) :
  keeps_bucket_count (Key:=Key) (Value:=Value) (mret a).
Proof. by intros s b s' [= <- <-]. Qed.

Lemma keeps_bucket_count_this :
  keeps_bucket_count (Key:=Key) (Value:=Value) this.
Proof. by intros s b s' [= <- <-]. Qed.

Lemma keeps_bucket_count_undefined {A} u :
  keeps_bucket_count (Key:=Key) (Value:=Value) (A:=A) (undefined u).
Proof. by intros s b s'. Qed.

Lemma keeps_bucket_count_bind {A B} (c : M MState A) (k : A -> M MState B) :
  keeps_bucket_count c -> (forall a, keeps_bucket_count (k a)) ->
  keeps_bucket_count (c ≫= k).
Proof.
  intros Hc Hk s b s' (a & s1 & H1 & H2)%bind_Ret.
  rewrite (Hk _ _ _ _ H2). eauto.
Qed.

Lemma keeps_bucket_count_on_mem {A} (c : M Mem A) :
  keeps_bucket_count (on_mem c).
Proof. intros s a s' H. by apply keeps_this_on_mem in H as ->. Qed.

Lemma keeps_bucket_count_on_elements {A} (c : M LState A) :
  keeps_bucket_count (on_elements c).
Proof.
  intros s a s'. unfold on_elements, zoom.
  destruct (c _) as [a1 t| | |]; try discriminate. by intros [= <- <-].
Qed.

End Frames.

(** Discharge a [keeps_bucket_count] goal by following the structure of
    the computation. *)
Ltac keeps_bucket_count :=
  repeat first
    [ apply keeps_bucket_count_ret
    | apply keeps_bucket_count_this
    | apply keeps_bucket_count_undefined
    | apply keeps_bucket_count_on_mem
    | apply keeps_bucket_count_on_elements
    | apply keeps_bucket_count_shape, keeps_shape_set_bucket_begin
    | apply keeps_bucket_count_shape, keeps_shape_set_bucket_end
    | apply keeps_bucket_count_bind; [|intros ?]
    | match goal with
      | |- keeps_bucket_count (let _ := _ in _) => cbv zeta
      | |- keeps_bucket_count (if ?b then _ else _) => destruct b
      | |- keeps_bucket_count (match ?x with _ => _ end) => destruct x
      end ].

Lemma keeps_bucket_count_bucket_at {Key Value : Type} i :
  keeps_bucket_count (bucket_at (Key:=Key) (Value:=Value) i).
Proof. unfold bucket_at. keeps_bucket_count. Qed.

Lemma keeps_bucket_count_open_bucket {Key Value : Type} (hasher : Key -> N) i it :
  keeps_bucket_count (open_bucket (Value:=Value) hasher i it).
Proof. unfold open_bucket, bucket_at. keeps_bucket_count. Qed.

(** ** Lists in the heap, and maps on which the operations are defined *)

Lemma bind_assoc {S A B C} (c : M S A) (k1 : A -> M S B) (k2 : B -> M S C) s :
  ((c ≫= k1) ≫= k2) s = (c ≫= (fun a => k1 a ≫= k2)) s.
Proof. unfold mbind, M_bind, bind. by destruct (c s). Qed.

Ltac list_norm := repeat (progress (rewrite <- ?app_assoc; cbn [app])).
Ltac list_norm_in H := repeat (progress (rewrite <- ?app_assoc in H; cbn [app] in H)).

Section ListFacts.
Context {Key Value : Type}.
#[local] Abbreviation heap := (gmap addr (@Node Key Value)).
#[local] Abbreviation Mem := (@Mem Key Value).
Implicit Types (h : heap).

Lemma live_alter (f : @Node Key Value -> Node) a (h : heap) b :
  is_Some (alter f a h !! b) <-> is_Some (h !! b).
Proof.
  rewrite lookup_alter. case_decide; subst; [|done].
  by rewrite fmap_is_Some.
Qed.

Lemma nxt_set_next q a (h : heap) b :
  is_Some (h !! a) ->
  nxt (alter (with_next q) a h) b = if decide (b = a) then q else nxt h b.
Proof.
  intros [n Hn]. unfold nxt. rewrite lookup_alter.
  repeat case_decide; subst; try done. by rewrite Hn.
Qed.

Lemma prv_set_next q a (h : heap) b : prv (alter (with_next q) a h) b = prv h b.
Proof.
  unfold prv. rewrite lookup_alter. case_decide; subst; [|done]. by destruct (h !! b).
Qed.

Lemma val_set_next q a (h : heap) b : val (alter (with_next q) a h) b = val h b.
Proof.
  unfold val. rewrite lookup_alter. case_decide; subst; [|done]. by destruct (h !! b).
Qed.

Lemma prv_set_prev q a (h : heap) b :
  is_Some (h !! a) ->
  prv (alter (with_prev q) a h) b = if decide (b = a) then q else prv h b.
Proof.
  intros [n Hn]. unfold prv. rewrite lookup_alter.
  repeat case_decide; subst; try done. by rewrite Hn.
Qed.

Lemma nxt_set_prev q a (h : heap) b : nxt (alter (with_prev q) a h) b = nxt h b.
Proof.
  unfold nxt. rewrite lookup_alter. case_decide; subst; [|done]. by destruct (h !! b).
Qed.

Lemma val_set_prev q a (h : heap) b : val (alter (with_prev q) a h) b = val h b.
Proof.
  unfold val. rewrite lookup_alter. case_decide; subst; [|done]. by destruct (h !! b).
Qed.

Lemma nxt_live (h : heap) a b : nxt h a = Some b -> is_Some (h !! a).
Proof. unfold nxt. destruct (h !! a); [eauto|done]. Qed.

Lemma prv_live (h : heap) a b : prv h a = Some b -> is_Some (h !! a).
Proof. unfold prv. destruct (h !! a); [eauto|done]. Qed.

Lemma deref_ok (m : Mem) a n : cells m !! a = Some n -> deref (Some a) m = Ret (a, n) m.
Proof. unfold deref. by intros ->. Qed.

Lemma load_next_ok (m : Mem) a b :
  nxt (cells m) a = Some b -> load_next (Some a) m = Ret (Some b) m.
Proof.
  unfold nxt, load_next, mbind at 2, M_bind, bind, deref. destruct (cells m !! a) as [n|]; [|done].
  simpl. by intros ->.
Qed.

Lemma load_prev_ok (m : Mem) a b :
  prv (cells m) a = Some b -> load_prev (Some a) m = Ret (Some b) m.
Proof.
  unfold prv, load_prev, mbind at 2, M_bind, bind, deref. destruct (cells m !! a) as [n|]; [|done].
  simpl. by intros ->.
Qed.

Lemma load_value_ok (m : Mem) a kv :
  val (cells m) a = Some kv -> load_value (Some a) m = Ret kv m.
Proof.
  unfold val, load_value, mbind at 2, M_bind, bind, deref. destruct (cells m !! a) as [n|]; [|done].
  simpl. by intros ->.
Qed.

Lemma set_next_ok (m : Mem) a q :
  is_Some (cells m !! a) ->
  set_next (Some a) q m = Ret tt (mkMem (alter (with_next q) a (cells m)) (brk m)).
Proof.
  intros [n Hn]. unfold set_next, mbind, M_bind, bind, deref, store. rewrite Hn. simpl.
  do 2 f_equal. apply map_eq. intros b. rewrite lookup_alter, lookup_insert.
  case_decide; subst; [by rewrite Hn|done].
Qed.

Lemma set_prev_ok (m : Mem) a q :
  is_Some (cells m !! a) ->
  set_prev (Some a) q m = Ret tt (mkMem (alter (with_prev q) a (cells m)) (brk m)).
Proof.
  intros [n Hn]. unfold set_prev, mbind, M_bind, bind, deref, store. rewrite Hn. simpl.
  do 2 f_equal. apply map_eq. intros b. rewrite lookup_alter, lookup_insert.
  case_decide; subst; [by rewrite Hn|done].
Qed.

Lemma on_mem_run {T A} (c : M Mem A) (m m' : Mem) (t : T) a :
  c m = Ret a m' -> on_mem c (m, t) = Ret a (m', t).
Proof. unfold on_mem, zoom. simpl. by intros ->. Qed.

(** *** linked *)

Lemma linked_cons h a b l :
  linked h (a :: b :: l) <-> nxt h a = Some b /\ prv h b = Some a /\ linked h (b :: l).
Proof. simpl. tauto. Qed.

Lemma linked_app h l1 a l2 :
  linked h (l1 ++ a :: l2) <-> linked h (l1 ++ [a]) /\ linked h (a :: l2).
Proof.
  induction l1 as [|x l1 IH].
  - simpl. tauto.
  - destruct l1 as [|y l1].
    + simpl in *. tauto.
    + change ((x :: y :: l1) ++ a :: l2) with (x :: (y :: l1) ++ a :: l2).
      change ((x :: y :: l1) ++ [a]) with (x :: (y :: l1) ++ [a]).
      change ((y :: l1) ++ a :: l2) with (y :: l1 ++ a :: l2) in *.
      change ((y :: l1) ++ [a]) with (y :: l1 ++ [a]) in *.
      rewrite !linked_cons. rewrite IH. tauto.
Qed.

(** [linked] reads [next] of every node but the last and [prev] of every
    node but the first. *)
Lemma linked_frame h h' l :
  linked h l ->
  (forall a, a ∈ removelast l -> nxt h' a = nxt h a) ->
  (forall a, a ∈ tail l -> prv h' a = prv h a) ->
  linked h' l.
Proof.
  induction l as [|x l IH]; [done|].
  destruct l as [|y l]; [done|].
  rewrite !linked_cons. intros (Hn & Hp & Hl) Hnx Hpv.
  split; [|split].
  - rewrite Hnx; [done|]. simpl. set_solver.
  - rewrite Hpv; [done|]. simpl. set_solver.
  - apply IH; [done| |].
    + intros a Ha. apply Hnx. change (removelast (x :: y :: l)) with (x :: removelast (y :: l)). set_solver.
    + intros a Ha. apply Hpv. simpl in *. set_solver.
Qed.

Lemma elem_of_removelast (l : list addr) a : a ∈ removelast l -> a ∈ l.
Proof.
  induction l as [|x l IH]; [done|]. destruct l as [|y l]; [by rewrite elem_of_nil|].
  change (removelast (x :: y :: l)) with (x :: removelast (y :: l)).
  rewrite !elem_of_cons. intros [->|H]; [by left|right]. by apply elem_of_cons, IH.
Qed.

Lemma elem_of_tail (l : list addr) a : a ∈ tail l -> a ∈ l.
Proof. destruct l; simpl; [done|]. by right. Qed.

Lemma removelast_snoc (l : list addr) a : removelast (l ++ [a]) = l.
Proof. by rewrite removelast_last. Qed.

(** Taking [f] out of the chain. *)
Lemma linked_unlink h h' L p f n R :
  NoDup (L ++ [p; f; n] ++ R) ->
  linked h (L ++ [p; f; n] ++ R) ->
  (forall a, nxt h' a = if decide (a = p) then Some n else nxt h a) ->
  (forall a, prv h' a = if decide (a = n) then Some p else prv h a) ->
  linked h' (L ++ [p; n] ++ R).
Proof.
  intros Hnd Hl Hnx Hpv.
  change (L ++ [p; f; n] ++ R) with (L ++ p :: f :: n :: R) in *.
  change (L ++ [p; n] ++ R) with (L ++ p :: n :: R).
  apply linked_app in Hl as [HL Hr].
  apply linked_cons in Hr as (_ & _ & Hr). apply linked_cons in Hr as (_ & _ & HR).
  apply NoDup_app in Hnd as (HndL & HLR & HndR).
  apply linked_app. split; [|apply linked_cons; split; [|split]].
  - apply (linked_frame h); [done| |].
    + intros a Ha. rewrite removelast_snoc in Ha. rewrite Hnx.
      case_decide; [|done]. subst. exfalso. apply (HLR p); set_solver.
    + intros a Ha. rewrite Hpv. case_decide; [|done]. subst. exfalso.
      apply elem_of_tail in Ha as [?|?%list_elem_of_singleton]%elem_of_app.
      * apply (HLR n); [done|]. right; right; by left.
      * subst. apply NoDup_cons in HndR as [Hx _]. apply Hx. right; by left.
  - rewrite Hnx. by rewrite decide_True.
  - rewrite Hpv. by rewrite decide_True.
  - apply (linked_frame h); [done| |].
    + intros a Ha. rewrite Hnx. case_decide; [|done]. subst. exfalso.
      apply NoDup_cons in HndR as [Hx _]. apply Hx.
      apply elem_of_removelast in Ha. set_solver.
    + intros a Ha. rewrite Hpv. case_decide; [|done]. subst. exfalso.
      do 2 apply NoDup_cons in HndR as [_ HndR]. apply NoDup_cons in HndR as [Hx _].
      simpl in Ha. done.
Qed.

(** Putting [f], which is not in the chain, in front of [t]. *)
Lemma linked_link h h' L pt f t R :
  NoDup (L ++ [pt; t] ++ R) ->
  f ∉ L ++ [pt; t] ++ R ->
  linked h (L ++ [pt; t] ++ R) ->
  (forall a, nxt h' a = if decide (a = pt) then Some f
                        else if decide (a = f) then Some t else nxt h a) ->
  (forall a, prv h' a = if decide (a = t) then Some f
                        else if decide (a = f) then Some pt else prv h a) ->
  linked h' (L ++ [pt; f; t] ++ R).
Proof.
  intros Hnd Hf Hl Hnx Hpv.
  change (L ++ [pt; t] ++ R) with (L ++ pt :: t :: R) in *.
  change (L ++ [pt; f; t] ++ R) with (L ++ pt :: f :: t :: R).
  apply linked_app in Hl as [HL Hr].
  apply linked_cons in Hr as (_ & _ & HR).
  apply NoDup_app in Hnd as (HndL & HLR & HndR).
  apply NoDup_cons in HndR as [Hpt HndR]. apply NoDup_cons in HndR as [Ht HndR].
  rewrite !elem_of_app, !elem_of_cons in Hf.
  assert (f <> pt /\ f <> t /\ f ∉ L /\ f ∉ R) as (Hfpt & Hft & HfL & HfR) by tauto.
  assert (pt <> t) as Hptt by (intros ->; apply Hpt; by left).
  apply linked_app. split; [|apply linked_cons; split; [|split; [|apply linked_cons; split; [|split]]]].
  - apply (linked_frame h); [done| |].
    + intros a Ha. rewrite removelast_snoc in Ha. rewrite Hnx.
      rewrite decide_False, decide_False; [done| |]; intros ->; [done|].
      apply (HLR pt); [done|by left].
    + intros a Ha. rewrite Hpv.
      apply elem_of_tail in Ha as [?|?%list_elem_of_singleton]%elem_of_app.
      * rewrite decide_False, decide_False; [done| |]; intros ->; [done|].
        apply (HLR t); [done|]. right; by left.
      * subst. rewrite decide_False, decide_False; done.
  - rewrite Hnx. by rewrite decide_True.
  - rewrite Hpv. rewrite decide_False by done. by rewrite decide_True.
  - rewrite Hnx. rewrite decide_False by done. by rewrite decide_True.
  - rewrite Hpv. by rewrite decide_True.
  - apply (linked_frame h); [done| |].
    + intros a Ha%elem_of_removelast. rewrite Hnx.
      apply elem_of_cons in Ha as [->|Ha].
      * rewrite decide_False, decide_False; [done| |]; congruence.
      * rewrite decide_False, decide_False; [done| |]; intros ->; [done|].
        apply Hpt. by right.
    + intros a Ha. simpl in Ha. rewrite Hpv.
      rewrite decide_False, decide_False; [done| |]; intros ->; done.
Qed.

#[local] Abbreviation LState := (@LState Key Value).

Lemma snoc_or_nil {A} (l : list A) : l = [] \/ exists l' x, l = l' ++ [x].
Proof. destruct l using rev_ind; eauto. Qed.

Lemma linked_mid h L a b R :
  linked h (L ++ a :: b :: R) -> nxt h a = Some b /\ prv h b = Some a.
Proof. intros [_ (? & ? & _)%linked_cons]%linked_app. done. Qed.

(** [List::move_node] takes [f] out of the list and puts it in front of [t];
    no node is allocated, freed or given another value. *)
Lemma List_move_node_spec (s : LState) hd tl A f B L1 t R1 :
  dll s hd tl (A ++ f :: B) ->
  (A ++ B) ++ [tl] = L1 ++ t :: R1 ->
  exists s' xs',
    List_move_node (Some f) (Some t) s = Ret (Some f) s' /\
    xs' ++ [tl] = L1 ++ f :: t :: R1 /\
    dll s' hd tl xs' /\
    s'.2 = s.2 /\ brk s'.1 = brk s.1 /\
    (forall a, val (cells s'.1) a = val (cells s.1) a).
Proof.
  destruct s as [m l]. intros (Hhd & Htl & Hnd & Hl & Hv & Hb) Hsplit. cbn [fst snd] in *.
  (* the neighbours of [f] *)
  destruct (snoc_or_nil (hd :: A)) as [?|(L & p & HL)]; [done|].
  destruct (B ++ [tl]) as [|n R] eqn:HR; [by destruct B|].
  assert (Hc0 : hd :: (A ++ f :: B) ++ [tl] = L ++ [p; f; n] ++ R).
  { rewrite <- app_assoc. simpl. rewrite HR.
    change (hd :: A ++ f :: n :: R) with ((hd :: A) ++ f :: n :: R).
    rewrite HL. by rewrite <- app_assoc. }
  rewrite Hc0 in Hnd, Hl.
  assert (Hc1 : hd :: L1 ++ t :: R1 = L ++ [p; n] ++ R).
  { rewrite <- Hsplit, <- app_assoc, HR.
    change (hd :: A ++ n :: R) with ((hd :: A) ++ n :: R). rewrite HL.
    by rewrite <- app_assoc. }
  pose proof (linked_mid _ _ _ _ _ Hl) as [Hpf Hfp].
  pose proof (linked_mid (cells m) (L ++ [p]) f n R) as Hfn.
  rewrite <- app_assoc in Hfn. specialize (Hfn Hl) as [Hfn Hnf].
  assert (Hnd1 : NoDup (L ++ [p; n] ++ R) /\ f ∉ L ++ [p; n] ++ R).
  { cbn [app] in Hnd |- *. apply NoDup_app in Hnd as (H1 & H2 & H3).
    apply NoDup_cons in H3 as [H3 H4]. apply NoDup_cons in H4 as [H4 H5].
    split.
    - apply NoDup_app. split; [done|]. split.
      + intros x Hx Hx'. apply (H2 x Hx). rewrite !elem_of_cons in Hx'; rewrite !elem_of_cons. tauto.
      + apply NoDup_cons. split; [|done]. rewrite !elem_of_cons in H3; rewrite !elem_of_cons. tauto.
    - rewrite elem_of_app. intros [Hx|Hx].
      + apply (H2 f Hx). right; by left.
      + rewrite elem_of_cons in Hx. destruct Hx as [->|Hx]; [|done].
        apply H3. by left. }
  destruct Hnd1 as [Hnd1 Hf1].
  assert (Hfp' : f <> p).
  { intros ->. apply Hf1. apply elem_of_app. right. by left. }
  assert (Hfn' : f <> n).
  { intros ->. apply Hf1. apply elem_of_app. right. right. by left. }
  (* unlink *)
  unfold List_move_node.
  rewrite (bind_run _ _ _ _ _ (on_mem_run _ _ _ _ _ (load_prev_ok _ _ _ Hfp))).
  rewrite (bind_run _ _ _ _ _ (on_mem_run _ _ _ _ _ (load_next_ok _ _ _ Hfn))).
  rewrite (bind_run _ _ _ _ _ (on_mem_run _ _ _ _ _ (set_next_ok m p (Some n) (nxt_live _ _ _ Hpf)))).
  set (h1 := alter (with_next (Some n)) p (cells m)).
  assert (Hfn1 : nxt h1 f = Some n).
  { unfold h1. rewrite nxt_set_next by (by eapply nxt_live). by rewrite decide_False. }
  assert (Hfp1 : prv h1 f = Some p) by (unfold h1; by rewrite prv_set_next).
  rewrite (bind_run _ _ _ _ _ (on_mem_run _ _ _ _ _ (load_next_ok (mkMem h1 _) _ _ Hfn1))).
  rewrite (bind_run _ _ _ _ _ (on_mem_run _ _ _ _ _ (load_prev_ok (mkMem h1 _) _ _ Hfp1))).
  assert (Hn1 : is_Some (h1 !! n)) by (apply live_alter; by eapply prv_live).
  rewrite (bind_run _ _ _ _ _ (on_mem_run _ _ _ _ _ (set_prev_ok (mkMem h1 _) n (Some p) Hn1))).
  cbn [cells brk].
  set (h2 := alter (with_prev (Some p)) n h1).
  assert (Hl2 : linked h2 (L ++ [p; n] ++ R)).
  { apply (linked_unlink (cells m) h2 L p f n R Hnd Hl).
    - intros a. unfold h2, h1. rewrite nxt_set_prev, nxt_set_next by (by eapply nxt_live). done.
    - intros a. unfold h2. rewrite prv_set_prev by done. unfold h1. by rewrite prv_set_next. }
  assert (Hlive2 : forall a, is_Some (h2 !! a) <-> is_Some (cells m !! a)).
  { intros a. unfold h2, h1. by rewrite !live_alter. }
  assert (Hval2 : forall a, val h2 a = val (cells m) a).
  { intros a. unfold h2, h1. by rewrite val_set_prev, val_set_next. }
  assert (Hf2 : is_Some (h2 !! f)) by (apply Hlive2; by eapply nxt_live).
  (* link in front of [t] *)
  rewrite <- Hc1 in Hl2, Hnd1, Hf1.
  destruct (snoc_or_nil (hd :: L1)) as [?|(L' & pt & HL')]; [done|].
  assert (Hc2 : hd :: L1 ++ t :: R1 = L' ++ [pt; t] ++ R1).
  { change (hd :: L1 ++ t :: R1) with ((hd :: L1) ++ t :: R1). rewrite HL'.
    by rewrite <- app_assoc. }
  rewrite Hc2 in Hl2, Hnd1, Hf1.
  pose proof (linked_mid _ _ _ _ _ Hl2) as [Hptt Htpt].
  rewrite (bind_run _ _ _ _ _ (on_mem_run _ _ _ _ _ (load_prev_ok (mkMem h2 _) _ _ Htpt))).
  assert (Hpt2 : is_Some (h2 !! pt)) by (by eapply nxt_live).
  rewrite (bind_run _ _ _ _ _ (on_mem_run _ _ _ _ _ (set_next_ok (mkMem h2 _) pt (Some f) Hpt2))).
  cbn [cells brk]. set (h3 := alter (with_next (Some f)) pt h2).
  assert (Ht3 : is_Some (h3 !! t)) by (apply live_alter; by eapply prv_live).
  rewrite (bind_run _ _ _ _ _ (on_mem_run _ _ _ _ _ (set_prev_ok (mkMem h3 _) t (Some f) Ht3))).
  cbn [cells brk]. set (h4 := alter (with_prev (Some f)) t h3).
  assert (Hf4 : is_Some (h4 !! f)) by (unfold h4, h3; by rewrite !live_alter).
  rewrite (bind_run _ _ _ _ _ (on_mem_run _ _ _ _ _ (set_prev_ok (mkMem h4 _) f (Some pt) Hf4))).
  cbn [cells brk]. set (h5 := alter (with_prev (Some pt)) f h4).
  assert (Hf5 : is_Some (h5 !! f)) by (unfold h5; by rewrite !live_alter).
  rewrite (bind_run _ _ _ _ _ (on_mem_run _ _ _ _ _ (set_next_ok (mkMem h5 _) f (Some t) Hf5))).
  cbn [cells brk]. set (h6 := alter (with_next (Some t)) f h5).
  assert (Hfpt : f <> pt /\ f <> t).
  { rewrite !elem_of_app, !elem_of_cons in Hf1. split; intros ->; tauto. }
  destruct Hfpt as [Hfpt Hft].
  assert (Hl6 : linked h6 (L' ++ [pt; f; t] ++ R1)).
  { apply (linked_link h2 h6 L' pt f t R1 Hnd1 Hf1 Hl2).
    - intros a. unfold h6. rewrite nxt_set_next by done.
      unfold h5, h4. rewrite !nxt_set_prev. unfold h3. rewrite nxt_set_next by done.
      repeat case_decide; subst; done.
    - intros a. unfold h6. rewrite prv_set_next. unfold h5. rewrite prv_set_prev by done.
      unfold h4. rewrite prv_set_prev by done. unfold h3. rewrite prv_set_next.
      repeat case_decide; subst; done. }
  assert (Hx : exists xs', xs' ++ [tl] = L1 ++ f :: t :: R1 /\
                 forall a, a ∈ xs' -> a = f \/ a ∈ A ++ B).
  { destruct (snoc_or_nil R1) as [->|(R1' & x & ->)].
    - apply app_inj_tail in Hsplit as [HAB Htt]. exists (L1 ++ [f]).
      split; [by rewrite <- app_assoc, Htt|]. rewrite HAB.
      intros a [?|?%list_elem_of_singleton]%elem_of_app; auto.
    - rewrite app_comm_cons, app_assoc in Hsplit. apply app_inj_tail in Hsplit as [HAB Htt].
      exists (L1 ++ f :: t :: R1'). split; [by rewrite <- app_assoc, Htt|]. rewrite HAB.
      intros a. rewrite !elem_of_app, !elem_of_cons. tauto. }
  destruct Hx as (xs' & Hxs' & Hin).
  exists (mkMem h6 (brk m), l), xs'. split; [done|]. split; [done|].
  assert (Hval6 : forall a, val h6 a = val (cells m) a).
  { intros a. unfold h6, h5, h4, h3.
    by rewrite val_set_next, !val_set_prev, val_set_next. }
  split; [|done].
  split; [done|]. split; [done|]. cbn [fst snd cells brk].
  assert (Hc3 : hd :: xs' ++ [tl] = L' ++ [pt; f; t] ++ R1).
  { rewrite Hxs'. change (hd :: L1 ++ f :: t :: R1) with ((hd :: L1) ++ f :: t :: R1).
    rewrite HL'. by rewrite <- app_assoc. }
  rewrite Hc3. split; [|split; [done|split]].
  - (* NoDup *)
    change (L' ++ [pt; t] ++ R1) with (L' ++ pt :: t :: R1) in *.
    change (L' ++ [pt; f; t] ++ R1) with (L' ++ pt :: f :: t :: R1).
    apply NoDup_app in Hnd1 as (H1 & H2 & H3). apply NoDup_cons in H3 as [H3 H4].
    rewrite !elem_of_app, !elem_of_cons in Hf1.
    apply NoDup_app. split; [done|]. split.
    + intros x Hx Hx'. rewrite !elem_of_cons in Hx'.
      destruct Hx' as [->|[->|Hx']]; [apply (H2 pt Hx); by left|tauto|].
      apply (H2 x Hx). right. by rewrite elem_of_cons.
    + apply NoDup_cons. split; [|apply NoDup_cons; split; [|done]].
      * rewrite !elem_of_cons in H3; rewrite !elem_of_cons. intros [->|?]; tauto.
      * rewrite !elem_of_cons. tauto.
  - intros a Ha. rewrite Hval6. destruct (Hin a Ha) as [->|Ha'].
    + apply Hv. rewrite elem_of_app, elem_of_cons. tauto.
    + apply Hv. rewrite elem_of_app, elem_of_cons. apply elem_of_app in Ha'. tauto.
  - intros a Ha. apply Hb. unfold h6, h5, h4, h3 in Ha. rewrite !live_alter in Ha.
    by apply Hlive2.
Qed.

Lemma nxt_insert (h : heap) f n0 a :
  nxt (<[f := n0]> h) a = if decide (a = f) then next n0 else nxt h a.
Proof.
  unfold nxt. rewrite lookup_insert. repeat case_decide; subst; done.
Qed.

Lemma prv_insert (h : heap) f n0 a :
  prv (<[f := n0]> h) a = if decide (a = f) then prev n0 else prv h a.
Proof.
  unfold prv. rewrite lookup_insert. repeat case_decide; subst; done.
Qed.

Lemma val_insert (h : heap) f n0 a :
  val (<[f := n0]> h) a = if decide (a = f) then value n0 else val h a.
Proof.
  unfold val. rewrite lookup_insert. repeat case_decide; subst; done.
Qed.

Lemma linked_live h l a : linked h l -> (2 <= length l)%nat -> a ∈ l -> is_Some (h !! a).
Proof.
  induction l as [|x l IH]; [by rewrite elem_of_nil|].
  destruct l as [|y l]; [simpl; lia|]. intros (Hn & Hp & Hl)%linked_cons _.
  rewrite elem_of_cons. intros [->|Ha]; [by eapply nxt_live|].
  destruct l as [|z l].
  - apply list_elem_of_singleton in Ha as ->. by eapply prv_live.
  - apply IH; [done|simpl; lia|done].
Qed.

Lemma dll_live (s : LState) hd tl xs a :
  dll s hd tl xs -> a ∈ hd :: xs ++ [tl] -> is_Some (cells s.1 !! a).
Proof.
  intros (_ & _ & _ & Hl & _) Ha. eapply linked_live; [done| |done].
  simpl. rewrite length_app. simpl. lia.
Qed.

(** [List::emplace] puts a new node, at the next address of the allocator,
    in front of [t], and touches no node outside the list. *)
Lemma List_emplace_full (s : LState) hd tl xs L1 t R1 kv :
  dll s hd tl xs ->
  xs ++ [tl] = L1 ++ t :: R1 ->
  exists s' xs',
    List_emplace (Some t) (Constructs kv) s = Ret (Some (brk s.1)) s' /\
    xs' ++ [tl] = L1 ++ brk s.1 :: t :: R1 /\
    dll s' hd tl xs' /\
    s'.2 = mkList (head_ s.2) (tail_ s.2) (wrap (size_ s.2 + 1)) /\
    brk s'.1 = S (brk s.1) /\
    val (cells s'.1) (brk s.1) = Some kv /\
    (forall a, a <> brk s.1 -> val (cells s'.1) a = val (cells s.1) a) /\
    (forall a, a ∉ hd :: xs ++ [tl] -> a <> brk s.1 -> cells s'.1 !! a = cells s.1 !! a).
Proof.
  destruct s as [m l]. intros Hdll Hsplit.
  pose proof Hdll as (Hhd & Htl & Hnd & Hl & Hv & Hb). cbn [fst snd] in *.
  set (f := brk m).
  assert (Hfresh : f ∉ hd :: xs ++ [tl]).
  { intros Hf. apply (dll_live _ _ _ _ _ Hdll), Hb in Hf. unfold f in Hf. simpl in Hf. lia. }
  assert (Hfdead : cells m !! f = None).
  { destruct (cells m !! f) eqn:E; [|done]. assert (f < brk m)%nat by (apply Hb; eauto).
    unfold f in *. lia. }
  destruct (snoc_or_nil (hd :: L1)) as [?|(L' & pt & HL')]; [done|].
  assert (Hc : hd :: xs ++ [tl] = L' ++ [pt; t] ++ R1).
  { rewrite Hsplit. change (hd :: L1 ++ t :: R1) with ((hd :: L1) ++ t :: R1).
    rewrite HL'. by rewrite <- app_assoc. }
  assert (Hout : forall a, a ∉ hd :: xs ++ [tl] -> a <> pt /\ a <> t).
  { intros a Ha. rewrite Hc in Ha. rewrite !elem_of_app, !elem_of_cons in Ha.
    split; intros ->; tauto. }
  rewrite Hc in Hnd, Hl, Hfresh.
  pose proof (linked_mid _ _ _ _ _ Hl) as [Hptt Htpt].
  unfold List_emplace.
  assert (Ha : allocate m = Ret f (mkMem (<[f := mkNode None None None]> (cells m)) (S (brk m))))
    by done.
  rewrite (bind_run _ _ _ _ _ (on_mem_run _ _ _ _ _ Ha)).
  set (h1 := <[f := mkNode None None None]> (cells m)).
  assert (Hc1 : construct f (Constructs kv) (mkMem h1 (S (brk m)))
                = Ret tt (mkMem (<[f := mkNode (Some kv) None None]> h1) (S (brk m)))).
  { unfold construct, mbind, M_bind, bind, deref, store. cbn [cells].
    unfold h1 at 1. by rewrite lookup_insert_eq. }
  rewrite (bind_run _ _ _ _ _ (on_mem_run _ _ _ _ _ Hc1)).
  set (h2 := <[f := mkNode (Some kv) None None]> h1).
  assert (Hft : f <> t /\ f <> pt).
  { rewrite !elem_of_app, !elem_of_cons in Hfresh. split; intros E; rewrite E in Hfresh; tauto. }
  destruct Hft as [Hft Hfpt].
  assert (Hnx2 : forall a, a <> f -> nxt h2 a = nxt (cells m) a).
  { intros a Ha'. unfold h2, h1. rewrite !nxt_insert. by rewrite !decide_False. }
  assert (Hpv2 : forall a, a <> f -> prv h2 a = prv (cells m) a).
  { intros a Ha'. unfold h2, h1. rewrite !prv_insert. by rewrite !decide_False. }
  assert (Hlive2 : forall a, is_Some (h2 !! a) <-> a = f \/ is_Some (cells m !! a)).
  { intros a. unfold h2, h1. rewrite !lookup_insert_is_Some.
    destruct (decide (f = a)); intuition congruence. }
  assert (Htpt2 : prv h2 t = Some pt) by (rewrite Hpv2; done).
  rewrite (bind_run _ _ _ _ _ (on_mem_run _ _ _ _ _ (load_prev_ok (mkMem h2 _) _ _ Htpt2))).
  assert (Hf2 : is_Some (h2 !! f)) by (apply Hlive2; by left).
  rewrite (bind_run _ _ _ _ _ (on_mem_run _ _ _ _ _ (set_next_ok (mkMem h2 _) f (Some t) Hf2))).
  cbn [cells brk]. set (h3 := alter (with_next (Some t)) f h2).
  assert (Hf3 : is_Some (h3 !! f)) by (unfold h3; by rewrite live_alter).
  rewrite (bind_run _ _ _ _ _ (on_mem_run _ _ _ _ _ (set_prev_ok (mkMem h3 _) f (Some pt) Hf3))).
  cbn [cells brk]. set (h4 := alter (with_prev (Some pt)) f h3).
  assert (Hpt4 : is_Some (h4 !! pt)).
  { unfold h4, h3. rewrite !live_alter. apply Hlive2. right. by eapply nxt_live. }
  rewrite (bind_run _ _ _ _ _ (on_mem_run _ _ _ _ _ (set_next_ok (mkMem h4 _) pt (Some f) Hpt4))).
  cbn [cells brk]. set (h5 := alter (with_next (Some f)) pt h4).
  assert (Ht5 : is_Some (h5 !! t)).
  { unfold h5, h4, h3. rewrite !live_alter. apply Hlive2. right. by eapply prv_live. }
  rewrite (bind_run _ _ _ _ _ (on_mem_run _ _ _ _ _ (set_prev_ok (mkMem h5 _) t (Some f) Ht5))).
  cbn [cells brk]. set (h6 := alter (with_prev (Some f)) t h5).
  assert (Hl2 : linked h2 (L' ++ [pt; t] ++ R1)).
  { apply (linked_frame (cells m)); [done| |].
    - intros a Ha'%elem_of_removelast. apply Hnx2. by intros ->.
    - intros a Ha'%elem_of_tail. apply Hpv2. by intros ->. }
  assert (Hl6 : linked h6 (L' ++ [pt; f; t] ++ R1)).
  { apply (linked_link h2 h6 L' pt f t R1 Hnd Hfresh Hl2).
    - intros a. unfold h6. rewrite nxt_set_prev. unfold h5. rewrite nxt_set_next by done.
      unfold h4. rewrite nxt_set_prev. unfold h3. rewrite nxt_set_next by done.
      repeat case_decide; subst; done.
    - intros a. unfold h6. rewrite prv_set_prev by done. unfold h5. rewrite prv_set_next.
      unfold h4. rewrite prv_set_prev by done. unfold h3. rewrite prv_set_next.
      repeat case_decide; subst; done. }
  assert (Hval6 : forall a, val h6 a = if decide (a = f) then Some kv else val (cells m) a).
  { intros a. unfold h6, h5, h4, h3. rewrite val_set_prev, val_set_next, val_set_prev, val_set_next.
    unfold h2, h1. rewrite !val_insert. by case_decide. }
  assert (Hx : exists xs', xs' ++ [tl] = L1 ++ f :: t :: R1 /\
                 forall a, a ∈ xs' -> a = f \/ a ∈ xs).
  { destruct (snoc_or_nil R1) as [->|(R1' & x & ->)].
    - apply app_inj_tail in Hsplit as [HAB Htt]. exists (L1 ++ [f]).
      split; [by rewrite <- app_assoc, Htt|]. rewrite HAB.
      intros a [?|?%list_elem_of_singleton]%elem_of_app; auto.
    - rewrite app_comm_cons, app_assoc in Hsplit. apply app_inj_tail in Hsplit as [HAB Htt].
      exists (L1 ++ f :: t :: R1'). split; [by rewrite <- app_assoc, Htt|]. rewrite HAB.
      intros a. rewrite !elem_of_app, !elem_of_cons. tauto. }
  destruct Hx as (xs' & Hxs' & Hin).
  unfold this, set_this, mbind, M_bind, bind. cbn [fst snd].
  eexists (mkMem h6 (S (brk m)), _), xs'. split; [done|]. split; [done|].
  split; [|split; [done|split; [done|split; [|split]]]].
  - split; [done|]. split; [done|]. cbn [fst snd cells brk].
    assert (Hc3 : hd :: xs' ++ [tl] = L' ++ [pt; f; t] ++ R1).
    { rewrite Hxs'. change (hd :: L1 ++ f :: t :: R1) with ((hd :: L1) ++ f :: t :: R1).
      rewrite HL'. by rewrite <- app_assoc. }
    rewrite Hc3. split; [|split; [done|split]].
    + change (L' ++ [pt; t] ++ R1) with (L' ++ pt :: t :: R1) in *.
      change (L' ++ [pt; f; t] ++ R1) with (L' ++ pt :: f :: t :: R1).
      apply NoDup_app in Hnd as (H1 & H2 & H3). apply NoDup_cons in H3 as [H3 H4].
      rewrite !elem_of_app, !elem_of_cons in Hfresh.
      apply NoDup_app. split; [done|]. split.
      * intros x Hx Hx'. rewrite !elem_of_cons in Hx'.
        destruct Hx' as [->|[->|Hx']]; [apply (H2 pt Hx); by left|tauto|].
        apply (H2 x Hx). right. by rewrite elem_of_cons.
      * apply NoDup_cons. split; [|apply NoDup_cons; split; [|done]].
        -- rewrite !elem_of_cons in H3; rewrite !elem_of_cons. intros [->|?]; tauto.
        -- rewrite !elem_of_cons. tauto.
    + intros a Ha'. rewrite Hval6. case_decide; [done|].
      destruct (Hin a Ha') as [->|Ha'']; [done|]. by apply Hv.
    + intros a Ha'. unfold h6, h5, h4, h3 in Ha'. rewrite !live_alter in Ha'.
      apply Hlive2 in Ha' as [->|Ha']; [unfold f; lia|]. apply Hb in Ha'. lia.
  - cbn [fst cells]. rewrite Hval6. by rewrite decide_True.
  - intros a Ha'. cbn [fst cells]. rewrite Hval6. by rewrite decide_False.
  - intros a Ha' Haf. cbn [fst cells]. destruct (Hout a Ha') as [Hapt Hat].
    unfold h6, h5, h4, h3. rewrite !lookup_alter_ne by done.
    unfold h2, h1. by rewrite !lookup_insert_ne by done.
Qed.

Lemma List_emplace_spec (s : LState) hd tl xs L1 t R1 kv :
  dll s hd tl xs ->
  xs ++ [tl] = L1 ++ t :: R1 ->
  exists s' xs',
    List_emplace (Some t) (Constructs kv) s = Ret (Some (brk s.1)) s' /\
    xs' ++ [tl] = L1 ++ brk s.1 :: t :: R1 /\
    dll s' hd tl xs' /\
    s'.2 = mkList (head_ s.2) (tail_ s.2) (wrap (size_ s.2 + 1)) /\
    brk s'.1 = S (brk s.1) /\
    val (cells s'.1) (brk s.1) = Some kv /\
    (forall a, a <> brk s.1 -> val (cells s'.1) a = val (cells s.1) a).
Proof.
  intros Hd Hsplit.
  destruct (List_emplace_full s hd tl xs L1 t R1 kv Hd Hsplit)
    as (s' & xs' & H1 & H2 & H3 & H4 & H5 & H6 & H7 & _).
  by exists s', xs'.
Qed.

Lemma before_refl l x : x ∈ l -> before l x x.
Proof. intros [i Hi]%list_elem_of_lookup. by exists i, i. Qed.

Lemma lookup_insert_at (L1 R1 : list addr) f i x :
  (L1 ++ R1) !! i = Some x ->
  (L1 ++ f :: R1) !! (if decide (i < length L1)%nat then i else S i) = Some x.
Proof.
  intros H. case_decide.
  - rewrite lookup_app_l in H by done. by rewrite lookup_app_l.
  - rewrite lookup_app_r in H by lia. rewrite lookup_app_r by lia.
    replace (S i - length L1)%nat with (S (i - length L1)) by lia. done.
Qed.

(** The order of two positions survives an insertion and, for nodes other
    than the deleted one, a deletion. *)
Lemma before_insert L1 R1 f x y :
  before (L1 ++ R1) x y -> before (L1 ++ f :: R1) x y.
Proof.
  intros (i & j & Hij & Hi & Hj).
  apply (lookup_insert_at _ _ f) in Hi, Hj.
  eexists _, _. split; [|split; [exact Hi|exact Hj]].
  repeat case_decide; lia.
Qed.

Lemma lookup_delete_at (A B : list addr) f i x :
  (A ++ f :: B) !! i = Some x -> i <> length A ->
  (A ++ B) !! (if decide (i < length A)%nat then i else pred i) = Some x.
Proof.
  intros H Hi. case_decide.
  - rewrite lookup_app_l in H by done. by rewrite lookup_app_l.
  - rewrite lookup_app_r in H by lia. rewrite lookup_app_r by lia.
    replace (i - length A)%nat with (S (pred i - length A)) in H by lia. done.
Qed.

Lemma before_delete A B f x y :
  NoDup (A ++ f :: B) -> x <> f -> y <> f ->
  before (A ++ f :: B) x y -> before (A ++ B) x y.
Proof.
  intros Hnd Hx Hy (i & j & Hij & Hi & Hj).
  assert (Hf : (A ++ f :: B) !! length A = Some f).
  { rewrite lookup_app_r by lia. by rewrite Nat.sub_diag. }
  assert (i <> length A) by (intros ->; congruence).
  assert (j <> length A) by (intros ->; congruence).
  apply lookup_delete_at in Hi, Hj; [|done..].
  eexists _, _. split; [|split; [exact Hi|exact Hj]].
  repeat case_decide; lia.
Qed.

Lemma linked_lookup h l i a b :
  linked h l -> l !! i = Some a -> l !! S i = Some b ->
  nxt h a = Some b /\ prv h b = Some a.
Proof.
  revert i. induction l as [|x l IH]; intros i Hl Ha Hb; [done|].
  destruct l as [|y l]; [done|]. apply linked_cons in Hl as (Hn & Hp & Hl).
  destruct i as [|i]; simpl in *.
  - by simplify_eq.
  - by apply (IH i).
Qed.

Lemma live_nodes_bound (h : heap) (l : list addr) :
  NoDup l -> (forall a, a ∈ l -> is_Some (h !! a)) -> (length l <= size h)%nat.
Proof.
  intros Hnd Hlive.
  rewrite <- (size_list_to_set (C:=gset addr) l) by done.
  rewrite <- size_dom. apply subseteq_size.
  intros a Ha%elem_of_list_to_set. apply elem_of_dom. by apply Hlive.
Qed.

Lemma dll_size_bound (s : LState) hd tl xs :
  dll s hd tl xs -> (length xs + 2 <= size (cells s.1))%nat.
Proof.
  intros Hd. pose proof Hd as (_ & _ & Hnd & _).
  pose proof (live_nodes_bound (cells s.1) _ Hnd (fun a => dll_live s hd tl xs a Hd)) as H.
  simpl in H. rewrite length_app in H. simpl in H. lia.
Qed.

(** Neighbours in the chain are linked both ways. *)
Lemma dll_next (s : LState) hd tl xs i a b :
  dll s hd tl xs -> (xs ++ [tl]) !! i = Some a -> (xs ++ [tl]) !! S i = Some b ->
  nxt (cells s.1) a = Some b /\ prv (cells s.1) b = Some a.
Proof.
  intros (_ & _ & _ & Hl & _) Ha Hb.
  by apply (linked_lookup _ _ (S i) a b Hl).
Qed.

Lemma dll_first (s : LState) hd tl xs a :
  dll s hd tl xs -> (xs ++ [tl]) !! 0%nat = Some a ->
  nxt (cells s.1) hd = Some a /\ prv (cells s.1) a = Some hd.
Proof.
  intros (_ & _ & _ & Hl & _) Ha.
  by apply (linked_lookup _ _ 0%nat hd a Hl).
Qed.

Lemma chain_first (xs : list addr) tl : exists a, (xs ++ [tl]) !! 0%nat = Some a.
Proof. destruct xs; simpl; eauto. Qed.

(** [begin()] is the first node of the chain, the tail sentinel when the
    list is empty. *)
Lemma List_begin_spec (s : LState) hd tl xs a :
  dll s hd tl xs -> (xs ++ [tl]) !! 0%nat = Some a ->
  List_begin s = Ret (Some a) s.
Proof.
  intros Hd Ha. pose proof (dll_first _ _ _ _ _ Hd Ha) as [Hn _].
  destruct Hd as (Hhd & _). destruct s as [m l]. cbn [fst snd] in *.
  unfold List_begin, this, mbind, M_bind, bind. cbn [fst snd]. rewrite Hhd.
  by rewrite (on_mem_run _ _ _ _ _ (load_next_ok _ _ _ Hn)).
Qed.

(** [List::erase] takes a node of the list out and frees it, returns the
    iterator to the node behind it and touches no node outside the list. *)
Lemma List_erase_full (s : LState) hd tl A f B :
  dll s hd tl (A ++ f :: B) ->
  exists s' n,
    List_erase (Some f) s = Ret (Some n) s' /\
    dll s' hd tl (A ++ B) /\
    s'.2 = mkList (head_ s.2) (tail_ s.2) (wrap (size_ s.2 + size_t_modulus - 1)) /\
    brk s'.1 = brk s.1 /\
    (forall a, a <> f -> val (cells s'.1) a = val (cells s.1) a) /\
    cells s'.1 !! f = None /\
    (B ++ [tl]) !! 0%nat = Some n /\
    (forall a, a ∉ hd :: (A ++ f :: B) ++ [tl] -> cells s'.1 !! a = cells s.1 !! a).
Proof.
  destruct s as [m l]. intros (Hhd & Htl & Hnd & Hl & Hv & Hb). cbn [fst snd] in *.
  (* the neighbours of [f] *)
  destruct (snoc_or_nil (hd :: A)) as [?|(L & p & HL)]; [done|].
  destruct (B ++ [tl]) as [|n R] eqn:HR; [by destruct B|].
  assert (Hc0 : hd :: (A ++ f :: B) ++ [tl] = L ++ [p; f; n] ++ R).
  { rewrite <- app_assoc. simpl. rewrite HR.
    change (hd :: A ++ f :: n :: R) with ((hd :: A) ++ f :: n :: R).
    rewrite HL. by rewrite <- app_assoc. }
  assert (Hftl : f <> tl).
  { intros ->. apply NoDup_cons in Hnd as [_ Hnd]. rewrite <- app_assoc in Hnd.
    apply NoDup_app in Hnd as (_ & _ & Hnd). simpl in Hnd.
    apply NoDup_cons in Hnd as [Hnd _]. apply Hnd. apply elem_of_app. right. by left. }
  assert (Hout : forall a, a ∉ hd :: (A ++ f :: B) ++ [tl] -> a <> p /\ a <> f /\ a <> n).
  { intros a Ha. rewrite Hc0 in Ha. rewrite !elem_of_app, !elem_of_cons in Ha.
    repeat split; intros ->; tauto. }
  rewrite Hc0 in Hnd, Hl.
  assert (Hc1 : hd :: (A ++ B) ++ [tl] = L ++ [p; n] ++ R).
  { rewrite <- app_assoc, HR.
    change (hd :: A ++ n :: R) with ((hd :: A) ++ n :: R). rewrite HL.
    by rewrite <- app_assoc. }
  pose proof (linked_mid _ _ _ _ _ Hl) as [Hpf Hfp].
  pose proof (linked_mid (cells m) (L ++ [p]) f n R) as Hfn.
  rewrite <- app_assoc in Hfn. specialize (Hfn Hl) as [Hfn Hnf].
  assert (Hnd1 : NoDup (L ++ [p; n] ++ R) /\ f ∉ L ++ [p; n] ++ R).
  { cbn [app] in Hnd |- *. apply NoDup_app in Hnd as (H1 & H2 & H3).
    apply NoDup_cons in H3 as [H3 H4]. apply NoDup_cons in H4 as [H4 H5].
    split.
    - apply NoDup_app. split; [done|]. split.
      + intros x Hx Hx'. apply (H2 x Hx). rewrite !elem_of_cons in Hx'; rewrite !elem_of_cons. tauto.
      + apply NoDup_cons. split; [|done]. rewrite !elem_of_cons in H3; rewrite !elem_of_cons. tauto.
    - rewrite elem_of_app. intros [Hx|Hx].
      + apply (H2 f Hx). right; by left.
      + rewrite elem_of_cons in Hx. destruct Hx as [->|Hx]; [|done].
        apply H3. by left. }
  destruct Hnd1 as [Hnd1 Hf1].
  unfold List_erase.
  rewrite (bind_run this _ (m, l) l (m, l) eq_refl).
  unfold List_end. rewrite Htl. unfold iter_eqb. rewrite bool_decide_eq_false_2 by congruence.
  rewrite (bind_run _ _ _ _ _ (on_mem_run _ _ _ _ _ (load_prev_ok _ _ _ Hfp))).
  rewrite (bind_run _ _ _ _ _ (on_mem_run _ _ _ _ _ (load_next_ok _ _ _ Hfn))).
  rewrite (bind_run _ _ _ _ _ (on_mem_run _ _ _ _ _ (set_next_ok m p (Some n) (nxt_live _ _ _ Hpf)))).
  set (h1 := alter (with_next (Some n)) p (cells m)).
  assert (Hn1 : is_Some (h1 !! n)) by (apply live_alter; by eapply prv_live).
  rewrite (bind_run _ _ _ _ _ (on_mem_run _ _ _ _ _ (set_prev_ok (mkMem h1 _) n (Some p) Hn1))).
  cbn [cells brk].
  set (h2 := alter (with_prev (Some p)) n h1).
  assert (Hl2 : linked h2 (L ++ [p; n] ++ R)).
  { apply (linked_unlink (cells m) h2 L p f n R Hnd Hl).
    - intros a. unfold h2, h1. rewrite nxt_set_prev, nxt_set_next by (by eapply nxt_live). done.
    - intros a. unfold h2. rewrite prv_set_prev by done. unfold h1. by rewrite prv_set_next. }
  assert (Hlive2 : forall a, is_Some (h2 !! a) <-> is_Some (cells m !! a)).
  { intros a. unfold h2, h1. by rewrite !live_alter. }
  assert (Hval2 : forall a, val h2 a = val (cells m) a).
  { intros a. unfold h2, h1. by rewrite val_set_prev, val_set_next. }
  assert (Hf2 : is_Some (h2 !! f)) by (apply Hlive2; by eapply nxt_live).
  destruct Hf2 as [nf Hnf2].
  rewrite (bind_run _ _ _ _ _ (on_mem_run _ _ _ _ _ (deref_ok (mkMem h2 _) _ _ Hnf2))).
  cbn [fst snd].
  assert (Hdes : destroy f (mkMem h2 (brk m))
                 = Ret tt (mkMem (<[f := mkNode None (prev nf) (next nf)]> h2) (brk m))).
  { unfold destroy. rewrite (bind_run _ _ _ _ _ (deref_ok (mkMem h2 _) _ _ Hnf2)). done. }
  rewrite (bind_run _ _ _ _ _ (on_mem_run _ _ _ _ _ Hdes)).
  set (h3 := <[f := mkNode None (prev nf) (next nf)]> h2).
  assert (Hdea : deallocate f (mkMem h3 (brk m)) = Ret tt (mkMem (delete f h3) (brk m))) by done.
  rewrite (bind_run _ _ _ _ _ (on_mem_run _ _ _ _ _ Hdea)).
  set (h4 := delete f h3).
  assert (H4 : forall a, a <> f -> h4 !! a = h2 !! a).
  { intros a Ha. unfold h4, h3. by rewrite lookup_delete_ne, lookup_insert_ne. }
  exists (mkMem h4 (brk m), mkList (head_ l) (tail_ l) (wrap (size_ l + size_t_modulus - 1))), n.
  split; [by rewrite Htl|]. cbn [fst snd cells brk].
  split; [|split; [by rewrite Htl|split; [done|split; [|split; [|split; [done|]]]]]].
  - unfold dll. cbn [fst snd head_ tail_ cells brk]. rewrite Hc1.
    split; [done|]. split; [done|]. split; [done|]. split; [|split].
    + apply (linked_frame h2); [done| |].
      * intros a Ha. unfold nxt. rewrite H4; [done|]. intros ->. apply Hf1.
        by apply elem_of_removelast.
      * intros a Ha. unfold prv. rewrite H4; [done|]. intros ->. apply Hf1.
        by apply elem_of_tail.
    + intros a Ha.
      assert (a <> f).
      { intros ->. apply Hf1. rewrite <- Hc1. right. apply elem_of_app. by left. }
      unfold val. rewrite H4 by done. fold (val h2 a). rewrite Hval2. apply Hv.
      rewrite elem_of_app, elem_of_cons. apply elem_of_app in Ha. tauto.
    + intros a Ha. apply Hb. apply Hlive2.
      destruct (decide (a = f)) as [->|Hne]; [by eexists|]. by rewrite <- H4.
  - intros a Ha. unfold val. rewrite H4 by done. apply Hval2.
  - unfold h4. apply lookup_delete_eq.
  - intros a Ha. destruct (Hout a Ha) as (Hap & Haf & Han).
    rewrite H4 by done. unfold h2, h1. by rewrite !lookup_alter_ne by done.
Qed.

Lemma List_erase_spec (s : LState) hd tl A f B :
  dll s hd tl (A ++ f :: B) ->
  exists s' n,
    List_erase (Some f) s = Ret (Some n) s' /\
    dll s' hd tl (A ++ B) /\
    s'.2 = mkList (head_ s.2) (tail_ s.2) (wrap (size_ s.2 + size_t_modulus - 1)) /\
    brk s'.1 = brk s.1 /\
    (forall a, a <> f -> val (cells s'.1) a = val (cells s.1) a) /\
    cells s'.1 !! f = None.
Proof.
  intros Hd.
  destruct (List_erase_full s hd tl A f B Hd) as (s' & n & H1 & H2 & H3 & H4 & H5 & H6 & _).
  by exists s', n.
Qed.

End ListFacts.

Section ScanFacts.
Context {Key Value : Type}.
Variable key_equal : Key -> Key -> bool.

(** The scan of a range between two positions of the list ends when the fuel
    covers the distance: it stops at a node with an equal key or finds none
    in the range. *)
Lemma bucket_scan_spec (s : @LState Key Value) hd tl xs key fuel :
  dll s hd tl xs ->
  forall i j x y,
    (xs ++ [tl]) !! i = Some x -> (xs ++ [tl]) !! j = Some y ->
    (i <= j)%nat -> (j - i <= fuel)%nat ->
    exists r,
      bucket_scan key_equal key (Some y) fuel (Some x) s.1 = Ret r s.1 /\
      match r with
      | Some it =>
          exists a kv, it = Some a /\ a ∈ xs /\
            val (cells s.1) a = Some kv /\ key_equal kv.1 key = true
      | None =>
          forall k a kv, (i <= k < j)%nat -> xs !! k = Some a ->
            val (cells s.1) a = Some kv -> key_equal kv.1 key = false
      end.
Proof.
  intros Hd. induction fuel as [|fuel IH]; intros i j x y Hx Hy Hij Hf.
  - assert (i = j) as -> by lia. assert (x = y) as -> by congruence.
    exists None. simpl. rewrite iter_eqb_refl. split; [done|]. intros; lia.
  - destruct (decide (i = j)) as [->|Hne].
    + assert (x = y) as -> by congruence.
      exists None. simpl. rewrite iter_eqb_refl. split; [done|]. intros; lia.
    + assert (Hxy : x <> y).
      { intros ->. destruct Hd as (_ & _ & Hnd & _). apply NoDup_cons in Hnd as [_ Hnd].
        by pose proof (NoDup_lookup _ _ _ _ Hnd Hx Hy). }
      assert (Hlen : (j < length (xs ++ [tl]))%nat) by (by eapply lookup_lt_Some).
      rewrite length_app in Hlen. simpl in Hlen.
      assert (Hxi : xs !! i = Some x) by (rewrite lookup_app_l in Hx by lia; done).
      pose proof Hd as (_ & _ & _ & _ & Hv & _).
      destruct (Hv x) as [kv Hkv]; [by eapply list_elem_of_lookup_2|].
      assert (is_Some ((xs ++ [tl]) !! S i)) as [x' Hx'].
      { apply lookup_lt_is_Some. rewrite length_app. simpl. lia. }
      pose proof (dll_next _ _ _ _ _ _ _ Hd Hx Hx') as [Hn _].
      simpl. unfold iter_eqb. rewrite bool_decide_eq_false_2 by congruence.
      rewrite (bind_run _ _ _ _ _ (load_value_ok _ _ _ Hkv)).
      destruct (key_equal kv.1 key) eqn:Hk.
      * exists (Some (Some x)). split; [done|]. exists x, kv.
        split; [done|]. split; [by eapply list_elem_of_lookup_2|done].
      * rewrite (bind_run _ _ _ _ _ (load_next_ok _ _ _ Hn)).
        destruct (IH (S i) j x' y Hx' Hy) as (r & Hr & Hspec); [lia..|].
        exists r. split; [done|]. destruct r as [it|]; [done|].
        intros k a kv' Hk' Ha Hkv'. destruct (decide (k = i)) as [->|].
        -- by simplify_eq.
        -- apply (Hspec k a kv'); [lia|done..].
Qed.

End ScanFacts.

Section MapFacts.
Context {Key Value : Type}.
Variable hasher : Key -> N.
Variable key_equal : Key -> Key -> bool.
#[local] Abbreviation MState := (@MState Key Value).

Lemma on_mem_map {A} (c : M (@Mem Key Value) A) m m' (mp : UnorderedMap) a :
  c m = Ret a m' -> on_mem c (m, mp) = Ret a (m', mp).
Proof. apply on_mem_run. Qed.

Lemma this_ok (s : MState) : this s = Ret s.2 s.
Proof. done. Qed.

Lemma bucket_at_ok (s : MState) i b :
  buckets s.2 !! N.to_nat i = Some b -> bucket_at i s = Ret b s.
Proof. intros H. unfold bucket_at, this, mbind, M_bind, bind. by rewrite H. Qed.

Lemma set_bucket_begin_ok (s : MState) i it b :
  buckets s.2 !! N.to_nat i = Some b ->
  set_bucket_begin i it s
  = Ret tt (s.1, mkMap (elements s.2) (<[N.to_nat i := mkBucket it (bucket_end b)]> (buckets s.2))).
Proof.
  intros H. unfold set_bucket_begin. rewrite (bind_run _ _ _ _ _ (bucket_at_ok _ _ _ H)). done.
Qed.

Lemma set_bucket_end_ok (s : MState) i it b :
  buckets s.2 !! N.to_nat i = Some b ->
  set_bucket_end i it s
  = Ret tt (s.1, mkMap (elements s.2) (<[N.to_nat i := mkBucket (bucket_begin b) it]> (buckets s.2))).
Proof.
  intros H. unfold set_bucket_end. rewrite (bind_run _ _ _ _ _ (bucket_at_ok _ _ _ H)). done.
Qed.

Lemma on_elements_run {A} (c : M (@LState Key Value) A) (s : MState) a t :
  c (s.1, elements s.2) = Ret a t ->
  on_elements c s = Ret a (t.1, mkMap t.2 (buckets s.2)).
Proof. unfold on_elements, zoom. by intros ->. Qed.

Lemma get_bucket_index_lt (m : UnorderedMap) k :
  buckets m <> [] ->
  get_bucket_index hasher m k = hasher k mod bucket_count m /\
  (N.to_nat (get_bucket_index hasher m k) < length (buckets m))%nat.
Proof.
  intros Hne. unfold get_bucket_index, bucket_count.
  destruct (buckets m) as [|b bs] eqn:E; [done|]. split; [done|].
  pose proof (N.mod_upper_bound (hasher k) (N.of_nat (length (b :: bs)))).
  simpl in *. lia.
Qed.

(** On a bucket that passes [bucket_ok] the scan returns with the fuel
    [with_fuel] gives it, and leaves the state alone. *)
Lemma scan_bucket_spec (s : MState) hd tl xs b key :
  dll (s.1, elements s.2) hd tl xs ->
  bucket_ok (xs ++ [tl]) b ->
  exists r,
    on_mem (with_fuel (fun fuel =>
      bucket_scan key_equal key (bucket_end b) fuel (bucket_begin b))) s = Ret r s /\
    match r with
    | Some it =>
        exists a kv, it = Some a /\ a ∈ xs /\
          val (cells s.1) a = Some kv /\ key_equal kv.1 key = true
    | None => True
    end /\
    ((forall a kv, a ∈ xs -> val (cells s.1) a = Some kv -> key_equal kv.1 key = false) ->
     r = None).
Proof.
  intros Hd (x & y & Hbx & Hby & Hxy).
  pose proof Hxy as (i & j & Hij & Hi & Hj).
  assert (Hj' : (j <= length xs)%nat).
  { apply lookup_lt_Some in Hj. rewrite length_app in Hj. simpl in Hj. lia. }
  pose proof (dll_size_bound _ _ _ _ Hd) as Hsz. cbn [fst] in Hsz.
  destruct (bucket_scan_spec key_equal _ hd tl xs key (S (size (cells s.1))) Hd i j x y Hi Hj Hij)
    as (r & Hr & Hspec); [lia|].
  exists r. rewrite Hbx, Hby. cbn [fst] in *. split; [|split].
  - destruct s as [m mp]. apply on_mem_run. exact Hr.
  - by destruct r.
  - intros Hno. destruct r as [it|]; [|done].
    destruct Hspec as (a & kv & _ & Ha & Hv & Hk). by rewrite (Hno a kv Ha Hv) in Hk.
Qed.

Lemma bucket_ok_insert L1 R1 f b :
  bucket_ok (L1 ++ R1) b -> bucket_ok (L1 ++ f :: R1) b.
Proof.
  intros (x & y & ? & ? & ?). exists x, y. split; [done|]. split; [done|].
  by apply before_insert.
Qed.

Lemma usable_set_bucket (s : MState) hd tl xs k nb :
  usable hasher s hd tl xs ->
  bucket_ok (xs ++ [tl]) nb -> bucket_begin nb <> Some tl ->
  usable hasher (s.1, mkMap (elements s.2) (<[k := nb]> (buckets s.2))) hd tl xs.
Proof.
  intros (Hd & Hsz & Hne & Hok & Hown) Hnb Hbegin.
  unfold usable, bucket_count. cbn [fst snd elements buckets].
  split; [done|]. split; [done|]. split.
  { intros E. apply (f_equal length) in E. rewrite length_insert in E.
    by destruct (buckets s.2). }
  split; [by apply Forall_insert|].
  intros a kv Ha Hv. destruct (Hown a kv Ha Hv) as (b0 & Hb0 & Hb0').
  rewrite length_insert. unfold bucket_count in Hb0.
  destruct (decide (k = N.to_nat (hasher kv.1 mod N.of_nat (length (buckets s.2))))) as [->|Hk].
  - exists nb. split; [|done]. apply list_lookup_insert_eq. by eapply lookup_lt_Some.
  - exists b0. split; [|done]. by rewrite list_lookup_insert_ne.
Qed.

Lemma chain_snoc_lookup (xs : list addr) f tl :
  ((xs ++ [f]) ++ [tl]) !! length xs = Some f /\
  ((xs ++ [f]) ++ [tl]) !! S (length xs) = Some tl.
Proof.
  rewrite <- app_assoc. split.
  - rewrite lookup_app_r by lia. by rewrite Nat.sub_diag.
  - rewrite lookup_app_r by lia. by replace (S (length xs) - length xs)%nat with 1%nat by lia.
Qed.

(** A map stays usable when a node is put in front of the end of the bucket
    of its key. *)
Lemma usable_insertion (s : MState) (t : LState) hd tl xs xs' v L1 y R1 f b :
  usable hasher s hd tl xs ->
  (N.of_nat (length xs) + 1 < size_t_modulus) ->
  xs ++ [tl] = L1 ++ y :: R1 ->
  xs' ++ [tl] = L1 ++ f :: y :: R1 ->
  dll t hd tl xs' ->
  size_ t.2 = wrap (size_ (elements s.2) + 1) ->
  val (cells t.1) f = Some v ->
  (forall a, a <> f -> val (cells t.1) a = val (cells s.1) a) ->
  buckets s.2 !! N.to_nat (get_bucket_index hasher s.2 v.1) = Some b ->
  bucket_begin b <> Some tl ->
  usable hasher (t.1, mkMap t.2 (buckets s.2)) hd tl xs' /\ xs' ≡ₚ f :: xs.
Proof.
  intros (Hd & Hsz & Hne & Hok & Hown) Hwrap Hsplit Hxs' Hd' Hsize Hvf Hvo Hb Hbegin.
  assert (Hperm : xs' ≡ₚ f :: xs).
  { apply (Permutation_app_inv_r [tl]). rewrite Hxs'.
    change ((f :: xs) ++ [tl]) with (f :: xs ++ [tl]). rewrite Hsplit.
    by rewrite Permutation_middle. }
  split; [|done].
  assert (Hfxs : f ∉ xs).
  { intros Hf. destruct Hd' as (_ & _ & Hnd & _). apply NoDup_cons in Hnd as [_ Hnd].
    apply NoDup_app in Hnd as (Hnd & _). rewrite Hperm in Hnd.
    by apply NoDup_cons in Hnd as [? _]. }
  unfold usable, bucket_count. cbn [fst snd elements buckets].
  split; [by destruct t|]. split.
  { rewrite Hsize, Hsz. rewrite (Permutation_length Hperm). simpl.
    unfold wrap. rewrite N.mod_small by done. lia. }
  split; [done|]. split.
  { rewrite Hxs'. eapply Forall_impl; [exact Hok|].
    intros b' Hb'. apply bucket_ok_insert. by rewrite <- Hsplit. }
  intros a kv Ha Hva. rewrite Hperm in Ha. apply elem_of_cons in Ha as [->|Ha].
  - rewrite Hvf in Hva. injection Hva as <-.
    destruct (get_bucket_index_lt s.2 v.1 Hne) as [Hidx _]. unfold bucket_count in Hidx.
    rewrite <- Hidx. eauto.
  - rewrite Hvo in Hva by (by intros ->). apply (Hown a kv Ha Hva).
Qed.

(** The block that opens an empty bucket for the node [f] that was just
    put at the tail. *)
Lemma open_bucket_spec (s : MState) (t : LState) hd tl xs v i b f :
  usable hasher s hd tl xs ->
  (N.of_nat (length xs) + 1 < size_t_modulus) ->
  i = get_bucket_index hasher s.2 v.1 ->
  buckets s.2 !! N.to_nat i = Some b ->
  dll t hd tl (xs ++ [f]) ->
  size_ t.2 = wrap (size_ (elements s.2) + 1) ->
  val (cells t.1) f = Some v ->
  (forall a, a <> f -> val (cells t.1) a = val (cells s.1) a) ->
  exists s',
    open_bucket hasher i (Some f) (t.1, mkMap t.2 (buckets s.2)) = Ret tt s' /\
    usable hasher s' hd tl (xs ++ [f]) /\
    length (buckets s'.2) = length (buckets s.2) /\
    s'.1 = t.1.
Proof.
  intros (Hd & Hsz & Hne & Hok & Hown) Hwrap Hi Hb Hd' Hsize Hvf Hvo.
  pose proof Hd' as (_ & Htl2 & _).
  assert (Hd1 : dll (t.1, t.2) hd tl (xs ++ [f])) by (by destruct t).
  destruct (chain_snoc_lookup xs f tl) as [Hcf Hct].
  pose proof (dll_next _ _ _ _ _ _ _ Hd1 Hcf Hct) as [Hfn _]. cbn [fst snd] in Hfn.
  unfold open_bucket. rewrite ?bind_assoc.
  rewrite (bind_run _ _ _ _ _ (set_bucket_begin_ok (t.1, mkMap t.2 (buckets s.2)) i (Some f) b Hb)).
  cbn [fst snd elements buckets]. rewrite ?bind_assoc.
  set (B1 := <[N.to_nat i := mkBucket (Some f) (bucket_end b)]> (buckets s.2)).
  rewrite (bind_run _ _ _ _ _ (on_mem_map _ _ _ _ _ (load_next_ok _ _ _ Hfn))).
  rewrite ?bind_assoc.
  assert (HB1 : B1 !! N.to_nat i = Some (mkBucket (Some f) (bucket_end b))).
  { unfold B1. apply list_lookup_insert_eq. by eapply lookup_lt_Some. }
  rewrite (bind_run _ _ _ _ _ (set_bucket_end_ok (t.1, mkMap t.2 B1) i (Some tl) _ HB1)).
  cbn [fst snd elements buckets bucket_begin]. rewrite ?bind_assoc.
  set (B2 := <[N.to_nat i := mkBucket (Some f) (Some tl)]> B1).
  assert (HB2 : B2 = <[N.to_nat i := mkBucket (Some f) (Some tl)]> (buckets s.2)).
  { unfold B2, B1. apply list_insert_insert_eq. }
  assert (Hfxs : f ∉ xs).
  { intros Hf. destruct Hd1 as (_ & _ & Hnd1 & _). apply NoDup_cons in Hnd1 as [_ Hnd1].
    rewrite <- app_assoc in Hnd1. apply NoDup_app in Hnd1 as (_ & Hnd1 & _).
    apply (Hnd1 f Hf). by left. }
  assert (Hlen : (N.to_nat i < length (buckets s.2))%nat) by (by eapply lookup_lt_Some).
  (* with bucket [i] opened the state is usable again *)
  assert (Hu2 : usable hasher (t.1, mkMap t.2 B2) hd tl (xs ++ [f])).
  { unfold usable, bucket_count. cbn [fst snd elements buckets].
    split; [done|]. split.
    { rewrite Hsize, Hsz, length_app. simpl.
      unfold wrap. rewrite N.mod_small by done. lia. }
    split.
    { intros E. apply (f_equal length) in E. rewrite HB2, length_insert in E.
      by destruct (buckets s.2). }
    split.
    { rewrite HB2. apply Forall_insert.
      - rewrite <- app_assoc. eapply Forall_impl; [exact Hok|].
        intros b' Hb'. by apply bucket_ok_insert.
      - exists f, tl. split; [done|]. split; [done|].
        exists (length xs), (S (length xs)). split; [lia|done]. }
    intros a kv Ha Hva. rewrite HB2, length_insert.
    destruct (decide (N.to_nat i = N.to_nat (hasher kv.1 mod N.of_nat (length (buckets s.2)))))
      as [Hk|Hk].
    - exists (mkBucket (Some f) (Some tl)). rewrite <- Hk.
      split; [by apply list_lookup_insert_eq|]. cbn [bucket_begin].
      intros [= ->]. destruct Hd1 as (_ & _ & Hnd1 & _). apply NoDup_cons in Hnd1 as [_ Hnd1].
      pose proof (NoDup_lookup _ _ _ _ Hnd1 Hcf Hct). lia.
    - rewrite list_lookup_insert_ne by done.
      apply elem_of_app in Ha as [Ha|Ha%list_elem_of_singleton].
      + rewrite Hvo in Hva by (by intros ->). apply (Hown a kv Ha Hva).
      + subst a. exfalso. apply Hk. rewrite Hvf in Hva. injection Hva as <-. rewrite Hi.
        destruct (get_bucket_index_lt s.2 v.1 Hne) as [-> _]. done. }
  assert (HlenB2 : length B2 = length (buckets s.2)) by (by rewrite HB2, length_insert).
  destruct (chain_first (xs ++ [f]) tl) as [a0 Ha0].
  rewrite (bind_run _ _ _ _ _ (on_elements_run _ (t.1, mkMap t.2 B2) _ _
             (List_begin_spec _ _ _ _ _ Hd1 Ha0))).
  cbn [fst snd elements buckets].
  destruct (decide (a0 = f)) as [->|Hne0].
  { (* the new node is the only one *)
    rewrite iter_eqb_refl. eexists. split; [done|]. by cbn [fst snd buckets]. }
  unfold iter_eqb at 1. rewrite bool_decide_eq_false_2 by congruence.
  rewrite ?bind_assoc.
  (* the node in front of the new one *)
  destruct (snoc_or_nil xs) as [->|(xs0 & p & ->)].
  { simpl in Ha0. congruence. }
  assert (Hcp : (((xs0 ++ [p]) ++ [f]) ++ [tl]) !! length xs0 = Some p).
  { rewrite <- !app_assoc. rewrite lookup_app_r by lia. by rewrite Nat.sub_diag. }
  rewrite length_app in Hcf. simpl in Hcf.
  replace (length xs0 + 1)%nat with (S (length xs0)) in Hcf by lia.
  pose proof (dll_next _ _ _ _ _ _ _ Hd1 Hcp Hcf) as [_ Hfp]. cbn [fst snd] in Hfp.
  rewrite (bind_run _ _ _ _ _ (on_mem_map _ _ _ _ _ (load_prev_ok _ _ _ Hfp))).
  rewrite ?bind_assoc.
  assert (Hpin : p ∈ xs0 ++ [p]) by (apply elem_of_app; right; by left).
  destruct Hd as (_ & _ & _ & _ & Hvs & _). cbn [fst snd] in Hvs.
  destruct (Hvs p Hpin) as [pkv Hpkv].
  assert (Hpf : p <> f) by (by intros ->).
  assert (Hpkv' : val (cells t.1) p = Some pkv) by (by rewrite Hvo).
  rewrite (bind_run _ _ _ _ _ (on_mem_map _ _ _ _ _ (load_value_ok _ _ _ Hpkv'))).
  rewrite ?bind_assoc.
  rewrite (bind_run _ _ _ _ _ (this_ok (t.1, mkMap t.2 B2))). cbn [snd].
  destruct (Hown p pkv Hpin Hpkv) as (pb & Hpb & Hpbb).
  assert (Hne2 : B2 <> []) by (destruct Hu2 as (_ & _ & ? & _); done).
  destruct (get_bucket_index_lt (mkMap t.2 B2) pkv.1 Hne2) as [Hpi _].
  unfold bucket_count in Hpi, Hpb. cbn [buckets] in Hpi. rewrite HlenB2 in Hpi.
  rewrite Hpi.
  destruct (N.eqb_spec (hasher pkv.1 mod N.of_nat (length (buckets s.2))) i) as [Heq|Hneq].
  { eexists. split; [done|]. by cbn [fst snd buckets]. }
  rewrite ?bind_assoc.
  assert (HpB2 : B2 !! N.to_nat (hasher pkv.1 mod N.of_nat (length (buckets s.2))) = Some pb).
  { rewrite HB2, list_lookup_insert_ne; [done|]. intros E. apply Hneq. lia. }
  rewrite (bind_run _ _ _ _ _ (bucket_at_ok (t.1, mkMap t.2 B2) _ _ HpB2)).
  unfold map_end, List_end. cbn [elements]. rewrite Htl2.
  destruct (iter_eqb (bucket_end pb) (Some tl)) eqn:Hend.
  2:{ eexists. split; [done|]. by cbn [fst snd buckets]. }
  rewrite (set_bucket_end_ok (t.1, mkMap t.2 B2) _ (Some f) _ HpB2).
  cbn [fst snd elements buckets].
  eexists. split; [done|]. cbn [fst snd buckets].
  split; [|by rewrite length_insert].
  apply (usable_set_bucket (t.1, mkMap t.2 B2) hd tl _ _ _ Hu2); [|done].
  (* the repaired bucket ends at the new node *)
  pose proof (Forall_lookup_1 _ _ _ _ Hok Hpb) as (x & y & Hx & Hy & Hxy).
  exists x, f. split; [done|]. split; [done|].
  destruct Hxy as (ix & iy & _ & Hix & _).
  assert (Hixlt : (ix < length (xs0 ++ [p]))%nat).
  { apply lookup_lt_Some in Hix as Hlt. rewrite length_app in Hlt. simpl in Hlt.
    destruct (decide (ix = length (xs0 ++ [p]))) as [->|]; [|lia].
    rewrite lookup_app_r, Nat.sub_diag in Hix by lia. simpl in Hix. congruence. }
  exists ix, (length (xs0 ++ [p])). split; [lia|]. split.
  - rewrite <- app_assoc. rewrite lookup_app_l by done.
    by rewrite lookup_app_l in Hix by done.
  - rewrite <- app_assoc. rewrite lookup_app_r by lia. by rewrite Nat.sub_diag.
Qed.

(** The branch of [insert] for a bucket that is not empty. *)
Lemma insert_into_bucket (s : MState) hd tl xs v i b :
  usable hasher s hd tl xs ->
  (N.of_nat (length xs) + 1 < size_t_modulus) ->
  i = get_bucket_index hasher s.2 v.1 ->
  buckets s.2 !! N.to_nat i = Some b ->
  bucket_begin b <> Some tl ->
  exists s' xs',
    on_elements (List_emplace (bucket_end b) (Constructs v)) s = Ret (Some (brk s.1)) s' /\
    usable hasher s' hd tl xs' /\
    buckets s'.2 = buckets s.2 /\
    xs' ≡ₚ brk s.1 :: xs /\
    val (cells s'.1) (brk s.1) = Some v /\
    (forall a, a <> brk s.1 -> val (cells s'.1) a = val (cells s.1) a).
Proof.
  intros Hu Hwrap -> Hb Hbegin. pose proof Hu as (Hd & _ & _ & Hok & _).
  pose proof (Forall_lookup_1 _ _ _ _ Hok Hb) as (x & y & Hbx & Hby & Hxy).
  pose proof Hxy as (ix & iy & _ & _ & Hy).
  apply list_elem_of_split_length in Hy as (L1 & R1 & Hsplit & _).
  destruct (List_emplace_spec _ hd tl xs L1 y R1 v Hd Hsplit)
    as (t & xs' & Hrun & Hxs' & Hd' & Ht2 & Hbrk & Hvf & Hvo).
  cbn [fst snd] in *.
  destruct (usable_insertion s t hd tl xs xs' v L1 y R1 (brk s.1) b) as [Hu' Hperm];
    try done.
  { by rewrite Ht2. }
  exists (t.1, mkMap t.2 (buckets s.2)), xs'.
  rewrite Hby. split; [by apply on_elements_run|]. done.
Qed.

(** The branch of [insert] for an empty bucket. *)
Lemma insert_into_empty_bucket (s : MState) hd tl xs v i b :
  usable hasher s hd tl xs ->
  (N.of_nat (length xs) + 1 < size_t_modulus) ->
  i = get_bucket_index hasher s.2 v.1 ->
  buckets s.2 !! N.to_nat i = Some b ->
  bucket_begin b = Some tl ->
  exists s',
    (new_it ← on_elements (List_emplace (map_end s.2) (Constructs v));
     open_bucket hasher i new_it;; mret (new_it, true)) s
      = Ret (Some (brk s.1), true) s' /\
    usable hasher s' hd tl (xs ++ [brk s.1]) /\
    length (buckets s'.2) = length (buckets s.2) /\
    val (cells s'.1) (brk s.1) = Some v /\
    (forall a, a <> brk s.1 -> val (cells s'.1) a = val (cells s.1) a).
Proof.
  intros Hu Hwrap Hi Hb Hbegin. pose proof Hu as (Hd & _).
  set (f := brk s.1).
  pose proof Hd as (_ & Htl & _). cbn [fst snd] in Htl.
  (* the new node goes in front of the tail sentinel *)
  destruct (List_emplace_spec _ hd tl xs xs tl [] v Hd eq_refl)
    as (t & xs' & Hrun & Hxs' & Hd' & Ht2 & Hbrk & Hvf & Hvo).
  cbn [fst snd] in *. fold f in Hrun, Hxs', Hvf, Hvo.
  assert (xs' = xs ++ [f]) as ->.
  { change (xs ++ [f; tl]) with (xs ++ [f] ++ [tl]) in Hxs'. rewrite app_assoc in Hxs'.
    by apply app_inj_tail in Hxs' as [-> _]. }
  unfold map_end, List_end. rewrite Htl.
  rewrite (bind_run _ _ _ _ _ (on_elements_run _ _ _ _ Hrun)).
  destruct (open_bucket_spec s t hd tl xs v i b f Hu Hwrap Hi Hb Hd')
    as (s' & Hrun' & Hu' & Hlen & Hmem); [by rewrite Ht2|done|done|].
  rewrite (bind_run _ _ _ _ _ Hrun').
  exists s'. split; [done|]. split; [done|]. split; [done|]. by rewrite Hmem.
Qed.

(** [insert] on a usable map, once [check_rehash] has run. *)
Lemma insert_after_check (s0 s : MState) hd tl xs v :
  check_rehash hasher s0 = Ret tt s ->
  usable hasher s hd tl xs ->
  (N.of_nat (length xs) + 1 < size_t_modulus) ->
  exists r s' xs',
    insert hasher key_equal v s0 = Ret r s' /\
    usable hasher s' hd tl xs' /\
    length (buckets s'.2) = length (buckets s.2) /\
    (r.2 = false -> s' = s /\ xs' = xs) /\
    (r.2 = true ->
       r.1 = Some (brk s.1) /\ xs' ≡ₚ brk s.1 :: xs /\
       val (cells s'.1) (brk s.1) = Some v /\
       (forall a, a <> brk s.1 -> val (cells s'.1) a = val (cells s.1) a)) /\
    ((forall a kv, a ∈ xs -> val (cells s.1) a = Some kv -> key_equal kv.1 v.1 = false) ->
     r.2 = true).
Proof.
  intros Hc Hu Hwrap. pose proof Hu as (Hd & Hsz & Hne & Hok & Hown).
  unfold insert. rewrite (bind_run _ _ _ _ _ Hc).
  rewrite (bind_run _ _ _ _ _ (this_ok s)).
  destruct (get_bucket_index_lt s.2 v.1 Hne) as [_ Hlt].
  apply lookup_lt_is_Some in Hlt as [b Hb].
  rewrite (bind_run _ _ _ _ _ (bucket_at_ok _ _ _ Hb)).
  destruct (scan_bucket_spec s hd tl xs b v.1 Hd (Forall_lookup_1 _ _ _ _ Hok Hb))
    as (r & Hr & Hsome & Hnone).
  rewrite (bind_run _ _ _ _ _ Hr).
  destruct r as [it|].
  { (* the key is there *)
    exists (it, false), s, xs. split; [done|]. split; [done|]. split; [done|].
    split; [done|]. split; [done|]. intros Hno. by specialize (Hnone Hno). }
  pose proof Hd as (_ & Htl & _). cbn [fst snd] in Htl.
  unfold iter_eqb. destruct (decide (bucket_begin b = map_end s.2)) as [Hbe|Hbe].
  - rewrite bool_decide_eq_true_2 by done.
    unfold map_end, List_end in Hbe. rewrite Htl in Hbe.
    destruct (insert_into_empty_bucket s hd tl xs v _ b Hu Hwrap eq_refl Hb Hbe)
      as (s' & Hrun & Hu' & Hlen & Hvf & Hvo).
    exists (Some (brk s.1), true), s', (xs ++ [brk s.1]).
    split; [done|]. split; [done|]. split; [done|]. split; [done|].
    split; [|done]. intros _. split; [done|]. split; [|done].
    symmetry. apply Permutation_cons_append.
  - rewrite bool_decide_eq_false_2 by done.
    unfold map_end, List_end in Hbe. rewrite Htl in Hbe.
    destruct (insert_into_bucket s hd tl xs v _ b Hu Hwrap eq_refl Hb Hbe)
      as (s' & xs' & Hrun & Hu' & Hbs & Hperm & Hvf & Hvo).
    rewrite (bind_run _ _ _ _ _ Hrun).
    exists (Some (brk s.1), true), s', xs'.
    split; [done|]. split; [done|]. split; [by rewrite Hbs|]. split; [done|]. done.
Qed.

(** *** [rehash]: grouping the nodes *)

Lemma groups_of_length idx l : forall acc, length (groups_of idx l acc) = length acc.
Proof.
  induction l as [|a l IH]; intros acc; [done|]. simpl.
  rewrite IH. unfold add_to_group. by rewrite length_alter.
Qed.

Lemma concat_alter_snoc {A} (acc : list (list A)) i x :
  (i < length acc)%nat ->
  concat (alter (fun g => g ++ [x]) i acc) ≡ₚ x :: concat acc.
Proof.
  revert i. induction acc as [|g acc IH]; intros [|i] Hi; simpl in *; try lia.
  - rewrite <- app_assoc. simpl. by rewrite <- Permutation_middle.
  - fold (alter (fun g => g ++ [x]) i acc).
    rewrite IH by lia. by rewrite Permutation_middle.
Qed.

Lemma concat_add_to_group idx acc a :
  (idx a < length acc)%nat ->
  concat (add_to_group idx acc a) ≡ₚ Some a :: concat acc.
Proof. apply concat_alter_snoc. Qed.

Lemma groups_of_concat idx l : forall acc,
  (forall a, a ∈ l -> (idx a < length acc)%nat) ->
  concat (groups_of idx l acc) ≡ₚ concat acc ++ (Some <$> l).
Proof.
  induction l as [|a l IH]; intros acc Hidx; simpl.
  - by rewrite app_nil_r.
  - rewrite IH.
    + rewrite concat_add_to_group by (apply Hidx; by left).
      by rewrite <- Permutation_middle.
    + intros a' Ha'. unfold add_to_group. rewrite length_alter. apply Hidx. by right.
Qed.

Lemma groups_of_grouped idx l : forall acc,
  grouped idx 0 acc -> grouped idx 0 (groups_of idx l acc).
Proof.
  induction l as [|a l IH]; intros acc Hacc; [done|]. simpl. apply IH.
  intros j g it Hg Hit. unfold add_to_group in Hg.
  destruct (decide (idx a = j)) as [<-|Hne].
  - rewrite list_lookup_alter_eq in Hg.
    destruct (acc !! idx a) as [g0|] eqn:E; [|done]. simpl in Hg. injection Hg as <-.
    apply elem_of_app in Hit as [Hit|Hit%list_elem_of_singleton].
    + by apply (Hacc _ g0).
    + exists a. by subst.
  - rewrite list_lookup_alter_ne in Hg by done. by apply (Hacc _ g).
Qed.

(** The first loop of [rehash] returns the groups that [groups_of]
    computes from the nodes in list order. *)
Lemma rehash_collect_spec (s : @LState Key Value) hd tl xs (n : N) fuel :
  dll s hd tl xs ->
  0 < n ->
  forall i x acc,
    (xs ++ [tl]) !! i = Some x ->
    length acc = N.to_nat n ->
    (length xs - i <= fuel)%nat ->
    rehash_collect hasher n (Some tl) fuel (Some x) acc s.1
    = Ret (groups_of (node_index hasher (cells s.1) n) (drop i xs) acc) s.1.
Proof.
  intros Hd Hn. pose proof Hd as (_ & _ & Hnd & _ & Hv & _). cbn [fst snd] in *.
  apply NoDup_cons in Hnd as [_ Hnd].
  assert (Htl : (xs ++ [tl]) !! length xs = Some tl).
  { rewrite lookup_app_r by lia. by rewrite Nat.sub_diag. }
  induction fuel as [|fuel IH]; intros i x acc Hx Hacc Hf.
  - assert (i = length xs) as ->.
    { apply lookup_lt_Some in Hx. rewrite length_app in Hx. simpl in Hx. lia. }
    assert (x = tl) as -> by congruence.
    simpl. rewrite iter_eqb_refl. by rewrite drop_all.
  - destruct (decide (i = length xs)) as [->|Hi].
    + assert (x = tl) as -> by congruence.
      simpl. rewrite iter_eqb_refl. by rewrite drop_all.
    + assert (Hlt : (i < length xs)%nat).
      { apply lookup_lt_Some in Hx. rewrite length_app in Hx. simpl in Hx. lia. }
      assert (Hxi : xs !! i = Some x) by (by rewrite lookup_app_l in Hx).
      assert (Hxtl : x <> tl).
      { intros ->. pose proof (NoDup_lookup _ _ _ _ Hnd Hx Htl). lia. }
      destruct (Hv x) as [kv Hkv]; [by eapply list_elem_of_lookup_2|].
      assert (is_Some ((xs ++ [tl]) !! S i)) as [x' Hx'].
      { apply lookup_lt_is_Some. rewrite length_app. simpl. lia. }
      pose proof (dll_next _ _ _ _ _ _ _ Hd Hx Hx') as [Hnx _]. cbn [fst] in Hnx.
      simpl. unfold iter_eqb. rewrite bool_decide_eq_false_2 by congruence.
      rewrite (bind_run _ _ _ _ _ (load_value_ok _ _ _ Hkv)).
      assert (Hidx : (N.to_nat (hasher kv.1 mod n) < length acc)%nat).
      { pose proof (N.mod_upper_bound (hasher kv.1) n). lia. }
      apply lookup_lt_is_Some in Hidx as [g Hg]. rewrite Hg.
      rewrite (bind_run _ _ _ _ _ (load_next_ok _ _ _ Hnx)).
      rewrite (IH (S i) x'); [|done|by rewrite length_alter|lia].
      rewrite (drop_S _ _ _ Hxi). cbn [groups_of foldl].
      unfold add_to_group at 2. unfold node_index at 3. by rewrite Hkv.
Qed.

(** *** [rehash]: relinking one group *)

(** The inner loop of the second pass puts the nodes of the group [g], in
    this order, in front of the nodes still to be placed, and keeps every
    position pair that lies outside them in order. *)
Lemma rehash_place_spec hd tl : forall (g : list addr) (s : @LState Key Value) done rest cur,
  dll s hd tl (done ++ rest) ->
  (rest ++ [tl]) !! 0%nat = Some cur ->
  NoDup g -> (forall a, a ∈ g -> a ∈ rest) ->
  exists s' rest' cur',
    rehash_place (Some <$> g) (Some cur) s = Ret (Some cur') s' /\
    dll s' hd tl ((done ++ g) ++ rest') /\
    (rest' ++ [tl]) !! 0%nat = Some cur' /\
    rest ≡ₚ g ++ rest' /\
    s'.2 = s.2 /\ brk s'.1 = brk s.1 /\
    (forall a, val (cells s'.1) a = val (cells s.1) a) /\
    (forall x y, before ((done ++ rest) ++ [tl]) x y ->
       x ∉ tail (rest ++ [tl]) -> y ∉ tail (rest ++ [tl]) ->
       before (((done ++ g) ++ rest') ++ [tl]) x y) /\
    (forall a, a ∈ tail (rest' ++ [tl]) -> a ∈ tail (rest ++ [tl])) /\
    (cur ∈ g \/ cur' = cur).
Proof.
  induction g as [|old g IH]; intros s done rest cur Hd Hcur Hnd Hin.
  { exists s, rest, cur. simpl. rewrite !app_nil_r.
    repeat (split; [by auto|]). by right. }
  apply NoDup_cons in Hnd as [Hold Hnd].
  assert (Hrest : exists restT, rest = cur :: restT).
  { destruct rest as [|c restT].
    - exfalso. specialize (Hin old). rewrite elem_of_nil in Hin. apply Hin. by left.
    - simpl in Hcur. injection Hcur as ->. eauto. }
  destruct Hrest as (restT & ->).
  pose proof Hd as (_ & _ & Hndc & _). cbn [fst snd] in Hndc.
  apply NoDup_cons in Hndc as [_ Hndc].
  cbn [fmap list_fmap rehash_place]. fold (fmap (M:=list) (@Some addr) g).
  destruct (decide (old = cur)) as [->|Hne].
  - (* the node is where it belongs *)
    rewrite iter_eqb_refl.
    assert (Hret : (mret (Some cur) : M (@LState Key Value) iterator) s = Ret (Some cur) s) by done.
    rewrite (bind_run _ _ _ _ _ Hret).
    destruct (chain_first restT tl) as [cur1 Hcur1].
    assert (Hc0 : ((done ++ cur :: restT) ++ [tl]) !! length done = Some cur).
    { rewrite <- app_assoc, lookup_app_r by lia. by rewrite Nat.sub_diag. }
    assert (Hc1 : ((done ++ cur :: restT) ++ [tl]) !! S (length done) = Some cur1).
    { rewrite <- app_assoc, lookup_app_r by lia.
      by replace (S (length done) - length done)%nat with 1%nat by lia. }
    pose proof (dll_next _ _ _ _ _ _ _ Hd Hc0 Hc1) as [Hnx _].
    destruct s as [m l]. cbn [fst snd] in *.
    rewrite (bind_run _ _ _ _ _ (on_mem_run (T:=List) _ _ _ _ _ (load_next_ok _ _ _ Hnx))).
    assert (Hd1 : dll (m, l) hd tl ((done ++ [cur]) ++ restT)) by (by rewrite <- app_assoc).
    destruct (IH (m, l) (done ++ [cur]) restT cur1 Hd1 Hcur1 Hnd)
      as (s' & rest' & cur' & Hrun & Hd' & Hcur' & Hperm & Hs2 & Hbrk & Hval & Hbef & Htail & Hc).
    { intros a Ha. assert (Hin' : a ∈ cur :: restT) by (apply Hin; by right).
      assert (a <> cur) by (by intros ->).
      rewrite !elem_of_cons in Hin'. tauto. }
    exists s', rest', cur'. split; [done|].
    rewrite <- (app_assoc done [cur] g) in Hd', Hbef. cbn [app] in Hd', Hbef.
    split; [done|]. split; [done|]. split; [by rewrite Hperm|].
    split; [done|]. split; [done|]. split; [done|]. split; [|split].
    + intros x y Hxy Hx Hy. apply Hbef.
      * by rewrite <- (app_assoc done [cur] restT).
      * intros Hx'%elem_of_tail. by apply Hx.
      * intros Hy'%elem_of_tail. by apply Hy.
    + intros a Ha%Htail%elem_of_tail. done.
    + left. by left.
  - (* the node is moved in front of [current_pos] *)
    unfold iter_eqb. rewrite bool_decide_eq_false_2 by congruence.
    assert (Hoin : old ∈ restT).
    { assert (Hin' : old ∈ cur :: restT) by (apply Hin; by left).
      rewrite !elem_of_cons in Hin'. tauto. }
    apply list_elem_of_split in Hoin as (B & C & ->).
    assert (Hd0 : dll s hd tl ((done ++ cur :: B) ++ old :: C)).
    { by rewrite <- app_assoc. }
    destruct (List_move_node_spec s hd tl (done ++ cur :: B) old C done cur (B ++ C ++ [tl]) Hd0)
      as (s1 & xs1 & Hmv & Hxs1 & Hd1 & Hs12 & Hbrk1 & Hval1).
    { by list_norm. }
    assert (xs1 = (done ++ [old]) ++ cur :: B ++ C) as ->.
    { assert (E : xs1 ++ [tl] = ((done ++ [old]) ++ cur :: B ++ C) ++ [tl])
        by (rewrite Hxs1; by list_norm).
      by apply app_inj_tail in E as [? _]. }
    rewrite (bind_run _ _ _ _ _ Hmv).
    assert (Hc0 : (((done ++ [old]) ++ cur :: B ++ C) ++ [tl]) !! length done = Some old).
    { list_norm. rewrite lookup_app_r by lia. by rewrite Nat.sub_diag. }
    assert (Hc1 : (((done ++ [old]) ++ cur :: B ++ C) ++ [tl]) !! S (length done) = Some cur).
    { list_norm. rewrite lookup_app_r by lia.
      by replace (S (length done) - length done)%nat with 1%nat by lia. }
    pose proof (dll_next _ _ _ _ _ _ _ Hd1 Hc0 Hc1) as [Hnx _].
    destruct s1 as [m1 l1]. cbn [fst snd] in *.
    rewrite (bind_run _ _ _ _ _ (on_mem_run (T:=List) _ _ _ _ _ (load_next_ok _ _ _ Hnx))).
    destruct (IH (m1, l1) (done ++ [old]) (cur :: B ++ C) cur Hd1 eq_refl Hnd)
      as (s' & rest' & cur' & Hrun & Hd' & Hcur' & Hperm & Hs2 & Hbrk & Hval & Hbef & Htail & Hc).
    { intros a Ha. assert (Hin' : a ∈ cur :: B ++ old :: C) by (apply Hin; by right).
      assert (a <> old) by (by intros ->).
      rewrite !elem_of_cons, !elem_of_app, !elem_of_cons in Hin'.
      rewrite !elem_of_cons, !elem_of_app. tauto. }
    exists s', rest', cur'. split; [done|].
    rewrite <- (app_assoc done [old] g) in Hd', Hbef. cbn [app] in Hd', Hbef.
    split; [done|]. split; [done|]. split.
    { cbn [app]. rewrite <- Hperm.
      change (cur :: B ++ old :: C) with ((cur :: B) ++ old :: C).
      by rewrite <- Permutation_middle. }
    cbn [fst snd] in *.
    split; [by rewrite Hs2|]. split; [by rewrite Hbrk|].
    split; [intros a; by rewrite Hval|]. split; [|split].
    + intros x y Hxy Hx Hy. apply Hbef.
      * assert (Hxo : x <> old /\ y <> old).
        { split; intros ->; [apply Hx|apply Hy]; cbn [app tail];
            rewrite !elem_of_app, !elem_of_cons; auto. }
        destruct Hxo as [Hxo Hyo].
        list_norm. apply before_insert.
        assert (Hshape : (done ++ cur :: B ++ old :: C) ++ [tl]
                         = (done ++ cur :: B) ++ old :: C ++ [tl]) by (by list_norm).
        rewrite Hshape in Hxy, Hndc.
        apply (before_delete (done ++ cur :: B) (C ++ [tl]) old) in Hxy; [|done..].
        by list_norm_in Hxy.
      * intros Hx'. apply Hx. cbn [app tail] in *.
        rewrite !elem_of_app, !elem_of_cons in *. tauto.
      * intros Hy'. apply Hy. cbn [app tail] in *.
        rewrite !elem_of_app, !elem_of_cons in *. tauto.
    + intros a Ha%Htail. cbn [app tail] in *.
      rewrite !elem_of_app, !elem_of_cons in *. tauto.
    + destruct Hc as [?|?]; [left; by right|by right].
Qed.

Lemma head_not_in_tail (l : list addr) c :
  NoDup l -> l !! 0%nat = Some c -> c ∉ tail l.
Proof.
  destruct l as [|x l]; [done|]. simpl. intros [? _]%NoDup_cons [= ->]. done.
Qed.

(** *** [rehash]: relinking all groups *)

Lemma all_Some_fmap (g : list iterator) :
  (forall it, it ∈ g -> exists a : addr, it = Some a) -> exists ga, g = Some <$> ga.
Proof.
  induction g as [|it g IH]; intros H; [by exists []|].
  destruct (H it) as [a ->]; [by left|].
  destruct IH as [ga ->]; [intros it' Hit'; apply H; by right|].
  by exists (a :: ga).
Qed.

Lemma grouped_tail idx k g G : grouped idx k (g :: G) -> grouped idx (S k) G.
Proof.
  intros H j g' it Hg Hit. destruct (H (S j) g' it Hg Hit) as (a & -> & Ha).
  exists a. split; [done|]. lia.
Qed.

(** The outer loop of the second pass returns, and every bucket ends up as
    an ordered pair of list positions, not empty when a node hashes to it. *)
Lemma rehash_relink_spec hd tl (idx : addr -> nat) :
  forall (G : list (list iterator)) (k : nat) (s : MState) done rest cur,
  dll (s.1, elements s.2) hd tl (done ++ rest) ->
  (rest ++ [tl]) !! 0%nat = Some cur ->
  concat G ≡ₚ Some <$> rest ->
  length (buckets s.2) = (k + length G)%nat ->
  grouped idx k G ->
  Forall (bucket_inv ((done ++ rest) ++ [tl]) (tail (rest ++ [tl])) tl) (buckets s.2) ->
  (forall a, a ∈ done ->
     (idx a < k)%nat /\ exists b, buckets s.2 !! idx a = Some b /\ bucket_begin b <> Some tl) ->
  exists s' xs',
    rehash_relink (N.of_nat k) G (Some cur) s = Ret tt s' /\
    dll (s'.1, elements s'.2) hd tl xs' /\ xs' ≡ₚ done ++ rest /\
    elements s'.2 = elements s.2 /\ length (buckets s'.2) = length (buckets s.2) /\
    brk s'.1 = brk s.1 /\ (forall a, val (cells s'.1) a = val (cells s.1) a) /\
    Forall (bucket_ok (xs' ++ [tl])) (buckets s'.2) /\
    (forall a, a ∈ xs' ->
       exists b, buckets s'.2 !! idx a = Some b /\ bucket_begin b <> Some tl).
Proof.
  induction G as [|g G IH]; intros k s done rest cur Hd Hcur Hperm Hlen Hgr Hinv Hown.
  { (* every group is placed *)
    simpl in Hperm. symmetry in Hperm. apply Permutation_nil_r in Hperm.
    apply fmap_nil_inv in Hperm as ->. rewrite app_nil_r in *.
    exists s, done. split; [done|]. split; [done|]. split; [done|].
    split; [done|]. split; [done|]. split; [done|]. split; [done|]. split.
    - eapply Forall_impl; [exact Hinv|]. intros b (x & y & ? & ? & ? & _). by exists x, y.
    - intros a Ha. by apply Hown. }
  destruct g as [|it g0].
  { (* an empty group *)
    cbn [rehash_relink]. replace (N.of_nat k + 1) with (N.of_nat (S k)) by lia.
    apply (IH (S k) s done rest cur); try done.
    - simpl in Hlen. lia.
    - by eapply grouped_tail.
    - intros a Ha. destruct (Hown a Ha) as [? ?]. split; [lia|done]. }
  (* a group with nodes *)
  destruct (all_Some_fmap (it :: g0)) as [ga Hga].
  { intros it' Hit'. destruct (Hgr 0%nat _ it' eq_refl Hit') as (a & -> & _). eauto. }
  pose proof Hd as (_ & _ & Hndc & _). cbn [fst snd] in Hndc.
  apply NoDup_cons in Hndc as [_ Hndc].
  assert (Hndr : NoDup rest).
  { rewrite <- app_assoc in Hndc. apply NoDup_app in Hndc as (_ & _ & Hndc).
    by apply NoDup_app in Hndc as (? & _). }
  assert (Hndga : NoDup ga).
  { apply (NoDup_fmap (@Some addr)). rewrite <- Hga.
    assert (Hn : NoDup (Some <$> rest)) by (by apply (NoDup_fmap (@Some addr))).
    rewrite <- Hperm in Hn. cbn [concat] in Hn. by apply NoDup_app in Hn as (? & _). }
  assert (Hgain : forall a, a ∈ ga -> a ∈ rest).
  { intros a Ha. apply (list_elem_of_fmap_2 Some) in Ha. rewrite <- Hga in Ha.
    assert (Hin : Some a ∈ concat ((it :: g0) :: G))
      by (cbn [concat]; apply elem_of_app; by left).
    rewrite Hperm in Hin. apply list_elem_of_fmap in Hin as (x & Hx & Hin).
    by injection Hx as ->. }
  cbn [rehash_relink].
  assert (Hk : (k < length (buckets s.2))%nat) by (simpl in Hlen; lia).
  apply lookup_lt_is_Some in Hk as [bk Hbk].
  assert (Hbk' : buckets s.2 !! N.to_nat (N.of_nat k) = Some bk) by (by rewrite Nat2N.id).
  rewrite (bind_run _ _ _ _ _ (set_bucket_begin_ok s (N.of_nat k) (Some cur) bk Hbk')).
  rewrite Nat2N.id.
  set (B1 := <[k := mkBucket (Some cur) (bucket_end bk)]> (buckets s.2)).
  destruct (rehash_place_spec hd tl ga (s.1, elements s.2) done rest cur Hd Hcur Hndga Hgain)
    as (t & rest' & cur' & Hrun & Hd' & Hcur' & Hperm' & Ht2 & Hbrk & Hval & Hbef & Htail & Hc).
  rewrite <- Hga in Hrun.
  rewrite (bind_run _ _ _ _ _ (on_elements_run _ (s.1, mkMap (elements s.2) B1) _ _ Hrun)).
  cbn [fst snd elements buckets] in *.
  assert (HB1k : B1 !! N.to_nat (N.of_nat k) = Some (mkBucket (Some cur) (bucket_end bk))).
  { rewrite Nat2N.id. unfold B1. apply list_lookup_insert_eq. by eapply lookup_lt_Some. }
  rewrite (bind_run _ _ _ _ _ (set_bucket_end_ok (t.1, mkMap t.2 B1) (N.of_nat k) (Some cur') _ HB1k)).
  rewrite Nat2N.id. cbn [fst snd elements buckets bucket_begin].
  set (B2 := <[k := mkBucket (Some cur) (Some cur')]> B1).
  assert (HB2 : B2 = <[k := mkBucket (Some cur) (Some cur')]> (buckets s.2)).
  { unfold B2, B1. apply list_insert_insert_eq. }
  replace (N.of_nat k + 1) with (N.of_nat (S k)) by lia.
  pose proof Hd' as (_ & _ & Hndc1 & _). cbn [fst snd] in Hndc1.
  apply NoDup_cons in Hndc1 as [_ Hndc1].
  assert (Hndr1 : NoDup (rest' ++ [tl])).
  { rewrite <- app_assoc in Hndc1. by apply NoDup_app in Hndc1 as (_ & _ & ?). }
  assert (Hrest : exists restT, rest = cur :: restT).
  { destruct rest as [|c restT].
    - destruct ga as [|a0 ga0]; [done|]. specialize (Hgain a0).
      rewrite elem_of_nil in Hgain. exfalso. apply Hgain. by left.
    - simpl in Hcur. injection Hcur as ->. eauto. }
  destruct Hrest as (restT & ->).
  assert (Hcurtl : cur <> tl).
  { intros ->. rewrite <- app_assoc in Hndc. apply NoDup_app in Hndc as (_ & _ & Hndc).
    cbn [app] in Hndc. apply NoDup_cons in Hndc as [Hx _]. apply Hx.
    apply elem_of_app. right. by left. }
  assert (Hcur'U : cur' ∉ tail (rest' ++ [tl])) by (by apply head_not_in_tail).
  assert (HcurU : cur ∉ tail (rest' ++ [tl])).
  { destruct Hc as [Hc| ->]; [|done]. intros Hx%elem_of_tail.
    rewrite <- app_assoc in Hndc1. apply NoDup_app in Hndc1 as (_ & Hndc1 & _).
    apply (Hndc1 cur); [|done]. apply elem_of_app. by right. }
  assert (Hbefore : before (((done ++ ga) ++ rest') ++ [tl]) cur cur').
  { assert (Hj : (((done ++ ga) ++ rest') ++ [tl]) !! length (done ++ ga) = Some cur').
    { rewrite <- (app_assoc _ rest'). rewrite lookup_app_r by lia. by rewrite Nat.sub_diag. }
    destruct Hc as [Hc| ->].
    - apply list_elem_of_lookup in Hc as [i Hi].
      exists (length done + i)%nat, (length (done ++ ga)). split; [|split; [|done]].
      + apply lookup_lt_Some in Hi. rewrite length_app. lia.
      + rewrite <- !app_assoc. rewrite lookup_app_r by lia.
        replace (length done + i - length done)%nat with i by lia.
        apply lookup_lt_Some in Hi as Hlt. by rewrite lookup_app_l.
    - exists (length (done ++ ga)), (length (done ++ ga)). done. }
  destruct (IH (S k) (t.1, mkMap t.2 B2) (done ++ ga) rest' cur')
    as (s' & xs' & Hrun' & Hd'' & Hperm'' & Hel & Hlen' & Hbrk' & Hval' & Hok' & Hown').
  - by destruct t.
  - done.
  - apply (Permutation_app_inv_l (it :: g0)).
    change ((it :: g0) ++ concat G) with (concat ((it :: g0) :: G)).
    rewrite Hperm, Hga, Hperm'. by rewrite fmap_app.
  - cbn [snd buckets]. rewrite HB2, length_insert. simpl in Hlen. lia.
  - by eapply grouped_tail.
  - cbn [snd buckets]. rewrite HB2. apply Forall_insert.
    + eapply Forall_impl; [exact Hinv|].
      intros b (x & y & Hx & Hy & Hxy & Hcase). exists x, y.
      split; [done|]. split; [done|]. destruct Hcase as [[-> ->]|[HxU HyU]].
      * split; [|by left]. apply before_refl. apply elem_of_app. right. by left.
      * split; [by apply Hbef|]. right. split; intros ?%Htail; done.
    + exists cur, cur'. split; [done|]. split; [done|]. split; [done|]. by right.
  - intros a [Ha|Ha]%elem_of_app; cbn [snd buckets]; rewrite HB2.
    + destruct (Hown a Ha) as (Hlt & b & Hb & Hbb). split; [lia|].
      exists b. split; [|done]. rewrite list_lookup_insert_ne by lia. done.
    + assert (Hidx : idx a = k).
      { destruct (Hgr 0%nat (it :: g0) (Some a) eq_refl) as (a' & [= <-] & ->); [|lia].
        rewrite Hga. by apply list_elem_of_fmap_2. }
      split; [lia|]. exists (mkBucket (Some cur) (Some cur')). rewrite Hidx.
      split; [|cbn [bucket_begin]; congruence].
      apply list_lookup_insert_eq. by eapply lookup_lt_Some.
  - exists s', xs'. cbn [fst snd elements buckets] in *.
    split; [done|]. split; [done|]. split.
    { rewrite Hperm'', <- app_assoc. by rewrite Hperm'. }
    split; [by rewrite Hel|]. split.
    { rewrite Hlen', HB2. by rewrite length_insert. }
    split; [by rewrite Hbrk'|]. split; [intros a; by rewrite Hval'|]. done.
Qed.

Lemma concat_replicate_nil {A} n : concat (replicate n ([] : list A)) = [].
Proof. induction n; simpl; auto. Qed.

Lemma reset_replicate (tl : iterator) n :
  reset_buckets tl (replicate n Bucket_default) = replicate n (mkBucket tl tl).
Proof. unfold reset_buckets. by rewrite fmap_replicate. Qed.

(** [rehash] on a well-formed list returns and leaves a usable map. *)
Lemma rehash_usable (s : MState) hd tl xs (n : N) :
  dll (s.1, elements s.2) hd tl xs ->
  size_ (elements s.2) = N.of_nat (length xs) ->
  0 < N.max n (map_size s.2) ->
  usable hasher s hd tl xs \/ N.max n (map_size s.2) <> bucket_count s.2 ->
  exists s' xs',
    rehash hasher n s = Ret tt s' /\
    usable hasher s' hd tl xs' /\ xs' ≡ₚ xs /\
    elements s'.2 = elements s.2 /\ brk s'.1 = brk s.1 /\
    (forall a, val (cells s'.1) a = val (cells s.1) a).
Proof.
  intros Hd Hsz Hpos Hcase.
  unfold rehash. rewrite (bind_run _ _ _ _ _ (this_ok s)).
  set (n' := if n <? map_size s.2 then map_size s.2 else n).
  assert (Hn' : n' = N.max n (map_size s.2)).
  { unfold n'. destruct (N.ltb_spec n (map_size s.2)); lia. }
  rewrite <- Hn' in Hpos, Hcase. clearbody n'.
  destruct ((n' =? bucket_count s.2) && negb (map_empty s.2)) eqn:Hnoop.
  { apply andb_true_iff in Hnoop as [Heq%N.eqb_eq _].
    destruct Hcase as [Hu|]; [|done]. exists s, xs. done. }
  pose proof Hd as (_ & Htl & Hndc & _). cbn [fst snd] in Htl, Hndc.
  apply NoDup_cons in Hndc as [_ Hndc].
  unfold map_end, List_end. rewrite Htl. rewrite reset_replicate.
  set (B0 := replicate (N.to_nat n') (mkBucket (Some tl) (Some tl))).
  assert (Hret : set_this (mkMap (elements s.2) B0) s = Ret tt (s.1, mkMap (elements s.2) B0))
    by done.
  rewrite (bind_run _ _ _ _ _ Hret).
  assert (Htlin : tl ∈ xs ++ [tl]) by (apply elem_of_app; right; by left).
  assert (HB0len : length B0 = N.to_nat n') by (unfold B0; by rewrite length_replicate).
  assert (HB0ne : B0 <> []).
  { intros E. apply (f_equal length) in E. rewrite HB0len in E. simpl in E. lia. }
  destruct (map_empty s.2) eqn:Hempty.
  { (* nothing to relink *)
    exists (s.1, mkMap (elements s.2) B0), xs.
    split; [done|]. split; [|done].
    unfold map_empty, List_empty in Hempty. apply N.eqb_eq in Hempty.
    assert (xs = []) as -> by (destruct xs; [done|]; rewrite Hsz in Hempty; simpl in Hempty; lia).
    unfold usable. cbn [fst snd elements buckets].
    split; [done|]. split; [done|]. split; [done|]. split.
    - apply Forall_forall. intros b Hb%elem_of_replicate_inv. subst b.
      exists tl, tl. split; [done|]. split; [done|]. by apply before_refl.
    - intros a kv Ha. by apply elem_of_nil in Ha. }
  destruct (chain_first xs tl) as [cur Hcur].
  rewrite (bind_run _ _ _ _ _ (on_elements_run _ (s.1, mkMap (elements s.2) B0) _ _
             (List_begin_spec _ _ _ _ _ Hd Hcur))).
  cbn [fst snd elements buckets].
  pose proof (dll_size_bound _ _ _ _ Hd) as Hbound. cbn [fst] in Hbound.
  assert (Hcollect : with_fuel (fun fuel =>
            rehash_collect hasher n' (Some tl) fuel (Some cur) (replicate (N.to_nat n') [])) s.1
          = Ret (groups_of (node_index hasher (cells s.1) n') xs (replicate (N.to_nat n') [])) s.1).
  { unfold with_fuel.
    rewrite (rehash_collect_spec (s.1, elements s.2) hd tl xs n' _ Hd Hpos 0%nat cur);
      [done|done|by rewrite length_replicate|lia]. }
  rewrite (bind_run _ _ _ _ _ (on_mem_map _ _ _ _ _ Hcollect)).
  set (idx := node_index hasher (cells s.1) n').
  set (G := groups_of idx xs (replicate (N.to_nat n') [])).
  rewrite (bind_run _ _ _ _ _ (on_elements_run _ (s.1, mkMap (elements s.2) B0) _ _
             (List_begin_spec _ _ _ _ _ Hd Hcur))).
  cbn [fst snd elements buckets].
  assert (Hidx : forall a, (idx a < N.to_nat n')%nat).
  { intros a. unfold idx, node_index. destruct (val (cells s.1) a) as [kv|]; [|lia].
    pose proof (N.mod_upper_bound (hasher kv.1) n'). lia. }
  destruct (rehash_relink_spec hd tl idx G 0 (s.1, mkMap (elements s.2) B0) [] xs cur)
    as (s' & xs' & Hrun & Hd' & Hperm & Hel & Hlen & Hbrk & Hval & Hok & Hown).
  - done.
  - done.
  - unfold G. rewrite groups_of_concat.
    + by rewrite concat_replicate_nil.
    + intros a _. rewrite length_replicate. apply Hidx.
  - cbn [snd buckets]. unfold G. rewrite groups_of_length, length_replicate. lia.
  - unfold G. apply groups_of_grouped. intros j g it Hg Hit.
    apply lookup_replicate in Hg as [-> _]. by apply elem_of_nil in Hit.
  - cbn [snd buckets app]. apply Forall_forall. intros b Hb%elem_of_replicate_inv. subst b.
    exists tl, tl. split; [done|]. split; [done|]. split; [by apply before_refl|by left].
  - intros a Ha. by apply elem_of_nil in Ha.
  - change (N.of_nat 0) with 0 in Hrun. cbn [fst snd elements buckets app] in *.
    exists s', xs'. split; [done|]. split; [|done].
    unfold usable, bucket_count. split; [done|]. split.
    { rewrite Hel, Hsz. by rewrite (Permutation_length Hperm). }
    split.
    { intros E. apply (f_equal length) in E. rewrite Hlen, HB0len in E. simpl in E. lia. }
    split; [done|].
    intros a kv Ha Hva. rewrite Hlen, HB0len, N2Nat.id.
    specialize (Hown a Ha). unfold idx, node_index in Hown.
    rewrite <- Hval, Hva in Hown. done.
Qed.

(** [check_rehash] on a usable map returns and leaves a usable map with the
    same entries. *)
Lemma check_rehash_usable (s : MState) hd tl xs :
  usable hasher s hd tl xs ->
  exists s1 xs1,
    check_rehash hasher s = Ret tt s1 /\
    usable hasher s1 hd tl xs1 /\ xs1 ≡ₚ xs /\
    elements s1.2 = elements s.2 /\ brk s1.1 = brk s.1 /\
    (forall a, val (cells s1.1) a = val (cells s.1) a) /\
    bucket_count s1.2 = grown (bucket_count s.2) (map_size s.2).
Proof.
  intros Hu. pose proof Hu as (Hd & Hsz & _).
  unfold check_rehash, grown. rewrite (bind_run _ _ _ _ _ (this_ok s)).
  unfold load_factor_exceeds.
  destruct (N.ltb_spec (bucket_count s.2) (map_size s.2)) as [Hlt|Hge].
  - destruct (rehash_usable s hd tl xs (wrap (bucket_count s.2 * 2)) Hd Hsz)
      as (s1 & xs1 & Hrun & Hu1 & Hperm & Hel & Hbrk & Hval); [lia|right; lia|].
    exists s1, xs1. split; [done|]. split; [done|]. split; [done|]. split; [done|].
    split; [done|]. split; [done|]. by apply (rehash_shape hasher) in Hrun as [_ ?].
  - exists s, xs. done.
Qed.

(** [insert] on a usable map returns and leaves a usable map. *)
Lemma insert_usable (s : MState) hd tl xs v :
  usable hasher s hd tl xs ->
  (N.of_nat (length xs) + 1 < size_t_modulus) ->
  exists r s' xs',
    insert hasher key_equal v s = Ret r s' /\
    usable hasher s' hd tl xs' /\
    bucket_count s'.2 = grown (bucket_count s.2) (map_size s.2) /\
    (r.2 = false -> xs' ≡ₚ xs /\ forall a, val (cells s'.1) a = val (cells s.1) a) /\
    (r.2 = true ->
       exists f, r.1 = Some f /\ f ∉ xs /\ xs' ≡ₚ f :: xs /\
       val (cells s'.1) f = Some v /\
       (forall a, a <> f -> val (cells s'.1) a = val (cells s.1) a)) /\
    ((forall a kv, a ∈ xs -> val (cells s.1) a = Some kv -> key_equal kv.1 v.1 = false) ->
     r.2 = true).
Proof.
  intros Hu Hwrap.
  destruct (check_rehash_usable s hd tl xs Hu)
    as (s1 & xs1 & Hc & Hu1 & Hperm1 & Hel1 & Hbrk1 & Hval1 & Hbc1).
  destruct (insert_after_check s s1 hd tl xs1 v Hc Hu1)
    as (r & s' & xs' & Hrun & Hu' & Hlen & Hfalse & Htrue & Hnew).
  { by rewrite (Permutation_length Hperm1). }
  exists r, s', xs'. split; [done|]. split; [done|]. split.
  { unfold bucket_count in *. by rewrite Hlen. }
  split; [|split].
  - intros Hr. destruct (Hfalse Hr) as [-> ->]. done.
  - intros Hr. destruct (Htrue Hr) as (Hr1 & Hperm & Hvf & Hvo).
    exists (brk s1.1). split; [done|]. split.
    { intros Hin. rewrite <- Hperm1 in Hin.
      destruct Hu1 as (Hd1 & _).
      pose proof (dll_live _ _ _ _ (brk s1.1) Hd1) as Hl.
      destruct Hd1 as (_ & _ & _ & _ & _ & Hb). cbn [fst] in *.
      assert (brk s1.1 < brk s1.1)%nat; [|lia]. apply Hb, Hl.
      right. apply elem_of_app. by left. }
    split; [by rewrite Hperm, Hperm1|]. split; [done|].
    intros a Ha. by rewrite Hvo, Hval1.
  - intros Hno. apply Hnew. intros a kv Ha Hv. rewrite Hperm1 in Ha. rewrite Hval1 in Hv.
    by apply (Hno a kv).
Qed.

(** [emplace] on a usable map, once [check_rehash] has run. *)
Lemma emplace_after_check (s0 s : MState) hd tl xs v :
  check_rehash hasher s0 = Ret tt s ->
  usable hasher s hd tl xs ->
  (N.of_nat (length xs) + 1 < size_t_modulus) ->
  exists r s' xs',
    emplace hasher key_equal (Constructs v) s0 = Ret r s' /\
    usable hasher s' hd tl xs' /\
    length (buckets s'.2) = length (buckets s.2) /\
    (forall a, a <> brk s.1 -> val (cells s'.1) a = val (cells s.1) a) /\
    (r.2 = false -> xs' = xs) /\
    (r.2 = true ->
       r.1 = Some (brk s.1) /\ xs' ≡ₚ brk s.1 :: xs /\
       val (cells s'.1) (brk s.1) = Some v).
Proof.
  intros Hc Hu Hwrap. pose proof Hu as (Hd & Hsz & Hne & Hok & Hown).
  set (f := brk s.1).
  pose proof Hd as (Hhd & Htl & Hnd0 & _). cbn [fst snd] in Hhd, Htl, Hnd0.
  unfold emplace. rewrite (bind_run _ _ _ _ _ Hc).
  rewrite (bind_run _ _ _ _ _ (this_ok s)).
  (* the new node goes in front of the tail sentinel *)
  destruct (List_emplace_spec _ hd tl xs xs tl [] v Hd eq_refl)
    as (t & xs' & Hrun & Hxs' & Hd' & Ht2 & Hbrk & Hvf & Hvo).
  cbn [fst snd] in *. fold f in Hrun, Hxs', Hvf, Hvo.
  assert (xs' = xs ++ [f]) as ->.
  { change (xs ++ [f; tl]) with (xs ++ [f] ++ [tl]) in Hxs'. rewrite app_assoc in Hxs'.
    by apply app_inj_tail in Hxs' as [-> _]. }
  unfold map_end, List_end. rewrite Htl.
  rewrite (bind_run _ _ _ _ _ (on_elements_run _ _ _ _ Hrun)).
  assert (Hd1 : dll (t.1, t.2) hd tl (xs ++ [f])) by (by destruct t).
  assert (Hsize : size_ t.2 = wrap (size_ (elements s.2) + 1)) by (by rewrite Ht2).
  rewrite (bind_run _ _ _ _ _ (on_mem_map _ _ _ _ _ (load_value_ok _ _ _ Hvf))).
  cbv zeta.
  destruct (get_bucket_index_lt s.2 v.1 Hne) as [_ Hlt].
  apply lookup_lt_is_Some in Hlt as [b Hb].
  rewrite (bind_run _ _ _ _ _ (bucket_at_ok (t.1, mkMap t.2 (buckets s.2)) _ _ Hb)).
  pose proof (Forall_lookup_1 _ _ _ _ Hok Hb) as Hbok.
  assert (Hbok' : bucket_ok ((xs ++ [f]) ++ [tl]) b).
  { rewrite <- app_assoc. by apply bucket_ok_insert. }
  destruct (scan_bucket_spec (t.1, mkMap t.2 (buckets s.2)) hd tl (xs ++ [f]) b v.1 Hd1 Hbok')
    as (r & Hr & _ & _).
  rewrite (bind_run _ _ _ _ _ Hr).
  destruct r as [it|].
  { (* an equal key was met: the new node is erased *)
    destruct (List_erase_spec (t.1, t.2) hd tl xs f []) as (t' & n & He & Hde & He2 & Hbrk' & Hvo' & _);
      [done|].
    rewrite app_nil_r in Hde. cbn [fst snd] in *.
    rewrite (bind_run _ _ _ _ _ (on_elements_run _ (t.1, mkMap t.2 (buckets s.2)) _ _ He)).
    exists (it, false), (t'.1, mkMap t'.2 (buckets s.2)), xs. cbn [fst snd elements buckets].
    split; [done|]. split; [|split; [done|split; [|done]]].
    - unfold usable, bucket_count. cbn [fst snd elements buckets].
      split; [by destruct t'|]. split.
      { rewrite He2. cbn [size_]. rewrite Hsize, Hsz. unfold wrap, size_t_modulus in *.
        rewrite (N.mod_small (N.of_nat (length xs) + 1)) by done.
        replace (N.of_nat (length xs) + 1 + 2 ^ 64 - 1) with (N.of_nat (length xs) + 1 * 2 ^ 64) by lia.
        rewrite N.Div0.mod_add. apply N.mod_small. lia. }
      split; [done|]. split; [done|].
      intros a kv Ha Hva. assert (a <> f).
      { intros ->. apply NoDup_cons in Hnd0 as [_ Hnd0].
        pose proof (dll_live _ _ _ _ f Hd) as Hl.
        destruct Hd as (_ & _ & _ & _ & _ & Hbound). cbn [fst] in *.
        assert (f < f)%nat; [|lia]. apply Hbound, Hl. right. apply elem_of_app. by left. }
      rewrite Hvo', Hvo in Hva by done. apply (Hown a kv Ha Hva).
    - intros a Ha. by rewrite Hvo', Hvo. }
  unfold iter_eqb. destruct (decide (bucket_begin b = Some tl)) as [Hbe|Hbe].
  - rewrite bool_decide_eq_true_2 by done.
    destruct (open_bucket_spec s (t.1, t.2) hd tl xs v _ b f Hu Hwrap eq_refl Hb Hd1 Hsize Hvf Hvo)
      as (s' & Hrun' & Hu' & Hlen & Hmem).
    cbn [fst snd] in Hrun'. rewrite (bind_run _ _ _ _ _ Hrun').
    exists (Some f, true), s', (xs ++ [f]).
    split; [done|]. split; [done|]. split; [done|]. rewrite Hmem. cbn [fst snd].
    split; [done|]. split; [done|]. intros _. split; [done|]. split; [|done].
    symmetry. apply Permutation_cons_append.
  - rewrite bool_decide_eq_false_2 by done.
    destruct Hbok as (x & y & Hbx & Hby & Hxy).
    pose proof Hxy as (ix & iy & _ & _ & Hy).
    apply list_elem_of_split_length in Hy as (L1 & R1 & Hsplit & _).
    destruct (List_move_node_spec (t.1, t.2) hd tl xs f [] L1 y R1) as
      (t' & xs' & Hm & Hxs'' & Hdm & Hm2 & Hbrkm & Hvm); [done|by rewrite app_nil_r|].
    cbn [fst snd] in *. rewrite Hby.
    rewrite (bind_run _ _ _ _ _ (on_elements_run _ (t.1, mkMap t.2 (buckets s.2)) _ _ Hm)).
    cbn [fst snd elements buckets].
    destruct (usable_insertion s t' hd tl xs xs' v L1 y R1 f b) as [Hu' Hperm]; try done.
    { by rewrite Hm2. }
    { by rewrite Hvm. }
    { intros a Ha. by rewrite Hvm, Hvo. }
    exists (Some f, true), (t'.1, mkMap t'.2 (buckets s.2)), xs'.
    split; [done|]. split; [done|]. split; [done|]. cbn [fst snd].
    split; [intros a Ha; by rewrite Hvm, Hvo|]. split; [done|].
    intros _. split; [done|]. split; [done|]. by rewrite Hvm.
Qed.

(** [emplace] on a usable map returns and leaves a usable map. *)
Lemma emplace_usable (s : MState) hd tl xs v :
  usable hasher s hd tl xs ->
  (N.of_nat (length xs) + 1 < size_t_modulus) ->
  exists r s' xs',
    emplace hasher key_equal (Constructs v) s = Ret r s' /\
    usable hasher s' hd tl xs' /\
    bucket_count s'.2 = grown (bucket_count s.2) (map_size s.2) /\
    (r.2 = false -> xs' ≡ₚ xs) /\
    (r.2 = true ->
       exists f, r.1 = Some f /\ f ∉ xs /\ xs' ≡ₚ f :: xs /\ val (cells s'.1) f = Some v).
Proof.
  intros Hu Hwrap.
  destruct (check_rehash_usable s hd tl xs Hu)
    as (s1 & xs1 & Hc & Hu1 & Hperm1 & Hel1 & Hbrk1 & Hval1 & Hbc1).
  destruct (emplace_after_check s s1 hd tl xs1 v Hc Hu1)
    as (r & s' & xs' & Hrun & Hu' & Hlen & Hvo & Hfalse & Htrue).
  { by rewrite (Permutation_length Hperm1). }
  exists r, s', xs'. split; [done|]. split; [done|]. split.
  { unfold bucket_count in *. by rewrite Hlen. }
  split.
  - intros Hr. by rewrite (Hfalse Hr).
  - intros Hr. destruct (Htrue Hr) as (Hr1 & Hperm & Hvf).
    exists (brk s1.1). split; [done|]. split.
    { intros Hin. rewrite <- Hperm1 in Hin.
      destruct Hu1 as (Hd1 & _).
      pose proof (dll_live _ _ _ _ (brk s1.1) Hd1) as Hl.
      destruct Hd1 as (_ & _ & _ & _ & _ & Hb). cbn [fst] in *.
      assert (brk s1.1 < brk s1.1)%nat; [|lia]. apply Hb, Hl.
      right. apply elem_of_app. by left. }
    split; [by rewrite Hperm, Hperm1|done].
Qed.

(** The constructor returns a usable, empty map with [n] buckets. *)
Lemma ctor_usable (m0 : @Mem Key Value) (n : N) :
  mem_ok m0 -> 0 < n ->
  exists mp m1,
    UnorderedMap_ctor n m0 = Ret mp m1 /\
    usable hasher (m1, mp) (brk m0) (S (brk m0)) [] /\
    bucket_count mp = n /\ map_size mp = 0.
Proof.
  intros Hok Hn. set (h := brk m0). set (t := S (brk m0)).
  unfold UnorderedMap_ctor, List_ctor. rewrite !bind_assoc.
  assert (Ha1 : allocate m0 = Ret h (mkMem (<[h := mkNode None None None]> (cells m0)) t)) by done.
  rewrite (bind_run _ _ _ _ _ Ha1). rewrite !bind_assoc.
  set (c1 := <[h := mkNode None None None]> (cells m0)).
  assert (Ha2 : allocate (mkMem c1 t) = Ret t (mkMem (<[t := mkNode None None None]> c1) (S t)))
    by done.
  rewrite (bind_run _ _ _ _ _ Ha2). rewrite !bind_assoc.
  set (c2 := <[t := mkNode None None None]> c1).
  assert (Hht : h <> t) by (unfold h, t; lia).
  assert (Hh2 : is_Some (c2 !! h)).
  { unfold c2, c1. rewrite lookup_insert_ne by done. rewrite lookup_insert_eq. eauto. }
  rewrite (bind_run _ _ _ _ _ (set_next_ok (mkMem c2 (S t)) h (Some t) Hh2)).
  rewrite !bind_assoc. cbn [cells brk].
  set (c3 := alter (with_next (Some t)) h c2).
  assert (Ht3 : is_Some (c3 !! t)).
  { unfold c3. apply live_alter. unfold c2. rewrite lookup_insert_eq. eauto. }
  rewrite (bind_run _ _ _ _ _ (set_prev_ok (mkMem c3 (S t)) t (Some h) Ht3)).
  cbn [cells brk]. set (c4 := alter (with_prev (Some h)) t c3).
  assert (Hnx : nxt c4 h = Some t).
  { unfold c4. rewrite nxt_set_prev. unfold c3. rewrite nxt_set_next by done.
    by rewrite decide_True. }
  assert (Hpv : prv c4 t = Some h).
  { unfold c4. rewrite prv_set_prev by done. by rewrite decide_True. }
  assert (Hlive : forall a, is_Some (c4 !! a) -> (a < S t)%nat).
  { intros a Ha. unfold c4, c3 in Ha. rewrite !live_alter in Ha.
    unfold c2, c1 in Ha. rewrite !lookup_insert_is_Some in Ha.
    destruct Ha as [<-|[_ [<-|[_ Ha]]]]; [unfold t; lia|unfold h, t; lia|].
    apply Hok in Ha. unfold t. lia. }
  eexists _, _. split; [done|].
  unfold List_end. cbn [tail_]. rewrite reset_replicate.
  split; [|split; [|done]].
  2:{ unfold bucket_count. cbn [buckets]. rewrite length_replicate. lia. }
  unfold usable. cbn [fst snd elements buckets cells brk head_ tail_ size_].
  split; [|split; [done|split; [|split]]].
  - unfold dll. cbn [fst snd cells brk head_ tail_ app].
    split; [done|]. split; [done|]. split; [|split; [|split]].
    + apply NoDup_cons. split; [|apply NoDup_singleton]. by rewrite list_elem_of_singleton.
    + split; [|done]. split; [exact Hnx|exact Hpv].
    + intros a Ha. by apply elem_of_nil in Ha.
    + exact Hlive.
  - intros E. apply (f_equal length) in E. rewrite length_replicate in E. simpl in E. lia.
  - apply Forall_forall. intros b Hb%elem_of_replicate_inv. subst b.
    exists t, t. split; [done|]. split; [done|]. apply before_refl. by left.
  - intros a kv Ha. by apply elem_of_nil in Ha.
Qed.

(** [insert(first, last)] of entries whose keys differ from each other and
    from the keys in the map returns, and every entry is inserted. *)
Lemma insert_range_usable (vs : list (Key * Value)) :
  forall (s : MState) hd tl xs (seen : list Key),
  usable hasher s hd tl xs ->
  (forall a kv, a ∈ xs -> val (cells s.1) a = Some kv -> kv.1 ∈ seen) ->
  (forall k v, k ∈ seen -> v ∈ vs -> key_equal k v.1 = false) ->
  distinct_keys key_equal (fst <$> vs) ->
  (N.of_nat (length xs + length vs) < size_t_modulus) ->
  exists s' xs',
    insert_range hasher key_equal vs s = Ret tt s' /\
    usable hasher s' hd tl xs' /\
    length xs' = (length xs + length vs)%nat /\
    bucket_count s'.2 = bucket_count_after (bucket_count s.2) (length xs) (length vs).
Proof.
  induction vs as [|v vs IH]; intros s hd tl xs seen Hu Hseen Hnew Hdist Hwrap.
  { exists s, xs. split; [done|]. split; [done|]. split; [simpl; lia|done]. }
  cbn [insert_range].
  destruct (insert_usable s hd tl xs v Hu) as (r & s1 & xs1 & Hrun & Hu1 & Hbc & _ & Htrue & Hr).
  { simpl in Hwrap. lia. }
  assert (r.2 = true) as Hr2.
  { apply Hr. intros a kv Ha Hv. apply Hnew; [by eapply Hseen|by left]. }
  destruct (Htrue Hr2) as (f & _ & Hf & Hperm & Hvf & Hvo).
  rewrite (bind_run _ _ _ _ _ Hrun).
  destruct Hdist as [Hd0 Hdist].
  destruct (IH s1 hd tl xs1 (v.1 :: seen) Hu1) as (s' & xs' & Hrun' & Hu' & Hlen' & Hbc'); [| |done| |].
  - intros a kv Ha Hv. rewrite Hperm in Ha. apply elem_of_cons in Ha as [->|Ha].
    + rewrite Hvf in Hv. injection Hv as <-. by left.
    + right. apply (Hseen a kv Ha). rewrite <- Hvo; [done|]. by intros ->.
  - intros k v' [->|Hk]%elem_of_cons Hv'.
    + rewrite Forall_forall in Hd0. apply Hd0. by apply list_elem_of_fmap_2.
    + apply Hnew; [done|by right].
  - rewrite (Permutation_length Hperm). simpl in *. lia.
  - exists s', xs'. split; [done|]. split; [done|].
    rewrite (Permutation_length Hperm) in Hlen', Hbc'. simpl in *.
    split; [lia|]. rewrite Hbc', Hbc.
    destruct Hu as (_ & Hsz & _). unfold map_size, List_size. by rewrite Hsz.
Qed.

(** A node that is allocated and never linked does not disturb the map. *)
Lemma usable_leak (s : MState) hd tl xs :
  usable hasher s hd tl xs -> usable hasher (leak s.1, s.2) hd tl xs.
Proof.
  intros (Hd & Hsz & Hne & Hok & Hown).
  assert (Hfresh : forall a, a ∈ hd :: xs ++ [tl] -> a <> brk s.1).
  { intros a Ha ->. pose proof (dll_live _ _ _ _ (brk s.1) Hd Ha) as Hl.
    destruct Hd as (_ & _ & _ & _ & _ & Hb). cbn [fst] in *. apply Hb in Hl. lia. }
  assert (Hval : forall a, a ∈ xs -> val (cells (leak s.1)) a = val (cells s.1) a).
  { intros a Ha. unfold leak. cbn [cells]. rewrite val_insert.
    rewrite decide_False; [done|]. apply Hfresh. right. apply elem_of_app. by left. }
  unfold usable. cbn [fst snd]. split; [|split; [done|split; [done|split; [done|]]]].
  - destruct Hd as (Hhd & Htl & Hnd & Hl & Hv & Hb). cbn [fst snd] in *.
    unfold dll. cbn [fst snd]. split; [done|]. split; [done|]. split; [done|].
    split; [|split].
    + apply (linked_frame (cells s.1)); [done| |].
      * intros a Ha%elem_of_removelast. unfold leak. cbn [cells]. rewrite nxt_insert.
        rewrite decide_False; [done|]. by apply Hfresh.
      * intros a Ha%elem_of_tail. unfold leak. cbn [cells]. rewrite prv_insert.
        rewrite decide_False; [done|]. by apply Hfresh.
    + intros a Ha. rewrite Hval by done. by apply Hv.
    + intros a. unfold leak. cbn [cells brk]. rewrite lookup_insert_is_Some.
      intros [<-|[_ Ha]]; [lia|]. apply Hb in Ha. lia.
  - intros a kv Ha Hva. rewrite Hval in Hva by done. by apply (Hown a kv).
Qed.

Lemma grown_ge (bc size : N) : bc <= grown bc size.
Proof. unfold grown. destruct (N.ltb_spec bc size); lia. Qed.

Lemma bucket_count_after_ge (count : nat) :
  forall bc size, bc <= bucket_count_after bc size count.
Proof.
  induction count as [|count IH]; intros bc size; simpl; [lia|].
  etrans; [apply (grown_ge bc (N.of_nat size))|apply IH].
Qed.

Lemma bucket_count_after_small (count : nat) :
  forall bc size, N.of_nat (size + count) <= bc + 1 -> bucket_count_after bc size count = bc.
Proof.
  induction count as [|count IH]; intros bc size H; simpl; [done|].
  assert (grown bc (N.of_nat size) = bc) as ->.
  { unfold grown. destruct (N.ltb_spec bc (N.of_nat size)); [lia|done]. }
  apply IH. lia.
Qed.

Lemma bucket_count_after_add (a b : nat) :
  forall bc size,
    bucket_count_after bc size (a + b)
    = bucket_count_after (bucket_count_after bc size a) (size + a) b.
Proof.
  induction a as [|a IH]; intros bc size; simpl.
  - by rewrite Nat.add_0_r.
  - rewrite IH. by replace (S size + a)%nat with (size + S a)%nat by lia.
Qed.

(** With 16 buckets to begin with, 17 insertions of new keys leave 16
    buckets and the 18th makes them 32. *)
Lemma bucket_count_after_default (count : nat) :
  ((count <= 17)%nat -> bucket_count_after 16 0 count = 16) /\
  ((18 <= count)%nat -> 32 <= bucket_count_after 16 0 count).
Proof.
  split; intros H.
  - apply bucket_count_after_small. lia.
  - replace count with (18 + (count - 18))%nat by lia.
    rewrite bucket_count_after_add.
    etrans; [|apply bucket_count_after_ge]. by vm_compute.
Qed.

End MapFacts.

(** ** Properties of every map state *)

Section Claims.
Context {Key Value : Type}.
Variable hasher : Key -> N.
Variable key_equal : Key -> Key -> bool.
Variable default_value : Value.

#[local] Abbreviation MState := (@MState Key Value).

Lemma insert_keeps_bucket_count_after_check (v : Key * Value) (s0 s1 s2 : MState) r :
  check_rehash hasher s0 = Ret tt s1 ->
  insert hasher key_equal v s0 = Ret r s2 ->
  length (buckets s2.2) = length (buckets s1.2).
Proof.
  intros Hc H. unfold insert in H. rewrite (bind_run _ _ _ _ _ Hc) in H.
  revert H. generalize s1 r s2.
  change (keeps_bucket_count
    (m ← this;
     b ← bucket_at (get_bucket_index hasher m v.1);
     r ← on_mem (with_fuel (fun fuel =>
            bucket_scan key_equal v.1 (bucket_end b) fuel (bucket_begin b)));
     match r with
     | Some it => mret (it, false)
     | None =>
         if iter_eqb (bucket_begin b) (map_end m) then
           new_it ← on_elements (List_emplace (map_end m) (Constructs v));
           open_bucket hasher (get_bucket_index hasher m v.1) new_it;;
           mret (new_it, true)
         else
           new_it ← on_elements (List_emplace (bucket_end b) (Constructs v));
           mret (new_it, true)
     end)).
  keeps_bucket_count.
Qed.

Lemma emplace_keeps_bucket_count_after_check (args : ctor_args) (s0 s1 s2 : MState) r :
  check_rehash hasher s0 = Ret tt s1 ->
  emplace hasher key_equal args s0 = Ret r s2 ->
  length (buckets s2.2) = length (buckets s1.2).
Proof.
  intros Hc H. unfold emplace in H. rewrite (bind_run _ _ _ _ _ Hc) in H.
  revert H. generalize s1 r s2.
  change (keeps_bucket_count
    (m ← this;
     temp_it ← on_elements (List_emplace (map_end m) args);
     nkv ← on_mem (load_value temp_it);
     b ← bucket_at (get_bucket_index hasher m nkv.1);
     r ← on_mem (with_fuel (fun fuel =>
            bucket_scan key_equal nkv.1 (bucket_end b) fuel (bucket_begin b)));
     match r with
     | Some it => on_elements (List_erase temp_it);; mret (it, false)
     | None =>
         if iter_eqb (bucket_begin b) (map_end m) then
           open_bucket hasher (get_bucket_index hasher m nkv.1) temp_it;;
           mret (temp_it, true)
         else
           temp_it' ← on_elements (List_move_node temp_it (bucket_end b));
           mret (temp_it', true)
     end)).
  keeps_bucket_count.
Qed.

(** While every bucket is still as the constructor, [clear] or the first
    loop of [rehash] left it, [find] returns the end iterator. *)
Lemma find_after_reset (s : MState) (k : Key) (bs : list Bucket) :
  buckets s.2 = reset_buckets (map_end s.2) bs -> bs <> [] ->
  find hasher key_equal k s = Ret (map_end s.2) s.
Proof.
  intros Hb Hne.
  unfold find, bucket_at, get_bucket_index, bucket_count, mbind, M_bind, bind, this.
  rewrite Hb. unfold reset_buckets at 2 3. rewrite list_lookup_fmap, length_fmap.
  destruct bs as [|b0 bs']; [done|]. cbn [fmap list_fmap reset_buckets].
  set (i := N.to_nat (hasher k mod N.of_nat (length (b0 :: bs')))).
  assert (Hi : (i < length (b0 :: bs'))%nat).
  { unfold i. pose proof (N.mod_upper_bound (hasher k) (N.of_nat (length (b0 :: bs')))).
    simpl in *. lia. }
  apply lookup_lt_is_Some in Hi as [b Hi]. rewrite Hi. simpl.
  unfold on_mem, zoom, with_fuel. cbn [bucket_scan]. rewrite iter_eqb_refl.
  by destruct s.
Qed.

(** C10.  Calling [erase] with the end iterator is a no-op on every map
    state: it returns the end iterator and leaves the heap, the list, its
    size and every bucket descriptor as they were. *)
Theorem erase_end_is_noop (s : MState) :
  erase hasher (map_end s.2) s = Ret (map_end s.2) s.
Proof.
  unfold erase, mbind, M_bind, bind, this. by rewrite iter_eqb_refl.
Qed.

(** C8.  On a map whose bucket count is 0, [find] computes bucket index 0
    and then indexes the empty bucket vector with it: the access is out of
    bounds for every key, where the claim has it in bounds with the end
    iterator returned. *)
Theorem find_without_buckets (s : MState) (k : Key) :
  bucket_count s.2 = 0 ->
  get_bucket_index hasher s.2 k = 0 /\
  find hasher key_equal k s = Undefined OutOfBounds.
Proof.
  intros Hb. unfold bucket_count in Hb.
  assert (Hnil : buckets s.2 = []) by (destruct (buckets s.2); [done | simpl in Hb; lia]).
  unfold find, bucket_at, get_bucket_index, mbind, M_bind, bind, this.
  by rewrite Hnil.
Qed.

(** C7, as amended.  When the constructor of the entry throws during
    [emplace], the exception reaches the caller and no entry is left
    behind: the node allocated for it holds no value and is linked into no
    list.  That node is not deallocated.  The map holds the same entries
    and has the same size.  Its buckets are as [check_rehash], which runs
    before the entry is constructed, left them: the map object is unchanged
    when the load factor did not exceed the maximum, and otherwise the map
    is the one that [rehash(bucket_count * 2)] returns, with more buckets
    than before.  That rehash does return on every map whose list is well
    formed, and the exception leaves the same entries in a map that is
    usable.  The size is one for which the load factor is computed
    exactly. *)
Theorem emplace_ctor_throws (s : MState) :
  exact_as_double (map_size s.2) ->
  (load_factor_exceeds s.2 = false ->
     emplace hasher key_equal CtorThrows s = Throw ctor_failure (leak s.1, s.2)) /\
  (forall s1, check_rehash hasher s = Ret tt s1 ->
     emplace hasher key_equal CtorThrows s = Throw ctor_failure (leak s1.1, s1.2)) /\
  (forall hd tl xs, usable hasher s hd tl xs ->
     exists s1 xs1,
       emplace hasher key_equal CtorThrows s = Throw ctor_failure (leak s1.1, s1.2) /\
       usable hasher (leak s1.1, s1.2) hd tl xs1 /\
       xs1 ≡ₚ xs /\ elements s1.2 = elements s.2 /\
       (forall a, a ∈ xs -> val (cells (leak s1.1)) a = val (cells s.1) a) /\
       cells (leak s1.1) !! brk s.1 = Some (mkNode None None None) /\
       brk s.1 ∉ hd :: xs1 ++ [tl]) /\
  (load_factor_exceeds s.2 = true ->
     let doubled := wrap (bucket_count s.2 * 2) in
     (forall s1, rehash hasher doubled s = Ret tt s1 ->
        emplace hasher key_equal CtorThrows s = Throw ctor_failure (leak s1.1, s1.2) /\
        elements s1.2 = elements s.2 /\
        bucket_count s1.2 = N.max doubled (map_size s.2) /\
        bucket_count s.2 < bucket_count s1.2) /\
     (forall hd tl xs,
        dll (s.1, elements s.2) hd tl xs ->
        size_ (elements s.2) = N.of_nat (length xs) ->
        exists s1 xs1,
          rehash hasher doubled s = Ret tt s1 /\
          emplace hasher key_equal CtorThrows s = Throw ctor_failure (leak s1.1, s1.2) /\
          usable hasher (leak s1.1, s1.2) hd tl xs1 /\
          xs1 ≡ₚ xs /\ elements s1.2 = elements s.2 /\
          bucket_count s.2 < bucket_count s1.2 /\
          (forall a, a ∈ xs -> val (cells (leak s1.1)) a = val (cells s.1) a) /\
          cells (leak s1.1) !! brk s.1 = Some (mkNode None None None) /\
          brk s.1 ∉ hd :: xs1 ++ [tl])).
Proof.
  intros _.
  assert (H2 : forall s1, check_rehash hasher s = Ret tt s1 ->
     emplace hasher key_equal CtorThrows s = Throw ctor_failure (leak s1.1, s1.2)).
  { intros s1 H. unfold emplace. rewrite (bind_run _ _ _ _ _ H).
    by destruct s1 as [m1 [l1 b1]]. }
  assert (H3 : forall hd tl xs (s1 : MState) xs1,
     check_rehash hasher s = Ret tt s1 ->
     usable hasher s1 hd tl xs1 -> xs1 ≡ₚ xs ->
     brk s1.1 = brk s.1 ->
     (forall a, val (cells s1.1) a = val (cells s.1) a) ->
     emplace hasher key_equal CtorThrows s = Throw ctor_failure (leak s1.1, s1.2) /\
     usable hasher (leak s1.1, s1.2) hd tl xs1 /\
     (forall a, a ∈ xs -> val (cells (leak s1.1)) a = val (cells s.1) a) /\
     cells (leak s1.1) !! brk s.1 = Some (mkNode None None None) /\
     brk s.1 ∉ hd :: xs1 ++ [tl]).
  { intros hd tl xs s1 xs1 Hc Hu1 Hperm1 Hbrk Hval.
    assert (Hfresh : forall a, a ∈ hd :: xs1 ++ [tl] -> a <> brk s1.1).
    { intros a Ha ->. destruct Hu1 as (Hd & _).
      pose proof (dll_live _ _ _ _ (brk s1.1) Hd Ha) as Hl.
      destruct Hd as (_ & _ & _ & _ & _ & Hb). cbn [fst] in *. apply Hb in Hl. lia. }
    split; [by apply H2|]. split; [by apply usable_leak|]. split; [|split].
    + intros a Ha. unfold leak. cbn [cells]. rewrite val_insert, decide_False; [done|].
      apply Hfresh. right. apply elem_of_app. left. by rewrite Hperm1.
    + unfold leak. cbn [cells]. rewrite <- Hbrk. apply lookup_insert_eq.
    + intros Hin. rewrite <- Hbrk in Hin. by apply (Hfresh _ Hin). }
  split; [|split; [done|split]].
  - intros H. apply H2. unfold check_rehash, mbind, M_bind, bind, this.
    rewrite H. by destruct s.
  - intros hd tl xs Hu.
    destruct (check_rehash_usable hasher s hd tl xs Hu)
      as (s1 & xs1 & Hc & Hu1 & Hperm1 & Hel & Hbrk & Hval & _).
    destruct (H3 hd tl xs s1 xs1 Hc Hu1 Hperm1 Hbrk Hval) as (Ht & Hul & Hv & Hn & Hni).
    exists s1, xs1. split; [done|]. split; [done|]. split; [done|]. split; [done|].
    split; [done|]. split; [done|]. done.
  - intros Hl doubled.
    assert (Hc : check_rehash hasher s = rehash hasher doubled s).
    { unfold check_rehash, mbind, M_bind, bind, this. by rewrite Hl. }
    assert (Hmore : forall s1, rehash hasher doubled s = Ret tt s1 ->
              elements s1.2 = elements s.2 /\
              bucket_count s1.2 = N.max doubled (map_size s.2) /\
              bucket_count s.2 < bucket_count s1.2).
    { intros s1 H. apply rehash_shape in H as [He Hb]. split; [done|]. split; [done|].
      unfold load_factor_exceeds in Hl. apply N.ltb_lt in Hl. lia. }
    split.
    + intros s1 H. split; [apply H2; by rewrite Hc|]. by apply Hmore.
    + intros hd tl xs Hd Hsz.
      assert (Hlt : bucket_count s.2 < map_size s.2).
      { unfold load_factor_exceeds in Hl. by apply N.ltb_lt in Hl. }
      destruct (rehash_usable hasher s hd tl xs doubled Hd Hsz)
        as (s1 & xs1 & Hre & Hu1 & Hperm1 & Hel & Hbrk & Hval); [lia|right; lia|].
      assert (Hrun : check_rehash hasher s = Ret tt s1) by (by rewrite Hc).
      destruct (H3 hd tl xs s1 xs1 Hrun Hu1 Hperm1 Hbrk Hval) as (Ht & Hul & Hv & Hn & Hni).
      destruct (Hmore s1 Hre) as (_ & _ & Hmore1).
      exists s1, xs1. split; [done|]. split; [done|]. split; [done|]. split; [done|].
      split; [done|]. split; [done|]. split; [done|]. split; [done|]. done.
Qed.

(** C9, as amended.  Move construction returns the source's list object
    and bucket vector as the new map without touching the heap, so without
    any work per entry, and leaves the source with null sentinels and no
    buckets: its [size()] is 0, [empty()] is true, [bucket_count()] is 0,
    and [clear()] and [erase(end())] on it change nothing. *)
Theorem move_ctor_spec (s : MState) :
  exists moved_from,
    UnorderedMap_move_ctor s = Ret s.2 (s.1, moved_from) /\
    map_size moved_from = 0 /\ map_empty moved_from = true /\
    bucket_count moved_from = 0 /\ map_end moved_from = None /\
    clear (s.1, moved_from) = Ret tt (s.1, moved_from) /\
    erase hasher (map_end moved_from) (s.1, moved_from)
      = Ret (map_end moved_from) (s.1, moved_from).
Proof.
  exists (mkMap (mkList None None 0) []).
  destruct s as [m [[h t n] b]]. repeat split.
Qed.

End Claims.

(** ** Scenarios under the identity hash *)

(** Evaluate a closed program. *)
Ltac run := vm_compute; reflexivity.

(** C1.  After [insert(0)], [insert(1)] and [erase(find(1))] on a map with
    two buckets the partition invariant, which held before the [erase], is
    gone: [erase] empties bucket 1 and leaves [end] of bucket 0 pointing at
    the node it has just deallocated, so the range of bucket 0 no longer
    ends, and [find(2)], which scans it, runs into the tail sentinel. *)
Theorem erase_leaves_dangling_bucket_end :
  exists s0 it s1,
    Scenario.on_new_map 2
      (Scenario.insert (0, 10);; Scenario.insert (1, 20);; mret tt) = Ret tt s0 /\
    Scenario.invariant s0 /\
    Scenario.find 1 s0 = Ret it s0 /\
    Scenario.erase it s0 = Ret (map_end s0.2) s1 /\
    ~ Scenario.invariant s1 /\
    (exists b e, buckets s1.2 !! 0%nat = Some (mkBucket b (Some e)) /\ cells s1.1 !! e = None) /\
    Scenario.find 2 s1 = Undefined UninitRead.
Proof.
  eexists _, _, _. split; [run|]. split.
  { exists [2%nat; 3%nat], [[2%nat]; [3%nat]].
    split; [run|]. split; [repeat constructor|]. split; [done|].
    split; [by apply (bool_decide_unpack _); vm_compute|].
    intros [|[|i]] r a Hr Ha; simplify_eq/=.
    - apply list_elem_of_singleton in Ha as ->. exists 0. by vm_compute.
    - apply list_elem_of_singleton in Ha as ->. exists 1. by vm_compute. }
  split; [run|]. split; [run|]. split; [|split; [|run]].
  - intros (all & ranges & _ & HF & _).
    apply Forall2_cons_inv_l in HF as (r & ? & Hr & _ & _).
    vm_compute in Hr. discriminate.
  - eexists _, _. split; run.
Qed.

(** The same invariant is lost without any [erase]: the [rehash] that the
    third [insert] into a one-bucket map triggers records [begin] of
    bucket 0 before it moves the first node of that bucket in front of it,
    so the range of bucket 0 comes out empty and the ranges together miss
    a node of the list. *)
Lemma rehash_leaves_stale_bucket_begin :
  exists s0 s1,
    Scenario.on_new_map 1
      (Scenario.insert (1, 10);; Scenario.insert (0, 20);; mret tt) = Ret tt s0 /\
    Scenario.invariant s0 /\
    Scenario.rehash 2 s0 = Ret tt s1 /\
    ~ Scenario.invariant s1.
Proof.
  eexists _, _. split; [run|]. split.
  { exists [2%nat; 3%nat], [[2%nat; 3%nat]].
    split; [run|]. split; [repeat constructor|]. split; [reflexivity|].
    split; [by apply (bool_decide_unpack _); vm_compute|].
    intros [|i] r a Hr Ha; simplify_eq/=.
    exists (if decide (a = 2%nat) then 1 else 0).
    apply elem_of_cons in Ha as [->| ->%list_elem_of_singleton]; by vm_compute. }
  split; [run|].
  intros (all & ranges & Hall & HF & Hperm & _).
  apply Forall2_cons_inv_l in HF as (r0 & ranges1 & Hr0 & HF & ->).
  apply Forall2_cons_inv_l in HF as (r1 & ranges2 & Hr1 & HF & ->).
  apply Forall2_nil_inv_l in HF as ->.
  vm_compute in Hall, Hr0, Hr1. simplify_eq.
  apply Permutation_length in Hperm. discriminate.
Qed.

(** C2.  Three [insert] calls into a one-bucket map all report a new key,
    nothing is erased, the entry with key 0 is in the list, and [find(0)]
    returns the end iterator: the [rehash] run by the third [insert] left
    bucket 0 with an empty range. *)
Theorem find_misses_inserted_key :
  exists s nodes a,
    Scenario.on_new_map 1
      (r1 ← Scenario.insert (1, 10);
       r2 ← Scenario.insert (0, 20);
       r3 ← Scenario.insert (2, 30);
       mret (r1.2, r2.2, r3.2)) = Ret (true, true, true) s /\
    list_nodes s = Some nodes /\ a ∈ nodes /\ key_at s a = Some 0 /\
    Scenario.find 0 s = Ret (map_end s.2) s.
Proof.
  eexists _, _, 3%nat. split; [run|]. split; [run|].
  split; [set_solver|]. split; run.
Qed.

(** C3.  A one-bucket map holds key 0 with value 20, and [find(0)] returns
    its entry.  A second [insert] of key 0, and likewise a second
    [emplace], returns [true] with an iterator to a new entry and takes
    [size()] from 2 to 3, where the claim has [false], the old entry and
    the size unchanged: the [rehash] it starts with hides the old entry. *)
Theorem second_insert_adds_duplicate :
  exists s0 it0 s1 it1 s2 it2,
    Scenario.on_new_map 1
      (Scenario.insert (1, 10);; Scenario.insert (0, 20)) = Ret (it0, true) s0 /\
    map_size s0.2 = 2 /\
    Scenario.find 0 s0 = Ret it0 s0 /\
    load_value it0 s0.1 = Ret (0, 20) s0.1 /\
    Scenario.insert (0, 30) s0 = Ret (it1, true) s1 /\
    it1 <> it0 /\ map_size s1.2 = 3 /\
    Scenario.emplace 0 30 s0 = Ret (it2, true) s2 /\
    it2 <> it0 /\ map_size s2.2 = 3.
Proof.
  eexists _, _, _, _, _, _.
  split; [run|]. split; [run|]. split; [run|]. split; [run|].
  split; [run|]. split; [done|]. split; [run|].
  split; [run|]. split; [done|]. run.
Qed.

(** C4.  A one-bucket map with the keys 1 and 0 satisfies the invariant and
    [find(0)] returns the entry.  After [rehash(2)], with 2 the least count
    the load factor allows, [bucket_count()] is 2 and [find(0)] returns the
    end iterator. *)
Theorem rehash_loses_key :
  exists s0 it0 s1,
    Scenario.on_new_map 1
      (Scenario.insert (1, 10);; Scenario.insert (0, 20)) = Ret (it0, true) s0 /\
    Scenario.invariant s0 /\
    Scenario.find 0 s0 = Ret it0 s0 /\ it0 <> map_end s0.2 /\
    map_size s0.2 = 2 /\
    Scenario.rehash 2 s0 = Ret tt s1 /\
    bucket_count s1.2 = 2 /\ map_size s1.2 = 2 /\
    Scenario.find 0 s1 = Ret (map_end s1.2) s1.
Proof.
  eexists _, _, _. split; [run|]. split.
  { exists [2%nat; 3%nat], [[2%nat; 3%nat]].
    split; [run|]. split; [repeat constructor|]. split; [reflexivity|].
    split; [by apply (bool_decide_unpack _); vm_compute|].
    intros [|i] r a Hr Ha; simplify_eq/=.
    exists (if decide (a = 2%nat) then 1 else 0).
    apply elem_of_cons in Ha as [->| ->%list_elem_of_singleton]; by vm_compute. }
  split; [run|]. split; [done|]. split; [run|]. split; [run|].
  split; [run|]. split; run.
Qed.

(** C6.  On a one-bucket map that holds key 1, [operator[]] with the new
    key 2 does not insert it: the [emplace] inside scans the bucket, meets
    the node it has just appended, takes it for a duplicate, erases it and
    returns [false] with an iterator to the deallocated node, through
    which [operator[]] then reads.  The size stays 1 and [find(2)] returns
    the end iterator, while [at(2)] throws. *)
Theorem subscript_misses_new_key :
  exists v s0 it s1 a,
    Scenario.on_new_map 1 (Scenario.subscript 1) = Ret v s0 /\
    Scenario.find 2 s0 = Ret (map_end s0.2) s0 /\
    Scenario.subscript 2 s0 = Undefined DanglingDeref /\
    Scenario.emplace 2 0 s0 = Ret (it, false) s1 /\
    it = Some a /\ cells s1.1 !! a = None /\
    map_size s1.2 = 1 /\
    Scenario.find 2 s1 = Ret (map_end s1.2) s1 /\
    Scenario.at_ 2 s1 = Throw out_of_range s1.
Proof.
  eexists _, _, _, _, _. split; [run|]. split; [run|]. split; [run|].
  split; [run|]. split; [done|]. split; [run|]. split; [run|]. split; run.
Qed.

(** C7, as stated, fails on a new one-bucket map: after the throwing
    [emplace] the node allocated for the entry, at address 2, is still
    allocated.  It fails again on the one-bucket map with the keys 1 and 0,
    whose load factor exceeds 1.0: the throwing [emplace] leaves the node
    at address 4 allocated and the map with two buckets where it had one,
    and the two entries in the other order. *)
Lemma emplace_throw_leaks_node :
  (exists s0,
     Scenario.on_new_map 1 (mret tt) = Ret tt s0 /\
     ~ Scenario.unwinds_cleanly s0) /\
  (exists s2 s',
     Scenario.on_new_map 1 (Scenario.insert_all [1; 0]) = Ret tt s2 /\
     Scenario.emplace_throwing s2 = Throw ctor_failure s' /\
     cells s2.1 !! 4%nat = None /\
     cells s'.1 !! 4%nat = Some (mkNode None None None) /\
     map_size s'.2 = map_size s2.2 /\
     bucket_count s2.2 = 1 /\ bucket_count s'.2 = 2 /\
     buckets s2.2 = [mkBucket (Some 2%nat) (Some 1%nat)] /\
     buckets s'.2 = [mkBucket (Some 2%nat) (Some 2%nat);
                     mkBucket (Some 2%nat) (Some 1%nat)] /\
     nxt (cells s2.1) 2%nat = Some 3%nat /\
     nxt (cells s'.1) 3%nat = Some 2%nat /\
     ~ Scenario.unwinds_cleanly s2).
Proof.
  split.
  - eexists. split; [run|].
    intros (s' & H & Hcells & _).
    vm_compute in H. injection H as <-.
    apply (f_equal (fun c => c !! 2%nat)) in Hcells.
    vm_compute in Hcells. discriminate.
  - eexists _, _. split; [run|]. split; [run|].
    split; [run|]. split; [run|]. split; [run|]. split; [run|]. split; [run|].
    split; [run|]. split; [run|]. split; [run|]. split; [run|].
    intros (s' & H & _ & Hmap).
    vm_compute in H. injection H as <-.
    vm_compute in Hmap. discriminate.
Qed.

(** A new one-bucket map: the throwing [emplace] leaves the map object as
    it was and usable, with the node at address 2 allocated and
    unconstructed.  The one-bucket map with the keys 1 and 0, whose load
    factor exceeds 1.0: the throwing [emplace] leaves the map as
    [rehash(2)] returns it, usable and with the same two entries in two
    buckets, and the node at address 4 allocated and unconstructed. *)
Lemma emplace_ctor_throws_witness :
  (exists s0,
     Scenario.on_new_map 1 (mret tt) = Ret tt s0 /\
     exact_as_double (map_size s0.2) /\
     load_factor_exceeds s0.2 = false /\
     check_rehash Scenario.hash_id s0 = Ret tt s0 /\
     Scenario.emplace_throwing s0 = Throw ctor_failure (leak s0.1, s0.2) /\
     usable Scenario.hash_id s0 0%nat 1%nat [] /\
     usable Scenario.hash_id (leak s0.1, s0.2) 0%nat 1%nat [] /\
     cells (leak s0.1) !! 2%nat = Some (mkNode None None None)) /\
  (exists s2 xs2 s1 xs1,
     Scenario.on_new_map 1 (Scenario.insert_all [1; 0]) = Ret tt s2 /\
     usable Scenario.hash_id s2 0%nat 1%nat xs2 /\
     exact_as_double (map_size s2.2) /\
     load_factor_exceeds s2.2 = true /\
     Scenario.rehash 2 s2 = Ret tt s1 /\
     Scenario.emplace_throwing s2 = Throw ctor_failure (leak s1.1, s1.2) /\
     usable Scenario.hash_id (leak s1.1, s1.2) 0%nat 1%nat xs1 /\
     xs1 ≡ₚ xs2 /\ length xs2 = 2%nat /\
     map_size s1.2 = map_size s2.2 /\
     bucket_count s2.2 = 1 /\ bucket_count s1.2 = 2 /\
     (forall a, a ∈ xs2 -> val (cells (leak s1.1)) a = val (cells s2.1) a) /\
     cells (leak s1.1) !! 4%nat = Some (mkNode None None None) /\
     4%nat ∉ 0%nat :: xs1 ++ [1%nat]).
Proof.
  pose (m0 := @mkMem N N ∅ 0%nat).
  assert (Hm0 : mem_ok m0) by (by intros a [? ?]).
  destruct (@ctor_usable N N Scenario.hash_id m0 1 Hm0) as (mp & m1 & Hc & Hu & _);
    [vm_compute; reflexivity|].
  split.
  - assert (E : Scenario.on_new_map 1 (mret tt) = Ret tt (m1, mp)).
    { unfold Scenario.on_new_map. fold m0. rewrite Hc. reflexivity. }
    exists (m1, mp). split; [exact E|].
    assert (Hl : load_factor_exceeds (m1, mp).2 = false).
    { vm_compute in E. injection E as <- <-. vm_compute; reflexivity. }
    assert (Hex : exact_as_double (map_size (m1, mp).2)).
    { vm_compute in E. injection E as <- <-. vm_compute; reflexivity. }
    pose proof (proj1 (emplace_ctor_throws Scenario.hash_id N.eqb (m1, mp) Hex) Hl) as E1.
    split; [exact Hex|]. split; [exact Hl|]. split.
    { vm_compute in E. injection E as <- <-. vm_compute; reflexivity. }
    split; [exact E1|]. split; [exact Hu|].
    destruct (proj1 (proj2 (proj2 (emplace_ctor_throws Scenario.hash_id N.eqb (m1, mp) Hex)))
                _ _ _ Hu)
      as (s1 & xs1 & Hrun & Hu1 & Hperm & _).
    apply Permutation_nil_r in Hperm. subst xs1.
    rewrite E1 in Hrun.
    assert (Heq : (leak s1.1, s1.2) = (leak (m1, mp).1, (m1, mp).2)) by congruence.
    rewrite Heq in Hu1.
    split; [exact Hu1|].
    vm_compute in E. injection E as <- <-. vm_compute; reflexivity.
  - destruct (insert_range_usable Scenario.hash_id N.eqb [(1, 1); (0, 0)] (m1, mp) _ _ [] [] Hu)
      as (s2 & xs2 & Hrun & Hu2 & Hlen & _).
    { intros a kv Ha. by apply elem_of_nil in Ha. }
    { intros k v Hk. by apply elem_of_nil in Hk. }
    { vm_compute; repeat constructor. }
    { vm_compute; reflexivity. }
    assert (E : Scenario.on_new_map 1 (Scenario.insert_all [1; 0]) = Ret tt s2).
    { unfold Scenario.on_new_map. fold m0. rewrite Hc. exact Hrun. }
    clear Hrun Hc Hu.
    pose proof E as E'. vm_compute in E'. injection E' as <-.
    match type of E with _ = Ret tt ?c => set (s2 := c) in * end.
    assert (Hlf : load_factor_exceeds s2.2 = true) by (vm_compute; reflexivity).
    assert (Hex : exact_as_double (map_size s2.2)) by (vm_compute; reflexivity).
    destruct (proj2 (proj2 (proj2 (proj2 (emplace_ctor_throws Scenario.hash_id N.eqb s2 Hex)))
                       Hlf) _ _ xs2 (proj1 Hu2) (proj1 (proj2 Hu2)))
      as (s1 & xs1 & Hre & Hthrow & Hu1 & Hperm & Hel & Hlt & Hval & Hnode & Hnotin).
    assert (Hd : wrap (bucket_count s2.2 * 2) = 2) by (vm_compute; reflexivity).
    rewrite Hd in Hre.
    assert (Hbrk : brk s2.1 = 4%nat) by (vm_compute; reflexivity).
    rewrite Hbrk in Hnode, Hnotin.
    exists s2, xs2, s1, xs1.
    split; [exact E|]. split; [exact Hu2|]. split; [exact Hex|]. split; [exact Hlf|].
    split; [exact Hre|]. split; [exact Hthrow|]. split; [exact Hu1|]. split; [exact Hperm|].
    split; [exact Hlen|].
    split; [unfold map_size; rewrite Hel; reflexivity|].
    split; [vm_compute; reflexivity|].
    split.
    { pose proof Hre as Hre'. vm_compute in Hre'. injection Hre' as <-.
      vm_compute; reflexivity. }
    split; [exact Hval|]. split; [exact Hnode|exact Hnotin].
Defined.

(** A map constructed with no bucket: [find(5)] indexes the empty bucket
    vector. *)
Lemma find_without_buckets_witness :
  exists s0,
    Scenario.on_new_map 0 (mret tt) = Ret tt s0 /\
    bucket_count s0.2 = 0 /\
    get_bucket_index Scenario.hash_id s0.2 5 = 0 /\
    Scenario.find 5 s0 = Undefined OutOfBounds.
Proof.
  eexists. split; [vm_compute; reflexivity|]. split; [vm_compute; reflexivity|].
  apply (find_without_buckets Scenario.hash_id N.eqb). vm_compute; reflexivity.
Defined.

(** A newly constructed map with 16 buckets answers every [find] with the
    end iterator. *)
Lemma new_map_finds_nothing :
  exists s0, Scenario.on_new_map 16 (mret tt) = Ret tt s0 /\ Scenario.finds_nothing s0.
Proof.
  eexists. split; [run|]. intros k.
  apply (find_after_reset Scenario.hash_id N.eqb _ k (replicate 16 Bucket_default));
    [run | done].
Qed.

(** C9, as stated, fails for a default-constructed map with three entries:
    on the moved-from map [find] indexes the empty bucket vector, which is
    undefined, and [insert] does the same, where a new map answers every
    [find] with the end iterator. *)
Lemma moved_from_map_find_undefined :
  exists s0 new moved,
    Scenario.on_new_map 16 (Scenario.insert_all [1; 2; 3]) = Ret tt s0 /\
    UnorderedMap_move_ctor s0 = Ret new moved /\
    ~ Scenario.finds_nothing moved /\
    Scenario.find 1 moved = Undefined OutOfBounds /\
    Scenario.insert (1, 1) moved = Undefined OutOfBounds.
Proof.
  eexists _, _, _. split; [run|]. split; [run|].
  split; [|split; run].
  intros H. specialize (H 1). vm_compute in H. discriminate.
Qed.

(** * More of the containers

    The other operations of [List], [UnorderedMap] and [StackAllocator],
    and what they guarantee. *)

(** ** Facts about the other operations of [List] *)

(** *** [push_back], [push_front], [pop_back] and [pop_front] *)

Section ListMore.
Context {Key Value : Type}.
#[local] Abbreviation heap := (gmap addr (@Node Key Value)).
#[local] Abbreviation Mem := (@Mem Key Value).
#[local] Abbreviation LState := (@LState Key Value).
Implicit Types (h : heap).

(** The allocator has not handed out its next address yet. *)
Lemma dll_fresh (s : LState) hd tl xs a :
  dll s hd tl xs -> a ∈ hd :: xs ++ [tl] -> a <> brk s.1.
Proof.
  intros Hd Ha ->. pose proof (dll_live _ _ _ _ (brk s.1) Hd Ha) as Hl.
  destruct Hd as (_ & _ & _ & _ & _ & Hb). apply Hb in Hl. lia.
Qed.

(** Values that stay in place keep a list of entries. *)
Lemma holds_frame h h' (xs : list addr) (vs : list (Key * Value)) :
  Forall2 (fun a v => val h a = Some v) xs vs ->
  (forall a, a ∈ xs -> val h' a = val h a) ->
  Forall2 (fun a v => val h' a = Some v) xs vs.
Proof.
  intros HF Hfr. induction HF as [|a v xs vs Ha HF IH]; [constructor|].
  constructor.
  - rewrite Hfr; [done|by left].
  - apply IH. intros b Hb. apply Hfr. by right.
Qed.

(** [push_back(v)] appends a node with [v]. *)
Lemma List_push_back_spec (s : LState) hd tl xs vs v :
  is_list s hd tl xs vs ->
  N.of_nat (length xs) + 1 < size_t_modulus ->
  exists s',
    List_push_back v s = Ret tt s' /\
    is_list s' hd tl (xs ++ [brk s.1]) (vs ++ [v]) /\
    brk s'.1 = S (brk s.1) /\
    (forall a, a ∉ hd :: xs ++ [tl] -> a <> brk s.1 -> cells s'.1 !! a = cells s.1 !! a).
Proof.
  intros (Hd & Hsz & Hlt & Hvs) Hwrap.
  pose proof Hd as (_ & Htl & _).
  destruct (List_emplace_full s hd tl xs xs tl [] v Hd eq_refl)
    as (t & xs' & Hrun & Hxs' & Hd' & Ht2 & Hbrk & Hvf & Hvo & Hfr).
  assert (xs' = xs ++ [brk s.1]) as ->.
  { change (xs ++ [brk s.1; tl]) with (xs ++ [brk s.1] ++ [tl]) in Hxs'.
    rewrite app_assoc in Hxs'. by apply app_inj_tail in Hxs' as [-> _]. }
  exists t. unfold List_push_back.
  rewrite (bind_run this _ s s.2 s eq_refl). unfold List_end. rewrite Htl.
  rewrite (bind_run _ _ _ _ _ Hrun). split; [done|]. split; [|done].
  split; [done|]. split.
  { rewrite Ht2. cbn [size_]. rewrite Hsz, length_app. simpl.
    unfold wrap. rewrite N.mod_small by done. lia. }
  split; [rewrite length_app; simpl; lia|].
  apply Forall2_app.
  - apply (holds_frame (cells s.1)); [done|]. intros a Ha. apply Hvo.
    apply (dll_fresh _ _ _ _ _ Hd). right. apply elem_of_app. by left.
  - by constructor.
Qed.

(** [push_front(v)] puts a node with [v] in front. *)
Lemma List_push_front_spec (s : LState) hd tl xs vs v :
  is_list s hd tl xs vs ->
  N.of_nat (length xs) + 1 < size_t_modulus ->
  exists s',
    List_push_front v s = Ret tt s' /\
    is_list s' hd tl (brk s.1 :: xs) (v :: vs) /\
    brk s'.1 = S (brk s.1) /\
    (forall a, a ∉ hd :: xs ++ [tl] -> a <> brk s.1 -> cells s'.1 !! a = cells s.1 !! a).
Proof.
  intros (Hd & Hsz & Hlt & Hvs) Hwrap.
  destruct (chain_first xs tl) as [a0 Ha0].
  assert (HR : exists R, xs ++ [tl] = a0 :: R).
  { destruct (xs ++ [tl]) as [|c R]; [done|]. simpl in Ha0. injection Ha0 as ->. eauto. }
  destruct HR as [R HR].
  destruct (List_emplace_full s hd tl xs [] a0 R v Hd HR)
    as (t & xs' & Hrun & Hxs' & Hd' & Ht2 & Hbrk & Hvf & Hvo & Hfr).
  assert (xs' = brk s.1 :: xs) as ->.
  { simpl in Hxs'. rewrite <- HR in Hxs'.
    change (brk s.1 :: xs ++ [tl]) with ((brk s.1 :: xs) ++ [tl]) in Hxs'.
    by apply app_inj_tail in Hxs' as [-> _]. }
  exists t. unfold List_push_front.
  rewrite (bind_run _ _ _ _ _ (List_begin_spec _ _ _ _ _ Hd Ha0)).
  rewrite (bind_run _ _ _ _ _ Hrun). split; [done|]. split; [|done].
  split; [done|]. split.
  { rewrite Ht2. cbn [size_ length]. rewrite Hsz.
    unfold wrap. rewrite N.mod_small by done. lia. }
  split; [cbn [length]; lia|].
  constructor; [done|].
  apply (holds_frame (cells s.1)); [done|]. intros a Ha. apply Hvo.
  apply (dll_fresh _ _ _ _ _ Hd). right. apply elem_of_app. by left.
Qed.

(** The positions of a node and of the one behind it. *)
Lemma chain_lookup_mid (A B : list addr) f tl :
  ((A ++ f :: B) ++ [tl]) !! length A = Some f /\
  ((A ++ f :: B) ++ [tl]) !! S (length A) = (B ++ [tl]) !! 0%nat.
Proof.
  rewrite <- !app_assoc. split.
  - rewrite lookup_app_r by lia. by rewrite Nat.sub_diag.
  - rewrite lookup_app_r by lia.
    by replace (S (length A) - length A)%nat with 1%nat by lia.
Qed.

(** [pop_front()] frees the first node. *)
Lemma List_pop_front_spec (s : LState) hd tl a xs v vs :
  is_list s hd tl (a :: xs) (v :: vs) ->
  exists s',
    List_pop_front s = Ret tt s' /\
    is_list s' hd tl xs vs /\
    cells s'.1 !! a = None /\ brk s'.1 = brk s.1 /\
    (forall b, b ∉ hd :: (a :: xs) ++ [tl] -> cells s'.1 !! b = cells s.1 !! b).
Proof.
  intros (Hd & Hsz & Hlt & Hvs).
  apply Forall2_cons in Hvs as [Hv Hvs].
  destruct (List_erase_full s hd tl [] a xs Hd)
    as (s' & n & Hrun & Hd' & Hs2 & Hbrk & Hvo & Hfree & _ & Hfr).
  exists s'. unfold List_pop_front.
  rewrite (bind_run _ _ _ _ _ (List_begin_spec _ _ _ (a :: xs) a Hd eq_refl)).
  rewrite (bind_run _ _ _ _ _ Hrun). split; [done|]. split; [|done].
  split; [done|]. cbn [length] in *. split.
  { rewrite Hs2. cbn [size_]. rewrite Hsz. unfold wrap, size_t_modulus in *.
    replace (N.of_nat (S (length xs)) + 2 ^ 64 - 1) with (N.of_nat (length xs) + 1 * 2 ^ 64) by lia.
    rewrite N.Div0.mod_add. apply N.mod_small. lia. }
  split; [lia|].
  apply (holds_frame (cells s.1)); [done|]. intros b Hb. apply Hvo. intros ->.
  destruct Hd as (_ & _ & Hnd & _). apply NoDup_cons in Hnd as [_ Hnd].
  apply NoDup_cons in Hnd as [Hnd _]. apply Hnd. apply elem_of_app. by left.
Qed.

(** [pop_back()] frees the last node. *)
Lemma List_pop_back_spec (s : LState) hd tl a xs v vs :
  is_list s hd tl (xs ++ [a]) (vs ++ [v]) ->
  exists s',
    List_pop_back s = Ret tt s' /\
    is_list s' hd tl xs vs /\
    cells s'.1 !! a = None /\ brk s'.1 = brk s.1 /\
    (forall b, b ∉ hd :: (xs ++ [a]) ++ [tl] -> cells s'.1 !! b = cells s.1 !! b).
Proof.
  intros (Hd & Hsz & Hlt & Hvs).
  assert (Hlen : length xs = length vs).
  { apply Forall2_length in Hvs. rewrite !length_app in Hvs. simpl in Hvs. lia. }
  apply Forall2_app_inv in Hvs as [Hvs _]; [|done].
  destruct (List_erase_full s hd tl xs a [] Hd)
    as (s' & n & Hrun & Hd' & Hs2 & Hbrk & Hvo & Hfree & _ & Hfr).
  rewrite app_nil_r in Hd'.
  destruct (chain_lookup_mid xs [] a tl) as [Ha Htl]. simpl in Htl.
  pose proof (dll_next _ _ _ _ _ _ _ Hd Ha Htl) as [_ Hp].
  pose proof Hd as (_ & Ht & _).
  exists s'. unfold List_pop_back.
  rewrite (bind_run this _ s s.2 s eq_refl). unfold List_end. rewrite Ht.
  destruct s as [m l]. cbn [fst snd] in *.
  rewrite (bind_run _ _ _ _ _ (on_mem_run (T:=List) _ _ _ l _ (load_prev_ok _ _ _ Hp))).
  rewrite (bind_run _ _ _ _ _ Hrun). split; [done|]. split; [|done].
  split; [done|]. rewrite length_app in *. cbn [length] in *. split.
  { rewrite Hs2. cbn [size_]. rewrite Hsz. unfold wrap, size_t_modulus in *.
    replace (N.of_nat (length xs + 1) + 2 ^ 64 - 1) with (N.of_nat (length xs) + 1 * 2 ^ 64) by lia.
    rewrite N.Div0.mod_add. apply N.mod_small. lia. }
  split; [lia|].
  apply (holds_frame (cells m)); [done|]. intros b Hb. apply Hvo. intros ->.
  destruct Hd as (_ & _ & Hnd & _). apply NoDup_cons in Hnd as [_ Hnd].
  rewrite <- app_assoc in Hnd. apply NoDup_app in Hnd as (_ & Hnd & _).
  apply (Hnd a Hb). by left.
Qed.

End ListMore.

(** *** [clear] and the empty list *)

Section ListClear.
Context {Key Value : Type}.
#[local] Abbreviation heap := (gmap addr (@Node Key Value)).
#[local] Abbreviation Mem := (@Mem Key Value).
#[local] Abbreviation LState := (@LState Key Value).
Implicit Types (h : heap).

Lemma bind_Undefined {S A B} (c : M S A) (k : A -> M S B) s u :
  c s = Undefined u -> (c ≫= k) s = Undefined u.
Proof. unfold mbind, M_bind, bind. by intros ->. Qed.

Lemma on_mem_Undefined {T A} (c : M Mem A) (m : Mem) (t : T) u :
  c m = Undefined u -> on_mem c (m, t) = Undefined u.
Proof. unfold on_mem, zoom. simpl. by intros ->. Qed.

(** X5. On an empty list [pop_front()] does nothing, and [pop_back()] reads
    [head_->prev], which no member function ever writes: its behaviour is
    undefined. *)
Theorem List_pop_empty (s : LState) hd tl :
  is_list s hd tl [] [] ->
  prv (cells s.1) hd = None ->
  List_pop_front s = Ret tt s /\ List_pop_back s = Undefined UninitRead.
Proof.
  intros (Hd & Hsz & _ & _) Hprev.
  pose proof Hd as (Hhd & Htl & Hnd & _ & _ & _).
  pose proof (dll_first _ _ _ _ tl Hd eq_refl) as [Hn Hp].
  assert (Hne : hd <> tl).
  { intros ->. apply NoDup_cons in Hnd as [Hnd _]. apply Hnd. by left. }
  destruct s as [m l]. cbn [fst snd] in *. split.
  - assert (He : List_erase (Some tl) (m, l) = Ret (Some tl) (m, l)).
    { unfold List_erase. rewrite (bind_run this _ (m, l) l (m, l) eq_refl).
      unfold List_end. by rewrite Htl, iter_eqb_refl. }
    unfold List_pop_front.
    rewrite (bind_run _ _ _ _ _ (List_begin_spec (m, l) hd tl [] tl Hd eq_refl)).
    by rewrite (bind_run _ _ _ _ _ He).
  - assert (He : List_erase (Some hd) (m, l) = Undefined UninitRead).
    { unfold List_erase. rewrite (bind_run this _ (m, l) l (m, l) eq_refl).
      unfold List_end, iter_eqb. rewrite Htl, bool_decide_eq_false_2 by congruence.
      apply bind_Undefined, on_mem_Undefined.
      destruct (nxt_live _ _ _ Hn) as [nd Hnd'].
      unfold load_prev. rewrite (bind_run _ _ _ _ _ (deref_ok m hd nd Hnd')).
      unfold prv in Hprev. rewrite Hnd' in Hprev. simpl in Hprev. cbn [snd]. by rewrite Hprev. }
    unfold List_pop_back.
    rewrite (bind_run this _ (m, l) l (m, l) eq_refl). unfold List_end. rewrite Htl.
    rewrite (bind_run _ _ _ _ _ (on_mem_run (T:=List) _ _ _ l _ (load_prev_ok _ _ _ Hp))).
    by apply bind_Undefined.
Qed.

(** The loop of [clear()] frees the nodes in front of the tail sentinel one
    by one. *)
Lemma List_clear_loop_spec (tl : addr) : forall (xs : list addr) (m : Mem) (fuel : nat) first,
  NoDup (xs ++ [tl]) ->
  linked (cells m) (xs ++ [tl]) ->
  (forall a, a ∈ xs -> is_Some (cells m !! a)) ->
  (xs ++ [tl]) !! 0%nat = Some first ->
  (length xs <= fuel)%nat ->
  exists m',
    List_clear_loop fuel (Some first) (Some tl) m = Ret tt m' /\
    brk m' = brk m /\
    (forall a, a ∈ xs -> cells m' !! a = None) /\
    (forall a, a ∉ xs -> cells m' !! a = cells m !! a).
Proof.
  induction xs as [|x xs IH]; intros m fuel first Hnd Hl Hlive Hfirst Hfuel.
  { simpl in Hfirst. injection Hfirst as <-. exists m.
    destruct fuel; simpl; rewrite iter_eqb_refl; split; try done;
      (split; [done|]); (split; [by intros a Ha%elem_of_nil|done]). }
  simpl in Hfirst. injection Hfirst as <-.
  destruct fuel as [|fuel]; [simpl in Hfuel; lia|].
  change ((x :: xs) ++ [tl]) with (x :: xs ++ [tl]) in *.
  apply NoDup_cons in Hnd as [Hx Hnd].
  destruct (xs ++ [tl]) as [|n R] eqn:HR; [by destruct xs|].
  apply linked_cons in Hl as (Hnx & _ & Hl).
  destruct (Hlive x) as [nd Hnd']; [by left|].
  cbn [List_clear_loop]. unfold iter_eqb at 1.
  rewrite bool_decide_eq_false_2.
  2:{ intros [= ->]. apply Hx. rewrite <- HR. apply elem_of_app. right. by left. }
  rewrite (bind_run _ _ _ _ _ (load_next_ok _ _ _ Hnx)).
  rewrite (bind_run _ _ _ _ _ (deref_ok m x nd Hnd')). cbn [fst snd].
  assert (Hdes : destroy x m
                 = Ret tt (mkMem (<[x := mkNode None (prev nd) (next nd)]> (cells m)) (brk m))).
  { unfold destroy. rewrite (bind_run _ _ _ _ _ (deref_ok m x nd Hnd')). done. }
  rewrite (bind_run _ _ _ _ _ Hdes).
  set (h1 := <[x := mkNode None (prev nd) (next nd)]> (cells m)).
  assert (Hdea : deallocate x (mkMem h1 (brk m)) = Ret tt (mkMem (delete x h1) (brk m))) by done.
  rewrite (bind_run _ _ _ _ _ Hdea).
  set (h2 := delete x h1).
  assert (H2 : forall a, a <> x -> h2 !! a = cells m !! a).
  { intros a Ha. unfold h2, h1. by rewrite lookup_delete_ne, lookup_insert_ne. }
  assert (Hxs : forall a, a ∈ n :: R -> a <> x) by (intros a Ha ->; done).
  destruct (IH (mkMem h2 (brk m)) fuel n) as (m' & Hrun & Hbrk & Hfree & Hkeep).
  - done.
  - cbn [cells]. apply (linked_frame (cells m)); [done| |].
    + intros a Ha%elem_of_removelast. unfold nxt. by rewrite H2 by (by apply Hxs).
    + intros a Ha%elem_of_tail. unfold prv. by rewrite H2 by (by apply Hxs).
  - intros a Ha. cbn [cells]. rewrite H2.
    + apply Hlive. by right.
    + apply Hxs. rewrite <- HR. apply elem_of_app. by left.
  - done.
  - simpl in Hfuel. lia.
  - exists m'. split; [done|]. split; [done|]. split.
    + intros a [->|Ha]%elem_of_cons; [|by apply Hfree].
      rewrite Hkeep.
      * unfold h2. cbn [cells]. apply lookup_delete_eq.
      * intros Hin. apply Hx. rewrite <- HR. apply elem_of_app. by left.
    + intros a Ha. rewrite not_elem_of_cons in Ha. destruct Ha as [Hax Ha].
      rewrite Hkeep by done. cbn [cells]. by apply H2.
Qed.

(** [List::clear()] frees every node between the sentinels and leaves an
    empty list; on a moved-from list it only sets the size. *)
Lemma List_clear_spec (s : LState) hd tl xs vs :
  is_list s hd tl xs vs ->
  exists s',
    List_clear s = Ret tt s' /\
    is_list s' hd tl [] [] /\
    brk s'.1 = brk s.1 /\
    (forall a, a ∈ xs -> cells s'.1 !! a = None) /\
    (forall a, a ∉ hd :: xs ++ [tl] -> cells s'.1 !! a = cells s.1 !! a).
Proof.
  intros (Hd & Hsz & Hlt & Hvs).
  pose proof Hd as (Hhd & Htl & Hnd & Hl & Hv & Hb).
  pose proof (dll_size_bound _ _ _ _ Hd) as Hsize.
  destruct (chain_first xs tl) as [first Hfirst].
  pose proof (dll_first _ _ _ _ _ Hd Hfirst) as [Hn _].
  apply NoDup_cons in Hnd as [Hhdx Hnd].
  change (hd :: xs ++ [tl]) with ([hd] ++ xs ++ [tl]) in Hl.
  destruct (List_clear_loop_spec tl xs s.1 (S (size (cells s.1))) first Hnd)
    as (m' & Hrun & Hbrk & Hfree & Hkeep); [| |done|lia|].
  { destruct (xs ++ [tl]) as [|c R] eqn:HR; [done|].
    by apply (linked_app _ [] hd (c :: R)) in Hl as [_ (_ & _ & ?)%linked_cons]. }
  { intros a Ha. apply (dll_live _ _ _ _ a Hd). right. apply elem_of_app. by left. }
  destruct s as [m l]. cbn [fst snd] in *.
  assert (Hhdtl : hd <> tl).
  { intros ->. apply Hhdx. apply elem_of_app. right. by left. }
  assert (Hhd' : hd ∉ xs) by (intros ?; apply Hhdx; apply elem_of_app; by left).
  assert (Htl' : tl ∉ xs).
  { intros Hin. apply NoDup_app in Hnd as (_ & Hnd & _). apply (Hnd tl Hin). by left. }
  assert (Hlhd : is_Some (cells m' !! hd)).
  { rewrite Hkeep by done. apply (dll_live _ _ _ _ hd Hd). by left. }
  assert (Hltl : is_Some (cells m' !! tl)).
  { rewrite Hkeep by done. apply (dll_live _ _ _ _ tl Hd). right. apply elem_of_app. right. by left. }
  unfold List_clear. rewrite (bind_run this _ (m, l) l (m, l) eq_refl).
  rewrite Hhd, Htl.
  rewrite (bind_run _ _ _ _ _ (on_mem_run (T:=List) _ _ _ l _ (load_next_ok _ _ _ Hn))).
  assert (Hget : on_mem (T:=List) get (m, l) = Ret m (m, l)) by done.
  rewrite (bind_run _ _ _ _ _ Hget).
  rewrite (bind_run _ _ _ _ _ (on_mem_run (T:=List) _ _ _ l _ Hrun)).
  rewrite (bind_run _ _ _ _ _ (on_mem_run (T:=List) _ _ _ l _ (set_next_ok m' hd (Some tl) Hlhd))).
  set (h1 := alter (with_next (Some tl)) hd (cells m')).
  assert (Hltl1 : is_Some (h1 !! tl)) by (by apply live_alter).
  rewrite (bind_run _ _ _ _ _ (on_mem_run (T:=List) _ _ _ l _ (set_prev_ok (mkMem h1 (brk m')) tl (Some hd) Hltl1))).
  cbn [cells brk]. set (h2 := alter (with_prev (Some hd)) tl h1).
  eexists. split; [reflexivity|]. cbn [fst snd cells brk].
  split; [|split; [done|split]].
  - split; [|split; [done|split; [simpl; unfold size_t_modulus; lia|constructor]]].
    unfold dll. cbn [fst snd head_ tail_ cells brk app].
    split; [done|]. split; [done|]. split; [|split; [|split]].
    + apply NoDup_cons. split; [|apply NoDup_singleton]. by rewrite list_elem_of_singleton.
    + split; [|done]. unfold h2. split.
      * rewrite nxt_set_prev. unfold h1. rewrite nxt_set_next by done. by rewrite decide_True.
      * rewrite prv_set_prev by done. by rewrite decide_True.
    + by intros a Ha%elem_of_nil.
    + intros a Ha. unfold h2, h1 in Ha. rewrite !live_alter in Ha. rewrite Hbrk. apply Hb.
      destruct (decide (a ∈ xs)) as [Hin|Hout]; [by rewrite (Hfree a Hin) in Ha; destruct Ha|].
      by rewrite <- Hkeep.
  - intros a Ha. unfold h2, h1. rewrite !lookup_alter_ne by (intros ->; done).
    by apply Hfree.
  - intros a Ha. rewrite not_elem_of_cons, not_elem_of_app, list_elem_of_singleton in Ha.
    destruct Ha as (? & ? & ?).
    unfold h2, h1. rewrite !lookup_alter_ne by done. by apply Hkeep.
Qed.

End ListClear.

(** *** [erase], the destructor and move assignment *)

Section ListErase.
Context {Key Value : Type}.
#[local] Abbreviation heap := (gmap addr (@Node Key Value)).
#[local] Abbreviation Mem := (@Mem Key Value).
#[local] Abbreviation LState := (@LState Key Value).
Implicit Types (h : heap).

(** A list is not disturbed by changes to other nodes. *)
Lemma is_list_frame (m m' : Mem) (l : List) hd tl xs vs :
  is_list (m, l) hd tl xs vs ->
  (forall a, a ∈ hd :: xs ++ [tl] -> cells m' !! a = cells m !! a) ->
  (forall a, is_Some (cells m' !! a) -> (a < brk m')%nat) ->
  is_list (m', l) hd tl xs vs.
Proof.
  intros ((Hhd & Htl & Hnd & Hl & Hv & Hb) & Hsz & Hlt & Hvs) Hsame Hbound.
  cbn [fst snd] in *.
  assert (Hval : forall a, a ∈ hd :: xs ++ [tl] -> val (cells m') a = val (cells m) a).
  { intros a Ha. unfold val. by rewrite Hsame. }
  split; [|split; [done|split; [done|]]].
  - unfold dll. cbn [fst snd]. split; [done|]. split; [done|]. split; [done|].
    split; [|split; [|done]].
    + apply (linked_frame (cells m)); [done| |].
      * intros a Ha%elem_of_removelast. unfold nxt. by rewrite Hsame.
      * intros a Ha%elem_of_tail. unfold prv. by rewrite Hsame.
    + intros a Ha. rewrite Hval; [by apply Hv|]. right. apply elem_of_app. by left.
  - apply (holds_frame (cells m)); [done|]. intros a Ha. apply Hval.
    right. apply elem_of_app. by left.
Qed.

(** [erase(pos)] for an iterator to an entry. *)
Lemma List_erase_is_list (s : LState) hd tl A f B va v vb :
  is_list s hd tl (A ++ f :: B) (va ++ v :: vb) ->
  length A = length va ->
  exists s' n,
    List_erase (Some f) s = Ret (Some n) s' /\
    (B ++ [tl]) !! 0%nat = Some n /\
    is_list s' hd tl (A ++ B) (va ++ vb) /\
    cells s'.1 !! f = None /\ brk s'.1 = brk s.1 /\
    (forall a, a ∉ hd :: (A ++ f :: B) ++ [tl] -> cells s'.1 !! a = cells s.1 !! a).
Proof.
  intros (Hd & Hsz & Hlt & Hvs) Hlen.
  destruct (List_erase_full s hd tl A f B Hd)
    as (s' & n & Hrun & Hd' & Hs2 & Hbrk & Hvo & Hfree & Hn & Hfr).
  exists s', n. split; [done|]. split; [done|]. split; [|done].
  apply Forall2_app_inv in Hvs as [HA HB]; [|done].
  apply Forall2_cons in HB as [_ HB].
  assert (Hf : f ∉ A ++ B).
  { destruct Hd as (_ & _ & Hnd & _). apply NoDup_cons in Hnd as [_ Hnd].
    apply NoDup_app in Hnd as (Hnd & _).
    apply NoDup_app in Hnd as (_ & H1 & H2). apply NoDup_cons in H2 as [H2 _].
    intros [Hin|Hin]%elem_of_app; [|done]. apply (H1 f Hin). by left. }
  rewrite length_app in Hsz, Hlt. cbn [length] in Hsz, Hlt.
  split; [done|]. split.
  { rewrite Hs2. cbn [size_]. rewrite Hsz, length_app. unfold wrap, size_t_modulus in *.
    replace (N.of_nat (length A + S (length B)) + 2 ^ 64 - 1)
      with (N.of_nat (length A + length B) + 1 * 2 ^ 64) by lia.
    rewrite N.Div0.mod_add. apply N.mod_small. lia. }
  split; [rewrite length_app; lia|].
  apply (holds_frame (cells s.1)).
  - by apply Forall2_app.
  - intros a Ha. apply Hvo. by intros ->.
Qed.

(** The loop of [erase(first, last)] over the nodes [B]. *)
Lemma List_erase_range_loop_spec hd tl : forall (B : list addr) (s : LState) A C va vb vc fuel first last,
  is_list s hd tl (A ++ B ++ C) (va ++ vb ++ vc) ->
  length A = length va -> length B = length vb ->
  (B ++ C ++ [tl]) !! 0%nat = Some first ->
  (C ++ [tl]) !! 0%nat = Some last ->
  (length B <= fuel)%nat ->
  exists s',
    List_erase_range_loop fuel (Some first) (Some last) s = Ret (Some last) s' /\
    is_list s' hd tl (A ++ C) (va ++ vc) /\
    (forall a, a ∈ B -> cells s'.1 !! a = None) /\
    brk s'.1 = brk s.1 /\
    (forall a, a ∉ hd :: (A ++ B ++ C) ++ [tl] -> cells s'.1 !! a = cells s.1 !! a).
Proof.
  induction B as [|b B IH]; intros s A C va vb vc fuel first last Hl HA HB Hfirst Hlast Hfuel.
  { destruct vb; [|done]. simpl in *. assert (first = last) as -> by congruence.
    exists s. split.
    - destruct fuel; simpl; by rewrite iter_eqb_refl.
    - split; [done|]. split; [by intros a Ha%elem_of_nil|done]. }
  destruct vb as [|v vb]; [done|]. simpl in Hfirst. injection Hfirst as <-.
  destruct fuel as [|fuel]; [simpl in Hfuel; lia|].
  change (A ++ (b :: B) ++ C) with (A ++ b :: (B ++ C)) in *.
  change (va ++ (v :: vb) ++ vc) with (va ++ v :: (vb ++ vc)) in *.
  destruct (List_erase_is_list s hd tl A b (B ++ C) va v (vb ++ vc) Hl HA)
    as (s1 & n & Hrun & Hn & Hl1 & Hfree & Hbrk & Hfr).
  assert (Hbl : b <> last).
  { intros ->. destruct Hl as ((_ & _ & Hnd & _) & _).
    apply NoDup_cons in Hnd as [_ Hnd]. rewrite <- app_assoc in Hnd.
    apply NoDup_app in Hnd as (_ & _ & Hnd). simpl in Hnd.
    apply NoDup_cons in Hnd as [Hnd _]. apply Hnd.
    rewrite <- app_assoc. apply elem_of_app. right. by eapply list_elem_of_lookup_2. }
  cbn [List_erase_range_loop]. unfold iter_eqb at 1.
  rewrite bool_decide_eq_false_2 by congruence.
  rewrite (bind_run _ _ _ _ _ Hrun).
  rewrite <- app_assoc in Hn.
  destruct (IH s1 A C va vb vc fuel n last Hl1 HA) as (s' & Hrun' & Hl' & Hfree' & Hbrk' & Hfr');
    [simpl in HB; lia|done|done|simpl in Hfuel; lia|].
  exists s'. split; [done|]. split; [done|]. split; [|split; [congruence|]].
  - intros a [->|Ha]%elem_of_cons; [|by apply Hfree'].
    rewrite Hfr'; [done|].
    destruct Hl as ((_ & _ & Hnd & _) & _).
    apply NoDup_cons in Hnd as [Hhd Hnd]. intros [->|Hin]%elem_of_cons.
    + apply Hhd. rewrite <- app_assoc. apply elem_of_app. right. by left.
    + rewrite <- app_assoc in Hnd. apply NoDup_app in Hnd as (_ & H1 & H2).
      simpl in H2. apply NoDup_cons in H2 as [H2 _].
      rewrite <- app_assoc in Hin. apply elem_of_app in Hin as [Hin|Hin]; [|done].
      apply (H1 b Hin). by left.
  - intros a Ha. rewrite Hfr'.
    + by apply Hfr.
    + intros Hin. apply Ha. set_solver.
Qed.

(** X7. [erase(first, last)] removes the entries from [first] up to, not
    including, [last], frees their nodes and returns [last]; the entries
    in front and behind keep their nodes, values and order. *)
Theorem List_erase_range_spec (s : LState) hd tl A B C va vb vc first last :
  is_list s hd tl (A ++ B ++ C) (va ++ vb ++ vc) ->
  length A = length va -> length B = length vb ->
  (B ++ C ++ [tl]) !! 0%nat = Some first ->
  (C ++ [tl]) !! 0%nat = Some last ->
  exists s',
    List_erase_range (Some first) (Some last) s = Ret (Some last) s' /\
    is_list s' hd tl (A ++ C) (va ++ vc) /\
    (forall a, a ∈ B -> cells s'.1 !! a = None) /\
    brk s'.1 = brk s.1 /\
    (forall a, a ∉ hd :: (A ++ B ++ C) ++ [tl] -> cells s'.1 !! a = cells s.1 !! a).
Proof.
  intros Hl HA HB Hfirst Hlast.
  pose proof (dll_size_bound _ _ _ _ (proj1 Hl)) as Hsize.
  rewrite !length_app in Hsize.
  unfold List_erase_range.
  assert (Hget : on_mem (T:=List) get s = Ret s.1 s) by (by destruct s).
  rewrite (bind_run _ _ _ _ _ Hget).
  apply (List_erase_range_loop_spec hd tl B s A C va vb vc); try done. lia.
Qed.

(** The destructor frees every node of the list, the sentinels included,
    and no other; on a moved-from list it does nothing. *)
Lemma List_dtor_spec (s : LState) hd tl xs vs :
  is_list s hd tl xs vs ->
  exists s',
    List_dtor s = Ret tt s' /\
    (forall a, a ∈ hd :: xs ++ [tl] -> cells s'.1 !! a = None) /\
    (forall a, a ∉ hd :: xs ++ [tl] -> cells s'.1 !! a = cells s.1 !! a) /\
    brk s'.1 = brk s.1.
Proof.
  intros Hl. pose proof Hl as ((Hhd & Htl & Hnd & _) & _).
  destruct (List_clear_spec s hd tl xs vs Hl) as (s1 & Hrun & Hl1 & Hbrk & Hfree & Hfr).
  pose proof Hl1 as ((Hhd1 & Htl1 & _) & _).
  unfold List_dtor. rewrite (bind_run this _ s s.2 s eq_refl). rewrite Hhd, Htl.
  rewrite (bind_run _ _ _ _ _ Hrun).
  destruct s1 as [m1 l1]. cbn [fst snd] in *.
  assert (H1 : on_mem (T:=List) (deallocate hd) (m1, l1)
               = Ret tt (mkMem (delete hd (cells m1)) (brk m1), l1)) by done.
  rewrite (bind_run _ _ _ _ _ H1).
  eexists. split; [reflexivity|]. cbn [fst snd cells brk].
  split; [|split; [|done]].
  - intros a [->|[Ha|Ha%list_elem_of_singleton]%elem_of_app]%elem_of_cons.
    + destruct (decide (hd = tl)) as [->|Hne]; [apply lookup_delete_eq|].
      rewrite lookup_delete_ne by done. apply lookup_delete_eq.
    + rewrite !lookup_delete_None. right. right. by apply Hfree.
    + subst. apply lookup_delete_eq.
  - intros a Ha. pose proof Ha as Ha'.
    rewrite not_elem_of_cons, not_elem_of_app, list_elem_of_singleton in Ha'.
    destruct Ha' as (? & ? & ?).
    rewrite !lookup_delete_ne by done. by apply Hfr.
Qed.

(** Move assignment frees every node [*this] had, the sentinels included,
    takes over the nodes of [other] and leaves [other] moved from. *)
Lemma List_move_assign_spec (m : Mem) (l other : List) hd tl xs vs hd' tl' xs' vs' :
  is_list (m, l) hd tl xs vs ->
  is_list (m, other) hd' tl' xs' vs' ->
  (forall a, a ∈ hd :: xs ++ [tl] -> a ∉ hd' :: xs' ++ [tl']) ->
  exists s',
    List_move_assign other (m, l) = Ret (mkList None None 0) s' /\
    is_list s' hd' tl' xs' vs' /\
    (forall a, a ∈ hd :: xs ++ [tl] -> cells s'.1 !! a = None) /\
    (forall a, a ∉ hd :: xs ++ [tl] -> cells s'.1 !! a = cells m !! a).
Proof.
  intros Hl Ho Hdisj. pose proof Hl as ((Hhd & Htl & _) & _). cbn [fst snd] in *.
  destruct (List_dtor_spec (m, l) hd tl xs vs Hl) as (s1 & Hrun & Hfree & Hfr & Hbrk).
  unfold List_dtor in Hrun. rewrite (bind_run this _ (m, l) l (m, l) eq_refl) in Hrun.
  rewrite Hhd, Htl in Hrun.
  unfold List_move_assign. rewrite (bind_run this _ (m, l) l (m, l) eq_refl).
  rewrite Hhd, Htl. rewrite (bind_run _ _ _ _ _ Hrun).
  eexists. split; [reflexivity|]. cbn [fst snd] in *. split; [|done].
  assert (Ho' : is_list (s1.1, other) hd' tl' xs' vs').
  { apply (is_list_frame m); [done| |].
    - intros a Ha. apply Hfr. intros Hin. by apply (Hdisj a Hin).
    - intros a Ha. rewrite Hbrk.
      destruct Ho as ((_ & _ & _ & _ & _ & Hb) & _). apply Hb. cbn [fst].
      destruct (decide (a ∈ hd :: xs ++ [tl])) as [Hin|Hout].
      + destruct Ha as [n Hn]. specialize (Hfree a Hin). unfold addr in *. congruence.
      + destruct Ha as [n Hn]. specialize (Hfr a Hout). exists n. unfold addr in *. congruence. }
  destruct Ho' as ((Hhd' & Htl' & Hrest) & Hsz & Hlt & HF). cbn [fst snd] in *.
  split; [|split; [done|split; [done|done]]].
  split; [done|]. split; [done|]. done.
Qed.

End ListErase.

(** *** The constructors *)

Section ListCopy.
Context {Key Value : Type}.
#[local] Abbreviation heap := (gmap addr (@Node Key Value)).
#[local] Abbreviation Mem := (@Mem Key Value).
#[local] Abbreviation LState := (@LState Key Value).
Implicit Types (h : heap).

(** The constructor returns an empty list on two new sentinels. *)
Lemma List_ctor_spec (m0 : Mem) :
  mem_ok m0 ->
  exists l m1,
    List_ctor m0 = Ret l m1 /\
    is_list (m1, l) (brk m0) (S (brk m0)) [] [] /\
    brk m1 = S (S (brk m0)) /\
    prv (cells m1) (brk m0) = None /\
    (forall a, a <> brk m0 -> a <> S (brk m0) -> cells m1 !! a = cells m0 !! a).
Proof.
  intros Hok. set (h := brk m0). set (t := S (brk m0)).
  assert (Hdead : cells m0 !! h = None).
  { destruct (cells m0 !! h) eqn:E; [|done]. assert (h < brk m0)%nat by (apply Hok; eauto).
    unfold h in *. lia. }
  unfold List_ctor.
  assert (Ha1 : allocate m0 = Ret h (mkMem (<[h := mkNode None None None]> (cells m0)) t)) by done.
  rewrite (bind_run _ _ _ _ _ Ha1).
  set (c1 := <[h := mkNode None None None]> (cells m0)).
  assert (Ha2 : allocate (mkMem c1 t) = Ret t (mkMem (<[t := mkNode None None None]> c1) (S t)))
    by done.
  rewrite (bind_run _ _ _ _ _ Ha2).
  set (c2 := <[t := mkNode None None None]> c1).
  assert (Hht : h <> t) by (unfold h, t; lia).
  assert (Hh2 : is_Some (c2 !! h)).
  { unfold c2, c1. rewrite lookup_insert_ne by done. rewrite lookup_insert_eq. eauto. }
  rewrite (bind_run _ _ _ _ _ (set_next_ok (mkMem c2 (S t)) h (Some t) Hh2)).
  cbn [cells brk].
  set (c3 := alter (with_next (Some t)) h c2).
  assert (Ht3 : is_Some (c3 !! t)).
  { unfold c3. apply live_alter. unfold c2. rewrite lookup_insert_eq. eauto. }
  rewrite (bind_run _ _ _ _ _ (set_prev_ok (mkMem c3 (S t)) t (Some h) Ht3)).
  cbn [cells brk]. set (c4 := alter (with_prev (Some h)) t c3).
  assert (Hnx : nxt c4 h = Some t).
  { unfold c4. rewrite nxt_set_prev. unfold c3. rewrite nxt_set_next by done.
    by rewrite decide_True. }
  assert (Hpv : prv c4 t = Some h).
  { unfold c4. rewrite prv_set_prev by done. by rewrite decide_True. }
  assert (Hph : prv c4 h = None).
  { unfold c4. rewrite prv_set_prev by done. rewrite decide_False by done.
    unfold c3. rewrite prv_set_next. unfold c2, c1.
    rewrite prv_insert, decide_False by done. by rewrite prv_insert, decide_True. }
  assert (Hlive : forall a, is_Some (c4 !! a) -> (a < S t)%nat).
  { intros a Ha. unfold c4, c3 in Ha. rewrite !live_alter in Ha.
    unfold c2, c1 in Ha. rewrite !lookup_insert_is_Some in Ha.
    destruct Ha as [<-|[_ [<-|[_ Ha]]]]; [unfold t; lia|unfold h, t; lia|].
    apply Hok in Ha. unfold t. lia. }
  eexists _, _. split; [done|]. cbn [cells brk].
  split; [|split; [done|split; [exact Hph|]]].
  - split; [|split; [done|split; [simpl; unfold size_t_modulus; lia|constructor]]].
    unfold dll. cbn [fst snd cells brk head_ tail_ app].
    split; [done|]. split; [done|]. split; [|split; [|split]].
    + apply NoDup_cons. split; [|apply NoDup_singleton]. by rewrite list_elem_of_singleton.
    + split; [|done]. split; [exact Hnx|exact Hpv].
    + intros a Ha. by apply elem_of_nil in Ha.
    + exact Hlive.
  - intros a Hah Hat. fold h in Hah. fold t in Hat.
    unfold c4, c3. rewrite !lookup_alter_ne by done.
    unfold c2, c1. by rewrite !lookup_insert_ne by done.
Qed.

(** The loop copies the values behind [it] to the end of the new list and
    leaves the source list as it is. *)
Lemma List_copy_loop_spec (other : List) hd tl xs vs hd' tl' :
  forall (rest : list addr) (s : LState) done ys vdone vrest fuel it,
  xs = done ++ rest -> vs = vdone ++ vrest -> length done = length vdone ->
  is_list (s.1, other) hd tl xs vs ->
  is_list s hd' tl' ys vdone ->
  (forall a, a ∈ hd' :: ys ++ [tl'] -> a ∉ hd :: xs ++ [tl]) ->
  (rest ++ [tl]) !! 0%nat = Some it ->
  (length rest <= fuel)%nat ->
  exists s' ys',
    List_copy_loop fuel (Some it) (Some tl) s = Ret tt s' /\
    is_list s' hd' tl' ys' vs /\
    is_list (s'.1, other) hd tl xs vs /\
    (forall a, a ∈ hd' :: ys' ++ [tl'] -> a ∉ hd :: xs ++ [tl]).
Proof.
  induction rest as [|x rest IH];
    intros s done ys vdone vrest fuel it Hxs Hvs Hlen Hsrc Hnew Hdisj Hit Hfuel.
  { simpl in Hit. injection Hit as <-. rewrite app_nil_r in Hxs. subst xs.
    assert (vrest = []) as ->.
    { destruct Hsrc as (_ & _ & _ & HF). apply Forall2_length in HF.
      rewrite Hvs, length_app in HF. destruct vrest; [done|simpl in HF; lia]. }
    rewrite app_nil_r in Hvs. subst vs.
    exists s, ys. split; [|done].
    destruct fuel; simpl; by rewrite iter_eqb_refl. }
  simpl in Hit. injection Hit as <-.
  destruct fuel as [|fuel]; [simpl in Hfuel; lia|].
  pose proof Hsrc as (Hd & Hsz & Hlt & HF). cbn [fst snd] in *.
  assert (Hxin : (xs ++ [tl]) !! length done = Some x).
  { rewrite Hxs, <- app_assoc. rewrite lookup_app_r by lia. by rewrite Nat.sub_diag. }
  destruct (chain_first rest tl) as [nx Hnx].
  assert (Hnin : (xs ++ [tl]) !! S (length done) = Some nx).
  { rewrite Hxs, <- app_assoc. rewrite lookup_app_r by lia.
    by replace (S (length done) - length done)%nat with 1%nat by lia. }
  pose proof (dll_next _ _ _ _ _ _ _ Hd Hxin Hnin) as [Hnext _]. cbn [fst] in Hnext.
  destruct vrest as [|v vrest].
  { apply Forall2_length in HF. rewrite Hxs, Hvs, !length_app in HF. simpl in HF. lia. }
  assert (Hv : val (cells s.1) x = Some v).
  { rewrite Hxs, Hvs in HF. apply Forall2_app_inv in HF as [_ HF]; [|done].
    by apply Forall2_cons in HF as [? _]. }
  assert (Hxtl : x <> tl).
  { intros ->. destruct Hd as (_ & _ & Hnd & _). apply NoDup_cons in Hnd as [_ Hnd].
    pose proof (NoDup_lookup _ (length done) (length xs) tl Hnd Hxin) as E.
    rewrite lookup_app_r in E by lia. rewrite Nat.sub_diag in E. specialize (E eq_refl).
    rewrite Hxs, length_app in E. simpl in E. lia. }
  cbn [List_copy_loop]. unfold iter_eqb at 1. rewrite bool_decide_eq_false_2 by congruence.
  destruct s as [m l]. cbn [fst snd] in *.
  rewrite (bind_run _ _ _ _ _ (on_mem_run (T:=List) _ _ _ l _ (load_value_ok _ _ _ Hv))).
  assert (Hys : (length ys <= length done)%nat).
  { destruct Hnew as (_ & _ & _ & HF'). apply Forall2_length in HF'. lia. }
  destruct (List_push_back_spec (m, l) hd' tl' ys vdone v Hnew)
    as (s1 & Hrun & Hnew1 & Hbrk & Hfr).
  { rewrite Hxs, length_app in Hlt. simpl in Hlt. lia. }
  cbn [fst snd] in *.
  rewrite (bind_run _ _ _ _ _ Hrun).
  (* the source list is untouched *)
  assert (Hsrc1 : is_list (s1.1, other) hd tl xs vs).
  { apply (is_list_frame m); [done| |].
    - intros a Ha. apply Hfr.
      + intros Hin. by apply (Hdisj a Hin).
      + apply (dll_fresh (m, other) hd tl xs a Hd Ha).
    - destruct Hnew1 as ((_ & _ & _ & _ & _ & Hb) & _). exact Hb. }
  assert (Hnext1 : nxt (cells s1.1) x = Some nx).
  { destruct Hsrc1 as (Hd1 & _). by apply (dll_next _ _ _ _ _ _ _ Hd1 Hxin Hnin). }
  destruct s1 as [m1 l1]. cbn [fst snd] in *.
  rewrite (bind_run _ _ _ _ _ (on_mem_run (T:=List) _ _ _ l1 _ (load_next_ok _ _ _ Hnext1))).
  apply (IH (m1, l1) (done ++ [x]) (ys ++ [brk m]) (vdone ++ [v]) vrest fuel nx).
  - by rewrite <- app_assoc.
  - by rewrite <- app_assoc.
  - rewrite !length_app. simpl. lia.
  - done.
  - done.
  - intros a Ha Hin.
    rewrite elem_of_cons, !elem_of_app, !list_elem_of_singleton in Ha.
    destruct Ha as [->|[[Ha| ->]| ->]].
    + apply (Hdisj hd'); [by left|done].
    + apply (Hdisj a); [right; apply elem_of_app; by left|done].
    + by apply (dll_fresh (m, other) hd tl xs (brk m) Hd Hin).
    + apply (Hdisj tl'); [right; apply elem_of_app; right; by left|done].
  - done.
  - simpl in Hfuel. lia.
Qed.

(** The copy constructor builds, on new nodes, a list with the same values
    in the same order, and leaves the source list as it is. *)
Lemma List_copy_ctor_spec (m : Mem) (other : List) hd tl xs vs :
  is_list (m, other) hd tl xs vs ->
  exists l m' ys,
    List_copy_ctor other m = Ret l m' /\
    is_list (m', l) (brk m) (S (brk m)) ys vs /\
    is_list (m', other) hd tl xs vs /\
    (forall a, a ∈ brk m :: ys ++ [S (brk m)] -> a ∉ hd :: xs ++ [tl]).
Proof.
  intros Hsrc. pose proof Hsrc as (Hd & _). pose proof Hd as (Hhd & _ & _ & _ & _ & Hb).
  cbn [fst snd] in *.
  destruct (List_ctor_spec m Hb) as (l & m1 & Hctor & Hnew & Hbrk & _ & Hfr).
  assert (Hfresh : forall a, a ∈ hd :: xs ++ [tl] -> a <> brk m /\ a <> S (brk m)).
  { intros a Ha. pose proof (dll_live _ _ _ _ a Hd Ha) as Hl. apply Hb in Hl.
    cbn [fst] in Hl. lia. }
  assert (Hsrc1 : is_list (m1, other) hd tl xs vs).
  { apply (is_list_frame m); [done| |].
    - intros a Ha. destruct (Hfresh a Ha). by apply Hfr.
    - destruct Hnew as ((_ & _ & _ & _ & _ & Hb1) & _). exact Hb1. }
  pose proof Hsrc1 as (Hd1 & _). pose proof Hd1 as (_ & Htl1 & _). cbn [fst snd] in *.
  destruct (chain_first xs tl) as [first Hfirst].
  pose proof (dll_first _ _ _ _ _ Hd1 Hfirst) as [Hn _]. cbn [fst] in Hn.
  pose proof (dll_size_bound _ _ _ _ Hd1) as Hsize. cbn [fst] in Hsize.
  destruct (List_copy_loop_spec other hd tl xs vs (brk m) (S (brk m)) xs (m1, l) [] [] [] vs
              (S (size (cells m1))) first) as (s' & ys & Hrun & Hl' & Hsrc' & Hdisj);
    try done.
  { intros a Ha Hin. destruct (Hfresh a Hin) as [? ?].
    rewrite elem_of_cons, elem_of_app, elem_of_nil, list_elem_of_singleton in Ha.
    destruct Ha as [->|[[]| ->]]; done. }
  { lia. }
  exists s'.2, s'.1, ys.
  unfold List_copy_ctor. rewrite (bind_run _ _ _ _ _ Hctor).
  assert (Hr : run_on l (first ← on_mem (load_next (head_ other));
                         m ← on_mem get;
                         List_copy_loop (S (size (cells m))) first (tail_ other)) m1
               = Ret (tt, s'.2) s'.1).
  { unfold run_on. rewrite Hhd.
    rewrite (bind_run _ _ _ _ _ (on_mem_run (T:=List) _ _ _ l _ (load_next_ok _ _ _ Hn))).
    assert (Hget : on_mem (T:=List) get (m1, l) = Ret m1 (m1, l)) by done.
    rewrite (bind_run _ _ _ _ _ Hget). rewrite Htl1, Hrun. done. }
  rewrite (bind_run _ _ _ _ _ Hr). split; [done|].
  destruct s' as [m' l']. done.
Qed.

End ListCopy.

(** *** [insert] *)

Section ListInsert.
Context {Key Value : Type}.
#[local] Abbreviation Mem := (@Mem Key Value).
#[local] Abbreviation LState := (@LState Key Value).

(** X2. [insert(pos, v)] puts a new node with [v] in front of [pos], which
    may be the end iterator, and returns the iterator to it; the other
    entries keep their nodes, values and order. *)
Theorem List_insert_spec (s : LState) hd tl A B va vb pos v :
  is_list s hd tl (A ++ B) (va ++ vb) ->
  length A = length va ->
  (B ++ [tl]) !! 0%nat = Some pos ->
  N.of_nat (length (A ++ B)) + 1 < size_t_modulus ->
  exists s',
    List_insert (Some pos) v s = Ret (Some (brk s.1)) s' /\
    is_list s' hd tl (A ++ brk s.1 :: B) (va ++ v :: vb) /\
    brk s'.1 = S (brk s.1) /\
    (forall a, a ∉ hd :: (A ++ B) ++ [tl] -> a <> brk s.1 -> cells s'.1 !! a = cells s.1 !! a).
Proof.
  intros (Hd & Hsz & Hlt & Hvs) Hlen Hpos Hwrap.
  assert (HR : (A ++ B) ++ [tl] = A ++ pos :: tail (B ++ [tl])).
  { rewrite <- app_assoc. f_equal. destruct (B ++ [tl]); [done|].
    simpl in Hpos. by injection Hpos as ->. }
  destruct (List_emplace_full s hd tl (A ++ B) A pos _ v Hd HR)
    as (t & xs' & Hrun & Hxs' & Hd' & Ht2 & Hbrk & Hvf & Hvo & Hfr).
  assert (xs' = A ++ brk s.1 :: B) as ->.
  { assert (E : pos :: tail (B ++ [tl]) = B ++ [tl]).
    { rewrite <- app_assoc in HR. by apply app_inv_head in HR. }
    change (A ++ brk s.1 :: pos :: tail (B ++ [tl]))
      with (A ++ brk s.1 :: (pos :: tail (B ++ [tl]))) in Hxs'.
    rewrite E in Hxs'.
    change (A ++ brk s.1 :: B ++ [tl]) with (A ++ (brk s.1 :: B) ++ [tl]) in Hxs'.
    rewrite app_assoc in Hxs'. by apply app_inj_tail in Hxs' as [-> _]. }
  exists t. unfold List_insert. split; [done|]. split; [|done].
  split; [done|]. split.
  { rewrite Ht2. cbn [size_]. rewrite Hsz, !length_app. cbn [length].
    rewrite length_app in Hwrap. unfold wrap. rewrite N.mod_small by lia. lia. }
  split.
  { rewrite length_app in *. cbn [length]. lia. }
  assert (Hold : forall a, a ∈ A ++ B -> val (cells t.1) a = val (cells s.1) a).
  { intros a Ha. apply Hvo. apply (dll_fresh _ _ _ _ _ Hd). right. apply elem_of_app. by left. }
  apply Forall2_app_inv in Hvs as [HA HB]; [|done].
  apply Forall2_app.
  - apply (holds_frame (cells s.1)); [done|]. intros a Ha. apply Hold. apply elem_of_app. by left.
  - constructor; [done|].
    apply (holds_frame (cells s.1)); [done|]. intros a Ha. apply Hold. apply elem_of_app. by right.
Qed.

End ListInsert.

(** ** The bucket invariant by positions: [find] and [insert] *)

Section Partition.
Context {Key Value : Type}.
Variable hasher : Key -> N.
Variable key_equal : Key -> Key -> bool.
#[local] Abbreviation MState := (@MState Key Value).
#[local] Abbreviation LState := (@LState Key Value).

Lemma chain_tl_pos (xs : list addr) tl i :
  NoDup (xs ++ [tl]) -> (xs ++ [tl]) !! i = Some tl -> i = length xs.
Proof.
  intros Hnd Hi. apply (NoDup_lookup _ _ _ _ Hnd Hi).
  rewrite lookup_app_r by lia. by rewrite Nat.sub_diag.
Qed.

Lemma chain_lookup_tl (xs : list addr) tl : (xs ++ [tl]) !! length xs = Some tl.
Proof. rewrite lookup_app_r by lia. by rewrite Nat.sub_diag. Qed.

Lemma chain_lookup_is_Some (xs : list addr) tl i :
  (i <= length xs)%nat -> is_Some ((xs ++ [tl]) !! i).
Proof. intros H. apply lookup_lt_is_Some. rewrite length_app. simpl. lia. Qed.

(** A bucket index is below the bucket count. *)
Lemma node_index_lt (h : gmap addr (@Node Key Value)) (n : N) a :
  0 < n -> (node_index hasher h n a < N.to_nat n)%nat.
Proof.
  intros Hn. unfold node_index. destruct (val h a) as [kv|]; [|lia].
  pose proof (N.mod_upper_bound (hasher kv.1) n). lia.
Qed.

(** The invariant by positions gives a usable map. *)
Lemma partitioned_usable (s : MState) hd tl xs :
  partitioned hasher s hd tl xs -> usable hasher s hd tl xs.
Proof.
  intros (Hd & Hsz & Hne & Hr). split; [done|]. split; [done|]. split; [done|].
  pose proof Hd as (_ & _ & Hnd & _). apply NoDup_cons in Hnd as [_ Hnd].
  split.
  - apply Forall_lookup. intros i b Hb.
    destruct (Hr i b Hb) as (p & q & Hpq & Hp & Hq & _).
    destruct (chain_lookup_is_Some xs tl p) as [x Hx]; [lia|].
    destruct (chain_lookup_is_Some xs tl q) as [y Hy]; [lia|].
    exists x, y. split; [congruence|]. split; [congruence|].
    exists p, q. split; [lia|done].
  - intros a kv Ha Hv.
    assert (Hpos : 0 < bucket_count s.2).
    { unfold bucket_count. destruct (buckets s.2); [done|simpl; lia]. }
    set (i := N.to_nat (hasher kv.1 mod bucket_count s.2)).
    assert (Hi : (i < length (buckets s.2))%nat).
    { pose proof (N.mod_upper_bound (hasher kv.1) (bucket_count s.2)).
      unfold i, bucket_count in *. lia. }
    apply lookup_lt_is_Some in Hi as [b Hb]. exists b. split; [done|].
    destruct (Hr i b Hb) as (p & q & Hpq & Hp & Hq & _ & Hin).
    apply list_elem_of_lookup in Ha as [k Hk].
    assert (Hidx : node_index hasher (cells s.1) (bucket_count s.2) a = i).
    { unfold node_index. by rewrite Hv. }
    apply (Hin k a Hk) in Hidx.
    rewrite Hp. intros Htl. apply (chain_tl_pos _ _ _ Hnd) in Htl.
    apply lookup_lt_Some in Hk. lia.
Qed.

(** Under the invariant [find] returns an entry with an equal key when
    there is one, and the end iterator otherwise. *)
Lemma find_partitioned (s : MState) hd tl xs k :
  partitioned hasher s hd tl xs ->
  hash_compatible hasher key_equal ->
  (exists a kv, find hasher key_equal k s = Ret (Some a) s /\
     a ∈ xs /\ val (cells s.1) a = Some kv /\ key_equal kv.1 k = true) \/
  (find hasher key_equal k s = Ret (map_end s.2) s /\
   forall a kv, a ∈ xs -> val (cells s.1) a = Some kv -> key_equal kv.1 k = false).
Proof.
  intros (Hd & Hsz & Hne & Hr) Hcompat.
  destruct (get_bucket_index_lt hasher s.2 k Hne) as [Hidx Hlt].
  apply lookup_lt_is_Some in Hlt as [b Hb].
  destruct (Hr _ b Hb) as (p & q & Hpq & Hp & Hq & _ & Hin).
  destruct (chain_lookup_is_Some xs tl p) as [x Hx]; [lia|].
  destruct (chain_lookup_is_Some xs tl q) as [y Hy]; [lia|].
  pose proof (dll_size_bound _ _ _ _ Hd) as Hsize. cbn [fst] in Hsize.
  destruct (bucket_scan_spec key_equal (s.1, elements s.2) hd tl xs k (S (size (cells s.1)))
              Hd p q x y Hx Hy) as (r & Hrun & Hspec); [lia|lia|].
  cbn [fst] in *.
  assert (Hscan : on_mem (with_fuel (fun fuel =>
            bucket_scan key_equal k (bucket_end b) fuel (bucket_begin b))) s = Ret r s).
  { rewrite Hp, Hq, Hx, Hy. destruct s as [m mp]. apply on_mem_run. exact Hrun. }
  unfold find. rewrite (bind_run _ _ _ _ _ (this_ok s)). cbv zeta.
  rewrite (bind_run _ _ _ _ _ (bucket_at_ok _ _ _ Hb)).
  rewrite (bind_run _ _ _ _ _ Hscan).
  destruct r as [it|].
  - left. destruct Hspec as (a & kv & -> & Ha & Hv & Hk). by exists a, kv.
  - right. split; [done|]. intros a kv Ha Hv.
    destruct (key_equal kv.1 k) eqn:Hk; [|done].
    apply list_elem_of_lookup in Ha as [j Hj].
    assert (Hj' : (p <= j < q)%nat).
    { apply (Hin j a Hj). unfold node_index. rewrite Hv. rewrite (Hcompat _ _ Hk).
      by rewrite Hidx. }
    rewrite <- Hk. by apply (Hspec j a kv).
Qed.

(** [check_rehash()] does nothing up to a load factor of 1. *)
Lemma check_rehash_noop (s : MState) :
  load_factor_exceeds s.2 = false -> check_rehash hasher s = Ret tt s.
Proof.
  intros H. unfold check_rehash. rewrite (bind_run _ _ _ _ _ (this_ok s)). by rewrite H.
Qed.

(** What [open_bucket] does to the bucket vector when the new node [f]
    stands at the tail: bucket [i] becomes [[f, end)], and the bucket of the
    node in front of [f] gets [f] as its end when it ended at the tail. *)
Lemma open_bucket_run (t : LState) (bs : list Bucket) hd tl xs i b f :
  dll t hd tl (xs ++ [f]) ->
  bs !! N.to_nat i = Some b ->
  exists bs',
    open_bucket hasher i (Some f) (t.1, mkMap t.2 bs) = Ret tt (t.1, mkMap t.2 bs') /\
    length bs' = length bs /\
    bs' !! N.to_nat i = Some (mkBucket (Some f) (Some tl)) /\
    (forall j b0, j <> N.to_nat i -> bs !! j = Some b0 ->
       bs' !! j = Some
         (if decide ((node_index hasher (cells t.1) (N.of_nat (length bs)) <$> last xs) = Some j /\
                     bucket_end b0 = Some tl)
          then mkBucket (bucket_begin b0) (Some f) else b0)).
Proof.
  intros Hd Hb. pose proof Hd as (_ & Htl2 & _).
  assert (Hd1 : dll (t.1, t.2) hd tl (xs ++ [f])) by (by destruct t).
  destruct (chain_snoc_lookup xs f tl) as [Hcf Hct].
  pose proof (dll_next _ _ _ _ _ _ _ Hd1 Hcf Hct) as [Hfn _]. cbn [fst snd] in Hfn.
  assert (Hlen : (N.to_nat i < length bs)%nat) by (by eapply lookup_lt_Some).
  unfold open_bucket. rewrite ?bind_assoc.
  rewrite (bind_run _ _ _ _ _ (set_bucket_begin_ok (t.1, mkMap t.2 bs) i (Some f) b Hb)).
  cbn [fst snd elements buckets]. rewrite ?bind_assoc.
  set (B1 := <[N.to_nat i := mkBucket (Some f) (bucket_end b)]> bs).
  rewrite (bind_run _ _ _ _ _ (on_mem_map _ _ _ _ _ (load_next_ok _ _ _ Hfn))).
  rewrite ?bind_assoc.
  assert (HB1 : B1 !! N.to_nat i = Some (mkBucket (Some f) (bucket_end b))).
  { unfold B1. by apply list_lookup_insert_eq. }
  rewrite (bind_run _ _ _ _ _ (set_bucket_end_ok (t.1, mkMap t.2 B1) i (Some tl) _ HB1)).
  cbn [fst snd elements buckets bucket_begin]. rewrite ?bind_assoc.
  set (B2 := <[N.to_nat i := mkBucket (Some f) (Some tl)]> B1).
  assert (HB2 : B2 = <[N.to_nat i := mkBucket (Some f) (Some tl)]> bs).
  { unfold B2, B1. apply list_insert_insert_eq. }
  assert (HlenB2 : length B2 = length bs) by (by rewrite HB2, length_insert).
  assert (HB2i : B2 !! N.to_nat i = Some (mkBucket (Some f) (Some tl))).
  { rewrite HB2. by apply list_lookup_insert_eq. }
  assert (HB2j : forall j, j <> N.to_nat i -> B2 !! j = bs !! j).
  { intros j Hj. rewrite HB2. by apply list_lookup_insert_ne. }
  destruct (chain_first (xs ++ [f]) tl) as [a0 Ha0].
  rewrite (bind_run _ _ _ _ _ (on_elements_run _ (t.1, mkMap t.2 B2) _ _
             (List_begin_spec _ _ _ _ _ Hd1 Ha0))).
  cbn [fst snd elements buckets].
  destruct (snoc_or_nil xs) as [->|(xs0 & p & ->)].
  { (* the new node is the only one *)
    simpl in Ha0. injection Ha0 as <-. rewrite iter_eqb_refl.
    exists B2. split; [done|]. split; [done|]. split; [done|].
    intros j b0 Hj Hb0. rewrite HB2j by done. rewrite Hb0.
    rewrite decide_False; [done|]. intros [E _]. simpl in E. discriminate. }
  assert (Ha0f : a0 <> f).
  { intros ->. destruct Hd1 as (_ & _ & Hnd & _). apply NoDup_cons in Hnd as [_ Hnd].
    pose proof (NoDup_lookup _ _ _ _ Hnd Hcf Ha0) as E.
    rewrite length_app in E. simpl in E. lia. }
  unfold iter_eqb at 1. rewrite bool_decide_eq_false_2 by congruence.
  rewrite ?bind_assoc.
  (* the node in front of the new one *)
  assert (Hcp : (((xs0 ++ [p]) ++ [f]) ++ [tl]) !! length xs0 = Some p).
  { rewrite <- !app_assoc. rewrite lookup_app_r by lia. by rewrite Nat.sub_diag. }
  rewrite length_app in Hcf. simpl in Hcf.
  replace (length xs0 + 1)%nat with (S (length xs0)) in Hcf by lia.
  pose proof (dll_next _ _ _ _ _ _ _ Hd1 Hcp Hcf) as [_ Hfp]. cbn [fst snd] in Hfp.
  rewrite (bind_run _ _ _ _ _ (on_mem_map _ _ _ _ _ (load_prev_ok _ _ _ Hfp))).
  rewrite ?bind_assoc.
  assert (Hpin : p ∈ (xs0 ++ [p]) ++ [f]).
  { apply elem_of_app; left. apply elem_of_app; right; by left. }
  destruct Hd1 as (_ & _ & _ & _ & Hvs & _). cbn [fst snd] in Hvs.
  destruct (Hvs p Hpin) as [pkv Hpkv].
  rewrite (bind_run _ _ _ _ _ (on_mem_map _ _ _ _ _ (load_value_ok _ _ _ Hpkv))).
  rewrite ?bind_assoc.
  rewrite (bind_run _ _ _ _ _ (this_ok (t.1, mkMap t.2 B2))). cbn [snd].
  assert (Hne2 : B2 <> []) by (intros E; rewrite E in HlenB2; simpl in HlenB2; lia).
  destruct (get_bucket_index_lt hasher (mkMap t.2 B2) pkv.1 Hne2) as [Hpi Hpilt].
  unfold bucket_count in Hpi. cbn [buckets] in Hpi, Hpilt. rewrite HlenB2 in Hpi, Hpilt.
  rewrite Hpi in Hpilt |- *.
  assert (Hlast : node_index hasher (cells t.1) (N.of_nat (length bs)) <$> last ((xs0 ++ [p]))
                  = Some (N.to_nat (hasher pkv.1 mod N.of_nat (length bs)))).
  { rewrite last_snoc. simpl. unfold node_index. by rewrite Hpkv. }
  rewrite Hlast.
  set (pi := hasher pkv.1 mod N.of_nat (length bs)) in *.
  destruct (N.eqb_spec pi i) as [Heq|Hneq].
  { exists B2. split; [done|]. split; [done|]. split; [done|].
    intros j b0 Hj Hb0. rewrite HB2j by done. rewrite Hb0.
    rewrite decide_False; [done|]. intros [[= E] _]. apply Hj. by rewrite <- E, Heq. }
  rewrite ?bind_assoc.
  assert (Hpij : N.to_nat pi <> N.to_nat i) by lia.
  apply lookup_lt_is_Some in Hpilt as [pb Hpb].
  assert (HpB2 : B2 !! N.to_nat pi = Some pb) by (by rewrite HB2j).
  rewrite (bind_run _ _ _ _ _ (bucket_at_ok (t.1, mkMap t.2 B2) _ _ HpB2)).
  unfold map_end, List_end. cbn [elements]. rewrite Htl2.
  destruct (iter_eqb (bucket_end pb) (Some tl)) eqn:Hend.
  2:{ exists B2. split; [done|]. split; [done|]. split; [done|].
      intros j b0 Hj Hb0. rewrite HB2j by done. rewrite Hb0.
      rewrite decide_False; [done|]. intros [[= E] Hb0e]. subst j.
      assert (b0 = pb) as -> by congruence.
      unfold iter_eqb in Hend. by rewrite bool_decide_eq_true_2 in Hend. }
  apply bool_decide_eq_true_1 in Hend.
  rewrite (set_bucket_end_ok (t.1, mkMap t.2 B2) _ (Some f) _ HpB2).
  cbn [fst snd elements buckets].
  eexists. split; [done|]. split; [by rewrite length_insert|]. split.
  { by rewrite list_lookup_insert_ne. }
  intros j b0 Hj Hb0. destruct (decide (j = N.to_nat pi)) as [->|Hjp].
  - assert (b0 = pb) as -> by congruence.
    rewrite decide_True by done. apply list_lookup_insert_eq. by eapply lookup_lt_Some.
  - rewrite list_lookup_insert_ne by done. rewrite HB2j by done. rewrite Hb0.
    rewrite decide_False; [done|]. intros [[= E] _]. done.
Qed.

(** An insertion moves the elements behind it by one position. *)
Lemma lookup_shift {T} (A B : list T) f k :
  (A ++ f :: B) !! shift (length A) k = (A ++ B) !! k.
Proof.
  unfold shift. case_decide.
  - by rewrite !lookup_app_l by done.
  - rewrite !lookup_app_r by lia.
    by replace (S k - length A)%nat with (S (k - length A)) by lia.
Qed.

Lemma lookup_inserted {T} (A B : list T) f k a :
  (A ++ f :: B) !! k = Some a ->
  (k = length A /\ a = f) \/ exists k0, k = shift (length A) k0 /\ (A ++ B) !! k0 = Some a.
Proof.
  intros H. destruct (decide (k < length A)%nat) as [Hlt|Hge].
  - right. exists k. unfold shift. rewrite decide_True by done. split; [done|].
    rewrite lookup_app_l in H by done. by rewrite lookup_app_l.
  - destruct (decide (k = length A)) as [->|Hne].
    + left. rewrite lookup_app_r, Nat.sub_diag in H by lia. simpl in H. by injection H as <-.
    + right. exists (pred k). unfold shift. rewrite decide_False by lia. split; [lia|].
      rewrite lookup_app_r in H by lia. rewrite lookup_app_r by lia.
      by replace (k - length A)%nat with (S (pred k - length A)) in H by lia.
Qed.

Lemma shift_lt n a b : (shift n a < shift n b)%nat <-> (a < b)%nat.
Proof. unfold shift. repeat case_decide; lia. Qed.

Lemma shift_le n a b : (shift n a <= shift n b)%nat <-> (a <= b)%nat.
Proof. unfold shift. repeat case_decide; lia. Qed.

(** A bucket range survives the insertion of [f] at position [length A]
    when [f] belongs to the bucket exactly if that position is inside or
    at the end of its range. *)
Lemma bucket_range_insert (idx idx' : addr -> nat) (A B : list addr) f tl j b p q :
  (p <= q <= length (A ++ B))%nat ->
  bucket_begin b = ((A ++ B) ++ [tl]) !! p ->
  bucket_end b = ((A ++ B) ++ [tl]) !! q ->
  (p = q -> p = length (A ++ B)) ->
  (forall k a, (A ++ B) !! k = Some a -> (p <= k < q)%nat <-> idx a = j) ->
  (forall a, a ∈ A ++ B -> idx' a = idx a) ->
  ((p < length A <= q)%nat <-> idx' f = j) ->
  bucket_range idx' (A ++ f :: B) tl j b.
Proof.
  intros Hpq Hp Hq Hempty Hin Hidx Hf.
  exists (shift (length A) p), (shift (length A) q).
  rewrite length_app in *. cbn [length].
  split; [unfold shift; repeat case_decide; lia|].
  split; [|split; [|split]].
  - rewrite Hp. rewrite <- !app_assoc. cbn [app]. by rewrite (lookup_shift A (B ++ [tl]) f p).
  - rewrite Hq. rewrite <- !app_assoc. cbn [app]. by rewrite (lookup_shift A (B ++ [tl]) f q).
  - unfold shift. repeat case_decide; lia.
  - intros k a Hk. apply lookup_inserted in Hk as [[-> ->]|(k0 & -> & Hk0)].
    + rewrite <- Hf. unfold shift. repeat case_decide; lia.
    + rewrite shift_le, shift_lt. rewrite (Hin k0 a Hk0).
      rewrite Hidx; [done|]. by eapply list_elem_of_lookup_2.
Qed.

Lemma last_lookup_pred {T} (xs : list T) a :
  last xs = Some a <-> (0 < length xs)%nat /\ xs !! pred (length xs) = Some a.
Proof.
  rewrite last_lookup. split.
  - intros H. split; [|done]. apply lookup_lt_Some in H. lia.
  - by intros [_ H].
Qed.

(** [insert] keeps the invariant when no rehash is due, and it reports a
    new key exactly when no entry has an equal key. *)
Lemma insert_partitioned (s : MState) hd tl xs v :
  partitioned hasher s hd tl xs ->
  hash_compatible hasher key_equal ->
  load_factor_exceeds s.2 = false ->
  N.of_nat (length xs) + 1 < size_t_modulus ->
  exists r s' xs',
    insert hasher key_equal v s = Ret r s' /\
    partitioned hasher s' hd tl xs' /\
    length (buckets s'.2) = length (buckets s.2) /\
    ((r.2 = false /\ s' = s /\ xs' = xs /\
      find hasher key_equal v.1 s = Ret r.1 s /\
      exists a kv, r.1 = Some a /\ a ∈ xs /\ val (cells s.1) a = Some kv /\
                   key_equal kv.1 v.1 = true) \/
     (r.2 = true /\ r.1 = Some (brk s.1) /\ xs' ≡ₚ brk s.1 :: xs /\
      val (cells s'.1) (brk s.1) = Some v /\
      (forall a, a <> brk s.1 -> val (cells s'.1) a = val (cells s.1) a) /\
      forall a kv, a ∈ xs -> val (cells s.1) a = Some kv -> key_equal kv.1 v.1 = false)).
Proof.
  intros Hpart Hcompat Hlf Hwrap. pose proof Hpart as (Hd & Hsz & Hne & Hr).
  pose proof Hd as (_ & Htl & Hnd & _ & Hvals & _). cbn [fst snd] in Htl, Hnd, Hvals.
  apply NoDup_cons in Hnd as [_ Hnd].
  destruct (get_bucket_index_lt hasher s.2 v.1 Hne) as [Hidx Hlt].
  set (i := get_bucket_index hasher s.2 v.1) in *.
  apply lookup_lt_is_Some in Hlt as [b Hb].
  destruct (Hr _ b Hb) as (p & q & Hpq & Hp & Hq & Hempty & Hin).
  destruct (chain_lookup_is_Some xs tl p) as [x Hx]; [lia|].
  destruct (chain_lookup_is_Some xs tl q) as [y Hy]; [lia|].
  pose proof (dll_size_bound _ _ _ _ Hd) as Hsize. cbn [fst] in Hsize.
  destruct (bucket_scan_spec key_equal (s.1, elements s.2) hd tl xs v.1 (S (size (cells s.1)))
              Hd p q x y Hx Hy) as (r & Hrun & Hspec); [lia|lia|].
  cbn [fst] in *.
  assert (Hscan : on_mem (with_fuel (fun fuel =>
            bucket_scan key_equal v.1 (bucket_end b) fuel (bucket_begin b))) s = Ret r s).
  { rewrite Hp, Hq, Hx, Hy. destruct s as [m mp]. apply on_mem_run. exact Hrun. }
  assert (Hfind : forall it, r = Some it -> find hasher key_equal v.1 s = Ret it s).
  { intros it ->. unfold find. rewrite (bind_run _ _ _ _ _ (this_ok s)). cbv zeta. fold i.
    rewrite (bind_run _ _ _ _ _ (bucket_at_ok _ _ _ Hb)).
    by rewrite (bind_run _ _ _ _ _ Hscan). }
  unfold insert. rewrite (bind_run _ _ _ _ _ (check_rehash_noop s Hlf)).
  rewrite (bind_run _ _ _ _ _ (this_ok s)). cbv zeta. fold i.
  rewrite (bind_run _ _ _ _ _ (bucket_at_ok _ _ _ Hb)).
  rewrite (bind_run _ _ _ _ _ Hscan).
  destruct r as [it|].
  { exists (it, false), s, xs. split; [done|]. split; [done|]. split; [done|]. left.
    specialize (Hfind it eq_refl).
    destruct Hspec as (a & kv & -> & Ha & Hv & Hk). repeat split; try done. by exists a, kv. }
  clear Hfind.
  (* no entry has an equal key *)
  assert (Hno : forall a kv, a ∈ xs -> val (cells s.1) a = Some kv -> key_equal kv.1 v.1 = false).
  { intros a kv Ha Hv. destruct (key_equal kv.1 v.1) eqn:Hk; [|done].
    apply list_elem_of_lookup in Ha as [j Hj].
    assert (Hj' : (p <= j < q)%nat).
    { apply (Hin j a Hj). unfold node_index. rewrite Hv. rewrite (Hcompat _ _ Hk).
      by rewrite <- Hidx. }
    rewrite <- Hk. by apply (Hspec j a kv). }
  set (f := brk s.1).
  set (bc := bucket_count s.2) in *.
  (* the new node goes in front of the end of the bucket *)
  assert (Hsplit : xs ++ [tl] = take q xs ++ y :: tail (drop q xs ++ [tl])).
  { rewrite <- (take_drop q xs) at 1. rewrite <- app_assoc. f_equal.
    assert (Hy' : (drop q xs ++ [tl]) !! 0%nat = Some y).
    { rewrite <- (take_drop q xs), <- app_assoc in Hy.
      rewrite lookup_app_r in Hy by (rewrite length_take; lia).
      by replace (q - length (take q xs))%nat with 0%nat in Hy by (rewrite length_take; lia). }
    destruct (drop q xs ++ [tl]); [done|]. simpl in Hy'. by injection Hy' as ->. }
  destruct (List_emplace_full (s.1, elements s.2) hd tl xs _ y _ v Hd Hsplit)
    as (t & xs' & Hemp & Hxs' & Hd' & Ht2 & Hbrk & Hvf & Hvo & _).
  cbn [fst snd] in *. fold f in Hemp, Hxs', Hvf, Hvo.
  set (A := take q xs) in *. set (B := drop q xs) in *.
  assert (HAB : xs = A ++ B) by (unfold A, B; by rewrite take_drop).
  assert (HlenA : length A = q) by (unfold A; rewrite length_take; lia).
  assert (Hxs'' : xs' = A ++ f :: B).
  { assert (E : y :: tail (B ++ [tl]) = B ++ [tl]).
    { rewrite HAB, <- app_assoc in Hsplit. by apply app_inv_head in Hsplit. }
    change (A ++ f :: y :: tail (B ++ [tl])) with (A ++ f :: (y :: tail (B ++ [tl]))) in Hxs'.
    rewrite E in Hxs'.
    change (A ++ f :: B ++ [tl]) with (A ++ (f :: B) ++ [tl]) in Hxs'.
    rewrite app_assoc in Hxs'. by apply app_inj_tail in Hxs' as [-> _]. }
  subst xs'.
  assert (Hfxs : f ∉ xs).
  { intros Hf. apply (dll_fresh _ _ _ _ f Hd); [|done]. right. apply elem_of_app. by left. }
  assert (Hperm : A ++ f :: B ≡ₚ f :: xs) by (by rewrite HAB, Permutation_middle).
  assert (Hsize' : size_ t.2 = N.of_nat (length (A ++ f :: B))).
  { rewrite Ht2. cbn [size_]. rewrite Hsz, (Permutation_length Hperm). cbn [length].
    unfold wrap. rewrite N.mod_small by done. lia. }
  assert (Hidx' : forall a, a ∈ A ++ B ->
            node_index hasher (cells t.1) bc a = node_index hasher (cells s.1) bc a).
  { intros a Ha. unfold node_index. rewrite Hvo; [done|]. intros ->.
    apply Hfxs. by rewrite HAB. }
  assert (Hidxf : node_index hasher (cells t.1) bc f = N.to_nat i).
  { unfold node_index. rewrite Hvf. by rewrite Hidx. }
  assert (Htl' : tail_ t.2 = Some tl) by (by rewrite Ht2).
  unfold map_end, List_end, iter_eqb. rewrite Htl.
  destruct (decide (bucket_begin b = Some tl)) as [Hbe|Hbe].
  - (* an empty bucket: the node goes to the tail and the bucket is opened *)
    rewrite bool_decide_eq_true_2 by done.
    assert (p = length xs) as -> by (apply (chain_tl_pos xs tl); [done|congruence]).
    assert (q = length xs) as Hql by lia.
    assert (B = []) as HB by (unfold B; rewrite Hql; apply drop_all).
    assert (A = xs) as HA by (rewrite HAB, HB; by rewrite app_nil_r).
    assert (y = tl) as ->.
    { rewrite Hql, chain_lookup_tl in Hy. by injection Hy. }
    rewrite HB in *. rewrite HA in *. clear HA HB.
    rewrite (bind_run _ _ _ _ _ (on_elements_run _ _ _ _ Hemp)).
    destruct (open_bucket_run t (buckets s.2) hd tl xs i b f Hd' Hb)
      as (bs' & Hopen & Hlen' & Hbi & Hbj).
    rewrite (bind_run _ _ _ _ _ Hopen).
    exists (Some f, true), (t.1, mkMap t.2 bs'), (xs ++ [f]).
    split; [done|]. split; [|split; [done|]].
    2:{ right. repeat split; try done. }
    split; [by destruct t|]. cbn [fst snd elements buckets]. split; [done|]. split.
    { intros E. rewrite E in Hlen'. by destruct (buckets s.2). }
    unfold bucket_count. cbn [buckets]. rewrite Hlen'. fold (bucket_count s.2). fold bc.
    intros j b' Hb'. destruct (decide (j = N.to_nat i)) as [->|Hji].
    + rewrite Hbi in Hb'. injection Hb' as <-.
      exists (length xs), (S (length xs)). rewrite length_app. cbn [length bucket_begin bucket_end].
      split; [lia|]. destruct (chain_snoc_lookup xs f tl) as [-> ->].
      split; [done|]. split; [done|]. split; [lia|].
      intros k a Hk. apply lookup_app_Some in Hk as [Hk|[Hk1 Hk2]].
      * apply lookup_lt_Some in Hk as Hklt.
        rewrite Hidx' by (by eapply list_elem_of_lookup_2; rewrite app_nil_r).
        rewrite <- (Hin k a Hk). lia.
      * destruct (k - length xs)%nat as [|?] eqn:E; [|done]. simpl in Hk2. injection Hk2 as <-.
        rewrite Hidxf. lia.
    + assert (Hjlt : (j < length (buckets s.2))%nat).
      { apply lookup_lt_Some in Hb'. lia. }
      apply lookup_lt_is_Some in Hjlt as [b0 Hb0].
      rewrite (Hbj j b0 Hji Hb0) in Hb'. injection Hb' as <-.
      destruct (Hr j b0 Hb0) as (pj & qj & Hpqj & Hpj & Hqj & Hemptyj & Hinj).
      fold (bucket_count s.2). fold bc.
      case_decide as Hcase.
      * (* the bucket of the node in front: it ended at the tail *)
        destruct Hcase as [Hlast Hend].
        destruct (last xs) as [pn|] eqn:Hpn; [|done]. simpl in Hlast. injection Hlast as Hlast.
        apply last_lookup_pred in Hpn as [Hpos Hpn].
        assert (qj = length xs) as ->.
        { apply (chain_tl_pos xs tl); [done|congruence]. }
        assert (Hpjlt : (pj < length xs)%nat).
        { rewrite Hidx' in Hlast by (rewrite app_nil_r; by eapply list_elem_of_lookup_2).
          apply (Hinj _ _ Hpn) in Hlast. lia. }
        exists pj, (length xs). rewrite length_app. cbn [length bucket_begin bucket_end].
        split; [lia|]. split; [|split; [|split; [lia|]]].
        -- rewrite Hpj. rewrite <- app_assoc. by rewrite !lookup_app_l by done.
        -- by destruct (chain_snoc_lookup xs f tl) as [-> _].
        -- intros k a Hk. apply lookup_app_Some in Hk as [Hk|[Hk1 Hk2]].
           ++ apply lookup_lt_Some in Hk as Hklt.
              rewrite Hidx' by (by eapply list_elem_of_lookup_2; rewrite app_nil_r).
              apply (Hinj k a Hk).
           ++ destruct (k - length xs)%nat as [|?] eqn:E; [|done]. simpl in Hk2.
              injection Hk2 as <-. rewrite Hidxf. lia.
      * apply (bucket_range_insert (node_index hasher (cells s.1) bc) _ xs [] f tl j b0 pj qj);
          rewrite ?app_nil_r; [done|done|done|done|done| |].
        { intros a Ha. apply Hidx'. by rewrite app_nil_r. }
        rewrite Hidxf. split; [|lia]. intros [Hlt1 Hlt2]. exfalso. apply Hcase.
        assert (qj = length xs) as -> by lia.
        split; [|by rewrite Hqj, chain_lookup_tl].
        destruct (lookup_lt_is_Some_2 xs (pred (length xs))) as [pn Hpn]; [lia|].
        assert (Hl : last xs = Some pn) by (apply last_lookup_pred; split; [lia|done]).
        rewrite Hl. simpl. f_equal.
        rewrite Hidx' by (rewrite app_nil_r; by eapply list_elem_of_lookup_2).
        apply (Hinj _ _ Hpn). lia.
  - (* a bucket with entries: the node goes in front of its end *)
    rewrite bool_decide_eq_false_2 by done.
    assert (Hplt : (p < q)%nat).
    { destruct (decide (p = q)) as [E|]; [|lia]. exfalso. apply Hbe.
      rewrite Hp, (Hempty E). apply chain_lookup_tl. }
    rewrite Hq, Hy.
    rewrite (bind_run _ _ _ _ _ (on_elements_run _ _ _ _ Hemp)).
    exists (Some f, true), (t.1, mkMap t.2 (buckets s.2)), (A ++ f :: B).
    split; [done|]. split; [|split; [done|]].
    2:{ right. repeat split; done. }
    split; [by destruct t|]. cbn [fst snd elements buckets]. split; [done|]. split; [done|].
    unfold bucket_count. cbn [buckets]. fold (bucket_count s.2). fold bc.
    intros j b0 Hb0.
    destruct (decide (j = N.to_nat i)) as [->|Hji].
    + assert (b0 = b) as -> by congruence.
      apply (bucket_range_insert (node_index hasher (cells s.1) bc) _ A B f tl _ b p q);
        rewrite <- ?HAB; [done|done|done|done|done|by rewrite HAB|].
      rewrite Hidxf, HlenA. split; [done|lia].
    + destruct (Hr j b0 Hb0) as (pj & qj & Hpqj & Hpj & Hqj & Hemptyj & Hinj).
      apply (bucket_range_insert (node_index hasher (cells s.1) bc) _ A B f tl _ b0 pj qj);
        rewrite <- ?HAB; [done|done|done|done|done|by rewrite HAB|].
      rewrite Hidxf, HlenA. split; [|lia]. intros [Hlt1 Hlt2]. exfalso. apply Hji.
      destruct (lookup_lt_is_Some_2 xs (pred q)) as [a Ha]; [lia|].
      rewrite <- (proj1 (Hinj _ _ Ha)) by lia. apply (Hin _ _ Ha). lia.
Qed.

End Partition.

(** ** Where [insert] and [emplace] put the entry *)

Section Placement.
Context {Key Value : Type}.
Variable hasher : Key -> N.
Variable key_equal : Key -> Key -> bool.
#[local] Abbreviation Mem := (@Mem Key Value).
#[local] Abbreviation MState := (@MState Key Value).
#[local] Abbreviation LState := (@LState Key Value).

(** A node that is put in front of the end of a bucket lies in its range,
    unless the two iterators of the bucket were equal. *)
Lemma in_range_insertion (L1 R1 : list addr) (y f : addr) (b : Bucket) :
  NoDup (L1 ++ y :: R1) ->
  bucket_ok (L1 ++ y :: R1) b ->
  bucket_end b = Some y ->
  bucket_begin b <> bucket_end b ->
  in_range (L1 ++ f :: y :: R1) b f.
Proof.
  intros Hnd (x & y' & Hx & Hy & i & j & Hij & Hi & Hj) Hend Hne.
  assert (y' = y) as -> by congruence.
  assert (Hjy : (L1 ++ y :: R1) !! length L1 = Some y).
  { rewrite lookup_app_r by lia. by rewrite Nat.sub_diag. }
  assert (j = length L1) as -> by (by apply (NoDup_lookup _ _ _ _ Hnd Hj Hjy)).
  assert (Hlt : (i < length L1)%nat).
  { destruct (decide (i = length L1)) as [->|]; [|lia]. exfalso. apply Hne. congruence. }
  exists i, (length L1), (S (length L1)). split; [lia|]. split; [|split].
  - rewrite Hx, <- Hi. rewrite !lookup_app_l by done. done.
  - rewrite lookup_app_r by lia. by rewrite Nat.sub_diag.
  - rewrite Hend. rewrite lookup_app_r by lia.
    by replace (S (length L1) - length L1)%nat with 1%nat by lia.
Qed.

(** The node in front of [y] points at it. *)
Lemma linked_in_front (s : LState) hd tl xs L1 f y R1 :
  dll s hd tl xs -> xs ++ [tl] = L1 ++ f :: y :: R1 -> nxt (cells s.1) f = Some y.
Proof.
  intros Hd Hc.
  apply (dll_next s hd tl xs (length L1) f y Hd); rewrite Hc.
  - rewrite lookup_app_r by lia. by rewrite Nat.sub_diag.
  - rewrite lookup_app_r by lia. by replace (S (length L1) - length L1)%nat with 1%nat by lia.
Qed.

(** The iterators of a bucket that begins at the tail sentinel both are
    the end iterator. *)
Lemma empty_bucket_ends_at_tail (xs : list addr) tl b :
  NoDup (xs ++ [tl]) -> bucket_ok (xs ++ [tl]) b ->
  bucket_begin b = Some tl -> bucket_end b = Some tl.
Proof.
  intros Hnd (x & y & Hx & Hy & i & j & Hij & Hi & Hj) Hb.
  assert (x = tl) as -> by congruence.
  assert (Htl : (xs ++ [tl]) !! length xs = Some tl).
  { rewrite lookup_app_r by lia. by rewrite Nat.sub_diag. }
  assert (i = length xs) as -> by (by apply (NoDup_lookup _ _ _ _ Hnd Hi Htl)).
  assert (j = length xs) as ->.
  { apply lookup_lt_Some in Hj as Hlt. rewrite length_app in Hlt. simpl in Hlt. lia. }
  congruence.
Qed.

(** Where [insert] puts a new entry: directly in front of the end of the
    bucket that the key indexes once [check_rehash] has run, and within
    the range of that bucket unless its two iterators were equal without
    being the end iterator. *)
Lemma insert_placed (s0 s : MState) hd tl xs v :
  check_rehash hasher s0 = Ret tt s ->
  usable hasher s hd tl xs ->
  (N.of_nat (length xs) + 1 < size_t_modulus) ->
  exists r s' xs' b,
    insert hasher key_equal v s0 = Ret r s' /\
    usable hasher s' hd tl xs' /\
    bucket_count s'.2 = bucket_count s.2 /\
    buckets s.2 !! N.to_nat (get_bucket_index hasher s.2 v.1) = Some b /\
    (r.2 = true ->
       exists f b',
         r.1 = Some f /\ f ∈ xs' /\ val (cells s'.1) f = Some v /\
         buckets s'.2 !! N.to_nat (get_bucket_index hasher s.2 v.1) = Some b' /\
         bucket_end b' = bucket_end b /\
         nxt (cells s'.1) f = bucket_end b /\
         (bucket_begin b = map_end s.2 \/ bucket_begin b <> bucket_end b ->
          in_range (xs' ++ [tl]) b' f)).
Proof.
  intros Hc Hu Hwrap. pose proof Hu as (Hd & Hsz & Hne & Hok & Hown).
  pose proof Hd as (_ & Htl & Hnd & _). cbn [fst snd] in Htl, Hnd.
  apply NoDup_cons in Hnd as [_ Hnd].
  unfold insert. rewrite (bind_run _ _ _ _ _ Hc).
  rewrite (bind_run _ _ _ _ _ (this_ok s)).
  destruct (get_bucket_index_lt hasher s.2 v.1 Hne) as [_ Hlt].
  apply lookup_lt_is_Some in Hlt as [b Hb].
  rewrite (bind_run _ _ _ _ _ (bucket_at_ok _ _ _ Hb)).
  pose proof (Forall_lookup_1 _ _ _ _ Hok Hb) as Hbok.
  destruct (scan_bucket_spec key_equal s hd tl xs b v.1 Hd Hbok) as (r & Hr & _ & _).
  rewrite (bind_run _ _ _ _ _ Hr).
  destruct r as [it|].
  { exists (it, false), s, xs, b. split; [done|]. split; [done|]. split; [done|].
    split; [done|]. intros [=]. }
  set (f := brk s.1).
  unfold iter_eqb, map_end, List_end. rewrite Htl.
  destruct (decide (bucket_begin b = Some tl)) as [Hbe|Hbe].
  - (* an empty bucket: the node goes to the tail and the bucket is opened *)
    rewrite bool_decide_eq_true_2 by done.
    pose proof (empty_bucket_ends_at_tail xs tl b Hnd Hbok Hbe) as Hend.
    destruct (insert_into_empty_bucket hasher s hd tl xs v _ b Hu Hwrap eq_refl Hb Hbe)
      as (s' & Hrun & Hu' & Hlen & Hvf & Hvo).
    unfold map_end, List_end in Hrun. rewrite Htl in Hrun. fold f in Hrun, Hu', Hvf.
    (* the bucket vector that [open_bucket] leaves *)
    destruct (List_emplace_full (s.1, elements s.2) hd tl xs xs tl [] v Hd eq_refl)
      as (t & xs1 & Hemp & Hxs1 & Hd1 & _).
    cbn [fst snd] in Hemp, Hxs1. fold f in Hemp, Hxs1.
    assert (xs1 = xs ++ [f]) as ->.
    { change (xs ++ [f; tl]) with (xs ++ [f] ++ [tl]) in Hxs1. rewrite app_assoc in Hxs1.
      by apply app_inj_tail in Hxs1 as [-> _]. }
    destruct (open_bucket_run hasher t (buckets s.2) hd tl xs _ b f Hd1 Hb)
      as (bs' & Hopen & _ & Hbi & _).
    assert (Hs' : s' = (t.1, mkMap t.2 bs')).
    { rewrite (bind_run _ _ _ _ _ (on_elements_run _ _ _ _ Hemp)) in Hrun.
      rewrite (bind_run _ _ _ _ _ Hopen) in Hrun. by injection Hrun as <-. }
    exists (Some f, true), s', (xs ++ [f]), b.
    split; [exact Hrun|]. split; [done|].
    split; [unfold bucket_count; by rewrite Hlen|]. split; [done|]. intros _.
    exists f, (mkBucket (Some f) (Some tl)). split; [done|].
    split; [apply elem_of_app; right; by left|]. split; [done|].
    split; [by rewrite Hs'|]. split; [by rewrite Hend|].
    destruct Hu' as (Hd' & _).
    assert (Hnf : nxt (cells s'.1) f = Some tl).
    { apply (linked_in_front (s'.1, elements s'.2) hd tl (xs ++ [f]) xs f tl [] Hd').
      by rewrite <- app_assoc. }
    split; [by rewrite Hend|]. intros _.
    exists (length xs), (length xs), (S (length xs)). split; [lia|].
    cbn [bucket_begin bucket_end]. rewrite <- app_assoc.
    split; [|split].
    + rewrite lookup_app_r by lia. by rewrite Nat.sub_diag.
    + rewrite lookup_app_r by lia. by rewrite Nat.sub_diag.
    + rewrite lookup_app_r by lia.
      by replace (S (length xs) - length xs)%nat with 1%nat by lia.
  - (* a bucket with a range: the node goes in front of its end *)
    rewrite bool_decide_eq_false_2 by done.
    pose proof Hbok as (x & y & Hbx & Hby & Hxy).
    pose proof Hxy as (ix & iy & _ & _ & Hy).
    apply list_elem_of_split_length in Hy as (L1 & R1 & Hsplit & _).
    destruct (List_emplace_spec _ hd tl xs L1 y R1 v Hd Hsplit)
      as (t & xs' & Hrun & Hxs' & Hd' & Ht2 & Hbrk & Hvf & Hvo).
    cbn [fst snd] in *. fold f in Hrun, Hxs', Hvf, Hvo.
    destruct (usable_insertion hasher s t hd tl xs xs' v L1 y R1 f b) as [Hu' Hperm];
      try done.
    { by rewrite Ht2. }
    rewrite Hby.
    rewrite (bind_run _ _ _ _ _ (on_elements_run _ _ _ _ Hrun)).
    exists (Some f, true), (t.1, mkMap t.2 (buckets s.2)), xs', b.
    split; [done|]. split; [done|]. split; [done|]. split; [done|]. intros _.
    exists f, b. split; [done|].
    split; [rewrite Hperm; by left|]. split; [done|]. split; [done|]. split; [done|].
    split.
    { rewrite Hby. by apply (linked_in_front t hd tl xs' L1 f y R1). }
    intros [Hcase|Hcase]; [done|].
    rewrite Hxs'. apply in_range_insertion; [by rewrite <- Hsplit|by rewrite <- Hsplit|done|done].
Qed.

(** Where [emplace] puts a new entry: as [insert] does. *)
Lemma emplace_placed (s0 s : MState) hd tl xs v :
  check_rehash hasher s0 = Ret tt s ->
  usable hasher s hd tl xs ->
  (N.of_nat (length xs) + 1 < size_t_modulus) ->
  exists r s' xs' b,
    emplace hasher key_equal (Constructs v) s0 = Ret r s' /\
    usable hasher s' hd tl xs' /\
    bucket_count s'.2 = bucket_count s.2 /\
    buckets s.2 !! N.to_nat (get_bucket_index hasher s.2 v.1) = Some b /\
    (r.2 = true ->
       exists f b',
         r.1 = Some f /\ f ∈ xs' /\ val (cells s'.1) f = Some v /\
         buckets s'.2 !! N.to_nat (get_bucket_index hasher s.2 v.1) = Some b' /\
         bucket_end b' = bucket_end b /\
         nxt (cells s'.1) f = bucket_end b /\
         (bucket_begin b = map_end s.2 \/ bucket_begin b <> bucket_end b ->
          in_range (xs' ++ [tl]) b' f)).
Proof.
  intros Hc Hu Hwrap. pose proof Hu as (Hd & Hsz & Hne & Hok & Hown).
  set (f := brk s.1).
  pose proof Hd as (Hhd & Htl & Hnd0 & _). cbn [fst snd] in Hhd, Htl, Hnd0.
  pose proof Hnd0 as Hnd. apply NoDup_cons in Hnd as [_ Hnd].
  destruct (emplace_after_check hasher key_equal s0 s hd tl xs v Hc Hu Hwrap)
    as (r0 & s0' & xs0' & Hrun0 & Hu0 & Hlen0 & _ & _ & _).
  destruct (get_bucket_index_lt hasher s.2 v.1 Hne) as [_ Hlt].
  apply lookup_lt_is_Some in Hlt as [b Hb].
  pose proof (Forall_lookup_1 _ _ _ _ Hok Hb) as Hbok.
  destruct r0 as [it0 [|]].
  2:{ exists (it0, false), s0', xs0', b. split; [done|]. split; [done|].
      split; [unfold bucket_count; by rewrite Hlen0|]. split; [done|]. intros [=]. }
  (* the call added an entry: run it again to see where *)
  pose proof Hrun0 as Hrun.
  unfold emplace in Hrun. rewrite (bind_run _ _ _ _ _ Hc) in Hrun.
  rewrite (bind_run _ _ _ _ _ (this_ok s)) in Hrun.
  destruct (List_emplace_full (s.1, elements s.2) hd tl xs xs tl [] v Hd eq_refl)
    as (t & xs1 & Hemp & Hxs1 & Hd1 & Ht2 & Hbrk & Hvf & Hvo & _).
  cbn [fst snd] in *. fold f in Hemp, Hxs1, Hvf, Hvo.
  assert (xs1 = xs ++ [f]) as ->.
  { change (xs ++ [f; tl]) with (xs ++ [f] ++ [tl]) in Hxs1. rewrite app_assoc in Hxs1.
    by apply app_inj_tail in Hxs1 as [-> _]. }
  unfold map_end, List_end in Hrun. rewrite Htl in Hrun.
  rewrite (bind_run _ _ _ _ _ (on_elements_run _ _ _ _ Hemp)) in Hrun.
  assert (Hd1' : dll (t.1, t.2) hd tl (xs ++ [f])) by (by destruct t).
  rewrite (bind_run _ _ _ _ _ (on_mem_map _ _ _ _ _ (load_value_ok _ _ _ Hvf))) in Hrun.
  cbv zeta in Hrun.
  rewrite (bind_run _ _ _ _ _ (bucket_at_ok (t.1, mkMap t.2 (buckets s.2)) _ _ Hb)) in Hrun.
  assert (Hbok' : bucket_ok ((xs ++ [f]) ++ [tl]) b).
  { rewrite <- app_assoc. by apply bucket_ok_insert. }
  destruct (scan_bucket_spec key_equal (t.1, mkMap t.2 (buckets s.2)) hd tl (xs ++ [f]) b v.1
              Hd1' Hbok') as (r & Hr & _ & _).
  rewrite (bind_run _ _ _ _ _ Hr) in Hrun.
  destruct r as [it|].
  { (* not this branch: it returns [false] *)
    exfalso. unfold mbind, M_bind, bind in Hrun.
    destruct (on_elements (List_erase (Some f)) _) as [? ?| | |]; try discriminate.
    all: unfold mret, M_ret, ret in Hrun; by injection Hrun. }
  unfold iter_eqb in Hrun.
  destruct (decide (bucket_begin b = Some tl)) as [Hbe|Hbe].
  - rewrite bool_decide_eq_true_2 in Hrun by done.
    pose proof (empty_bucket_ends_at_tail xs tl b Hnd Hbok Hbe) as Hend.
    destruct (open_bucket_spec hasher s (t.1, t.2) hd tl xs v _ b f Hu Hwrap eq_refl Hb Hd1')
      as (s' & Hrun' & Hu' & Hlen & Hmem); [by rewrite Ht2|done|done|].
    destruct (open_bucket_run hasher t (buckets s.2) hd tl xs _ b f Hd1 Hb)
      as (bs' & Hopen & _ & Hbi & _).
    cbn [fst snd] in Hrun'.
    assert (Hs' : s' = (t.1, mkMap t.2 bs')) by congruence.
    rewrite (bind_run _ _ _ _ _ Hrun') in Hrun.
    unfold mret, M_ret, ret in Hrun. injection Hrun as <- <-.
    exists (Some f, true), s', (xs ++ [f]), b.
    split; [exact Hrun0|]. split; [done|].
    split; [unfold bucket_count; by rewrite Hlen|]. split; [done|]. intros _.
    exists f, (mkBucket (Some f) (Some tl)). split; [done|].
    split; [apply elem_of_app; right; by left|].
    split; [rewrite Hmem; exact Hvf|].
    split; [by rewrite Hs'|]. split; [by rewrite Hend|].
    destruct Hu' as (Hd' & _).
    split.
    { rewrite Hend.
      apply (linked_in_front (s'.1, elements s'.2) hd tl (xs ++ [f]) xs f tl [] Hd').
      by rewrite <- app_assoc. }
    intros _.
    exists (length xs), (length xs), (S (length xs)). split; [lia|].
    cbn [bucket_begin bucket_end]. rewrite <- app_assoc.
    split; [|split].
    + rewrite lookup_app_r by lia. by rewrite Nat.sub_diag.
    + rewrite lookup_app_r by lia. by rewrite Nat.sub_diag.
    + rewrite lookup_app_r by lia.
      by replace (S (length xs) - length xs)%nat with 1%nat by lia.
  - rewrite bool_decide_eq_false_2 in Hrun by done.
    pose proof Hbok as (x & y & Hbx & Hby & Hxy).
    pose proof Hxy as (ix & iy & _ & _ & Hy).
    apply list_elem_of_split_length in Hy as (L1 & R1 & Hsplit & _).
    destruct (List_move_node_spec (t.1, t.2) hd tl xs f [] L1 y R1) as
      (t' & xs' & Hm & Hxs'' & Hdm & Hm2 & Hbrkm & Hvm); [done|by rewrite app_nil_r|].
    cbn [fst snd] in *. rewrite Hby in Hrun.
    rewrite (bind_run _ _ _ _ _ (on_elements_run _ (t.1, mkMap t.2 (buckets s.2)) _ _ Hm))
      in Hrun.
    cbn [fst snd elements buckets] in Hrun.
    unfold mret, M_ret, ret in Hrun. injection Hrun as <- <-.
    destruct (usable_insertion hasher s t' hd tl xs xs' v L1 y R1 f b) as [Hu' Hperm]; try done.
    { by rewrite Hm2, Ht2. }
    { by rewrite Hvm. }
    { intros a Ha. by rewrite Hvm, Hvo. }
    exists (Some f, true), (t'.1, mkMap t'.2 (buckets s.2)), xs', b.
    split; [exact Hrun0|]. split; [done|]. split; [done|]. split; [done|]. intros _.
    exists f, b. split; [done|].
    split; [rewrite Hperm; by left|]. split; [cbn [fst]; by rewrite Hvm|].
    split; [done|]. split; [done|].
    split.
    { rewrite Hby. by apply (linked_in_front t' hd tl xs' L1 f y R1). }
    intros [Hcase|Hcase]; [unfold map_end, List_end in Hcase; by rewrite Htl in Hcase|].
    rewrite Hxs''. apply in_range_insertion; [by rewrite <- Hsplit|by rewrite <- Hsplit|done|done].
Qed.

End Placement.

(** ** The rehash at the start of [insert] and [emplace] *)

Section RehashFirst.
Context {Key Value : Type}.
Variable hasher : Key -> N.
Variable key_equal : Key -> Key -> bool.
#[local] Abbreviation MState := (@MState Key Value).

(** C5, as amended.  (i) An [insert] or [emplace] on a map whose load
    factor exceeds the maximum is the same computation as
    [rehash(bucket_count * 2)] followed by that [insert] or [emplace]: the
    rehash comes first, it leaves [max(bucket_count * 2, size())] buckets,
    and the bucket index of every key is then taken modulo that new count.
    (ii) On a map whose list is well formed the rehash and the call do
    return, the call returns with the new bucket count, and an entry that
    the call adds is linked directly in front of the end of the bucket at
    the index of its key modulo the new count, as the rehash left that
    bucket; the entry lies in the range of the bucket when the rehash left
    the bucket empty or with two different iterators.  (iii) The load
    factor is checked when the call starts: inserting entries with pairwise
    different keys into a default-constructed map, which has 16 buckets,
    returns; the map still has 16 buckets after 17 of them and at least 32
    from the 18th on, the first [insert] that finds the load factor above
    1.0.  All sizes are such that the load factor is computed exactly. *)
Theorem rehash_precedes_bucket_index :
  (forall (s : MState) (v : Key * Value) (args : ctor_args),
     exact_as_double (map_size s.2) ->
     load_factor_exceeds s.2 = true ->
     let doubled := wrap (bucket_count s.2 * 2) in
     insert hasher key_equal v s
       = (rehash hasher doubled;; insert hasher key_equal v) s /\
     emplace hasher key_equal args s
       = (rehash hasher doubled;; emplace hasher key_equal args) s /\
     (forall s1, rehash hasher doubled s = Ret tt s1 ->
        bucket_count s1.2 = N.max doubled (map_size s.2) /\
        map_size s1.2 = map_size s.2 /\
        load_factor_exceeds s1.2 = false /\
        forall k, get_bucket_index hasher s1.2 k = hasher k mod bucket_count s1.2) /\
     (forall r s2, insert hasher key_equal v s = Ret r s2 ->
        bucket_count s2.2 = N.max doubled (map_size s.2)) /\
     (forall r s2, emplace hasher key_equal args s = Ret r s2 ->
        bucket_count s2.2 = N.max doubled (map_size s.2))) /\
  (forall (s : MState) hd tl xs (v : Key * Value),
     dll (s.1, elements s.2) hd tl xs ->
     size_ (elements s.2) = N.of_nat (length xs) ->
     exact_as_double (map_size s.2) ->
     load_factor_exceeds s.2 = true ->
     let doubled := wrap (bucket_count s.2 * 2) in
     let new_count := N.max doubled (map_size s.2) in
     let index := N.to_nat (hasher v.1 mod new_count) in
     exists s1 xs1 b,
       rehash hasher doubled s = Ret tt s1 /\
       usable hasher s1 hd tl xs1 /\ xs1 ≡ₚ xs /\
       bucket_count s1.2 = new_count /\
       buckets s1.2 !! index = Some b /\
       (exists r s2 xs2,
          insert hasher key_equal v s = Ret r s2 /\
          usable hasher s2 hd tl xs2 /\
          bucket_count s2.2 = new_count /\
          (r.2 = true ->
             exists f b',
               r.1 = Some f /\ f ∈ xs2 /\ val (cells s2.1) f = Some v /\
               buckets s2.2 !! index = Some b' /\
               bucket_begin b' <> map_end s2.2 /\
               bucket_end b' = bucket_end b /\
               nxt (cells s2.1) f = bucket_end b /\
               (bucket_begin b = map_end s1.2 \/ bucket_begin b <> bucket_end b ->
                in_range (xs2 ++ [tl]) b' f))) /\
       (exists r s2 xs2,
          emplace hasher key_equal (Constructs v) s = Ret r s2 /\
          usable hasher s2 hd tl xs2 /\
          bucket_count s2.2 = new_count /\
          (r.2 = true ->
             exists f b',
               r.1 = Some f /\ f ∈ xs2 /\ val (cells s2.1) f = Some v /\
               buckets s2.2 !! index = Some b' /\
               bucket_begin b' <> map_end s2.2 /\
               bucket_end b' = bucket_end b /\
               nxt (cells s2.1) f = bucket_end b /\
               (bucket_begin b = map_end s1.2 \/ bucket_begin b <> bucket_end b ->
                in_range (xs2 ++ [tl]) b' f)))) /\
  (forall (m0 : @Mem Key Value) (vs : list (Key * Value)),
     mem_ok m0 ->
     distinct_keys key_equal (fst <$> vs) ->
     exact_as_double (N.of_nat (length vs)) ->
     exists mp m1 s',
       UnorderedMap_default_ctor m0 = Ret mp m1 /\
       bucket_count mp = 16 /\
       insert_range hasher key_equal vs (m1, mp) = Ret tt s' /\
       map_size s'.2 = N.of_nat (length vs) /\
       ((length vs <= 17)%nat -> bucket_count s'.2 = 16) /\
       ((18 <= length vs)%nat -> 32 <= bucket_count s'.2)).
Proof.
  split; [|split].
  - intros s v args _ Hl doubled.
    assert (Hc : check_rehash hasher s = rehash hasher doubled s).
    { unfold check_rehash, mbind, M_bind, bind, this. by rewrite Hl. }
    assert (Hafter : forall s1, rehash hasher doubled s = Ret tt s1 ->
       bucket_count s1.2 = N.max doubled (map_size s.2) /\
       map_size s1.2 = map_size s.2 /\
       load_factor_exceeds s1.2 = false /\
       forall k, get_bucket_index hasher s1.2 k = hasher k mod bucket_count s1.2).
    { intros s1 H. pose proof (rehash_shape _ _ _ _ H) as [He Hb].
      pose proof (check_rehash_after_rehash _ _ _ _ H) as [Hl1 _].
      split; [done|]. split; [by unfold map_size; rewrite He|]. split; [done|].
      intros k. unfold get_bucket_index.
      destruct (buckets s1.2) eqn:E; [|done].
      unfold bucket_count in Hb at 1. rewrite E in Hb.
      unfold load_factor_exceeds in Hl. apply N.ltb_lt in Hl. simpl in Hb. lia. }
    split; [|split; [|split; [done|split]]].
    + unfold insert at 1. rewrite (bind_run_eq _ _ _ _ Hc).
      apply bind_run_ext. intros [] s1 E. unfold insert.
      by rewrite (bind_run _ _ _ _ _ (proj2 (check_rehash_after_rehash _ _ _ _ E))).
    + unfold emplace at 1. rewrite (bind_run_eq _ _ _ _ Hc).
      apply bind_run_ext. intros [] s1 E. unfold emplace.
      by rewrite (bind_run _ _ _ _ _ (proj2 (check_rehash_after_rehash _ _ _ _ E))).
    + intros r s2 H. pose proof H as H'.
      unfold insert in H'. apply bind_Ret in H' as ([] & s1 & E & _).
      pose proof (insert_keeps_bucket_count_after_check _ _ _ _ _ _ _ E H) as Hlen.
      rewrite Hc in E. apply Hafter in E as [Hb _].
      unfold bucket_count in *. by rewrite Hlen.
    + intros r s2 H. pose proof H as H'.
      unfold emplace in H'. apply bind_Ret in H' as ([] & s1 & E & _).
      pose proof (emplace_keeps_bucket_count_after_check _ _ _ _ _ _ _ E H) as Hlen.
      rewrite Hc in E. apply Hafter in E as [Hb _].
      unfold bucket_count in *. by rewrite Hlen.
  - intros s hd tl xs v Hd Hsz Hex Hl doubled new_count index.
    assert (Hwrap : N.of_nat (length xs) + 1 < size_t_modulus).
    { unfold exact_as_double, map_size, List_size in Hex.
      rewrite Hsz in Hex. unfold size_t_modulus. lia. }
    assert (Hlt : bucket_count s.2 < map_size s.2).
    { unfold load_factor_exceeds in Hl. by apply N.ltb_lt in Hl. }
    destruct (rehash_usable hasher s hd tl xs doubled Hd Hsz)
      as (s1 & xs1 & Hre & Hu1 & Hperm1 & _); [lia|right; lia|].
    assert (Hc : check_rehash hasher s = Ret tt s1).
    { unfold check_rehash, mbind, M_bind, bind, this. by rewrite Hl. }
    assert (Hbc1 : bucket_count s1.2 = new_count).
    { by apply (rehash_shape hasher) in Hre as [_ ?]. }
    assert (Hwrap1 : N.of_nat (length xs1) + 1 < size_t_modulus)
      by (by rewrite (Permutation_length Hperm1)).
    assert (Hidx : N.to_nat (get_bucket_index hasher s1.2 v.1) = index).
    { destruct Hu1 as (_ & _ & Hne1 & _).
      destruct (get_bucket_index_lt hasher s1.2 v.1 Hne1) as [-> _]. unfold index.
      by rewrite Hbc1. }
    assert (Hend : forall (s2 : MState) xs2, usable hasher s2 hd tl xs2 ->
              map_end s2.2 = Some tl).
    { intros s2 xs2 ((_ & Ht & _) & _). done. }
    assert (Hown : forall (s2 : MState) xs2 f b', usable hasher s2 hd tl xs2 ->
              bucket_count s2.2 = new_count -> f ∈ xs2 -> val (cells s2.1) f = Some v ->
              buckets s2.2 !! index = Some b' -> bucket_begin b' <> map_end s2.2).
    { intros s2 xs2 f b' Hu2 Hbc2 Hf Hvf Hb'. rewrite (Hend s2 xs2 Hu2).
      destruct Hu2 as (_ & _ & _ & _ & Hown2).
      destruct (Hown2 f v Hf Hvf) as (b'' & Hb'' & Hbb). cbn [fst] in Hb''.
      rewrite Hbc2 in Hb''. fold index in Hb''. congruence. }
    destruct (insert_placed hasher key_equal s s1 hd tl xs1 v Hc Hu1 Hwrap1)
      as (r & s2 & xs2 & b & Hrun & Hu2 & Hbc2 & Hb & Hplace).
    destruct (emplace_placed hasher key_equal s s1 hd tl xs1 v Hc Hu1 Hwrap1)
      as (r' & s2' & xs2' & b0 & Hrun' & Hu2' & Hbc2' & Hb0 & Hplace').
    rewrite Hidx in Hb, Hb0, Hplace, Hplace'.
    assert (b0 = b) as -> by congruence.
    rewrite Hbc1 in Hbc2, Hbc2'.
    exists s1, xs1, b. split; [exact Hre|].
    split; [done|]. split; [done|]. split; [done|]. split; [done|]. split.
    + exists r, s2, xs2. split; [done|]. split; [done|]. split; [done|].
      intros Hr. destruct (Hplace Hr) as (f & b' & Hf & Hin & Hvf & Hb' & He & Hn & Hrange).
      exists f, b'. split; [done|]. split; [done|]. split; [done|]. split; [done|].
      split; [by apply (Hown s2 xs2 f)|]. done.
    + exists r', s2', xs2'. split; [done|]. split; [done|]. split; [done|].
      intros Hr. destruct (Hplace' Hr) as (f & b' & Hf & Hin & Hvf & Hb' & He & Hn & Hrange).
      exists f, b'. split; [done|]. split; [done|]. split; [done|]. split; [done|].
      split; [by apply (Hown s2' xs2' f)|]. done.
  - intros m0 vs Hm0 Hdist Hex.
    assert (Hwrap : N.of_nat (length vs) < size_t_modulus).
    { unfold exact_as_double in Hex. unfold size_t_modulus. lia. }
    destruct (ctor_usable hasher m0 16 Hm0) as (mp & m1 & Hctor & Hu & Hbc & Hsz); [done|].
    destruct (insert_range_usable hasher key_equal vs (m1, mp) _ _ [] [] Hu)
      as (s' & xs' & Hrun & Hu' & Hlen & Hbc'); [by intros a kv Ha%elem_of_nil| |done|done|].
    { by intros k v Hk%elem_of_nil. }
    exists mp, m1, s'. split; [done|]. split; [done|]. split; [done|].
    cbn [fst snd length] in *. rewrite Hbc in Hbc'.
    split.
    { destruct Hu' as (_ & Hs & _). unfold map_size, List_size. rewrite Hs, Hlen. done. }
    rewrite Hbc'. apply bucket_count_after_default.
Qed.

End RehashFirst.

(** C5, as stated, fails in both halves.  A 16-bucket map into which the
    17 keys 0, ..., 16 were inserted has 17 entries in 16 buckets: its load
    factor exceeds 1.0 and it was not rehashed.  On the one-bucket map with
    the keys 1 and 0, whose load factor exceeds 1.0, [insert] of key 2
    rehashes to two buckets and returns true, but the new entry is linked
    outside the range of bucket 0 = 2 mod 2, which is the empty range
    [[n2, n2)], and [find(2)] returns [end()]; [emplace] of key 3 returns
    false and leaves the map as [rehash(2)] returns it, without an entry
    for key 3. *)
Lemma load_factor_exceeded_without_rehash :
  (exists s17,
     Scenario.on_new_map 16 (Scenario.insert_all (Scenario.first_keys 17)) = Ret tt s17 /\
     map_size s17.2 = 17 /\ bucket_count s17.2 = 16 /\
     load_factor_exceeds s17.2 = true) /\
  (exists s2 s1,
     Scenario.on_new_map 1 (Scenario.insert_all [1; 0]) = Ret tt s2 /\
     load_factor_exceeds s2.2 = true /\
     Scenario.rehash 2 s2 = Ret tt s1 /\
     (exists s3,
        Scenario.insert (2, 30) s2 = Ret (Some 4%nat, true) s3 /\
        bucket_count s3.2 = 2 /\
        val (cells s3.1) 4%nat = Some (2, 30) /\
        list_nodes s3 = Some [3; 4; 2]%nat /\
        buckets s3.2 !! 0%nat = Some (mkBucket (Some 2%nat) (Some 2%nat)) /\
        bucket_nodes s3 (mkBucket (Some 2%nat) (Some 2%nat)) = Some [] /\
        ~ in_range ([3; 4; 2] ++ [1])%nat (mkBucket (Some 2%nat) (Some 2%nat)) 4%nat /\
        Scenario.find 2 s3 = Ret (map_end s3.2) s3) /\
     (exists it s3,
        Scenario.emplace 3 30 s2 = Ret (it, false) s3 /\
        cells s3.1 = cells s1.1 /\ s3.2 = s1.2 /\
        map_size s3.2 = 2 /\
        Scenario.find 3 s3 = Ret (map_end s3.2) s3)).
Proof.
  split.
  - eexists. split; [run|]. split; [run|]. split; run.
  - eexists _, _. split; [run|]. split; [run|]. split; [run|]. split.
    + eexists. split; [run|]. split; [run|]. split; [run|]. split; [run|]. split; [run|].
      split; [run|]. split; [|run].
      intros (i & k & j & Hlt & Hi & _ & Hj). cbn [bucket_begin bucket_end app] in Hi, Hj.
      assert (i = 2%nat) as ->.
      { do 4 (destruct i as [|i]; [done|]). done. }
      assert (j = 2%nat) as ->.
      { do 4 (destruct j as [|j]; [done|]). done. }
      lia.
    + eexists _, _. split; [run|]. split; [run|]. split; [run|]. split; run.
Qed.

(** The default-sized map with the keys 0, ..., 16: it is usable and has 16
    buckets for 17 entries, and the [insert] of key 17 first rehashes to 32
    buckets and then puts the entry into bucket 17, which the rehash left
    empty: the entry is in the range of that bucket, in front of the end of
    the list.  [emplace] of that entry does the same.  With 18 keys the map
    has 32 buckets. *)
Lemma rehash_precedes_bucket_index_witness :
  exists s17 xs17 s1 r s18 xs18 f b' s18',
    Scenario.on_new_map 16 (Scenario.insert_all (Scenario.first_keys 17)) = Ret tt s17 /\
    usable Scenario.hash_id s17 0%nat 1%nat xs17 /\
    map_size s17.2 = 17 /\ bucket_count s17.2 = 16 /\
    exact_as_double (map_size s17.2) /\
    load_factor_exceeds s17.2 = true /\
    Scenario.insert (17, 17) s17
      = (Scenario.rehash 32;; Scenario.insert (17, 17)) s17 /\
    Scenario.rehash 32 s17 = Ret tt s1 /\
    bucket_count s1.2 = 32 /\
    buckets s1.2 !! 17%nat = Some (mkBucket (map_end s1.2) (map_end s1.2)) /\
    Scenario.insert (17, 17) s17 = Ret r s18 /\
    usable Scenario.hash_id s18 0%nat 1%nat xs18 /\
    r = (Some f, true) /\ bucket_count s18.2 = 32 /\
    f ∈ xs18 /\ val (cells s18.1) f = Some (17, 17) /\
    buckets s18.2 !! 17%nat = Some b' /\
    bucket_begin b' <> map_end s18.2 /\
    bucket_end b' = map_end s1.2 /\
    nxt (cells s18.1) f = map_end s1.2 /\
    in_range (xs18 ++ [1%nat]) b' f /\
    (exists a, r.1 = Some a /\ key_at s18 a = Some 17 /\
       buckets s18.2 !! 17%nat = Some (mkBucket (Some a) (map_end s18.2))) /\
    (exists r' s18e, Scenario.emplace 17 17 s17 = Ret r' s18e /\
       r'.2 = true /\ bucket_count s18e.2 = 32) /\
    Scenario.on_new_map 16 (Scenario.insert_all (Scenario.first_keys 18)) = Ret tt s18' /\
    32 <= bucket_count s18'.2.
Proof.
  pose (m0 := @mkMem N N ∅ 0%nat).
  pose (entries := fun n => (fun k : N => (k, k)) <$> Scenario.first_keys n).
  assert (Hm0 : mem_ok m0) by (by intros a [? ?]).
  assert (Hdist : forall n, (n <= 18)%nat -> distinct_keys N.eqb (fst <$> entries n)).
  { intros n Hn. do 19 (destruct n as [|n]; [vm_compute; repeat constructor|]). lia. }
  destruct (ctor_usable Scenario.hash_id m0 16 Hm0) as (mp & m1 & Hc & Hu & _);
    [vm_compute; reflexivity|].
  destruct (insert_range_usable Scenario.hash_id N.eqb (entries 17%nat) (m1, mp) _ _ [] [] Hu)
    as (s17 & xs17 & Hrun & Hu17 & Hlen & _).
  { intros a kv Ha. by apply elem_of_nil in Ha. }
  { intros k v Hk. by apply elem_of_nil in Hk. }
  { apply Hdist. lia. }
  { vm_compute; reflexivity. }
  assert (E : Scenario.on_new_map 16 (Scenario.insert_all (Scenario.first_keys 17)) = Ret tt s17).
  { unfold Scenario.on_new_map. fold m0. rewrite Hc. exact Hrun. }
  clear Hrun Hu.
  pose proof E as E'. vm_compute in E'. injection E' as <-.
  match type of E with _ = Ret tt ?c => set (s17 := c) in * end.
  assert (Hlf : load_factor_exceeds s17.2 = true) by (vm_compute; reflexivity).
  assert (Hex : exact_as_double (map_size s17.2)) by (vm_compute; reflexivity).
  destruct (proj1 (proj2 (rehash_precedes_bucket_index Scenario.hash_id N.eqb))
              s17 _ _ xs17 (17, 17) (proj1 Hu17) (proj1 (proj2 Hu17)) Hex Hlf)
    as (s1 & xs1 & b & Hre & _ & _ & Hbc1 & Hb & Hinsert & Hemplace).
  destruct Hinsert as (r & s18 & xs18 & Hins & Hu18 & Hbc18 & Hplace).
  destruct Hemplace as (r' & s18e & _ & Hemp & _ & Hbc18e & _).
  destruct (proj2 (proj2 (rehash_precedes_bucket_index Scenario.hash_id N.eqb))
              m0 (entries 18%nat) Hm0)
    as (mp' & m1' & s18' & Hc' & _ & Hrun' & _ & _ & Hge).
  { apply Hdist. lia. }
  { vm_compute; reflexivity. }
  assert (E18 : Scenario.on_new_map 16 (Scenario.insert_all (Scenario.first_keys 18))
                = Ret tt s18').
  { unfold Scenario.on_new_map. fold m0.
    unfold UnorderedMap_default_ctor, INIT_BUCKET_SIZE in Hc'. rewrite Hc'. exact Hrun'. }
  assert (Hge' : 32 <= bucket_count s18'.2) by (apply Hge; vm_compute; lia).
  clear Hc' Hrun' Hge Hc.
  assert (Hd : wrap (bucket_count s17.2 * 2) = 32) by (vm_compute; reflexivity).
  assert (Hn : N.max (wrap (bucket_count s17.2 * 2)) (map_size s17.2) = 32)
    by (vm_compute; reflexivity).
  assert (Hi : N.to_nat (Scenario.hash_id (17, 17).1
                 mod N.max (wrap (bucket_count s17.2 * 2)) (map_size s17.2)) = 17%nat)
    by (vm_compute; reflexivity).
  rewrite Hd in Hre. rewrite Hn in Hbc1, Hbc18, Hbc18e. rewrite Hi in Hb, Hplace.
  assert (Hr : r.2 = true).
  { pose proof Hins as H. vm_compute in H. injection H as <- _. reflexivity. }
  assert (Hr' : r'.2 = true).
  { pose proof Hemp as H. vm_compute in H. injection H as <- _. reflexivity. }
  destruct (Hplace Hr) as (f & b' & Hf & Hin & Hvf & Hb' & Hne & He & Hnx & Hrange).
  assert (Hbb : b = mkBucket (map_end s1.2) (map_end s1.2)).
  { pose proof Hre as H. vm_compute in H. injection H as <-.
    vm_compute in Hb. injection Hb as <-. vm_compute; reflexivity. }
  rewrite Hbb in Hrange, He, Hnx, Hb. cbn [bucket_begin bucket_end] in Hrange, He, Hnx.
  exists s17, xs17, s1, r, s18, xs18, f, b', s18'.
  split; [exact E|]. split; [exact Hu17|].
  split; [vm_compute; reflexivity|]. split; [vm_compute; reflexivity|].
  split; [exact Hex|]. split; [exact Hlf|]. split.
  { exact (proj1 (proj1 (rehash_precedes_bucket_index Scenario.hash_id N.eqb)
                    s17 (17, 17) CtorThrows Hex Hlf)). }
  split; [exact Hre|]. split; [exact Hbc1|]. split; [exact Hb|].
  split; [exact Hins|]. split; [exact Hu18|].
  split.
  { destruct r as [r1 r2]. cbn [fst snd] in Hf, Hr. rewrite Hf, Hr. reflexivity. }
  split; [exact Hbc18|]. split; [exact Hin|]. split; [exact Hvf|]. split; [exact Hb'|].
  split; [exact Hne|]. split; [exact He|]. split; [exact Hnx|].
  split; [apply Hrange; left; reflexivity|].
  split.
  { pose proof Hins as H. vm_compute in H. injection H as <- <-.
    eexists. split; [vm_compute; reflexivity|]. split; vm_compute; reflexivity. }
  split; [exists r', s18e; split; [exact Hemp|split; [exact Hr'|exact Hbc18e]]|].
  split; [exact E18|exact Hge'].
Defined.

(** ** The association list that a map models *)

Section Model.
Context {Key Value : Type}.
Variable hasher : Key -> N.
Variable key_equal : Key -> Key -> bool.
#[local] Abbreviation Mem := (@Mem Key Value).
#[local] Abbreviation MState := (@MState Key Value).
#[local] Abbreviation LState := (@LState Key Value).
Implicit Types (vs ws : list (Key * Value)).

(** What [assoc] finds is the value of a pair of the list. *)
Lemma assoc_Some k vs w :
  assoc key_equal k vs = Some w -> exists v, v ∈ vs /\ key_equal v.1 k = true.
Proof.
  induction vs as [|v vs IH]; [done|]. simpl. destruct (key_equal v.1 k) eqn:E.
  - intros _. exists v. split; [by left|done].
  - intros H. destruct (IH H) as (v' & ? & ?). exists v'. split; [by right|done].
Qed.

Lemma assoc_app_l k vs ws w : assoc key_equal k vs = Some w -> assoc key_equal k (vs ++ ws) = Some w.
Proof.
  induction vs as [|v vs IH]; [done|]. simpl. by destruct (key_equal v.1 k).
Qed.

Lemma assoc_app_r k vs ws :
  (forall v, v ∈ vs -> key_equal v.1 k = false) -> assoc key_equal k (vs ++ ws) = assoc key_equal k ws.
Proof.
  induction vs as [|v vs IH]; [done|]. intros H. simpl.
  rewrite (H v) by (by left). apply IH. intros v' Hv'. apply H. by right.
Qed.

(** [assoc] does not tell equal keys apart. *)
Lemma assoc_equal k1 k2 vs :
  key_equivalence key_equal -> key_equal k1 k2 = true -> assoc key_equal k1 vs = assoc key_equal k2 vs.
Proof.
  intros (Hrefl & Hsym & Htrans) H. induction vs as [|v vs IH]; [done|]. simpl.
  rewrite IH. destruct (key_equal v.1 k1) eqn:E1, (key_equal v.1 k2) eqn:E2; try done.
  - by rewrite (Htrans _ _ _ E1 H) in E2.
  - by rewrite (Htrans _ _ _ E2 (Hsym _ _ H)) in E1.
Qed.

(** [UnorderedMap(n)] with a bucket: an empty map in which every bucket is
    the empty range. *)
Lemma ctor_partitioned (m0 : Mem) (n : N) :
  mem_ok m0 -> 0 < n ->
  exists mp m1,
    UnorderedMap_ctor n m0 = Ret mp m1 /\
    partitioned hasher (m1, mp) (brk m0) (S (brk m0)) [] /\
    bucket_count mp = n /\
    (forall a, a <> brk m0 -> a <> S (brk m0) -> cells m1 !! a = cells m0 !! a).
Proof.
  intros Hok Hn.
  destruct (List_ctor_spec m0 Hok) as (l & m1 & Hrun & (Hd & Hsz & _) & _ & _ & Hfr).
  unfold UnorderedMap_ctor. rewrite (bind_run _ _ _ _ _ Hrun).
  pose proof Hd as (_ & Htl & _). cbn [fst snd] in Htl.
  unfold List_end. rewrite Htl, reset_replicate.
  eexists _, m1. split; [done|]. split; [|split; [|done]].
  - split; [done|]. split; [done|]. cbn [fst snd buckets]. split.
    { destruct (N.to_nat n) eqn:E; [lia|done]. }
    intros i b Hb. apply lookup_replicate in Hb as [-> _].
    exists 0%nat, 0%nat. by repeat split.
  - unfold bucket_count. cbn [buckets]. rewrite length_replicate. lia.
Qed.

(** [at] under the invariant: the value of an entry with an equal key, or
    [std::out_of_range] when no entry has one. *)
Lemma at_partitioned (s : MState) hd tl xs k :
  partitioned hasher s hd tl xs ->
  hash_compatible hasher key_equal ->
  (exists a kv, at_ hasher key_equal k s = Ret kv.2 s /\
     a ∈ xs /\ val (cells s.1) a = Some kv /\ key_equal kv.1 k = true) \/
  (at_ hasher key_equal k s = Throw out_of_range s /\
   forall a kv, a ∈ xs -> val (cells s.1) a = Some kv -> key_equal kv.1 k = false).
Proof.
  intros Hpart Hcompat. pose proof Hpart as (Hd & _).
  pose proof Hd as (_ & Htl & Hnd & _). cbn [fst snd] in Htl, Hnd.
  unfold at_.
  destruct (find_partitioned hasher key_equal s hd tl xs k Hpart Hcompat)
    as [(a & kv & Hf & Ha & Hv & Hk)|[Hf Hno]].
  - left. exists a, kv. split; [|done].
    rewrite (bind_run _ _ _ _ _ Hf). rewrite (bind_run _ _ _ _ _ (this_ok s)).
    unfold map_end, List_end, iter_eqb. rewrite Htl.
    rewrite bool_decide_eq_false_2.
    2:{ intros [= ->]. apply NoDup_cons in Hnd as [_ Hnd].
        apply NoDup_app in Hnd as (_ & Hdis & _). apply (Hdis _ Ha). by left. }
    destruct s as [m mp].
    by rewrite (bind_run _ _ _ _ _ (on_mem_map _ _ _ _ _ (load_value_ok _ _ _ Hv))).
  - right. split; [|done].
    rewrite (bind_run _ _ _ _ _ Hf). rewrite (bind_run _ _ _ _ _ (this_ok s)).
    unfold iter_eqb. by rewrite bool_decide_eq_true_2.
Qed.

(** A [size()] that is exact as a double is far from the end of [size_t]. *)
Lemma exact_size_bound (l : List) (xs : list addr) :
  size_ l = N.of_nat (length xs) ->
  exact_as_double (List_size l) ->
  N.of_nat (length xs) + 1 < size_t_modulus.
Proof.
  unfold exact_as_double, List_size, size_t_modulus. intros -> H.
  assert (2 ^ 53 < 2 ^ 64) by (apply N.pow_lt_mono_r; lia). lia.
Qed.


(** The loop of [insert(first, last)] on a map with enough buckets. *)
Lemma insert_range_models (vs : list (Key * Value)) :
  hash_compatible hasher key_equal -> key_equivalence key_equal ->
  forall (s : MState) hd tl xs done,
    partitioned hasher s hd tl xs ->
    models key_equal s xs done ->
    N.of_nat (length xs + length vs) <= bucket_count s.2 + 1 ->
    N.of_nat (length xs + length vs) < size_t_modulus ->
    exists s' xs',
      insert_range hasher key_equal vs s = Ret tt s' /\
      partitioned hasher s' hd tl xs' /\
      models key_equal s' xs' (done ++ vs) /\
      bucket_count s'.2 = bucket_count s.2 /\
      (length xs' <= length xs + length vs)%nat.
Proof.
  intros Hcompat Heq. pose proof Heq as (Hrefl & Hsym & Htrans).
  induction vs as [|v vs IH]; intros s hd tl xs done Hpart Hmod Hbc Hwrap.
  { exists s, xs. rewrite app_nil_r. do 4 (split; [done|]). lia. }
  cbn [length] in Hbc, Hwrap.
  pose proof Hpart as (_ & Hsz & _).
  assert (Hlf : load_factor_exceeds s.2 = false).
  { unfold load_factor_exceeds, map_size, List_size. rewrite Hsz. apply N.ltb_ge. lia. }
  destruct (insert_partitioned hasher key_equal s hd tl xs v Hpart Hcompat Hlf)
    as (r & s1 & xs1 & Hrun & Hpart1 & Hlen1 & Hcase); [lia|].
  assert (Hbc1 : bucket_count s1.2 = bucket_count s.2).
  { unfold bucket_count. by rewrite Hlen1. }
  destruct Hmod as [Hfirst Hall].
  assert (Hmod1 : models key_equal s1 xs1 (done ++ [v]) /\ (length xs1 <= S (length xs))%nat).
  { destruct Hcase as [(Hr & -> & -> & _ & a & kv & Hr1 & Ha & Hv & Hk)
                      |(Hr & Hr1 & Hperm & Hvf & Hvo & Hno)].
    - split; [|lia]. split.
      + intros a' kv' Ha' Hv'. apply assoc_app_l. by apply (Hfirst a' kv').
      + intros v' Hv'. apply elem_of_app in Hv' as [Hv'|Hv'].
        * by apply Hall.
        * apply list_elem_of_singleton in Hv' as ->. by exists a, kv.
    - split; [|by rewrite (Permutation_length Hperm)].
      assert (Hfresh : brk s.1 ∉ xs).
      { intros Hin. destruct Hpart as (Hd & _).
        apply (dll_fresh _ _ _ _ (brk s.1) Hd); [|done].
        right. apply elem_of_app. by left. }
      split.
      + intros a' kv' Ha' Hv'. rewrite Hperm in Ha'.
        apply elem_of_cons in Ha' as [->|Ha'].
        * rewrite Hvf in Hv'. injection Hv' as <-.
          rewrite assoc_app_r; [simpl; by rewrite Hrefl|].
          intros v' Hv'. destruct (Hall v' Hv') as (a & kv & Ha & Hv & Hk).
          destruct (key_equal v'.1 v.1) eqn:E; [|done].
          pose proof (Hno a kv Ha Hv) as Hn. by rewrite (Htrans _ _ _ Hk E) in Hn.
        * rewrite Hvo in Hv' by (by intros ->).
          apply assoc_app_l. by apply (Hfirst a' kv').
      + intros v' Hv'. apply elem_of_app in Hv' as [Hv'|Hv'].
        * destruct (Hall v' Hv') as (a & kv & Ha & Hv & Hk). exists a, kv.
          split; [rewrite Hperm; by right|]. split; [|done].
          rewrite Hvo; [done|by intros ->].
        * apply list_elem_of_singleton in Hv' as ->. exists (brk s.1), v.
          split; [rewrite Hperm; by left|]. by split. }
  destruct Hmod1 as [Hmod1 Hlen].
  destruct (IH s1 hd tl xs1 (done ++ [v]) Hpart1 Hmod1)
    as (s' & xs' & Hrun' & Hpart' & Hmod' & Hbc' & Hlen');
    [rewrite Hbc1; lia|lia|].
  exists s', xs'. split.
  { cbn [insert_range]. by rewrite (bind_run _ _ _ _ _ Hrun). }
  split; [done|]. split; [by rewrite <- app_assoc in Hmod'|].
  split; [by rewrite Hbc', Hbc1|]. cbn [length]. lia.
Qed.

(** A map that models [vs] answers [at] as the association list does. *)
Lemma at_models (s : MState) hd tl xs vs k :
  partitioned hasher s hd tl xs ->
  hash_compatible hasher key_equal -> key_equivalence key_equal ->
  models key_equal s xs vs ->
  at_ hasher key_equal k s =
    match assoc key_equal k vs with
    | Some w => Ret w s
    | None => Throw out_of_range s
    end.
Proof.
  intros Hpart Hcompat Heq [Hfirst Hall]. pose proof Heq as (Hrefl & Hsym & Htrans).
  destruct (at_partitioned s hd tl xs k Hpart Hcompat)
    as [(a & kv & Hat & Ha & Hv & Hk)|[Hat Hno]].
  - rewrite Hat. rewrite <- (assoc_equal _ _ vs Heq Hk). by rewrite (Hfirst a kv Ha Hv).
  - rewrite Hat. destruct (assoc key_equal k vs) as [w|] eqn:E; [|done]. exfalso.
    apply assoc_Some in E as (v & Hv & Hk).
    destruct (Hall v Hv) as (a & kv & Ha & Hva & Hk').
    pose proof (Hno a kv Ha Hva) as Hn. by rewrite (Htrans _ _ _ Hk' Hk) in Hn.
Qed.

(** X18. A new map of [n] buckets filled by [insert(first, last)] with a
    range of at most [n + 1] pairs is the association list of the range:
    no rehash happens, [at(k)] returns the value of the first pair with a
    key equal to [k], and throws [std::out_of_range] when there is none. *)
Theorem new_map_models_range (m0 : Mem) (n : N) (vs : list (Key * Value)) :
  mem_ok m0 -> 0 < n ->
  hash_compatible hasher key_equal -> key_equivalence key_equal ->
  N.of_nat (length vs) <= n + 1 ->
  exact_as_double (N.of_nat (length vs)) ->
  exists mp m1 s',
    UnorderedMap_ctor n m0 = Ret mp m1 /\
    insert_range hasher key_equal vs (m1, mp) = Ret tt s' /\
    bucket_count s'.2 = n /\
    forall k, at_ hasher key_equal k s' =
      match assoc key_equal k vs with
      | Some w => Ret w s'
      | None => Throw out_of_range s'
      end.
Proof.
  intros Hok Hn Hcompat Heq Hlen Hexact.
  destruct (ctor_partitioned m0 n Hok Hn) as (mp & m1 & Hctor & Hpart & Hbc & _).
  destruct (insert_range_models vs Hcompat Heq (m1, mp) _ _ [] [] Hpart)
    as (s' & xs' & Hrun & Hpart' & Hmod & Hbc' & _).
  { split; [intros ? ? Ha; by apply elem_of_nil in Ha|intros ? Hv; by apply elem_of_nil in Hv]. }
  { cbn [length fst snd]. rewrite Hbc. lia. }
  { cbn [length]. unfold exact_as_double in Hexact. unfold size_t_modulus.
    assert (2 ^ 53 < 2 ^ 64) by (apply N.pow_lt_mono_r; lia). lia. }
  exists mp, m1, s'. split; [done|]. split; [done|]. split; [by rewrite Hbc'|].
  intros k. by apply (at_models s' (brk m0) (S (brk m0)) xs' vs k).
Qed.

End Model.

(** ** [find], [erase] and [clear] on usable maps *)

Section MapMore.
Context {Key Value : Type}.
Variable hasher : Key -> N.
Variable key_equal : Key -> Key -> bool.
#[local] Abbreviation Mem := (@Mem Key Value).
#[local] Abbreviation MState := (@MState Key Value).
#[local] Abbreviation LState := (@LState Key Value).

(** [find] on a usable map returns and never reports an entry whose key is
    not equal to the one asked for. *)
Lemma find_usable (s : MState) hd tl xs k :
  usable hasher s hd tl xs ->
  exists it,
    find hasher key_equal k s = Ret it s /\
    (it = map_end s.2 \/
     exists a kv, it = Some a /\ a ∈ xs /\ val (cells s.1) a = Some kv /\
                  key_equal kv.1 k = true) /\
    ((forall a kv, a ∈ xs -> val (cells s.1) a = Some kv -> key_equal kv.1 k = false) ->
     it = map_end s.2).
Proof.
  intros (Hd & Hsz & Hne & Hok & _).
  destruct (get_bucket_index_lt hasher s.2 k Hne) as [_ Hlt].
  apply lookup_lt_is_Some in Hlt as [b Hb].
  assert (Hbok : bucket_ok (xs ++ [tl]) b).
  { rewrite Forall_forall in Hok. apply Hok. by eapply list_elem_of_lookup_2. }
  destruct (scan_bucket_spec key_equal s hd tl xs b k Hd Hbok) as (r & Hscan & Hr & Hnone).
  unfold find. rewrite (bind_run _ _ _ _ _ (this_ok s)). cbv zeta.
  rewrite (bind_run _ _ _ _ _ (bucket_at_ok _ _ _ Hb)).
  rewrite (bind_run _ _ _ _ _ Hscan).
  destruct r as [it|].
  - exists it. split; [done|]. split; [by right|].
    intros Hno. by specialize (Hnone Hno).
  - exists (map_end s.2). split; [done|]. split; [by left|done].
Qed.

(** The bucket fix-up at the end of [erase] changes descriptors only. *)
Lemma erase_fixup (s : MState) (index : N) (b bucket : Bucket) (it it_next next_it last : iterator) :
  buckets s.2 !! N.to_nat index = Some b ->
  exists bs,
    ((if iter_eqb (bucket_begin bucket) it && iter_eqb (bucket_end bucket) it_next then
        set_bucket_end index last;;
        set_bucket_begin index last
      else
        (if iter_eqb (bucket_begin bucket) it then set_bucket_begin index next_it else mret tt);;
        (if iter_eqb (bucket_end bucket) it_next then set_bucket_end index next_it else mret tt))
       : M MState unit) s
    = Ret tt (s.1, mkMap (elements s.2) bs) /\
    length bs = length (buckets s.2).
Proof.
  intros Hb.
  assert (Hset : forall (t : MState) b0 x, buckets t.2 !! N.to_nat index = Some b0 ->
            exists b1, buckets (t.1, mkMap (elements t.2) (<[N.to_nat index := x]> (buckets t.2))).2
                         !! N.to_nat index = Some b1).
  { intros t b0 x Hb0. exists x. cbn [snd buckets]. apply list_lookup_insert_eq.
    by eapply lookup_lt_Some. }
  destruct (iter_eqb (bucket_begin bucket) it && iter_eqb (bucket_end bucket) it_next).
  - rewrite (bind_run _ _ _ _ _ (set_bucket_end_ok _ _ last _ Hb)).
    destruct (Hset s b (mkBucket (bucket_begin b) last) Hb) as [b1 Hb1].
    rewrite (set_bucket_begin_ok _ _ last _ Hb1). cbn [fst snd elements buckets].
    eexists. split; [done|]. by rewrite !length_insert.
  - destruct (iter_eqb (bucket_begin bucket) it).
    + rewrite (bind_run _ _ _ _ _ (set_bucket_begin_ok _ _ next_it _ Hb)).
      destruct (iter_eqb (bucket_end bucket) it_next).
      * destruct (Hset s b (mkBucket next_it (bucket_end b)) Hb) as [b1 Hb1].
        rewrite (set_bucket_end_ok _ _ next_it _ Hb1). cbn [fst snd elements buckets].
        eexists. split; [done|]. by rewrite !length_insert.
      * eexists. split; [done|]. cbn [snd buckets]. by rewrite length_insert.
    + rewrite (bind_run (mret tt) _ s tt s eq_refl).
      destruct (iter_eqb (bucket_end bucket) it_next).
      * rewrite (set_bucket_end_ok _ _ next_it _ Hb).
        eexists. split; [done|]. cbn [snd buckets]. by rewrite length_insert.
      * exists (buckets s.2). split; [by destruct s as [m []]|done].
Qed.

(** X20. [erase(pos)] at an entry of a usable map takes exactly that entry
    out of the list and frees its node, returns the iterator to the entry
    behind it, lowers [size()] by one and keeps the bucket count and the
    values of the other entries. *)
Theorem erase_entry (s : MState) hd tl A f B :
  usable hasher s hd tl (A ++ f :: B) ->
  N.of_nat (length (A ++ f :: B)) < size_t_modulus ->
  exists s' n,
    erase hasher (Some f) s = Ret (Some n) s' /\
    (B ++ [tl]) !! 0%nat = Some n /\
    dll (s'.1, elements s'.2) hd tl (A ++ B) /\
    map_size s'.2 = N.of_nat (length (A ++ B)) /\
    bucket_count s'.2 = bucket_count s.2 /\
    cells s'.1 !! f = None /\
    brk s'.1 = brk s.1 /\
    (forall a, a <> f -> val (cells s'.1) a = val (cells s.1) a).
Proof.
  intros (Hd & Hsz & Hne & Hok & Hown) Hlt.
  pose proof Hd as (_ & Htl & Hnd & _ & Hv & _). cbn [fst snd] in Htl, Hnd, Hv.
  assert (Hf : f ∈ A ++ f :: B) by (apply elem_of_app; right; by left).
  destruct (Hv f Hf) as [kv Hkv].
  assert (Hftl : Some f <> Some tl).
  { intros [= ->]. apply NoDup_cons in Hnd as [_ Hnd].
    apply NoDup_app in Hnd as (_ & Hdis & _). apply (Hdis _ Hf). by left. }
  destruct (get_bucket_index_lt hasher s.2 kv.1 Hne) as [_ Hilt].
  apply lookup_lt_is_Some in Hilt as [b Hb].
  destruct (chain_first B tl) as [n Hn].
  assert (Hnext : nxt (cells s.1) f = Some n).
  { apply (dll_next (s.1, elements s.2) hd tl (A ++ f :: B) (length A) f n Hd).
    - rewrite <- app_assoc. rewrite lookup_app_r by lia. by rewrite Nat.sub_diag.
    - rewrite <- app_assoc. rewrite lookup_app_r by lia.
      replace (S (length A) - length A)%nat with 1%nat by lia. exact Hn. }
  destruct (List_erase_full (s.1, elements s.2) hd tl A f B Hd)
    as (t & n' & Her & Hd' & Ht2 & Hbrk & Hvo & Hfree & Hn' & _).
  assert (n' = n) as -> by congruence.
  unfold erase. rewrite (bind_run _ _ _ _ _ (this_ok s)).
  unfold map_end, List_end, iter_eqb at 1. rewrite Htl.
  rewrite bool_decide_eq_false_2 by done.
  assert (Hlv : on_mem (load_value (Some f)) s = Ret kv s).
  { destruct s as [m mp]. apply on_mem_map. by apply load_value_ok. }
  rewrite (bind_run _ _ _ _ _ Hlv). cbv zeta.
  rewrite (bind_run _ _ _ _ _ (bucket_at_ok _ _ _ Hb)).
  assert (Hln : on_mem (load_next (Some f)) s = Ret (Some n) s).
  { destruct s as [m mp]. apply on_mem_map. by apply load_next_ok. }
  rewrite (bind_run _ _ _ _ _ Hln).
  rewrite (bind_run _ _ _ _ _ (on_elements_run _ _ _ _ Her)).
  destruct (erase_fixup (t.1, mkMap t.2 (buckets s.2)) (get_bucket_index hasher s.2 kv.1)
              b b (Some f) (Some n) (Some n) (Some tl) Hb) as (bs & Hfix & Hlen).
  rewrite (bind_run _ _ _ _ _ Hfix). cbn [fst snd elements buckets] in *.
  exists (t.1, mkMap t.2 bs), n. cbn [fst snd elements buckets].
  split; [done|]. split; [done|]. split; [by destruct t|].
  split.
  { unfold map_size, List_size. rewrite Ht2. cbn [size_]. rewrite Hsz.
    rewrite !length_app in *. cbn [length] in *. unfold wrap.
    replace (N.of_nat (length A + S (length B)) + size_t_modulus - 1)
      with (N.of_nat (length A + length B) + 1 * size_t_modulus) by lia.
    rewrite N.Div0.mod_add. apply N.mod_small. lia. }
  split; [unfold bucket_count; cbn [buckets]; by rewrite Hlen|]. done.
Qed.

(** X19. [clear()] on a map with a well-formed list, whatever its bucket
    descriptors hold: every entry node is freed, the map is empty with the
    same number of buckets, and it satisfies the invariant again. *)
Theorem clear_partitioned (s : MState) hd tl xs :
  dll (s.1, elements s.2) hd tl xs ->
  size_ (elements s.2) = N.of_nat (length xs) ->
  N.of_nat (length xs) < size_t_modulus ->
  buckets s.2 <> [] ->
  exists s',
    clear s = Ret tt s' /\
    partitioned hasher s' hd tl [] /\
    bucket_count s'.2 = bucket_count s.2 /\
    brk s'.1 = brk s.1 /\
    (forall a, a ∈ xs -> cells s'.1 !! a = None) /\
    (forall a, a ∉ hd :: xs ++ [tl] -> cells s'.1 !! a = cells s.1 !! a).
Proof.
  intros Hd Hsz Hlt Hne.
  assert (Hvs : exists vs, Forall2 (fun a v => val (cells s.1) a = Some v) xs vs).
  { destruct Hd as (_ & _ & _ & _ & Hv & _). cbn [fst] in Hv. clear -Hv.
    induction xs as [|a xs IH]; [by exists []|].
    destruct (Hv a) as [v Hva]; [by left|].
    destruct IH as [vs Hvs]; [intros ? ?; apply Hv; by right|].
    exists (v :: vs). by constructor. }
  destruct Hvs as [vs Hvs].
  destruct (List_clear_spec (s.1, elements s.2) hd tl xs vs)
    as (t & Hrun & (Hd' & Hsz' & _) & Hbrk & Hfree & Hfr);
    [split; [done|split; [done|split; done]]|].
  pose proof Hd' as (_ & Htl & _). cbn [fst snd] in *.
  unfold clear. rewrite (bind_run _ _ _ _ _ (on_elements_run _ _ _ _ Hrun)).
  rewrite (bind_run _ _ _ _ _ (this_ok _)). cbn [fst snd elements buckets].
  unfold map_end, List_end. cbn [elements]. rewrite Htl.
  eexists. split; [reflexivity|]. cbn [fst snd elements buckets].
  split; [|split; [|done]].
  - split; [by destruct t|]. split; [done|]. cbn [snd buckets]. split.
    { unfold reset_buckets. by destruct (buckets s.2). }
    intros i b Hb. unfold reset_buckets in Hb. rewrite list_lookup_fmap in Hb.
    destruct (buckets s.2 !! i); [|done]. simpl in Hb. injection Hb as <-.
    exists 0%nat, 0%nat. by repeat split.
  - unfold bucket_count, reset_buckets. cbn [buckets]. by rewrite length_fmap.
Qed.

End MapMore.

(** ** Move assignment, [reserve] and [rehash] *)

Section MapAssign.
Context {Key Value : Type}.
Variable hasher : Key -> N.
Variable key_equal : Key -> Key -> bool.
#[local] Abbreviation Mem := (@Mem Key Value).
#[local] Abbreviation MState := (@MState Key Value).
#[local] Abbreviation LState := (@LState Key Value).

(** Every node of a well-formed list holds a value. *)
Lemma dll_values (s : LState) hd tl xs :
  dll s hd tl xs -> exists vs, Forall2 (fun a v => val (cells s.1) a = Some v) xs vs.
Proof.
  intros (_ & _ & _ & _ & Hv & _).
  induction xs as [|a xs IH]; [by exists []|].
  destruct (Hv a) as [v Hva]; [by left|].
  destruct IH as [vs Hvs]; [intros ? ?; apply Hv; by right|].
  exists (v :: vs). by constructor.
Qed.

(** The invariant is not disturbed by changes to other nodes. *)
Lemma partitioned_frame (m m' : Mem) (mp : UnorderedMap) hd tl xs :
  partitioned hasher (m, mp) hd tl xs ->
  N.of_nat (length xs) < size_t_modulus ->
  (forall a, a ∈ hd :: xs ++ [tl] -> cells m' !! a = cells m !! a) ->
  (forall a, is_Some (cells m' !! a) -> (a < brk m')%nat) ->
  partitioned hasher (m', mp) hd tl xs.
Proof.
  intros (Hd & Hsz & Hne & Hr) Hlt Hfr Hb. cbn [fst snd] in *.
  destruct (dll_values _ _ _ _ Hd) as [vs Hvs].
  assert (Hl : is_list (m, elements mp) hd tl xs vs) by (split; [done|split; [done|split; done]]).
  destruct (is_list_frame m m' _ hd tl xs vs Hl Hfr Hb) as (Hd' & _).
  split; [done|]. split; [done|]. split; [done|]. cbn [fst snd].
  intros i b Hib. destruct (Hr i b Hib) as (p & q & Hpq & Hp & Hq & He & Hin).
  exists p, q. split; [done|]. split; [done|]. split; [done|]. split; [done|].
  intros k a Hk.
  assert (E : node_index hasher (cells m') (bucket_count mp) a
              = node_index hasher (cells m) (bucket_count mp) a).
  { unfold node_index, val. rewrite Hfr; [done|].
    right. apply elem_of_app. left. by eapply list_elem_of_lookup_2. }
  rewrite E. by apply Hin.
Qed.

(** X25. Move assignment of [UnorderedMap] frees every node [*this] had,
    the sentinels included, takes over the list and the buckets of
    [other], which keeps the invariant it had, and leaves [other] without
    nodes and buckets. *)
Theorem move_assign_spec (m : Mem) (mp other : UnorderedMap) hd tl xs hd' tl' xs' :
  dll (m, elements mp) hd tl xs ->
  size_ (elements mp) = N.of_nat (length xs) ->
  N.of_nat (length xs) < size_t_modulus ->
  partitioned hasher (m, other) hd' tl' xs' ->
  N.of_nat (length xs') < size_t_modulus ->
  (forall a, a ∈ hd :: xs ++ [tl] -> a ∉ hd' :: xs' ++ [tl']) ->
  exists s',
    UnorderedMap_move_assign other (m, mp) = Ret (mkMap (mkList None None 0) []) s' /\
    s'.2 = other /\
    partitioned hasher s' hd' tl' xs' /\
    (forall a, a ∈ hd :: xs ++ [tl] -> cells s'.1 !! a = None) /\
    (forall a, a ∉ hd :: xs ++ [tl] -> cells s'.1 !! a = cells m !! a).
Proof.
  intros Hd Hsz Hlt Hpo Hlt' Hdisj. cbn [fst snd] in *.
  destruct (dll_values _ _ _ _ Hd) as [vs Hvs].
  assert (Hl : is_list (m, elements mp) hd tl xs vs) by (split; [done|split; [done|split; done]]).
  destruct (List_clear_spec _ hd tl xs vs Hl) as (t & Hclr & Hl1 & Hbrk1 & Hfree1 & Hfr1).
  cbn [fst snd] in *.
  pose proof Hpo as (Hdo & Hszo & _). cbn [fst snd] in Hdo, Hszo.
  destruct (dll_values _ _ _ _ Hdo) as [vs' Hvs'].
  assert (Hlo : is_list (m, elements other) hd' tl' xs' vs')
    by (split; [done|split; [done|split; done]]).
  assert (Hbound1 : forall a, is_Some (cells t.1 !! a) -> (a < brk t.1)%nat).
  { destruct Hl1 as ((_ & _ & _ & _ & _ & Hb) & _). exact Hb. }
  assert (Hlo1 : is_list (t.1, elements other) hd' tl' xs' vs').
  { apply (is_list_frame m); [done| |done].
    intros a Ha. apply Hfr1. intros Hin. by apply (Hdisj a Hin). }
  assert (Hl1' : is_list (t.1, t.2) hd tl [] []) by (by destruct t).
  destruct (List_move_assign_spec t.1 t.2 (elements other) hd tl [] [] hd' tl' xs' vs'
              Hl1' Hlo1) as (u & Hmv & Hlu & Hfree2 & Hfr2).
  { intros a Ha. destruct (decide (a ∈ hd :: xs ++ [tl])) as [Hin|Hout]; [by apply Hdisj|].
    exfalso. apply Hout. apply elem_of_cons in Ha as [->|Ha]; [by left|].
    right. apply elem_of_app. right. by rewrite app_nil_l in Ha. }
  cbn [fst snd] in *.
  pose proof Hl1 as ((_ & Htl1 & _) & _). cbn [snd] in Htl1.
  unfold UnorderedMap_move_assign, clear. rewrite !bind_assoc.
  rewrite (bind_run _ _ _ _ _ (on_elements_run _ (m, mp) _ _ Hclr)).
  rewrite !bind_assoc. rewrite (bind_run _ _ _ _ _ (this_ok _)).
  cbn [fst snd elements buckets].
  set (bs := reset_buckets _ _).
  assert (Hset : set_this (mkMap t.2 bs) (t.1, mkMap t.2 (buckets mp)) = Ret tt (t.1, mkMap t.2 bs))
    by done.
  rewrite (bind_run _ _ _ _ _ Hset).
  rewrite (bind_run _ _ _ _ _ (on_elements_run _ (t.1, mkMap t.2 bs) _ _ Hmv)).
  rewrite (bind_run _ _ _ _ _ (this_ok _)). cbn [fst snd elements buckets].
  assert (Hu2 : u.2 = elements other).
  { unfold List_move_assign in Hmv. clear -Hmv Hl1'.
    destruct Hl1' as ((Hh & Ht & _) & _). cbn [snd] in Hh, Ht.
    rewrite (bind_run this _ (t.1, t.2) t.2 (t.1, t.2) eq_refl) in Hmv. rewrite Hh, Ht in Hmv.
    unfold mbind, M_bind, bind in Hmv.
    repeat match type of Hmv with
           | context [match ?c ?x with _ => _ end] => destruct (c x) eqn:?; try discriminate
           end.
    unfold set_this in Heqo2. unfold mret, M_ret, ret in Hmv.
    injection Heqo2 as _ <-. injection Hmv as <-. cbn [snd]. by destruct (elements other). }
  eexists. split; [reflexivity|]. cbn [fst snd].
  split; [rewrite Hu2; by destruct other|].
  assert (Hsame : forall a, a ∉ hd :: xs ++ [tl] -> cells u.1 !! a = cells m !! a).
  { intros a Ha. rewrite Hfr2; [by apply Hfr1|].
    intros Hin. apply Ha. apply elem_of_cons in Hin as [->|Hin]; [by left|].
    right. apply elem_of_app. right. by rewrite app_nil_l in Hin. }
  split; [|split; [|done]].
  - rewrite Hu2.
    assert (Hpu : partitioned hasher (u.1, other) hd' tl' xs').
    { apply (partitioned_frame m); [done|done| |].
      - intros a Ha. apply Hsame. intros Hin. by apply (Hdisj a Hin).
      - destruct Hlu as ((_ & _ & _ & _ & _ & Hb) & _). exact Hb. }
    by destruct other.
  - intros a Ha. destruct (decide (a = hd \/ a = tl)) as [Hs|Hns].
    + apply Hfree2. destruct Hs as [->| ->]; [by left|right; by left].
    + rewrite Hfr2.
      * apply Hfree1. apply elem_of_cons in Ha as [->|Ha]; [tauto|].
        apply elem_of_app in Ha as [Ha|Ha]; [done|].
        apply list_elem_of_singleton in Ha. tauto.
      * intros Hin. apply Hns. apply elem_of_cons in Hin as [->|Hin]; [by left|].
        rewrite app_nil_l in Hin. apply list_elem_of_singleton in Hin. by right.
Qed.

(** X23. [reserve(count)] on a usable map returns and keeps the entries
    and their values; it does nothing when there are [count] buckets
    already, and otherwise the bucket count becomes the larger of [count]
    and [size()]. *)
Theorem reserve_usable (s : MState) hd tl xs (count : N) :
  usable hasher s hd tl xs ->
  exact_as_double count ->
  exact_as_double (map_size s.2) ->
  exists s' xs',
    reserve hasher count s = Ret tt s' /\
    usable hasher s' hd tl xs' /\ xs' ≡ₚ xs /\
    elements s'.2 = elements s.2 /\ brk s'.1 = brk s.1 /\
    (forall a, val (cells s'.1) a = val (cells s.1) a) /\
    bucket_count s'.2 = (if bucket_count s.2 <? count
                         then N.max count (map_size s.2) else bucket_count s.2).
Proof.
  intros Hu _ _. pose proof Hu as (Hd & Hsz & Hne & _).
  unfold reserve. rewrite (bind_run _ _ _ _ _ (this_ok s)). cbv zeta.
  assert (Hc : (if (count =? 0) && (0 <? count) then 1 else count) = count).
  { destruct (N.eqb_spec count 0) as [->|]; [done|]. done. }
  rewrite Hc.
  destruct (N.ltb_spec (bucket_count s.2) count) as [Hlt|Hge].
  - destruct (rehash_usable hasher s hd tl xs count Hd Hsz)
      as (s' & xs' & Hrun & Hu' & Hperm & Hel & Hbrk & Hval); [lia|by left|].
    exists s', xs'. split; [done|]. split; [done|]. split; [done|]. split; [done|].
    split; [done|]. split; [done|]. by apply (rehash_shape hasher) in Hrun as [_ ?].
  - exists s, xs. done.
Qed.

(** X24. [rehash(0)] on an empty map leaves the map without a bucket, and
    [find] then indexes the empty bucket vector: its behaviour is
    undefined. *)
Theorem rehash_zero_empty (s : MState) hd tl k :
  usable hasher s hd tl [] ->
  exists s',
    rehash hasher 0 s = Ret tt s' /\
    bucket_count s'.2 = 0 /\
    find hasher key_equal k s' = Undefined OutOfBounds.
Proof.
  intros (Hd & Hsz & Hne & _). cbn [length] in Hsz.
  unfold rehash. rewrite (bind_run _ _ _ _ _ (this_ok s)).
  unfold map_size, map_empty, List_size, List_empty. rewrite Hsz. cbn -[N.of_nat].
  change (N.of_nat 0) with 0. cbn.
  rewrite andb_false_r.
  eexists. split; [reflexivity|]. split; [done|]. done.
Qed.

End MapAssign.

(** ** [StackAllocator::allocate] *)

Section Allocator.

(** [align_up] is the first multiple of [al] from [p] on. *)
Lemma align_up_spec (al p : N) :
  0 < al -> p <= align_up al p < p + al /\ align_up al p mod al = 0.
Proof.
  intros Hal. unfold align_up.
  pose proof (N.div_mod (p + al - 1) al ltac:(lia)) as Hdm.
  pose proof (N.mod_upper_bound (p + al - 1) al ltac:(lia)) as Hub.
  split; [|apply N.Div0.mod_mul].
  rewrite (N.mul_comm _ al).
  set (q := al * ((p + al - 1) / al)) in *. set (r := (p + al - 1) mod al) in *.
  clearbody q r. lia.
Qed.

Lemma power_of_two_pos (al : N) : power_of_two al -> 0 < al.
Proof. intros [k ->]. apply N.neq_0_lt_0, N.pow_nonzero. lia. Qed.

(** [remaining_space()] while [current_pos] points into the array. *)
Lemma remaining_space_ok (st : StackStorage) :
  storage_ok st -> remaining_space st = data st + capacity st - current_pos st.
Proof.
  intros [[H1 H2] H3]. unfold remaining_space, wrap.
  rewrite (N.mod_small (current_pos st - data st)) by lia.
  replace (capacity st + size_t_modulus - (current_pos st - data st))
    with (data st + capacity st - current_pos st + 1 * size_t_modulus) by lia.
  rewrite N.Div0.mod_add. apply N.mod_small. lia.
Qed.

(** A successful [allocate] returns an aligned block of the array behind
    everything handed out before, with less than [alignof(T)] bytes of
    padding, and moves [current_pos] to the end of the block. *)
Lemma allocate_block (sizeof_T alignof_T n : N) (st st' : StackStorage) (p : N) :
  storage_ok st -> 0 < alignof_T -> sizeof_T * n < size_t_modulus ->
  StackAllocator_allocate sizeof_T alignof_T n st = Some (p, st') ->
  p mod alignof_T = 0 /\
  current_pos st <= p < current_pos st + alignof_T /\
  current_pos st' = p + sizeof_T * n /\
  data st' = data st /\ capacity st' = capacity st /\
  storage_ok st'.
Proof.
  intros Hok Hal Hsize. unfold StackAllocator_allocate, std_align.
  rewrite (remaining_space_ok st Hok). unfold wrap. rewrite (N.mod_small _ _ Hsize).
  destruct (align_up_spec alignof_T (current_pos st) Hal) as [[Hle Hlt] Hmod].
  destruct Hok as [[H1 H2] H3].
  destruct (_ && _) eqn:E; [|done]. intros [= <- <-]. cbn [data capacity current_pos].
  apply andb_true_iff in E as [E1%N.leb_le E2%N.leb_le].
  split; [done|]. split; [done|]. split; [done|]. split; [done|]. split; [done|].
  split; [|done]. cbn [data capacity current_pos]. lia.
Qed.

(** A successful [allocate] reserves [total_size] bytes, the product
    [sizeof(T) * n] as [size_t] arithmetic gives it: the block is aligned,
    lies in the array behind everything handed out before, and
    [current_pos] moves to its end. *)
Lemma allocate_total_size (sizeof_T alignof_T n : N) (st st' : StackStorage) (p : N) :
  storage_ok st -> 0 < alignof_T ->
  StackAllocator_allocate sizeof_T alignof_T n st = Some (p, st') ->
  p mod alignof_T = 0 /\
  current_pos st <= p < current_pos st + alignof_T /\
  current_pos st' = p + wrap (sizeof_T * n) /\
  data st' = data st /\ capacity st' = capacity st /\
  storage_ok st'.
Proof.
  intros Hok Hal. unfold StackAllocator_allocate, std_align.
  rewrite (remaining_space_ok st Hok).
  set (total := wrap (sizeof_T * n)).
  destruct (align_up_spec alignof_T (current_pos st) Hal) as [[Hle Hlt] Hmod].
  destruct Hok as [[H1 H2] H3].
  destruct (_ && _) eqn:E; [|done]. intros [= <- <-]. cbn [data capacity current_pos].
  apply andb_true_iff in E as [E1%N.leb_le E2%N.leb_le].
  split; [done|]. split; [done|]. split; [done|]. split; [done|]. split; [done|].
  split; [|done]. cbn [data capacity current_pos]. lia.
Qed.

(** [allocate] fails exactly when [total_size] bytes at the first aligned
    address do not fit. *)
Lemma allocate_none_iff (sizeof_T alignof_T n : N) (st : StackStorage) :
  storage_ok st -> 0 < alignof_T ->
  StackAllocator_allocate sizeof_T alignof_T n st = None <->
  data st + capacity st < align_up alignof_T (current_pos st) + wrap (sizeof_T * n).
Proof.
  intros Hok Hal. unfold StackAllocator_allocate, std_align.
  rewrite (remaining_space_ok st Hok).
  set (total := wrap (sizeof_T * n)).
  destruct (align_up_spec alignof_T (current_pos st) Hal) as [[Hle Hlt] Hmod].
  destruct Hok as [[H1 H2] H3].
  destruct (_ && _) eqn:E.
  - apply andb_true_iff in E as [E1%N.leb_le E2%N.leb_le]. split; [done|]. lia.
  - split; [|done]. intros _. apply andb_false_iff in E as [E%N.leb_gt|E%N.leb_gt]; lia.
Qed.

(** X28. [StackAllocator::allocate] throws [std::bad_alloc] exactly when
    the block of [total_size] bytes, put at the first aligned address, does
    not fit into what is left of the array.  [total_size] is
    [sizeof(T) * n] as the code computes it, in [size_t]: the product
    modulo 2^64, which is the size of [n] objects when the product does not
    overflow. *)
Theorem allocate_fails_iff (sizeof_T alignof_T n : N) (st : StackStorage) :
  storage_ok st -> power_of_two alignof_T ->
  (StackAllocator_allocate sizeof_T alignof_T n st = None <->
   data st + capacity st
     < align_up alignof_T (current_pos st) + wrap (sizeof_T * n)) /\
  (sizeof_T * n < size_t_modulus ->
   (StackAllocator_allocate sizeof_T alignof_T n st = None <->
    data st + capacity st < align_up alignof_T (current_pos st) + sizeof_T * n)).
Proof.
  intros Hok Hal%power_of_two_pos.
  pose proof (allocate_none_iff sizeof_T alignof_T n st Hok Hal) as H.
  split; [exact H|]. intros Hsize. unfold wrap in H.
  by rewrite (N.mod_small _ _ Hsize) in H.
Qed.

(** X29. Two blocks that [StackAllocator::allocate] hands out one after
    the other do not overlap and lie in the array, also when the first was
    deallocated in between: [deallocate] gives no storage back.  A block is
    the [total_size] bytes that [allocate] reserves, [sizeof(T) * n] modulo
    2^64: the [n] objects asked for when the product does not overflow. *)
Theorem allocate_never_reuses (sizeof_T alignof_T n1 n2 : N) (st st1 st2 : StackStorage)
    (p1 p2 : N) :
  storage_ok st -> power_of_two alignof_T ->
  StackAllocator_allocate sizeof_T alignof_T n1 st = Some (p1, st1) ->
  StackAllocator_allocate sizeof_T alignof_T n2 (StackAllocator_deallocate p1 n1 st1)
    = Some (p2, st2) ->
  (p1 + wrap (sizeof_T * n1) <= p2 /\
   p2 + wrap (sizeof_T * n2) <= data st + capacity st) /\
  (sizeof_T * n1 < size_t_modulus -> sizeof_T * n2 < size_t_modulus ->
   p1 + sizeof_T * n1 <= p2 /\ p2 + sizeof_T * n2 <= data st + capacity st).
Proof.
  intros Hok Hal%power_of_two_pos H1 H2. unfold StackAllocator_deallocate in H2.
  destruct (allocate_total_size _ _ _ _ _ _ Hok Hal H1) as (_ & _ & Hc1 & Hd1 & Hcap1 & Hok1).
  destruct (allocate_total_size _ _ _ _ _ _ Hok1 Hal H2)
    as (_ & Hp2 & Hc2 & Hd2 & Hcap2 & Hok2).
  destruct Hok2 as [[_ Hin] _]. rewrite Hc2, Hd2, Hcap2, Hd1, Hcap1 in Hin.
  assert (Hgen : p1 + wrap (sizeof_T * n1) <= p2 /\
                 p2 + wrap (sizeof_T * n2) <= data st + capacity st) by lia.
  split; [exact Hgen|]. intros Hs1 Hs2. unfold wrap in Hgen.
  by rewrite (N.mod_small _ _ Hs1), (N.mod_small _ _ Hs2) in Hgen.
Qed.

End Allocator.

(** ** The invariant by positions and the partition invariant *)

Section Bridge.
Context {Key Value : Type}.
Variable hasher : Key -> N.
#[local] Abbreviation heap := (gmap addr (@Node Key Value)).
#[local] Abbreviation MState := (@MState Key Value).
Implicit Types (h : heap).

(** A walk along [next] between two positions of a linked chain meets the
    nodes in between. *)
Lemma range_nodes_spec h (chain : list addr) :
  NoDup chain -> linked h chain ->
  forall n i x y fuel,
    chain !! i = Some x -> chain !! (i + n)%nat = Some y -> (n <= fuel)%nat ->
    range_nodes h (Some y) fuel (Some x) = Some (take n (drop i chain)).
Proof.
  intros Hnd Hl. induction n as [|n IH]; intros i x y fuel Hx Hy Hfuel.
  { rewrite Nat.add_0_r in Hy. assert (x = y) as -> by congruence.
    destruct fuel; simpl; by rewrite iter_eqb_refl. }
  destruct fuel as [|fuel]; [lia|]. cbn [range_nodes].
  unfold iter_eqb. rewrite bool_decide_eq_false_2.
  2:{ intros [= ->]. pose proof (NoDup_lookup _ _ _ _ Hnd Hx Hy). lia. }
  destruct (lookup_lt_is_Some_2 chain (S i)) as [x' Hx'].
  { apply lookup_lt_Some in Hy. lia. }
  destruct (linked_lookup h chain i x x' Hl Hx Hx') as [Hn _].
  unfold nxt in Hn. cbn [mbind option_bind].
  destruct (h !! x) as [nd|] eqn:Hnd'; [|done]. simpl in Hn. cbn. rewrite Hn. cbn.
  rewrite (IH (S i) x' y fuel Hx'); [|by replace (S i + n)%nat with (i + S n)%nat by lia|lia].
  cbn. f_equal. by rewrite (drop_S _ _ _ Hx).
Qed.

(** The elements of a concatenation. *)
Lemma elem_of_concat {A} (rs : list (list A)) (a : A) :
  a ∈ concat rs <-> exists i r, rs !! i = Some r /\ a ∈ r.
Proof.
  induction rs as [|r rs IH]; simpl.
  - split; [by intros ?%elem_of_nil|by intros (? & ? & ? & _)].
  - rewrite elem_of_app, IH. split.
    + intros [Ha|(i & r' & Hi & Ha)]; [by exists 0%nat, r|by exists (S i), r'].
    + intros ([|i] & r' & Hi & Ha); simpl in Hi; [left; by simplify_eq|right; eauto].
Qed.

(** Lists that are told apart by an index have no element in common. *)
Lemma NoDup_concat_indexed {A} (f : A -> nat) (rs : list (list A)) (k : nat) :
  (forall i r, rs !! i = Some r -> NoDup r) ->
  (forall i r a, rs !! i = Some r -> a ∈ r -> f a = (k + i)%nat) ->
  NoDup (concat rs).
Proof.
  revert k. induction rs as [|r rs IH]; intros k Hnd Hf; simpl; [constructor|].
  apply NoDup_app. split; [by apply (Hnd 0%nat)|]. split.
  - intros a Ha (j & r' & Hj & Ha')%elem_of_concat.
    pose proof (Hf 0%nat r a eq_refl Ha). pose proof (Hf (S j) r' a Hj Ha'). lia.
  - apply (IH (S k)).
    + intros i r' Hi. by apply (Hnd (S i)).
    + intros i r' a Hi Ha. rewrite (Hf (S i) r' a Hi Ha). lia.
Qed.

(** One list for every bucket. *)
Lemma ranges_exist {B R} (P : nat -> B -> R -> Prop) (bs : list B) :
  (forall i b, bs !! i = Some b -> exists r, P i b r) ->
  exists rs, length rs = length bs /\
    forall i b, bs !! i = Some b -> exists r, rs !! i = Some r /\ P i b r.
Proof.
  revert P. induction bs as [|b bs IH]; intros P H.
  { exists []. split; [done|]. intros i b Hb. by rewrite lookup_nil in Hb. }
  destruct (H 0%nat b eq_refl) as [r Hr].
  destruct (IH (fun i => P (S i))) as (rs & Hlen & Hrs).
  { intros i b' Hb'. by apply (H (S i)). }
  exists (r :: rs). split; [simpl; by rewrite Hlen|].
  intros [|i] b' Hb'; simpl in *.
  - exists r. by simplify_eq.
  - by apply Hrs.
Qed.

(** The elements of the positions from [p] up to [q]. *)
Lemma elem_of_sublist (xs : list addr) p q a :
  a ∈ take (q - p) (drop p xs) <-> exists k, (p <= k < q)%nat /\ xs !! k = Some a.
Proof.
  rewrite list_elem_of_lookup. split.
  - intros [j Hj]. apply lookup_take_Some in Hj as [Hj Hlt]. rewrite lookup_drop in Hj.
    exists (p + j)%nat. split; [lia|done].
  - intros (k & Hk & Ha). exists (k - p)%nat. apply lookup_take_Some. split; [|lia].
    rewrite lookup_drop. by replace (p + (k - p))%nat with k by lia.
Qed.

(** X30. The invariant by positions implies the partition invariant: the
    ranges of the buckets can be walked, together they hold every node of
    the list once, and the entries in the range of bucket [i] hash to
    [i]. *)
Theorem partitioned_invariant (s : MState) hd tl xs :
  partitioned hasher s hd tl xs -> partition_invariant hasher s.
Proof.
  intros (Hd & Hsz & Hne & Hr).
  pose proof Hd as (Hhd & Htl & Hnd & Hl & Hv & _). cbn [fst snd] in *.
  pose proof (dll_size_bound _ _ _ _ Hd) as Hsize. cbn [fst] in Hsize.
  apply NoDup_cons in Hnd as [_ Hnd].
  assert (Hl' : linked (cells s.1) (xs ++ [tl])).
  { destruct (xs ++ [tl]); [done|]. by apply linked_cons in Hl as (_ & _ & ?). }
  clear Hl. rename Hl' into Hl.
  set (idx := node_index hasher (cells s.1) (bucket_count s.2)) in *.
  assert (Hwalk : forall p q x y, (p <= q <= length xs)%nat ->
            (xs ++ [tl]) !! p = Some x -> (xs ++ [tl]) !! q = Some y ->
            range_nodes (cells s.1) (Some y) (S (size (cells s.1))) (Some x)
            = Some (take (q - p) (drop p xs))).
  { intros p q x y Hpq Hx Hy.
    rewrite (range_nodes_spec (cells s.1) (xs ++ [tl]) Hnd Hl (q - p) p x y); [| done | | lia].
    - f_equal. rewrite drop_app_le by lia. rewrite take_app_le; [done|].
      rewrite length_drop. lia.
    - by replace (p + (q - p))%nat with q by lia. }
  destruct (ranges_exist (fun i b r => bucket_nodes s b = Some r /\ NoDup r /\
              forall a, a ∈ r <-> a ∈ xs /\ idx a = i) (buckets s.2)) as (rs & Hlen & Hrs).
  { intros i b Hb. destruct (Hr i b Hb) as (p & q & Hpq & Hp & Hq & _ & Hin).
    destruct (chain_lookup_is_Some xs tl p) as [x Hx]; [lia|].
    destruct (chain_lookup_is_Some xs tl q) as [y Hy]; [lia|].
    exists (take (q - p) (drop p xs)). split; [|split].
    - unfold bucket_nodes. rewrite Hp, Hq, Hx, Hy. by apply Hwalk.
    - apply (sublist_NoDup _ xs); [by apply NoDup_app in Hnd as (? & _)|].
      etrans; [apply sublist_take|apply sublist_drop].
    - intros a. rewrite elem_of_sublist. split.
      + intros (k & Hk & Ha). split; [by eapply list_elem_of_lookup_2|]. by apply (Hin k a Ha).
      + intros [Ha Hi]. apply list_elem_of_lookup in Ha as [k Hk].
        exists k. split; [|done]. by apply (Hin k a Hk). }
  assert (Hat : forall i r, rs !! i = Some r ->
            NoDup r /\ forall a, a ∈ r <-> a ∈ xs /\ idx a = i).
  { intros i r Hi.
    destruct (lookup_lt_is_Some_2 (buckets s.2) i) as [b Hb].
    { rewrite <- Hlen. by eapply lookup_lt_Some. }
    destruct (Hrs i b Hb) as (r' & Hr' & _ & H1 & H2). by simplify_eq. }
  exists xs, rs. split; [|split; [|split; [|split]]].
  - unfold list_nodes. rewrite Hhd, Htl. cbn [mbind option_bind].
    destruct (chain_first xs tl) as [first Hfirst].
    destruct (dll_first _ _ _ _ _ Hd Hfirst) as [Hn _]. cbn [fst] in Hn. unfold nxt in Hn.
    destruct (cells s.1 !! hd) as [nd|]; [|done]. simpl in Hn.
    cbn [mbind option_bind]. rewrite Hn. cbn [mbind option_bind].
    rewrite (Hwalk 0%nat (length xs) first tl); [|lia|done|apply chain_lookup_tl].
    rewrite drop_0, Nat.sub_0_r. by rewrite firstn_all.
  - apply Forall2_same_length_lookup_2; [done|].
    intros i b r Hb Hi. destruct (Hrs i b Hb) as (r' & Hr' & Hbn & _). by simplify_eq.
  - apply NoDup_Permutation.
    + apply (NoDup_concat_indexed idx rs 0).
      * intros i r Hi. by apply (Hat i r Hi).
      * intros i r a Hi Ha. by apply (Hat i r Hi) in Ha as [_ ->].
    + by apply NoDup_app in Hnd as (? & _).
    + intros a. rewrite elem_of_concat. split.
      * intros (i & r & Hi & Ha). by apply (Hat i r Hi) in Ha as [? _].
      * intros Ha.
        assert (Hlt : (idx a < length (buckets s.2))%nat).
        { pose proof (node_index_lt hasher (cells s.1) (bucket_count s.2) a) as H.
          fold idx in H. unfold bucket_count in H.
          destruct (buckets s.2) as [|b0 bs0]; [done|]. cbn [length] in *. lia. }
        rewrite <- Hlen in Hlt. apply lookup_lt_is_Some in Hlt as [r Hi].
        exists (idx a), r. split; [done|]. by apply (Hat _ r Hi).
  - by apply NoDup_app in Hnd as (? & _).
  - intros i r a Hi Ha. apply (Hat i r Hi) in Ha as [Ha Hidx].
    destruct (Hv a Ha) as [kv Hkv]. exists kv.1. split.
    + unfold key_at. unfold val in Hkv. destruct (cells s.1 !! a) as [nd|]; [|done].
      simpl in *. by rewrite Hkv.
    + unfold idx, node_index in Hidx. rewrite Hkv in Hidx. lia.
Qed.

End Bridge.

(** ** Lists and maps to run the operations on *)

Section Samples.

Lemma empty_heap_ok : mem_ok (@mkMem N N ∅ 0%nat).
Proof. intros a [n Hn]. cbn [cells] in Hn. by rewrite lookup_empty in Hn. Qed.

(** Pushing the entries of [vs] appends one node for each. *)
Lemma push_all_spec (vs : list (N * N)) :
  forall (s : Sample.lstate) hd tl xs ws,
    is_list s hd tl xs ws ->
    N.of_nat (length xs + length vs) < size_t_modulus ->
    exists s',
      Sample.push_all vs s = Ret tt s' /\
      is_list s' hd tl (xs ++ seq (brk s.1) (length vs)) (ws ++ vs) /\
      brk s'.1 = (brk s.1 + length vs)%nat.
Proof.
  induction vs as [|v vs IH]; intros s hd tl xs ws Hl Hlen.
  { exists s. rewrite !app_nil_r. split; [done|]. split; [done|]. simpl. lia. }
  cbn [length] in Hlen.
  destruct (List_push_back_spec s hd tl xs ws v Hl) as (s1 & Hrun & Hl1 & Hbrk & _); [lia|].
  destruct (IH s1 hd tl _ _ Hl1) as (s' & Hrun' & Hl' & Hbrk').
  { rewrite length_app. cbn [length]. lia. }
  exists s'. split.
  { cbn [Sample.push_all]. by rewrite (bind_run _ _ _ _ _ Hrun). }
  rewrite Hbrk in Hl', Hbrk'. rewrite <- !app_assoc in Hl'. split; [done|].
  cbn [length]. lia.
Qed.

(** The list of [vs] is built on the nodes 2, 3, ... between the
    sentinels 0 and 1. *)
Lemma new_list_spec (vs : list (N * N)) :
  N.of_nat (length vs) < size_t_modulus ->
  exists s,
    Sample.new_list vs = Ret tt s /\
    is_list s 0%nat 1%nat (seq 2 (length vs)) vs /\
    brk s.1 = (2 + length vs)%nat.
Proof.
  intros Hlen.
  destruct (List_ctor_spec (@mkMem N N ∅ 0%nat) empty_heap_ok) as (l & m1 & Hc & Hl & Hbrk & _).
  cbn [brk] in *.
  destruct (push_all_spec vs (m1, l) _ _ _ _ Hl) as (s & Hrun & Hl' & Hbrk'); [simpl; lia|].
  exists s. unfold Sample.new_list. rewrite Hc. split; [done|].
  cbn [fst] in *. rewrite Hbrk in Hl', Hbrk'. done.
Qed.

End Samples.

(** ** Properties of [List] *)

Section ListProperties.
Context {Key Value : Type}.
#[local] Abbreviation Mem := (@Mem Key Value).
#[local] Abbreviation LState := (@LState Key Value).

(** X1. The constructor of [List] allocates the two sentinels and yields an
    empty list: [size()] is 0, [empty()] holds and [begin()] is [end()]. *)
Theorem List_ctor_empty (m0 : Mem) :
  mem_ok m0 ->
  exists l m1,
    List_ctor m0 = Ret l m1 /\
    is_list (m1, l) (brk m0) (S (brk m0)) [] [] /\
    List_size l = 0 /\ List_empty l = true /\
    List_begin (m1, l) = Ret (List_end l) (m1, l) /\
    brk m1 = S (S (brk m0)) /\
    (forall a, a <> brk m0 -> a <> S (brk m0) -> cells m1 !! a = cells m0 !! a).
Proof.
  intros Hok.
  destruct (List_ctor_spec m0 Hok) as (l & m1 & Hrun & Hl & Hbrk & _ & Hfr).
  exists l, m1. pose proof Hl as (Hd & Hsz & _). cbn [fst snd length] in *.
  pose proof Hd as (_ & Htl & _). cbn [snd] in Htl.
  split; [done|]. split; [done|]. split; [done|].
  split; [unfold List_empty; by rewrite Hsz|].
  split; [|done].
  rewrite (List_begin_spec (m1, l) _ _ [] (S (brk m0)) Hd eq_refl).
  unfold List_end. by rewrite Htl.
Qed.

(** X3. [push_back(v)] appends a node with [v] and [push_front(v)] puts one
    in front; the other entries keep their nodes, values and order, and
    nothing outside the list is touched. *)
Theorem List_push_spec (s : LState) hd tl xs vs v :
  is_list s hd tl xs vs ->
  N.of_nat (length xs) + 1 < size_t_modulus ->
  (exists s',
     List_push_back v s = Ret tt s' /\
     is_list s' hd tl (xs ++ [brk s.1]) (vs ++ [v]) /\
     brk s'.1 = S (brk s.1) /\
     (forall a, a ∉ hd :: xs ++ [tl] -> a <> brk s.1 -> cells s'.1 !! a = cells s.1 !! a)) /\
  (exists s',
     List_push_front v s = Ret tt s' /\
     is_list s' hd tl (brk s.1 :: xs) (v :: vs) /\
     brk s'.1 = S (brk s.1) /\
     (forall a, a ∉ hd :: xs ++ [tl] -> a <> brk s.1 -> cells s'.1 !! a = cells s.1 !! a)).
Proof.
  intros Hl Hlen. split.
  - by apply List_push_back_spec.
  - by apply List_push_front_spec.
Qed.

(** X4. On a list that is not empty [pop_front()] removes the first entry
    and [pop_back()] the last one: the node is freed, the other entries
    keep their nodes, values and order. *)
Theorem List_pop_spec (s : LState) hd tl :
  (forall a xs v vs,
     is_list s hd tl (a :: xs) (v :: vs) ->
     exists s',
       List_pop_front s = Ret tt s' /\
       is_list s' hd tl xs vs /\
       cells s'.1 !! a = None /\ brk s'.1 = brk s.1 /\
       (forall b, b ∉ hd :: (a :: xs) ++ [tl] -> cells s'.1 !! b = cells s.1 !! b)) /\
  (forall a xs v vs,
     is_list s hd tl (xs ++ [a]) (vs ++ [v]) ->
     exists s',
       List_pop_back s = Ret tt s' /\
       is_list s' hd tl xs vs /\
       cells s'.1 !! a = None /\ brk s'.1 = brk s.1 /\
       (forall b, b ∉ hd :: (xs ++ [a]) ++ [tl] -> cells s'.1 !! b = cells s.1 !! b)).
Proof.
  split; intros a xs v vs Hl.
  - by apply (List_pop_front_spec s hd tl a xs v vs).
  - by apply (List_pop_back_spec s hd tl a xs v vs).
Qed.

(** X6. [erase(pos)] at an entry removes exactly that entry and frees its
    node, returns the iterator to the entry behind it (the end iterator
    after the last one) and keeps the other entries in their order. *)
Theorem List_erase_entry (s : LState) hd tl A f B va v vb :
  is_list s hd tl (A ++ f :: B) (va ++ v :: vb) ->
  length A = length va ->
  exists s' n,
    List_erase (Some f) s = Ret (Some n) s' /\
    (B ++ [tl]) !! 0%nat = Some n /\
    is_list s' hd tl (A ++ B) (va ++ vb) /\
    cells s'.1 !! f = None /\ brk s'.1 = brk s.1 /\
    (forall a, a ∉ hd :: (A ++ f :: B) ++ [tl] -> cells s'.1 !! a = cells s.1 !! a).
Proof. apply List_erase_is_list. Qed.

(** X8. [clear()] frees every entry node and leaves an empty list on the
    same sentinels; nothing is allocated and no other node is touched. *)
Theorem List_clear_empties (s : LState) hd tl xs vs :
  is_list s hd tl xs vs ->
  exists s',
    List_clear s = Ret tt s' /\
    is_list s' hd tl [] [] /\
    brk s'.1 = brk s.1 /\
    (forall a, a ∈ xs -> cells s'.1 !! a = None) /\
    (forall a, a ∉ hd :: xs ++ [tl] -> cells s'.1 !! a = cells s.1 !! a).
Proof. apply List_clear_spec. Qed.

(** X9. The copy constructor builds, on new nodes, a list with the same
    values in the same order and leaves the source list as it is; the two
    lists share no node. *)
Theorem List_copy_ctor_copies (m : Mem) (other : List) hd tl xs vs :
  is_list (m, other) hd tl xs vs ->
  exists l m' ys,
    List_copy_ctor other m = Ret l m' /\
    is_list (m', l) (brk m) (S (brk m)) ys vs /\
    is_list (m', other) hd tl xs vs /\
    (forall a, a ∈ brk m :: ys ++ [S (brk m)] -> a ∉ hd :: xs ++ [tl]).
Proof. apply List_copy_ctor_spec. Qed.

(** X10. The destructor frees every node of the list, the sentinels
    included, and nothing else; on a moved-from list it does nothing. *)
Theorem List_dtor_frees (s : LState) hd tl xs vs :
  (is_list s hd tl xs vs ->
   exists s',
     List_dtor s = Ret tt s' /\
     (forall a, a ∈ hd :: xs ++ [tl] -> cells s'.1 !! a = None) /\
     (forall a, a ∉ hd :: xs ++ [tl] -> cells s'.1 !! a = cells s.1 !! a) /\
     brk s'.1 = brk s.1) /\
  List_dtor (s.1, mkList None None 0) = Ret tt (s.1, mkList None None 0).
Proof.
  split; [apply List_dtor_spec|done].
Qed.

(** X11. Move assignment frees every node [*this] had, the sentinels
    included, takes over the nodes of [other] and leaves [other] moved
    from. *)
Theorem List_move_assign_takes_over (m : Mem) (l other : List) hd tl xs vs hd' tl' xs' vs' :
  is_list (m, l) hd tl xs vs ->
  is_list (m, other) hd' tl' xs' vs' ->
  (forall a, a ∈ hd :: xs ++ [tl] -> a ∉ hd' :: xs' ++ [tl']) ->
  exists s',
    List_move_assign other (m, l) = Ret (mkList None None 0) s' /\
    is_list s' hd' tl' xs' vs' /\
    (forall a, a ∈ hd :: xs ++ [tl] -> cells s'.1 !! a = None) /\
    (forall a, a ∉ hd :: xs ++ [tl] -> cells s'.1 !! a = cells m !! a).
Proof. apply List_move_assign_spec. Qed.

(** X12. [move_node(from, to)] takes the node [from] out of the list and
    puts it in front of [to]; no node is allocated, freed or given another
    value, and [size()] stays. *)
Theorem List_move_node_relinks (s : LState) hd tl A f B L1 t R1 :
  dll s hd tl (A ++ f :: B) ->
  (A ++ B) ++ [tl] = L1 ++ t :: R1 ->
  exists s' xs',
    List_move_node (Some f) (Some t) s = Ret (Some f) s' /\
    xs' ++ [tl] = L1 ++ f :: t :: R1 /\
    dll s' hd tl xs' /\
    s'.2 = s.2 /\ brk s'.1 = brk s.1 /\
    (forall a, val (cells s'.1) a = val (cells s.1) a).
Proof. apply List_move_node_spec. Qed.

End ListProperties.

(** ** Properties of [UnorderedMap] *)

Section MapProperties.
Context {Key Value : Type}.
Variable hasher : Key -> N.
Variable key_equal : Key -> Key -> bool.
#[local] Abbreviation Mem := (@Mem Key Value).
#[local] Abbreviation MState := (@MState Key Value).

(** X13. [UnorderedMap(n)] with a positive [n] yields an empty map of [n]
    buckets that satisfies the invariant, and on it [find] returns the end
    iterator for every key. *)
Theorem ctor_gives_empty_map (m0 : Mem) (n : N) :
  mem_ok m0 -> 0 < n ->
  exists mp m1,
    UnorderedMap_ctor n m0 = Ret mp m1 /\
    partitioned hasher (m1, mp) (brk m0) (S (brk m0)) [] /\
    bucket_count mp = n /\ map_size mp = 0 /\ map_empty mp = true /\
    (forall k, find hasher key_equal k (m1, mp) = Ret (map_end mp) (m1, mp)).
Proof.
  intros Hok Hn.
  destruct (ctor_partitioned hasher m0 n Hok Hn) as (mp & m1 & Hrun & Hpart & Hbc & _).
  exists mp, m1. split; [done|]. split; [done|]. split; [done|].
  pose proof Hpart as (_ & Hsz & _). cbn [snd length] in Hsz.
  split; [done|]. split; [unfold map_empty, List_empty; by rewrite Hsz|].
  intros k.
  destruct (find_usable hasher key_equal (m1, mp) _ _ [] k (partitioned_usable hasher _ _ _ _ Hpart))
    as (it & Hf & _ & Hend).
  rewrite Hf, Hend; [done|]. intros a kv Ha. by apply elem_of_nil in Ha.
Qed.

(** X14. Under the invariant, with a hash that agrees on equal keys,
    [find(k)] returns an entry whose key is equal to [k] when the map has
    one, and the end iterator exactly when it has none; the map is not
    changed. *)
Theorem find_complete (s : MState) hd tl xs k :
  partitioned hasher s hd tl xs ->
  hash_compatible hasher key_equal ->
  (exists a kv, find hasher key_equal k s = Ret (Some a) s /\
     a ∈ xs /\ val (cells s.1) a = Some kv /\ key_equal kv.1 k = true) \/
  (find hasher key_equal k s = Ret (map_end s.2) s /\
   forall a kv, a ∈ xs -> val (cells s.1) a = Some kv -> key_equal kv.1 k = false).
Proof. apply find_partitioned. Qed.

(** X15. Under the invariant, with a hash that agrees on equal keys,
    [at(k)] returns the value of an entry whose key is equal to [k], and
    throws [std::out_of_range] exactly when no entry has such a key; the
    map is not changed. *)
Theorem at_returns_or_throws (s : MState) hd tl xs k :
  partitioned hasher s hd tl xs ->
  hash_compatible hasher key_equal ->
  (exists a kv, at_ hasher key_equal k s = Ret kv.2 s /\
     a ∈ xs /\ val (cells s.1) a = Some kv /\ key_equal kv.1 k = true) \/
  (at_ hasher key_equal k s = Throw out_of_range s /\
   forall a kv, a ∈ xs -> val (cells s.1) a = Some kv -> key_equal kv.1 k = false).
Proof. apply at_partitioned. Qed.

(** X16. On a map that satisfies the invariant and is not due for a rehash,
    [insert(v)] keeps the invariant and the bucket count.  It returns
    [false] with the iterator that [find] gives, and changes nothing, when
    an entry has a key equal to [v.first]; otherwise it returns [true] and
    adds one entry, which holds [v], without touching the others. *)
Theorem insert_keeps_partition (s : MState) hd tl xs v :
  partitioned hasher s hd tl xs ->
  hash_compatible hasher key_equal ->
  exact_as_double (map_size s.2) ->
  load_factor_exceeds s.2 = false ->
  exists r s' xs',
    insert hasher key_equal v s = Ret r s' /\
    partitioned hasher s' hd tl xs' /\
    bucket_count s'.2 = bucket_count s.2 /\
    ((r.2 = false /\ s' = s /\ xs' = xs /\
      find hasher key_equal v.1 s = Ret r.1 s /\
      exists a kv, r.1 = Some a /\ a ∈ xs /\ val (cells s.1) a = Some kv /\
                   key_equal kv.1 v.1 = true) \/
     (r.2 = true /\ r.1 = Some (brk s.1) /\ xs' ≡ₚ brk s.1 :: xs /\
      val (cells s'.1) (brk s.1) = Some v /\
      (forall a, a <> brk s.1 -> val (cells s'.1) a = val (cells s.1) a) /\
      forall a kv, a ∈ xs -> val (cells s.1) a = Some kv -> key_equal kv.1 v.1 = false)).
Proof.
  intros Hpart Hcompat Hex Hlf.
  assert (Hwrap : N.of_nat (length xs) + 1 < size_t_modulus).
  { destruct Hpart as (_ & Hsz & _). by apply (exact_size_bound (elements s.2)). }
  destruct (insert_partitioned hasher key_equal s hd tl xs v Hpart Hcompat Hlf Hwrap)
    as (r & s' & xs' & Hrun & Hpart' & Hlen & Hcase).
  exists r, s', xs'. split; [done|]. split; [done|]. split; [|done].
  unfold bucket_count. by rewrite Hlen.
Qed.

(** X21. On a usable map, whether or not the buckets still partition the
    list, [find(k)] returns without changing the map, and what it returns
    is the end iterator or an entry whose key is equal to [k]; it returns
    the end iterator when no entry has such a key. *)
Theorem find_sound (s : MState) hd tl xs k :
  usable hasher s hd tl xs ->
  exists it,
    find hasher key_equal k s = Ret it s /\
    (it = map_end s.2 \/
     exists a kv, it = Some a /\ a ∈ xs /\ val (cells s.1) a = Some kv /\
                  key_equal kv.1 k = true) /\
    ((forall a kv, a ∈ xs -> val (cells s.1) a = Some kv -> key_equal kv.1 k = false) ->
     it = map_end s.2).
Proof. apply find_usable. Qed.

(** X22. [rehash(n)] on a usable map returns and leaves a usable map with
    the same entries and values: no node is allocated or freed, [size()]
    stays, and the bucket count is the larger of [n] and [size()]. *)
Theorem rehash_keeps_entries (s : MState) hd tl xs (n : N) :
  usable hasher s hd tl xs ->
  exact_as_double (map_size s.2) ->
  0 < N.max n (map_size s.2) ->
  exists s' xs',
    rehash hasher n s = Ret tt s' /\
    usable hasher s' hd tl xs' /\ xs' ≡ₚ xs /\
    elements s'.2 = elements s.2 /\ brk s'.1 = brk s.1 /\
    (forall a, val (cells s'.1) a = val (cells s.1) a) /\
    bucket_count s'.2 = N.max n (map_size s.2).
Proof.
  intros Hu _ Hpos. pose proof Hu as (Hd & Hsz & _).
  destruct (rehash_usable hasher s hd tl xs n Hd Hsz Hpos)
    as (s' & xs' & Hrun & Hu' & Hperm & Hel & Hbrk & Hval); [by left|].
  exists s', xs'. split; [done|]. split; [done|]. split; [done|]. split; [done|].
  split; [done|]. split; [done|]. by apply (rehash_shape hasher) in Hrun as [_ ?].
Qed.

(** X26. [insert(v)] on a usable map returns, rehashing first when the load
    factor is above 1, and never loses an entry: it returns [false] and
    keeps the entries as they are, or it returns [true] and adds one entry
    that holds [v]; it adds one when no entry has a key equal to
    [v.first]. *)
Theorem insert_never_loses (s : MState) hd tl xs v :
  usable hasher s hd tl xs ->
  exact_as_double (map_size s.2) ->
  exists r s' xs',
    insert hasher key_equal v s = Ret r s' /\
    usable hasher s' hd tl xs' /\
    bucket_count s'.2 = grown (bucket_count s.2) (map_size s.2) /\
    (r.2 = false -> xs' ≡ₚ xs /\ forall a, val (cells s'.1) a = val (cells s.1) a) /\
    (r.2 = true ->
       exists f, r.1 = Some f /\ f ∉ xs /\ xs' ≡ₚ f :: xs /\
       val (cells s'.1) f = Some v /\
       (forall a, a <> f -> val (cells s'.1) a = val (cells s.1) a)) /\
    ((forall a kv, a ∈ xs -> val (cells s.1) a = Some kv -> key_equal kv.1 v.1 = false) ->
     r.2 = true).
Proof.
  intros Hu Hex. apply insert_usable; [done|].
  destruct Hu as (_ & Hsz & _). by apply (exact_size_bound (elements s.2)).
Qed.

End MapProperties.

(** ** Properties of [StackAllocator] *)

(** X27. A successful [StackAllocator::allocate] returns a block that is
    aligned, starts less than [alignof(T)] bytes behind the old
    [current_pos] and lies in the array, and it moves [current_pos] to the
    end of the block. *)
Theorem allocate_returns_block (sizeof_T alignof_T n : N) (st st' : StackStorage) (p : N) :
  storage_ok st -> power_of_two alignof_T -> sizeof_T * n < size_t_modulus ->
  StackAllocator_allocate sizeof_T alignof_T n st = Some (p, st') ->
  p mod alignof_T = 0 /\
  current_pos st <= p < current_pos st + alignof_T /\
  current_pos st' = p + sizeof_T * n /\
  data st' = data st /\ capacity st' = capacity st /\
  storage_ok st'.
Proof.
  intros Hok Hal%power_of_two_pos Hsize Hrun. by apply (allocate_block sizeof_T alignof_T n st).
Qed.

(** ** The properties on a list of three entries *)

Section ListExamples.

(** The list of three entries: the nodes 2, 3 and 4 between the sentinels
    0 and 1. *)
Lemma three_entries :
  exists s,
    Sample.new_list [(1, 10); (2, 20); (3, 30)] = Ret tt s /\
    is_list s 0%nat 1%nat [2; 3; 4]%nat [(1, 10); (2, 20); (3, 30)] /\
    brk s.1 = 5%nat.
Proof.
  destruct (new_list_spec [(1, 10); (2, 20); (3, 30)]) as (s & Hrun & Hl & Hbrk);
    [vm_compute; reflexivity|].
  exists s. split; [exact Hrun|]. split; [exact Hl|exact Hbrk].
Qed.

End ListExamples.

(** The constructor in an empty heap. *)
Lemma List_ctor_empty_witness :
  exists l m1,
    @List_ctor N N (mkMem ∅ 0%nat) = Ret l m1 /\
    is_list (m1, l) 0%nat 1%nat [] [] /\
    List_begin (m1, l) = Ret (List_end l) (m1, l).
Proof.
  destruct (List_ctor_empty (mkMem ∅ 0%nat) empty_heap_ok)
    as (l & m1 & H1 & H2 & _ & _ & H3 & _).
  exists l, m1. split; [exact H1|]. split; [exact H2|exact H3].
Defined.

(** [insert] in front of the second of three entries. *)
Lemma List_insert_spec_witness :
  exists s s',
    Sample.new_list [(1, 10); (2, 20); (3, 30)] = Ret tt s /\
    is_list s 0%nat 1%nat [2; 3; 4]%nat [(1, 10); (2, 20); (3, 30)] /\
    List_insert (Some 3%nat) (9, 90) s = Ret (Some 5%nat) s' /\
    is_list s' 0%nat 1%nat [2; 5; 3; 4]%nat [(1, 10); (9, 90); (2, 20); (3, 30)].
Proof.
  destruct three_entries as (s & Hrun & Hl & Hbrk).
  destruct (List_insert_spec s 0%nat 1%nat [2%nat] [3; 4]%nat [(1, 10)] [(2, 20); (3, 30)]
              3%nat (9, 90) Hl eq_refl eq_refl) as (s' & Hins & Hl' & _);
    [vm_compute; reflexivity|].
  rewrite Hbrk in Hins, Hl'.
  exists s, s'. split; [exact Hrun|]. split; [exact Hl|]. split; [exact Hins|exact Hl'].
Defined.

(** [push_back] and [push_front] on the list of three entries. *)
Lemma List_push_spec_witness :
  exists s s1 s2,
    Sample.new_list [(1, 10); (2, 20); (3, 30)] = Ret tt s /\
    is_list s 0%nat 1%nat [2; 3; 4]%nat [(1, 10); (2, 20); (3, 30)] /\
    List_push_back (4, 40) s = Ret tt s1 /\
    is_list s1 0%nat 1%nat [2; 3; 4; 5]%nat [(1, 10); (2, 20); (3, 30); (4, 40)] /\
    List_push_front (4, 40) s = Ret tt s2 /\
    is_list s2 0%nat 1%nat [5; 2; 3; 4]%nat [(4, 40); (1, 10); (2, 20); (3, 30)].
Proof.
  destruct three_entries as (s & Hrun & Hl & Hbrk).
  destruct (List_push_spec s 0%nat 1%nat _ _ (4, 40) Hl)
    as [(s1 & Hb & Hl1 & _) (s2 & Hf & Hl2 & _)]; [vm_compute; reflexivity|].
  rewrite Hbrk in Hl1, Hl2.
  exists s, s1, s2. split; [exact Hrun|]. split; [exact Hl|].
  split; [exact Hb|]. split; [exact Hl1|]. split; [exact Hf|exact Hl2].
Defined.

(** [pop_front] and [pop_back] on the list of three entries. *)
Lemma List_pop_spec_witness :
  exists s s1 s2,
    Sample.new_list [(1, 10); (2, 20); (3, 30)] = Ret tt s /\
    is_list s 0%nat 1%nat [2; 3; 4]%nat [(1, 10); (2, 20); (3, 30)] /\
    List_pop_front s = Ret tt s1 /\
    is_list s1 0%nat 1%nat [3; 4]%nat [(2, 20); (3, 30)] /\
    List_pop_back s = Ret tt s2 /\
    is_list s2 0%nat 1%nat [2; 3]%nat [(1, 10); (2, 20)].
Proof.
  destruct three_entries as (s & Hrun & Hl & Hbrk).
  destruct (List_pop_spec s 0%nat 1%nat) as [Hfront Hback].
  destruct (Hfront 2%nat [3; 4]%nat (1, 10) [(2, 20); (3, 30)] Hl) as (s1 & Hf & Hl1 & _).
  destruct (Hback 4%nat [2; 3]%nat (3, 30) [(1, 10); (2, 20)] Hl) as (s2 & Hb & Hl2 & _).
  exists s, s1, s2. split; [exact Hrun|]. split; [exact Hl|].
  split; [exact Hf|]. split; [exact Hl1|]. split; [exact Hb|exact Hl2].
Defined.

(** [pop_front] and [pop_back] on a new list. *)
Lemma List_pop_empty_witness :
  exists s,
    Sample.new_list [] = Ret tt s /\
    is_list s 0%nat 1%nat [] [] /\
    prv (cells s.1) 0%nat = None /\
    List_pop_front s = Ret tt s /\
    List_pop_back s = Undefined UninitRead.
Proof.
  destruct (new_list_spec []) as (s & Hrun & Hl & _); [vm_compute; reflexivity|].
  assert (Hp : prv (cells s.1) 0%nat = None).
  { vm_compute in Hrun. injection Hrun as <-. vm_compute; reflexivity. }
  destruct (List_pop_empty s 0%nat 1%nat Hl Hp) as [Hf Hb].
  exists s. split; [exact Hrun|]. split; [exact Hl|]. split; [exact Hp|].
  split; [exact Hf|exact Hb].
Defined.

(** [erase] at the second of three entries. *)
Lemma List_erase_entry_witness :
  exists s s',
    Sample.new_list [(1, 10); (2, 20); (3, 30)] = Ret tt s /\
    is_list s 0%nat 1%nat [2; 3; 4]%nat [(1, 10); (2, 20); (3, 30)] /\
    List_erase (Some 3%nat) s = Ret (Some 4%nat) s' /\
    is_list s' 0%nat 1%nat [2; 4]%nat [(1, 10); (3, 30)] /\
    cells s'.1 !! 3%nat = None.
Proof.
  destruct three_entries as (s & Hrun & Hl & Hbrk).
  destruct (List_erase_entry s 0%nat 1%nat [2%nat] 3%nat [4%nat] [(1, 10)] (2, 20) [(3, 30)]
              Hl eq_refl) as (s' & n & He & Hn & Hl' & Hfree & _).
  simpl in Hn. injection Hn as <-.
  exists s, s'. split; [exact Hrun|]. split; [exact Hl|].
  split; [exact He|]. split; [exact Hl'|exact Hfree].
Defined.

(** [erase] from the second entry to the end. *)
Lemma List_erase_range_spec_witness :
  exists s s',
    Sample.new_list [(1, 10); (2, 20); (3, 30)] = Ret tt s /\
    is_list s 0%nat 1%nat [2; 3; 4]%nat [(1, 10); (2, 20); (3, 30)] /\
    List_erase_range (Some 3%nat) (Some 1%nat) s = Ret (Some 1%nat) s' /\
    is_list s' 0%nat 1%nat [2%nat] [(1, 10)].
Proof.
  destruct three_entries as (s & Hrun & Hl & Hbrk).
  destruct (List_erase_range_spec s 0%nat 1%nat [2%nat] [3; 4]%nat [] [(1, 10)]
              [(2, 20); (3, 30)] [] 3%nat 1%nat Hl eq_refl eq_refl eq_refl eq_refl)
    as (s' & He & Hl' & _).
  exists s, s'. split; [exact Hrun|]. split; [exact Hl|]. split; [exact He|exact Hl'].
Defined.

(** [clear] on the list of three entries. *)
Lemma List_clear_empties_witness :
  exists s s',
    Sample.new_list [(1, 10); (2, 20); (3, 30)] = Ret tt s /\
    is_list s 0%nat 1%nat [2; 3; 4]%nat [(1, 10); (2, 20); (3, 30)] /\
    List_clear s = Ret tt s' /\
    is_list s' 0%nat 1%nat [] [].
Proof.
  destruct three_entries as (s & Hrun & Hl & Hbrk).
  destruct (List_clear_empties s 0%nat 1%nat _ _ Hl) as (s' & Hc & Hl' & _).
  exists s, s'. split; [exact Hrun|]. split; [exact Hl|]. split; [exact Hc|exact Hl'].
Defined.

(** A copy of the list of three entries. *)
Lemma List_copy_ctor_copies_witness :
  exists s l m' ys,
    Sample.new_list [(1, 10); (2, 20); (3, 30)] = Ret tt s /\
    is_list s 0%nat 1%nat [2; 3; 4]%nat [(1, 10); (2, 20); (3, 30)] /\
    List_copy_ctor s.2 s.1 = Ret l m' /\
    is_list (m', l) 5%nat 6%nat ys [(1, 10); (2, 20); (3, 30)] /\
    is_list (m', s.2) 0%nat 1%nat [2; 3; 4]%nat [(1, 10); (2, 20); (3, 30)].
Proof.
  destruct three_entries as (s & Hrun & Hl & Hbrk). destruct s as [m l0]. cbn [fst snd] in *.
  destruct (List_copy_ctor_copies m l0 0%nat 1%nat _ _ Hl) as (l & m' & ys & Hc & Hnew & Hold & _).
  rewrite Hbrk in Hnew.
  exists (m, l0), l, m', ys. split; [exact Hrun|]. split; [exact Hl|].
  split; [exact Hc|]. split; [exact Hnew|exact Hold].
Defined.

(** The destructor on the list of three entries. *)
Lemma List_dtor_frees_witness :
  exists s s',
    Sample.new_list [(1, 10); (2, 20); (3, 30)] = Ret tt s /\
    is_list s 0%nat 1%nat [2; 3; 4]%nat [(1, 10); (2, 20); (3, 30)] /\
    List_dtor s = Ret tt s' /\
    (forall a, a ∈ [0; 2; 3; 4; 1]%nat -> cells s'.1 !! a = None).
Proof.
  destruct three_entries as (s & Hrun & Hl & Hbrk).
  destruct (proj1 (List_dtor_frees s 0%nat 1%nat _ _) Hl) as (s' & Hd & Hfree & _).
  exists s, s'. split; [exact Hrun|]. split; [exact Hl|]. split; [exact Hd|exact Hfree].
Defined.

(** A copy of the list of three entries is assigned the original. *)
Lemma List_move_assign_takes_over_witness :
  exists s l m' ys s',
    Sample.new_list [(1, 10); (2, 20); (3, 30)] = Ret tt s /\
    List_copy_ctor s.2 s.1 = Ret l m' /\
    is_list (m', l) 5%nat 6%nat ys [(1, 10); (2, 20); (3, 30)] /\
    is_list (m', s.2) 0%nat 1%nat [2; 3; 4]%nat [(1, 10); (2, 20); (3, 30)] /\
    List_move_assign s.2 (m', l) = Ret (mkList None None 0) s' /\
    is_list s' 0%nat 1%nat [2; 3; 4]%nat [(1, 10); (2, 20); (3, 30)] /\
    (forall a, a ∈ 5%nat :: ys ++ [6%nat] -> cells s'.1 !! a = None).
Proof.
  destruct three_entries as (s & Hrun & Hl & Hbrk). destruct s as [m l0]. cbn [fst snd] in *.
  destruct (List_copy_ctor_spec m l0 0%nat 1%nat _ _ Hl) as (l & m' & ys & Hc & Hnew & Hold & Hdis).
  rewrite Hbrk in Hnew, Hdis.
  destruct (List_move_assign_takes_over m' l l0 _ _ _ _ _ _ _ _ Hnew Hold Hdis)
    as (s' & Hmv & Hl' & Hfree & _).
  exists (m, l0), l, m', ys, s'. split; [exact Hrun|]. split; [exact Hc|].
  split; [exact Hnew|]. split; [exact Hold|]. split; [exact Hmv|]. split; [exact Hl'|exact Hfree].
Defined.

(** [move_node] puts the second of three entries in front of the first. *)
Lemma List_move_node_relinks_witness :
  exists s s' xs',
    Sample.new_list [(1, 10); (2, 20); (3, 30)] = Ret tt s /\
    dll s 0%nat 1%nat [2; 3; 4]%nat /\
    List_move_node (Some 3%nat) (Some 2%nat) s = Ret (Some 3%nat) s' /\
    xs' = [3; 2; 4]%nat /\
    dll s' 0%nat 1%nat xs'.
Proof.
  destruct three_entries as (s & Hrun & (Hd & _) & Hbrk).
  destruct (List_move_node_relinks s 0%nat 1%nat [2%nat] 3%nat [4%nat] [] 2%nat [4; 1]%nat
              Hd eq_refl) as (s' & xs' & Hmv & Hxs & Hd' & _).
  exists s, s', xs'. split; [exact Hrun|]. split; [exact Hd|]. split; [exact Hmv|].
  split; [|exact Hd'].
  change ([3; 2; 4; 1]%nat) with ([3; 2; 4]%nat ++ [1%nat]) in Hxs.
  apply app_inj_tail in Hxs as [Hxs _]. exact Hxs.
Defined.

(** ** The properties on a map of three entries *)

Section MapExamples.

(** The identity hash agrees on equal numbers. *)
Lemma hash_id_compatible : hash_compatible Scenario.hash_id N.eqb.
Proof. intros k1 k2 H%N.eqb_eq. by subst. Qed.

(** Equality of numbers is an equivalence. *)
Lemma eqb_equivalence : key_equivalence N.eqb.
Proof.
  split; [intros k; apply N.eqb_refl|]. split.
  - intros k1 k2 H%N.eqb_eq. subst. apply N.eqb_refl.
  - intros k1 k2 k3 H1%N.eqb_eq H2%N.eqb_eq. subst. apply N.eqb_refl.
Qed.

(** A new map filled with a range that needs no rehash satisfies the
    invariant and models the range. *)
Lemma new_map_spec (n : N) (vs : list (N * N)) :
  0 < n -> N.of_nat (length vs) <= n + 1 -> N.of_nat (length vs) < size_t_modulus ->
  exists s xs,
    Sample.new_map n vs = Ret tt s /\
    partitioned Scenario.hash_id s 0%nat 1%nat xs /\
    models N.eqb s xs vs /\
    bucket_count s.2 = n /\
    (length xs <= length vs)%nat.
Proof.
  intros Hn Hlen Hmod.
  destruct (ctor_partitioned Scenario.hash_id (@mkMem N N ∅ 0%nat) n empty_heap_ok Hn)
    as (mp & m1 & Hctor & Hpart & Hbc & _).
  cbn [brk] in Hpart.
  destruct (insert_range_models Scenario.hash_id N.eqb vs hash_id_compatible eqb_equivalence
              (m1, mp) _ _ [] [] Hpart) as (s & xs & Hrun & Hpart' & Hmod' & Hbc' & Hlen').
  { split; [intros ? ? Ha; by apply elem_of_nil in Ha|intros ? Hv; by apply elem_of_nil in Hv]. }
  { cbn [length fst snd]. rewrite Hbc. lia. }
  { cbn [length]. lia. }
  exists s, xs. unfold Sample.new_map, Scenario.on_new_map. rewrite Hctor.
  split; [exact Hrun|]. split; [exact Hpart'|]. split; [exact Hmod'|].
  split; [by rewrite Hbc'|exact Hlen'].
Qed.

(** The map of four buckets with the keys 1, 6 and 5, of which 1 and 5
    share a bucket. *)
Lemma three_keys :
  exists s xs,
    Sample.new_map 4 [(1, 10); (6, 60); (5, 50)] = Ret tt s /\
    partitioned Scenario.hash_id s 0%nat 1%nat xs /\
    models N.eqb s xs [(1, 10); (6, 60); (5, 50)] /\
    bucket_count s.2 = 4 /\
    exact_as_double (map_size s.2) /\
    load_factor_exceeds s.2 = false /\
    N.of_nat (length xs) < size_t_modulus /\
    xs <> [].
Proof.
  destruct (new_map_spec 4 [(1, 10); (6, 60); (5, 50)]) as (s & xs & Hrun & Hpart & Hmod & Hbc & Hlen);
    [vm_compute; reflexivity|vm_compute; congruence|vm_compute; reflexivity|].
  exists s, xs. cbn [length] in Hlen.
  pose proof Hpart as (_ & Hsz & _).
  assert (Hsmall : size_ (elements s.2) <= 3) by lia.
  split; [exact Hrun|]. split; [exact Hpart|]. split; [exact Hmod|]. split; [exact Hbc|].
  split.
  { unfold exact_as_double, map_size, List_size.
    assert (3 < 2 ^ 53) by (vm_compute; reflexivity). lia. }
  split.
  { unfold load_factor_exceeds, map_size, List_size. rewrite Hbc. apply N.ltb_ge. lia. }
  split.
  { assert (3 < size_t_modulus) by (vm_compute; reflexivity). lia. }
  intros ->. destruct Hmod as [_ Hall].
  destruct (Hall (1, 10)) as (a & kv & Ha & _); [by left|]. by apply elem_of_nil in Ha.
Qed.

End MapExamples.

(** A new map of four buckets. *)
Lemma ctor_gives_empty_map_witness :
  exists mp m1,
    @UnorderedMap_ctor N N 4 (mkMem ∅ 0%nat) = Ret mp m1 /\
    partitioned Scenario.hash_id (m1, mp) 0%nat 1%nat [] /\
    bucket_count mp = 4 /\
    Scenario.find 7 (m1, mp) = Ret (map_end mp) (m1, mp).
Proof.
  destruct (ctor_gives_empty_map Scenario.hash_id N.eqb (mkMem ∅ 0%nat) 4 empty_heap_ok)
    as (mp & m1 & Hrun & Hpart & Hbc & _ & _ & Hfind); [vm_compute; reflexivity|].
  exists mp, m1. split; [exact Hrun|]. split; [exact Hpart|]. split; [exact Hbc|exact (Hfind 7)].
Defined.

(** [find(5)] on the map of three keys. *)
Lemma find_complete_witness :
  exists s xs,
    Sample.new_map 4 [(1, 10); (6, 60); (5, 50)] = Ret tt s /\
    partitioned Scenario.hash_id s 0%nat 1%nat xs /\
    ((exists a kv, Scenario.find 5 s = Ret (Some a) s /\
        a ∈ xs /\ val (cells s.1) a = Some kv /\ (kv.1 =? 5) = true) \/
     (Scenario.find 5 s = Ret (map_end s.2) s /\
      forall a kv, a ∈ xs -> val (cells s.1) a = Some kv -> (kv.1 =? 5) = false)).
Proof.
  destruct three_keys as (s & xs & Hrun & Hpart & _).
  exists s, xs. split; [exact Hrun|]. split; [exact Hpart|].
  exact (find_complete Scenario.hash_id N.eqb s _ _ xs 5 Hpart hash_id_compatible).
Defined.

(** [at(9)] on the map of three keys. *)
Lemma at_returns_or_throws_witness :
  exists s xs,
    Sample.new_map 4 [(1, 10); (6, 60); (5, 50)] = Ret tt s /\
    partitioned Scenario.hash_id s 0%nat 1%nat xs /\
    ((exists a kv, Scenario.at_ 9 s = Ret kv.2 s /\
        a ∈ xs /\ val (cells s.1) a = Some kv /\ (kv.1 =? 9) = true) \/
     (Scenario.at_ 9 s = Throw out_of_range s /\
      forall a kv, a ∈ xs -> val (cells s.1) a = Some kv -> (kv.1 =? 9) = false)).
Proof.
  destruct three_keys as (s & xs & Hrun & Hpart & _).
  exists s, xs. split; [exact Hrun|]. split; [exact Hpart|].
  exact (at_returns_or_throws Scenario.hash_id N.eqb s _ _ xs 9 Hpart hash_id_compatible).
Defined.

(** [insert] of a fourth key into the map of three keys. *)
Lemma insert_keeps_partition_witness :
  exists s xs r s' xs',
    Sample.new_map 4 [(1, 10); (6, 60); (5, 50)] = Ret tt s /\
    partitioned Scenario.hash_id s 0%nat 1%nat xs /\
    exact_as_double (map_size s.2) /\
    load_factor_exceeds s.2 = false /\
    Scenario.insert (9, 90) s = Ret r s' /\
    partitioned Scenario.hash_id s' 0%nat 1%nat xs' /\
    bucket_count s'.2 = bucket_count s.2.
Proof.
  destruct three_keys as (s & xs & Hrun & Hpart & _ & _ & Hex & Hlf & _).
  destruct (insert_keeps_partition Scenario.hash_id N.eqb s _ _ xs (9, 90) Hpart
              hash_id_compatible Hex Hlf) as (r & s' & xs' & Hins & Hpart' & Hbc & _).
  exists s, xs, r, s', xs'. split; [exact Hrun|]. split; [exact Hpart|]. split; [exact Hex|].
  split; [exact Hlf|]. split; [exact Hins|]. split; [exact Hpart'|exact Hbc].
Defined.


(** Four pairs, two of them with the key 1, in a new map of four buckets. *)
Lemma new_map_models_range_witness :
  exists mp m1 s',
    @UnorderedMap_ctor N N 4 (mkMem ∅ 0%nat) = Ret mp m1 /\
    insert_range Scenario.hash_id N.eqb [(1, 10); (6, 60); (5, 50); (1, 11)] (m1, mp)
      = Ret tt s' /\
    bucket_count s'.2 = 4 /\
    Scenario.at_ 1 s' = Ret 10 s' /\
    Scenario.at_ 5 s' = Ret 50 s' /\
    Scenario.at_ 9 s' = Throw out_of_range s'.
Proof.
  destruct (new_map_models_range Scenario.hash_id N.eqb (mkMem ∅ 0%nat) 4
              [(1, 10); (6, 60); (5, 50); (1, 11)] empty_heap_ok)
    as (mp & m1 & s' & Hctor & Hrun & Hbc & Hat);
    [vm_compute; reflexivity|exact hash_id_compatible|exact eqb_equivalence
    |vm_compute; congruence|vm_compute; reflexivity|].
  exists mp, m1, s'. split; [exact Hctor|]. split; [exact Hrun|]. split; [exact Hbc|].
  split; [exact (Hat 1)|]. split; [exact (Hat 5)|exact (Hat 9)].
Defined.

(** [clear] on the map of three keys. *)
Lemma clear_partitioned_witness :
  exists s xs s',
    Sample.new_map 4 [(1, 10); (6, 60); (5, 50)] = Ret tt s /\
    dll (s.1, elements s.2) 0%nat 1%nat xs /\
    clear s = Ret tt s' /\
    partitioned Scenario.hash_id s' 0%nat 1%nat [] /\
    bucket_count s'.2 = 4 /\
    (forall a, a ∈ xs -> cells s'.1 !! a = None).
Proof.
  destruct three_keys as (s & xs & Hrun & Hpart & _ & Hbc & _ & _ & Hlen & _).
  pose proof Hpart as (Hd & Hsz & Hne & _).
  destruct (clear_partitioned Scenario.hash_id s _ _ xs Hd Hsz Hlen Hne)
    as (s' & Hclr & Hpart' & Hbc' & _ & Hfree & _).
  exists s, xs, s'. split; [exact Hrun|]. split; [exact Hd|]. split; [exact Hclr|].
  split; [exact Hpart'|]. split; [|exact Hfree].
  exact (eq_trans Hbc' Hbc).
Defined.

(** [erase] at the first entry of the map of three keys. *)
Lemma erase_entry_witness :
  exists s f B s' n,
    Sample.new_map 4 [(1, 10); (6, 60); (5, 50)] = Ret tt s /\
    usable Scenario.hash_id s 0%nat 1%nat ([] ++ f :: B) /\
    Scenario.erase (Some f) s = Ret (Some n) s' /\
    dll (s'.1, elements s'.2) 0%nat 1%nat ([] ++ B) /\
    cells s'.1 !! f = None.
Proof.
  destruct three_keys as (s & xs & Hrun & Hpart & _ & _ & _ & _ & Hlen & Hne).
  destruct xs as [|f B]; [exact (False_ind _ (Hne eq_refl))|].
  pose proof (partitioned_usable Scenario.hash_id s _ _ _ Hpart) as Hu.
  destruct (erase_entry Scenario.hash_id s 0%nat 1%nat [] f B Hu Hlen)
    as (s' & n & Her & _ & Hd & _ & _ & Hfree & _).
  exists s, f, B, s', n. split; [exact Hrun|]. split; [exact Hu|]. split; [exact Her|].
  split; [exact Hd|exact Hfree].
Defined.

(** [find(5)] on the map of three keys, taken as a usable map. *)
Lemma find_sound_witness :
  exists s xs it,
    Sample.new_map 4 [(1, 10); (6, 60); (5, 50)] = Ret tt s /\
    usable Scenario.hash_id s 0%nat 1%nat xs /\
    Scenario.find 5 s = Ret it s /\
    (it = map_end s.2 \/
     exists a kv, it = Some a /\ a ∈ xs /\ val (cells s.1) a = Some kv /\ (kv.1 =? 5) = true).
Proof.
  destruct three_keys as (s & xs & Hrun & Hpart & _).
  pose proof (partitioned_usable Scenario.hash_id s _ _ _ Hpart) as Hu.
  destruct (find_sound Scenario.hash_id N.eqb s _ _ xs 5 Hu) as (it & Hf & Hit & _).
  exists s, xs, it. split; [exact Hrun|]. split; [exact Hu|]. split; [exact Hf|exact Hit].
Defined.

(** [rehash(8)] on the map of three keys. *)
Lemma rehash_keeps_entries_witness :
  exists s xs s' xs',
    Sample.new_map 4 [(1, 10); (6, 60); (5, 50)] = Ret tt s /\
    usable Scenario.hash_id s 0%nat 1%nat xs /\
    exact_as_double (map_size s.2) /\
    Scenario.rehash 8 s = Ret tt s' /\
    usable Scenario.hash_id s' 0%nat 1%nat xs' /\ xs' ≡ₚ xs /\
    bucket_count s'.2 = N.max 8 (map_size s.2).
Proof.
  destruct three_keys as (s & xs & Hrun & Hpart & _ & _ & Hex & _).
  pose proof (partitioned_usable Scenario.hash_id s _ _ _ Hpart) as Hu.
  destruct (rehash_keeps_entries Scenario.hash_id s _ _ xs 8 Hu Hex)
    as (s' & xs' & Hre & Hu' & Hperm & _ & _ & _ & Hbc); [lia|].
  exists s, xs, s', xs'. split; [exact Hrun|]. split; [exact Hu|]. split; [exact Hex|].
  split; [exact Hre|]. split; [exact Hu'|]. split; [exact Hperm|exact Hbc].
Defined.

(** [reserve(8)] on the map of three keys. *)
Lemma reserve_usable_witness :
  exists s xs s' xs',
    Sample.new_map 4 [(1, 10); (6, 60); (5, 50)] = Ret tt s /\
    usable Scenario.hash_id s 0%nat 1%nat xs /\
    reserve Scenario.hash_id 8 s = Ret tt s' /\
    usable Scenario.hash_id s' 0%nat 1%nat xs' /\ xs' ≡ₚ xs /\
    bucket_count s'.2 = (if bucket_count s.2 <? 8 then N.max 8 (map_size s.2)
                         else bucket_count s.2).
Proof.
  destruct three_keys as (s & xs & Hrun & Hpart & _ & _ & Hex & _).
  pose proof (partitioned_usable Scenario.hash_id s _ _ _ Hpart) as Hu.
  destruct (reserve_usable Scenario.hash_id s _ _ xs 8 Hu) as
    (s' & xs' & Hre & Hu' & Hperm & _ & _ & _ & Hbc); [vm_compute; reflexivity|exact Hex|].
  exists s, xs, s', xs'. split; [exact Hrun|]. split; [exact Hu|].
  split; [exact Hre|]. split; [exact Hu'|]. split; [exact Hperm|exact Hbc].
Defined.

(** [rehash(0)] on a new map of four buckets. *)
Lemma rehash_zero_empty_witness :
  exists s s',
    Sample.new_map 4 [] = Ret tt s /\
    usable Scenario.hash_id s 0%nat 1%nat [] /\
    Scenario.rehash 0 s = Ret tt s' /\
    bucket_count s'.2 = 0 /\
    Scenario.find 7 s' = Undefined OutOfBounds.
Proof.
  destruct (new_map_spec 4 []) as (s & xs & Hrun & Hpart & _ & _ & Hlen);
    [vm_compute; reflexivity|vm_compute; congruence|vm_compute; reflexivity|].
  destruct xs as [|x xs]; [|exact (False_ind _ (Nat.nle_succ_0 _ Hlen))].
  pose proof (partitioned_usable Scenario.hash_id s _ _ _ Hpart) as Hu.
  destruct (rehash_zero_empty Scenario.hash_id N.eqb s _ _ 7 Hu) as (s' & Hre & Hbc & Hf).
  exists s, s'. split; [exact Hrun|]. split; [exact Hu|]. split; [exact Hre|].
  split; [exact Hbc|exact Hf].
Defined.

(** [insert] of a key that the map of three keys has. *)
Lemma insert_never_loses_witness :
  exists s xs r s' xs',
    Sample.new_map 4 [(1, 10); (6, 60); (5, 50)] = Ret tt s /\
    usable Scenario.hash_id s 0%nat 1%nat xs /\
    exact_as_double (map_size s.2) /\
    Scenario.insert (5, 55) s = Ret r s' /\
    usable Scenario.hash_id s' 0%nat 1%nat xs' /\
    (r.2 = false -> xs' ≡ₚ xs /\ forall a, val (cells s'.1) a = val (cells s.1) a).
Proof.
  destruct three_keys as (s & xs & Hrun & Hpart & _ & _ & Hex & _).
  pose proof (partitioned_usable Scenario.hash_id s _ _ _ Hpart) as Hu.
  destruct (insert_never_loses Scenario.hash_id N.eqb s _ _ xs (5, 55) Hu Hex)
    as (r & s' & xs' & Hins & Hu' & _ & Hfalse & _).
  exists s, xs, r, s', xs'. split; [exact Hrun|]. split; [exact Hu|]. split; [exact Hex|].
  split; [exact Hins|]. split; [exact Hu'|exact Hfalse].
Defined.

(** A new map is assigned the map of three keys. *)
Lemma move_assign_spec_witness :
  exists s xs mp m s',
    Sample.new_map 4 [(1, 10); (6, 60); (5, 50)] = Ret tt s /\
    UnorderedMap_ctor 4 s.1 = Ret mp m /\
    dll (m, elements mp) (brk s.1) (S (brk s.1)) [] /\
    partitioned Scenario.hash_id (m, s.2) 0%nat 1%nat xs /\
    UnorderedMap_move_assign s.2 (m, mp) = Ret (mkMap (mkList None None 0) []) s' /\
    s'.2 = s.2 /\
    partitioned Scenario.hash_id s' 0%nat 1%nat xs /\
    cells s'.1 !! brk s.1 = None /\ cells s'.1 !! S (brk s.1) = None.
Proof.
  destruct three_keys as (s & xs & Hrun & Hpart & _ & _ & _ & _ & Hlen & _).
  destruct s as [m1 mp1]. cbn [fst snd] in *.
  pose proof Hpart as (Hd1 & _).
  pose proof Hd1 as (_ & _ & _ & _ & _ & Hb1). cbn [fst] in Hb1.
  destruct (ctor_partitioned Scenario.hash_id m1 4 Hb1) as (mp & m & Hctor & Hnew & _ & Hfr);
    [vm_compute; reflexivity|].
  pose proof Hnew as (Hd & Hsz & _). cbn [fst snd] in Hd, Hsz.
  assert (Hfresh : forall a, a ∈ 0%nat :: xs ++ [1%nat] -> a <> brk m1 /\ a <> S (brk m1)).
  { intros a Ha. pose proof (dll_live _ _ _ _ a Hd1 Ha) as Hl. apply Hb1 in Hl. lia. }
  assert (Hold : partitioned Scenario.hash_id (m, mp1) 0%nat 1%nat xs).
  { apply (partitioned_frame Scenario.hash_id m1); [exact Hpart|exact Hlen| |].
    - intros a Ha. destruct (Hfresh a Ha) as [H1 H2]. exact (Hfr a H1 H2).
    - destruct Hd as (_ & _ & _ & _ & _ & Hb). exact Hb. }
  assert (Hdisj : forall a, a ∈ brk m1 :: [] ++ [S (brk m1)] -> a ∉ 0%nat :: xs ++ [1%nat]).
  { intros a Ha Hin. destruct (Hfresh a Hin) as [H1 H2].
    apply elem_of_cons in Ha as [Ha|Ha]; [exact (H1 Ha)|].
    apply list_elem_of_singleton in Ha. exact (H2 Ha). }
  assert (Hzero : N.of_nat (length (@nil addr)) < size_t_modulus) by (vm_compute; reflexivity).
  destruct (move_assign_spec Scenario.hash_id m mp mp1 _ _ [] 0%nat 1%nat xs Hd Hsz Hzero
              Hold Hlen Hdisj) as (s' & Hmv & Hs2 & Hpart' & Hfree & _).
  exists (m1, mp1), xs, mp, m, s'. cbn [fst snd].
  split; [exact Hrun|]. split; [exact Hctor|]. split; [exact Hd|]. split; [exact Hold|].
  split; [exact Hmv|]. split; [exact Hs2|]. split; [exact Hpart'|].
  split; apply Hfree; [left|right; left].
Defined.

(** Two objects of 8 bytes from a storage of 64 bytes with 3 bytes in use. *)
Lemma allocate_returns_block_witness :
  storage_ok Sample.storage /\
  StackAllocator_allocate 8 8 2 Sample.storage = Some (4104, mkStorage 4096 64 4120) /\
  4104 mod 8 = 0 /\
  storage_ok (mkStorage 4096 64 4120).
Proof.
  assert (Hok : storage_ok Sample.storage).
  { split; [split|]; [vm_compute; congruence|vm_compute; congruence|vm_compute; reflexivity]. }
  assert (Hrun : StackAllocator_allocate 8 8 2 Sample.storage
                 = Some (4104, mkStorage 4096 64 4120)) by (vm_compute; reflexivity).
  destruct (allocate_returns_block 8 8 2 Sample.storage (mkStorage 4096 64 4120) 4104 Hok)
    as (Hmod & _ & _ & _ & _ & Hok');
    [exists 3; reflexivity|vm_compute; reflexivity|exact Hrun|].
  split; [exact Hok|]. split; [exact Hrun|]. split; [exact Hmod|exact Hok'].
Defined.

(** Eight objects of 8 bytes do not fit into the 61 bytes left; a request
    for 2^61 + 2 objects of 8 bytes, whose size wraps to 16 bytes, does not
    throw. *)
Lemma allocate_fails_iff_witness :
  storage_ok Sample.storage /\
  StackAllocator_allocate 8 8 8 Sample.storage = None /\
  8 * (2 ^ 61 + 2) >= size_t_modulus /\
  StackAllocator_allocate 8 8 (2 ^ 61 + 2) Sample.storage <> None.
Proof.
  assert (Hok : storage_ok Sample.storage).
  { split; [split|]; [vm_compute; congruence|vm_compute; congruence|vm_compute; reflexivity]. }
  assert (Hal : power_of_two 8) by (exists 3; reflexivity).
  split; [exact Hok|]. split; [|split].
  - apply (proj2 (allocate_fails_iff 8 8 8 Sample.storage Hok Hal));
      vm_compute; reflexivity.
  - vm_compute; congruence.
  - intros H. apply (proj1 (allocate_fails_iff 8 8 (2 ^ 61 + 2) Sample.storage Hok Hal)) in H.
    vm_compute in H. discriminate H.
Defined.

(** Two allocations with a deallocation in between; the second asks for
    2^61 + 3 objects of 8 bytes and is handed the 24 bytes the size wraps
    to. *)
Lemma allocate_never_reuses_witness :
  storage_ok Sample.storage /\
  StackAllocator_allocate 8 8 2 Sample.storage = Some (4104, mkStorage 4096 64 4120) /\
  StackAllocator_allocate 8 8 3
    (StackAllocator_deallocate 4104 2 (mkStorage 4096 64 4120))
    = Some (4120, mkStorage 4096 64 4144) /\
  4104 + 8 * 2 <= 4120 /\ 4120 + 8 * 3 <= 4096 + 64 /\
  StackAllocator_allocate 8 8 (2 ^ 61 + 3)
    (StackAllocator_deallocate 4104 2 (mkStorage 4096 64 4120))
    = Some (4120, mkStorage 4096 64 4144) /\
  4104 + wrap (8 * 2) <= 4120 /\ 4120 + wrap (8 * (2 ^ 61 + 3)) <= 4096 + 64.
Proof.
  assert (Hok : storage_ok Sample.storage).
  { split; [split|]; [vm_compute; congruence|vm_compute; congruence|vm_compute; reflexivity]. }
  assert (Hal : power_of_two 8) by (exists 3; reflexivity).
  assert (H1 : StackAllocator_allocate 8 8 2 Sample.storage
               = Some (4104, mkStorage 4096 64 4120)) by (vm_compute; reflexivity).
  assert (H2 : StackAllocator_allocate 8 8 3
                 (StackAllocator_deallocate 4104 2 (mkStorage 4096 64 4120))
               = Some (4120, mkStorage 4096 64 4144)) by (vm_compute; reflexivity).
  assert (H3 : StackAllocator_allocate 8 8 (2 ^ 61 + 3)
                 (StackAllocator_deallocate 4104 2 (mkStorage 4096 64 4120))
               = Some (4120, mkStorage 4096 64 4144)) by (vm_compute; reflexivity).
  split; [exact Hok|]. split; [exact H1|]. split; [exact H2|].
  split; [|split; [|split; [exact H3|]]].
  - apply (proj2 (allocate_never_reuses 8 8 2 3 Sample.storage (mkStorage 4096 64 4120)
                    (mkStorage 4096 64 4144) 4104 4120 Hok Hal H1 H2));
      vm_compute; reflexivity.
  - apply (proj2 (allocate_never_reuses 8 8 2 3 Sample.storage (mkStorage 4096 64 4120)
                    (mkStorage 4096 64 4144) 4104 4120 Hok Hal H1 H2));
      vm_compute; reflexivity.
  - exact (proj1 (allocate_never_reuses 8 8 2 (2 ^ 61 + 3) Sample.storage
                    (mkStorage 4096 64 4120) (mkStorage 4096 64 4144) 4104 4120
                    Hok Hal H1 H3)).
Defined.

(** The map of three keys satisfies both invariants. *)
Lemma partitioned_invariant_witness :
  exists s xs,
    Sample.new_map 4 [(1, 10); (6, 60); (5, 50)] = Ret tt s /\
    partitioned Scenario.hash_id s 0%nat 1%nat xs /\
    Scenario.invariant s.
Proof.
  destruct three_keys as (s & xs & Hrun & Hpart & _).
  exists s, xs. split; [exact Hrun|]. split; [exact Hpart|].
  exact (partitioned_invariant Scenario.hash_id s _ _ xs Hpart).
Defined.
